(** * TBtree: the timed B-tree of pkg/tbtree/tbtree.go

    The Go code builds its tree out of heap objects: node structs reached
    through pointers, and slices that are windows on backing arrays.  The
    embedding keeps that shape.  A [heap] holds the node structs and the
    backing arrays, every function of the source is a computation in a small
    state monad over the heap, and a run-time panic (index out of range, nil
    dereference) is an outcome of its own. *)

From Stdlib Require Import ZArith NArith List Lia Bool.
From Stdlib.Strings Require Import Byte.
From stdpp Require Import base list gmap.

Local Open Scope Z_scope.

(** ** Go values *)

(** [[]byte]: [None] is the nil slice, [Some []] an empty non-nil one. *)
Definition bytes := option (list byte).

Definition data (b : bytes) : list byte := default [] b.

(** [len(b)] *)
Definition len (b : bytes) : Z := Z.of_nat (length (data b)).

(** Go's [int] is a signed 64-bit integer; [+] and [-] wrap around. *)
Definition int_wrap (z : Z) : Z := (z + 2 ^ 63) mod 2 ^ 64 - 2 ^ 63.
Definition int_add (a b : Z) : Z := int_wrap (a + b).
Definition int_sub (a b : Z) : Z := int_wrap (a - b).

(** [uint64]: [x++] wraps at 2^64. *)
Definition uint64_incr (x : N) : N := ((x + 1) mod 2 ^ 64)%N.

(** [bytes.Compare]: lexicographic order on the unsigned byte values,
    result -1, 0 or 1; a nil slice compares as an empty one. *)
Fixpoint compare_list (a b : list byte) : Z :=
  match a, b with
  | [], [] => 0
  | [], _ :: _ => -1
  | _ :: _, [] => 1
  | x :: a', y :: b' =>
      if (Byte.to_N x <? Byte.to_N y)%N then -1
      else if (Byte.to_N y <? Byte.to_N x)%N then 1
      else compare_list a' b'
  end.

Definition bytes_Compare (a b : bytes) : Z := compare_list (data a) (data b).

#[global] Instance byte_eq_decision : EqDecision byte := byte_eq_dec.

(** [bytes.Equal] *)
Definition bytes_Equal (a b : bytes) : bool := bool_decide (data a = data b).

Inductive error :=
| ErrIllegalArgument
| ErrKeyNotFound
| ErrIllegalState
| ErrAlreadyClosed
| ErrSnapshotsNotClosed.

Definition MinNodeSize : Z := 64.
Definition DefaultMaxNodeSize : Z := 4096.
Definition DefaultInsertionCountThreshold : N := 100000%N.

(** ** Heap objects *)

(** A heap address: the index of the object in its part of the heap. *)
Abbreviation loc := nat (only parsing).

(** A slice value: backing array, offset of its first element in the array,
    length, and the room left after the last element; the capacity is their
    sum, so that [len(s) <= cap(s)] holds of every slice value. *)
Record slice := Slice { s_arr : loc; s_off : nat; s_len : nat; s_spare : nat }.

(** [cap(s)] *)
Definition s_cap (s : slice) : nat := (s_len s + s_spare s)%nat.

(** The zero value of a slice type. *)
Definition nil_slice : slice := Slice 0%nat 0%nat 0%nat 0%nat.

Definition slice_len (s : slice) : Z := Z.of_nat (s_len s).

(** The [node] interface: nil, or a pointer to a [leafNode] or an
    [innerNode]; the dynamic type is read off the object in the heap. *)
Definition node := option loc.

Record leafValue := mkLeafValue {
  lv_key : bytes;
  lv_ts : N;
  lv_prevTs : N;
  lv_value : bytes
}.

Record childRef := mkChildRef {
  cr_key : bytes;
  cr_cts : N;
  cr_node : node
}.

Record leafNode := mkLeafNode {
  l_prevNode : node;
  l_values : slice;
  l_cts : N;
  l_csize : Z;
  l_maxSize : Z;
  l_offset : N
}.

Record innerNode := mkInnerNode {
  n_prevNode : node;
  n_nodes : slice;
  n_cts : N;
  n_csize : Z;
  n_maxSize : Z;
  n_offset : N
}.

Inductive nodeObj :=
| LeafNode (l : leafNode)
| InnerNode (n : innerNode).

(** Backing arrays hold pointers ([*leafValue], [*childRef]); [None] is the
    nil pointer that [make] fills a new array with.  No statement of the
    source assigns to a field of a [leafValue] or of a [childRef] after the
    composite literal that creates it, so the pointee is kept in the cell. *)
Abbreviation store A := (list (list (option A))) (only parsing).

Record heap := mkHeap {
  h_nodes : list nodeObj;
  h_leafValues : store leafValue;
  h_childRefs : store childRef
}.

Definition empty_heap : heap := mkHeap [] [] [].

(** ** Outcomes and the heap monad *)

Inductive res (A : Type) :=
| Val (a : A)
| Panic
| OutOfFuel.
Arguments Val {A} a.
Arguments Panic {A}.
Arguments OutOfFuel {A}.

Definition M (A : Type) := heap -> res (A * heap).

Definition ret {A} (a : A) : M A := fun h => Val (a, h).

Definition bind {A B} (m : M A) (f : A -> M B) : M B :=
  fun h => match m h with
           | Val (a, h') => f a h'
           | Panic => Panic
           | OutOfFuel => OutOfFuel
           end.

Definition panic {A} : M A := fun _ => Panic.

(** A partial pure step: [None] is a run-time panic. *)
Definition lift {A} (o : option A) : M A :=
  match o with Some a => ret a | None => panic end.

Notation "'do' x <- m ; k" := (bind m (fun x => k))
  (at level 10, x name, m at level 100, k at level 200).
Notation "'do' ' p <- m ; k" := (bind m (fun x => match x with p => k end))
  (at level 10, p pattern, m at level 100, k at level 200).
Notation "m ;; k" := (bind m (fun _ => k))
  (at level 100, k at level 200, right associativity).

(** ** Slices over a store of backing arrays *)

Section Slices.
Context {A : Type}.
Implicit Types (st : store A) (s : slice).

(** The elements a slice shows.  A slice of length 0 (the nil slice among
    them) shows nothing; any other slice must lie within its backing
    array, as every slice of a Go program does. *)
Definition store_elems st s : option (list (option A)) :=
  if decide (s_len s = 0%nat) then Some []
  else a ← st !! s_arr s;
       if decide (s_off s + s_len s <= length a)%nat
       then Some (take (s_len s) (drop (s_off s) a))
       else None.

(** [make([]*T, n)]: a new array of [n] nil pointers. *)
Definition store_make st (n : Z) : option (slice * store A) :=
  if 0 <=? n
  then Some (Slice (length st) 0 (Z.to_nat n) 0,
             st ++ [replicate (Z.to_nat n) None])
  else None.

(** [s[i]] *)
Definition store_index st s (i : Z) : option (option A) :=
  if (0 <=? i) && (i <? slice_len s)
  then a ← st !! s_arr s; a !! (s_off s + Z.to_nat i)%nat
  else None.

(** [s[i] = x] *)
Definition store_assign st s (i : Z) (x : option A) : option (store A) :=
  if (0 <=? i) && (i <? slice_len s)
  then a ← st !! s_arr s;
       if decide (s_off s + Z.to_nat i < length a)%nat
       then Some (<[s_arr s := <[(s_off s + Z.to_nat i)%nat := x]> a]> st)
       else None
  else None.

(** [s[lo:]]: in range for [0 <= lo <= len(s)]. *)
Definition slice_from s (lo : Z) : option slice :=
  if (0 <=? lo) && (lo <=? slice_len s)
  then Some (Slice (s_arr s) (s_off s + Z.to_nat lo)%nat
                   (s_len s - Z.to_nat lo)%nat (s_spare s))
  else None.

(** [s[:hi]]: in range for [0 <= hi <= cap(s)]. *)
Definition slice_to s (hi : Z) : option slice :=
  if (0 <=? hi) && (hi <=? Z.of_nat (s_cap s))
  then Some (Slice (s_arr s) (s_off s) (Z.to_nat hi) (s_cap s - Z.to_nat hi)%nat)
  else None.

(** [copy(dst, src)]: the first [min(len(dst), len(src))] elements of
    [src] overwrite the head of [dst]; the source is read before the
    destination is written. *)
Definition store_copy st (dst src : slice) : option (store A) :=
  let n := Nat.min (s_len dst) (s_len src) in
  if decide (n = 0%nat) then Some st
  else xs ← store_elems st src;
       a ← st !! s_arr dst;
       if decide (s_off dst + s_len dst <= length a)%nat
       then Some (<[s_arr dst :=
                      take (s_off dst) a ++ take n xs ++ drop (s_off dst + n)%nat a]> st)
       else None.
End Slices.

(** ** Heap primitives *)

(** [&T{...}] for a node struct. *)
Definition alloc_node (o : nodeObj) : M loc := fun h =>
  Val (length (h_nodes h),
       mkHeap (h_nodes h ++ [o]) (h_leafValues h) (h_childRefs h)).

(** Reading through the [node] interface. *)
Definition load_node (p : node) : M nodeObj := fun h =>
  match p with
  | Some l => match h_nodes h !! l with Some o => Val (o, h) | None => Panic end
  | None => Panic
  end.

(** Reading through a [*leafNode] or an [*innerNode]. *)
Definition load_leaf (l : loc) : M leafNode := fun h =>
  match h_nodes h !! l with Some (LeafNode ln) => Val (ln, h) | _ => Panic end.

Definition load_inner (n : loc) : M innerNode := fun h =>
  match h_nodes h !! n with Some (InnerNode nd) => Val (nd, h) | _ => Panic end.

Definition store_node (l : loc) (o : nodeObj) : M unit := fun h =>
  if decide (l < length (h_nodes h))%nat
  then Val (tt, mkHeap (<[l := o]> (h_nodes h)) (h_leafValues h) (h_childRefs h))
  else Panic.

(** Field assignments [l.f = x] and [n.f = x]. *)
Definition update_leaf (l : loc) (f : leafNode -> leafNode) : M unit :=
  do ln <- load_leaf l; store_node l (LeafNode (f ln)).

Definition update_inner (n : loc) (f : innerNode -> innerNode) : M unit :=
  do nd <- load_inner n; store_node n (InnerNode (f nd)).

Definition set_l_values (x : slice) (l : leafNode) : leafNode :=
  mkLeafNode (l_prevNode l) x (l_cts l) (l_csize l) (l_maxSize l) (l_offset l).
Definition set_l_cts (x : N) (l : leafNode) : leafNode :=
  mkLeafNode (l_prevNode l) (l_values l) x (l_csize l) (l_maxSize l) (l_offset l).
Definition set_l_csize (x : Z) (l : leafNode) : leafNode :=
  mkLeafNode (l_prevNode l) (l_values l) (l_cts l) x (l_maxSize l) (l_offset l).

Definition set_n_nodes (x : slice) (n : innerNode) : innerNode :=
  mkInnerNode (n_prevNode n) x (n_cts n) (n_csize n) (n_maxSize n) (n_offset n).
Definition set_n_cts (x : N) (n : innerNode) : innerNode :=
  mkInnerNode (n_prevNode n) (n_nodes n) x (n_csize n) (n_maxSize n) (n_offset n).
Definition set_n_csize (x : Z) (n : innerNode) : innerNode :=
  mkInnerNode (n_prevNode n) (n_nodes n) (n_cts n) x (n_maxSize n) (n_offset n).

(** The slice operations on the two kinds of backing arrays. *)
Definition make_leafValues (n : Z) : M slice := fun h =>
  match store_make (h_leafValues h) n with
  | Some (s, st) => Val (s, mkHeap (h_nodes h) st (h_childRefs h))
  | None => Panic
  end.

Definition make_childRefs (n : Z) : M slice := fun h =>
  match store_make (h_childRefs h) n with
  | Some (s, st) => Val (s, mkHeap (h_nodes h) (h_leafValues h) st)
  | None => Panic
  end.

Definition leafValues_of (s : slice) : M (list (option leafValue)) := fun h =>
  match store_elems (h_leafValues h) s with
  | Some vs => Val (vs, h)
  | None => Panic
  end.

Definition childRefs_of (s : slice) : M (list (option childRef)) := fun h =>
  match store_elems (h_childRefs h) s with
  | Some cs => Val (cs, h)
  | None => Panic
  end.

(** [*s[i]]: index, then follow the pointer. *)
Definition index_leafValues (s : slice) (i : Z) : M leafValue := fun h =>
  match store_index (h_leafValues h) s i with
  | Some (Some v) => Val (v, h)
  | _ => Panic
  end.

Definition index_childRefs (s : slice) (i : Z) : M childRef := fun h =>
  match store_index (h_childRefs h) s i with
  | Some (Some c) => Val (c, h)
  | _ => Panic
  end.

Definition assign_leafValues (s : slice) (i : Z) (v : leafValue) : M unit := fun h =>
  match store_assign (h_leafValues h) s i (Some v) with
  | Some st => Val (tt, mkHeap (h_nodes h) st (h_childRefs h))
  | None => Panic
  end.

Definition assign_childRefs (s : slice) (i : Z) (c : childRef) : M unit := fun h =>
  match store_assign (h_childRefs h) s i (Some c) with
  | Some st => Val (tt, mkHeap (h_nodes h) (h_leafValues h) st)
  | None => Panic
  end.

Definition copy_leafValues (dst src : slice) : M unit := fun h =>
  match store_copy (h_leafValues h) dst src with
  | Some st => Val (tt, mkHeap (h_nodes h) st (h_childRefs h))
  | None => Panic
  end.

Definition copy_childRefs (dst src : slice) : M unit := fun h =>
  match store_copy (h_childRefs h) dst src with
  | Some st => Val (tt, mkHeap (h_nodes h) (h_leafValues h) st)
  | None => Panic
  end.

(** ** leafValue and leafNode *)

(** [func (lv *leafValue) size() int] *)
Definition leafValue_size (lv : leafValue) : Z :=
  int_add (int_add 16 (len (lv_key lv))) (len (lv_value lv)).

(** The loop of [leafNode.indexOf] from index [i] on; after the last element
    [i] is [len(l.values)]. *)
Fixpoint leafNode_indexOf_loop (vs : list (option leafValue)) (key : bytes) (i : Z)
  : option (Z * bool) :=
  match vs with
  | [] => Some (i, false)
  | None :: _ => None
  | Some v :: vs' =>
      if bytes_Equal (lv_key v) key then Some (i, true)
      else if bytes_Compare (lv_key v) key =? 1 then Some (i, false)
      else leafNode_indexOf_loop vs' key (i + 1)
  end.

Definition leafNode_indexOf (l : loc) (key : bytes) : M (Z * bool) :=
  do ln <- load_leaf l;
  do vs <- leafValues_of (l_values ln);
  lift (leafNode_indexOf_loop vs key 0).

Definition leafNode_maxKey (l : loc) : M bytes :=
  do ln <- load_leaf l;
  do v <- index_leafValues (l_values ln) (slice_len (l_values ln) - 1);
  ret (lv_key v).

Definition leafNode_ts (l : loc) : M N :=
  do ln <- load_leaf l; ret (l_cts ln).

(** The loop of [leafNode.updateTs]; [cts] is the running [l.cts]. *)
Fixpoint leafNode_updateTs_loop (vs : list (option leafValue)) (cts : N) : option N :=
  match vs with
  | [] => Some cts
  | None :: _ => None
  | Some v :: vs' =>
      leafNode_updateTs_loop vs' (if (cts <? lv_ts v)%N then lv_ts v else cts)
  end.

Definition leafNode_updateTs (l : loc) : M unit :=
  update_leaf l (set_l_cts 0%N);;
  do ln <- load_leaf l;
  do vs <- leafValues_of (l_values ln);
  do cts <- lift (leafNode_updateTs_loop vs (l_cts ln));
  update_leaf l (set_l_cts cts).

(** The loop of [leafNode.splitInfo] from index [i] on, with the current
    values of the named results. *)
Fixpoint leafNode_splitInfo_loop (vs : list (option leafValue)) (maxSize : Z)
    (i splitIndex splitSize : Z) : option (Z * Z) :=
  match vs with
  | [] => Some (splitIndex, splitSize)
  | None :: _ => None
  | Some v :: vs' =>
      if int_add splitSize (leafValue_size v) >? maxSize then Some (i, splitSize)
      else leafNode_splitInfo_loop vs' maxSize (i + 1) i
             (int_add splitSize (leafValue_size v))
  end.

Definition leafNode_splitInfo (l : loc) : M (Z * Z) :=
  do ln <- load_leaf l;
  do vs <- leafValues_of (l_values ln);
  lift (leafNode_splitInfo_loop vs (l_maxSize ln) 0 0 0).

Definition leafNode_split (l : loc) : M (node * option error) :=
  do ln <- load_leaf l;
  if l_csize ln <=? l_maxSize ln then ret (None, None)
  else
    do '(splitIndex, splitSize) <- leafNode_splitInfo l;
    do right <- lift (slice_from (l_values ln) splitIndex);
    do newLeaf <- alloc_node (LeafNode
      (mkLeafNode None right 0%N (int_sub (l_csize ln) splitSize) (l_maxSize ln) 0%N));
    leafNode_updateTs newLeaf;;
    do left <- lift (slice_to (l_values ln) splitIndex);
    update_leaf l (set_l_values left);;
    update_leaf l (set_l_csize splitSize);;
    leafNode_updateTs l;;
    ret (Some newLeaf, None).

Definition leafNode_insertAt (l : loc) (key value : bytes) (ts : N)
  : M (node * node * option error) :=
  do ln <- load_leaf l;
  do '(i, found) <- leafNode_indexOf l key;
  if (found : bool) then
    do vals <- make_leafValues (slice_len (l_values ln));
    do newLeaf <- alloc_node (LeafNode
      (mkLeafNode (Some l) vals ts (l_csize ln) (l_maxSize ln) 0%N));
    do d <- lift (slice_to vals i);
    do s <- lift (slice_to (l_values ln) i);
    copy_leafValues d s;;
    do old <- index_leafValues (l_values ln) i;
    assign_leafValues vals i (mkLeafValue key ts (lv_ts old) value);;
    (if i + 1 <? slice_len vals then
       do d <- lift (slice_from vals (i + 1));
       do s <- lift (slice_from (l_values ln) (i + 1));
       copy_leafValues d s
     else ret tt);;
    ret (Some newLeaf, None, None)
  else
    let lv := mkLeafValue key ts 0%N value in
    do vals <- make_leafValues (slice_len (l_values ln) + 1);
    do newLeaf <- alloc_node (LeafNode
      (mkLeafNode (Some l) vals ts (int_add (l_csize ln) (leafValue_size lv))
                  (l_maxSize ln) 0%N));
    do d <- lift (slice_to vals i);
    do s <- lift (slice_to (l_values ln) i);
    copy_leafValues d s;;
    assign_leafValues vals i lv;;
    (if i + 1 <? slice_len vals then
       do d <- lift (slice_from vals (i + 1));
       do s <- lift (slice_from (l_values ln) i);
       copy_leafValues d s
     else ret tt);;
    do '(n2, err) <- leafNode_split newLeaf;
    ret (Some newLeaf, n2, err).

Definition leafNode_get (l : loc) (key : bytes) : M (bytes * N * option error) :=
  do ln <- load_leaf l;
  do '(i, found) <- leafNode_indexOf l key;
  if negb found then ret (None, 0%N, Some ErrKeyNotFound)
  else
    do leafValue <- index_leafValues (l_values ln) i;
    ret (lv_value leafValue, lv_ts leafValue, None).

(** ** innerNode *)

(** The loop of [innerNode.indexOf] from index [i] on; [n] is
    [len(n.nodes)]. *)
Fixpoint innerNode_indexOf_loop (cs : list (option childRef)) (key : bytes) (i n : Z)
  : option Z :=
  match cs with
  | [] => Some (n - 1)
  | None :: _ => None
  | Some c :: cs' =>
      if bytes_Compare key (cr_key c) <? 1 then Some i
      else innerNode_indexOf_loop cs' key (i + 1) n
  end.

Definition innerNode_indexOf (n : loc) (key : bytes) : M Z :=
  do nd <- load_inner n;
  do cs <- childRefs_of (n_nodes nd);
  lift (innerNode_indexOf_loop cs key 0 (slice_len (n_nodes nd))).

Definition innerNode_ts (n : loc) : M N :=
  do nd <- load_inner n; ret (n_cts nd).

Definition innerNode_maxKey (n : loc) : M bytes :=
  do nd <- load_inner n;
  do c <- index_childRefs (n_nodes nd) (slice_len (n_nodes nd) - 1);
  ret (cr_key c).

(** The loop of [innerNode.updateSize]; [csize] is the running [n.csize]. *)
Fixpoint innerNode_updateSize_loop (cs : list (option childRef)) (csize : Z) : option Z :=
  match cs with
  | [] => Some csize
  | None :: _ => None
  | Some c :: cs' => innerNode_updateSize_loop cs' (int_add csize (len (cr_key c)))
  end.

Definition innerNode_updateSize (n : loc) : M unit :=
  update_inner n (set_n_csize 0);;
  do nd <- load_inner n;
  do cs <- childRefs_of (n_nodes nd);
  do csize <- lift (innerNode_updateSize_loop cs (n_csize nd));
  update_inner n (set_n_csize csize).

Fixpoint innerNode_updateTs_loop (cs : list (option childRef)) (cts : N) : option N :=
  match cs with
  | [] => Some cts
  | None :: _ => None
  | Some c :: cs' =>
      innerNode_updateTs_loop cs' (if (cts <? cr_cts c)%N then cr_cts c else cts)
  end.

Definition innerNode_updateTs (n : loc) : M unit :=
  update_inner n (set_n_cts 0%N);;
  do nd <- load_inner n;
  do cs <- childRefs_of (n_nodes nd);
  do cts <- lift (innerNode_updateTs_loop cs (n_cts nd));
  update_inner n (set_n_cts cts).

Fixpoint innerNode_splitInfo_loop (cs : list (option childRef)) (maxSize : Z)
    (i splitIndex splitSize : Z) : option (Z * Z) :=
  match cs with
  | [] => Some (splitIndex, splitSize)
  | None :: _ => None
  | Some c :: cs' =>
      if int_add splitSize (len (cr_key c)) >? maxSize then Some (i, splitSize)
      else innerNode_splitInfo_loop cs' maxSize (i + 1) i
             (int_add splitSize (len (cr_key c)))
  end.

Definition innerNode_splitInfo (n : loc) : M (Z * Z) :=
  do nd <- load_inner n;
  do cs <- childRefs_of (n_nodes nd);
  lift (innerNode_splitInfo_loop cs (n_maxSize nd) 0 0 0).

Definition innerNode_split (n : loc) : M (node * option error) :=
  do nd <- load_inner n;
  if n_csize nd <=? n_maxSize nd then ret (None, None)
  else
    do '(splitIndex, splitSize) <- innerNode_splitInfo n;
    do right <- lift (slice_from (n_nodes nd) splitIndex);
    do newNode <- alloc_node (InnerNode
      (mkInnerNode None right 0%N (int_sub (n_csize nd) splitSize) (n_maxSize nd) 0%N));
    innerNode_updateTs newNode;;
    do left <- lift (slice_to (n_nodes nd) splitIndex);
    update_inner n (set_n_nodes left);;
    update_inner n (set_n_csize splitSize);;
    innerNode_updateTs n;;
    ret (Some newNode, None).

(** ** Calls through the [node] interface *)

Definition node_ts (p : node) : M N :=
  do o <- load_node p;
  match p, o with
  | Some l, LeafNode _ => leafNode_ts l
  | Some n, InnerNode _ => innerNode_ts n
  | None, _ => panic
  end.

Definition node_maxKey (p : node) : M bytes :=
  do o <- load_node p;
  match p, o with
  | Some l, LeafNode _ => leafNode_maxKey l
  | Some n, InnerNode _ => innerNode_maxKey n
  | None, _ => panic
  end.

Definition out_of_fuel {A} : M A := fun _ => OutOfFuel.

(** The branch [c2 == nil] of [innerNode.insertAt] (the child returned one
    node): a copy of [n] whose reference at [insertAt] is to [c1]. *)
Definition innerNode_insertAt_one (n : loc) (nd : innerNode) (insertAt : Z)
    (c1 : node) (ts : N) : M (node * node * option error) :=
  do nodes <- make_childRefs (slice_len (n_nodes nd));
  do newNode <- alloc_node (InnerNode
    (mkInnerNode (Some n) nodes ts 0 (n_maxSize nd) 0%N));
  do d <- lift (slice_to nodes insertAt);
  do s <- lift (slice_to (n_nodes nd) insertAt);
  copy_childRefs d s;;
  do k1 <- node_maxKey c1;
  do t1 <- node_ts c1;
  assign_childRefs nodes insertAt (mkChildRef k1 t1 c1);;
  (if insertAt + 1 <? slice_len nodes then
     do d <- lift (slice_from nodes (insertAt + 1));
     do s <- lift (slice_from (n_nodes nd) (insertAt + 1));
     copy_childRefs d s
   else ret tt);;
  innerNode_updateSize newNode;;
  ret (Some newNode, None, None).

(** The rest of [innerNode.insertAt] (the child returned two nodes): a
    copy of [n], one reference longer, with [c1] at [insertAt] and [c2]
    after it, then split. *)
Definition innerNode_insertAt_two (n : loc) (nd : innerNode) (insertAt : Z)
    (c1 c2 : node) (ts : N) : M (node * node * option error) :=
  do nodes <- make_childRefs (slice_len (n_nodes nd) + 1);
  do newNode <- alloc_node (InnerNode
    (mkInnerNode (Some n) nodes ts 0 (n_maxSize nd) 0%N));
  do d <- lift (slice_to nodes insertAt);
  do s <- lift (slice_to (n_nodes nd) insertAt);
  copy_childRefs d s;;
  do k1 <- node_maxKey c1;
  do t1 <- node_ts c1;
  assign_childRefs nodes insertAt (mkChildRef k1 t1 c1);;
  do k2 <- node_maxKey c2;
  do t2 <- node_ts c2;
  assign_childRefs nodes (insertAt + 1) (mkChildRef k2 t2 c2);;
  (if insertAt + 2 <? slice_len nodes then
     do d <- lift (slice_from nodes (insertAt + 2));
     do s <- lift (slice_from (n_nodes nd) (insertAt + 1));
     copy_childRefs d s
   else ret tt);;
  innerNode_updateSize newNode;;
  do '(n2, err) <- innerNode_split newNode;
  ret (Some newNode, n2, err).

(** [innerNode.insertAt]; [insertAt_child] is the call
    [cRef.node.insertAt(key, value, ts)] through the interface. *)
Definition innerNode_insertAt
    (insertAt_child : node -> bytes -> bytes -> N -> M (node * node * option error))
    (n : loc) (key value : bytes) (ts : N) : M (node * node * option error) :=
  do nd <- load_inner n;
  do insertAt <- innerNode_indexOf n key;
  do cRef <- index_childRefs (n_nodes nd) insertAt;
  do '(c1, c2, err) <- insertAt_child (cr_node cRef) key value ts;
  match err with
  | Some e => ret (None, None, Some e)
  | None =>
      match c2 with
      | None => innerNode_insertAt_one n nd insertAt c1 ts
      | Some _ => innerNode_insertAt_two n nd insertAt c1 c2 ts
      end
  end.

(** [insertAt] through the interface; [fuel] bounds the depth of the
    descent. *)
Fixpoint node_insertAt (fuel : nat) (p : node) (key value : bytes) (ts : N)
  : M (node * node * option error) :=
  match fuel with
  | O => out_of_fuel
  | S fuel' =>
      do o <- load_node p;
      match p, o with
      | Some l, LeafNode _ => leafNode_insertAt l key value ts
      | Some n, InnerNode _ => innerNode_insertAt (node_insertAt fuel') n key value ts
      | None, _ => panic
      end
  end.

(** [innerNode.get]; [get_child] is the call [n.nodes[i].node.get(key)]. *)
Definition innerNode_get (get_child : node -> bytes -> M (bytes * N * option error))
    (n : loc) (key : bytes) : M (bytes * N * option error) :=
  do nd <- load_inner n;
  do i <- innerNode_indexOf n key;
  do c <- index_childRefs (n_nodes nd) i;
  if bytes_Compare key (cr_key c) =? 1 then ret (None, 0%N, Some ErrKeyNotFound)
  else get_child (cr_node c) key.

Fixpoint node_get (fuel : nat) (p : node) (key : bytes) : M (bytes * N * option error) :=
  match fuel with
  | O => out_of_fuel
  | S fuel' =>
      do o <- load_node p;
      match p, o with
      | Some l, LeafNode _ => leafNode_get l key
      | Some n, InnerNode _ => innerNode_get (node_get fuel') n key
      | None, _ => panic
      end
  end.

(** ** The tree *)

(** Modelled from the spec: the [Snapshot] struct is declared outside
    tbtree.go.  It "holds: parent tree handle, id, captured root, a table of
    active cursors"; [newSnapshot] fills in [t], [id], [root] and an empty
    [readers] map.  The record keeps the id and the captured root; the parent
    handle is the tree the snapshot table belongs to, and the cursor table is
    created empty. *)
Record Snapshot := mkSnapshot {
  snap_id : N;
  snap_root : node
}.

#[global] Instance Snapshot_eq_dec : EqDecision Snapshot.
Proof. solve_decision. Defined.

(** The fields of [TBtree]; [rwmutex] serialises the calls and carries no
    data. *)
Record TBtree := mkTBtree {
  root : node;
  maxNodeSize : Z;
  insertionCount : N;
  insertionCountThreshold : N;
  lastFlushedTs : N;
  snapshots : gmap N Snapshot;
  maxSnapshotId : N;
  closed : bool
}.

Record Options := mkOptions {
  opt_maxNodeSize : Z;
  opt_insertionCountThreshold : N
}.

Definition DefaultOptions : Options :=
  mkOptions DefaultMaxNodeSize DefaultInsertionCountThreshold.

Definition setMaxNodeSize (opt : Options) (maxNodeSize : Z) : Options :=
  mkOptions maxNodeSize (opt_insertionCountThreshold opt).

Definition setInsertionCountThreshold (opt : Options) (threshold : N) : Options :=
  mkOptions (opt_maxNodeSize opt) threshold.

(** [NewWith]; [opt = None] is the nil pointer. *)
Definition NewWith (opt : option Options) : M (option TBtree * option error) :=
  match opt with
  | None => ret (None, Some ErrIllegalArgument)
  | Some o =>
      if (opt_maxNodeSize o <? MinNodeSize) || (opt_insertionCountThreshold o <? 1)%N
      then ret (None, Some ErrIllegalArgument)
      else
        do r <- alloc_node (LeafNode
          (mkLeafNode None nil_slice 0%N 0 (opt_maxNodeSize o) 0%N));
        ret (Some (mkTBtree (Some r) (opt_maxNodeSize o) 0%N
                            (opt_insertionCountThreshold o) 0%N ∅ 0%N false),
             None)
  end.

Definition New : M (option TBtree * option error) := NewWith (Some DefaultOptions).

Definition set_root (x : node) (t : TBtree) : TBtree :=
  mkTBtree x (maxNodeSize t) (insertionCount t) (insertionCountThreshold t)
           (lastFlushedTs t) (snapshots t) (maxSnapshotId t) (closed t).
Definition set_insertionCount (x : N) (t : TBtree) : TBtree :=
  mkTBtree (root t) (maxNodeSize t) x (insertionCountThreshold t)
           (lastFlushedTs t) (snapshots t) (maxSnapshotId t) (closed t).
Definition set_snapshots (x : gmap N Snapshot) (t : TBtree) : TBtree :=
  mkTBtree (root t) (maxNodeSize t) (insertionCount t) (insertionCountThreshold t)
           (lastFlushedTs t) x (maxSnapshotId t) (closed t).
Definition set_maxSnapshotId (x : N) (t : TBtree) : TBtree :=
  mkTBtree (root t) (maxNodeSize t) (insertionCount t) (insertionCountThreshold t)
           (lastFlushedTs t) (snapshots t) x (closed t).
Definition set_closed (x : bool) (t : TBtree) : TBtree :=
  mkTBtree (root t) (maxNodeSize t) (insertionCount t) (insertionCountThreshold t)
           (lastFlushedTs t) (snapshots t) (maxSnapshotId t) x.

(** The end of [TBtree.Insert] when the root was split: a new root over the
    two halves. *)
Definition TBtree_Insert_newRoot (t : TBtree) (n1 n2 : node) (ts : N) : M node :=
  do ns <- make_childRefs 2;
  do newRoot <- alloc_node (InnerNode
    (mkInnerNode (root t) ns ts 0 (maxNodeSize t) 0%N));
  do k1 <- node_maxKey n1;
  do t1 <- node_ts n1;
  assign_childRefs ns 0 (mkChildRef k1 t1 n1);;
  do k2 <- node_maxKey n2;
  do t2 <- node_ts n2;
  assign_childRefs ns 1 (mkChildRef k2 t2 n2);;
  innerNode_updateSize newRoot;;
  ret (Some newRoot).

(** [TBtree.Insert]: the returned error and the tree after the call.
    [key == nil || t.root.ts() >= ts] evaluates its right operand only for a
    non-nil key. *)
Definition TBtree_Insert (fuel : nat) (t : TBtree) (key value : bytes) (ts : N)
  : M (option error * TBtree) :=
  if closed t then ret (Some ErrAlreadyClosed, t)
  else
    do illegal <- match key with
                  | None => ret true
                  | Some _ => do rts <- node_ts (root t); ret (ts <=? rts)%N
                  end;
    if (illegal : bool) then ret (Some ErrIllegalArgument, t)
    else
      do '(n1, n2, err) <- node_insertAt fuel (root t) key value ts;
      match err with
      | Some e => ret (Some e, t)
      | None =>
          let t := set_insertionCount (uint64_incr (insertionCount t)) t in
          match n2 with
          | None => ret (None, set_root n1 t)
          | Some _ =>
              do newRoot <- TBtree_Insert_newRoot t n1 n2 ts;
              ret (None, set_root newRoot t)
          end
      end.

(** [TBtree.newSnapshot] *)
Definition TBtree_newSnapshot (t : TBtree) : Snapshot * TBtree :=
  let snapshot := mkSnapshot (maxSnapshotId t) (root t) in
  let t := set_snapshots (<[snap_id snapshot := snapshot]> (snapshots t)) t in
  let t := set_maxSnapshotId (uint64_incr (maxSnapshotId t)) t in
  let t := set_insertionCount 0%N t in
  (snapshot, t).

(** [TBtree.Snapshot]: the returned [*Snapshot] ([None] is nil), the error
    and the tree after the call.  Reading a map at an absent key gives the
    zero value, nil. *)
Definition TBtree_Snapshot (t : TBtree) : option Snapshot * option error * TBtree :=
  if closed t then (None, Some ErrAlreadyClosed, t)
  else if (0 <? Z.of_nat (size (snapshots t)))
          && (insertionCount t <=? insertionCountThreshold t)%N
  then (snapshots t !! maxSnapshotId t, None, t)
  else let '(s, t') := TBtree_newSnapshot t in (Some s, None, t').

(** [TBtree.snapshotClosed] *)
Definition TBtree_snapshotClosed (t : TBtree) (snapshot : Snapshot)
  : option error * TBtree :=
  if closed t then (Some ErrAlreadyClosed, t)
  else (None, set_snapshots (delete (snap_id snapshot) (snapshots t)) t).

(** * Vocabulary of the statements *)

(** ** Sequences of calls *)

(** A caller making the [Insert] calls of [ops] one after the other; the
    result lists the error each call returned. *)
Fixpoint Inserts (fuel : nat) (t : TBtree) (ops : list (bytes * bytes * N))
  : M (list (option error) * TBtree) :=
  match ops with
  | [] => ret ([], t)
  | (key, value, ts) :: ops' =>
      do '(e, t1) <- TBtree_Insert fuel t key value ts;
      do '(es, t2) <- Inserts fuel t1 ops';
      ret (e :: es, t2)
  end.

(** ** Heap extension *)

(** [heap_le h h']: every node struct and every backing array of [h] is in
    [h'] at the same address with the same content; [h'] may hold more
    objects. *)
Definition heap_le (h h' : heap) : Prop :=
  h_nodes h `prefix_of` h_nodes h' /\
  h_leafValues h `prefix_of` h_leafValues h' /\
  h_childRefs h `prefix_of` h_childRefs h'.

Definition fresh_node (h0 : heap) (p : loc) : Prop := (length (h_nodes h0) <= p)%nat.
Definition fresh_leafValues (h0 : heap) (s : slice) : Prop :=
  (length (h_leafValues h0) <= s_arr s)%nat.
Definition fresh_childRefs (h0 : heap) (s : slice) : Prop :=
  (length (h_childRefs h0) <= s_arr s)%nat.

Definition preserves {A} (h0 : heap) (m : M A) (Q : A -> Prop) : Prop :=
  forall h r h', heap_le h0 h -> m h = Val (r, h') -> heap_le h0 h' /\ Q r.


(** A computation that only reads the heap, and reads the same in every
    extension of it. *)
Definition stable {A} (m : M A) : Prop :=
  forall h r h1, m h = Val (r, h1) ->
    h1 = h /\ forall h', heap_le h h' -> m h' = Val (r, h').


(** ** The trees of the scenarios *)

Definition key1 (b : byte) : bytes := Some [b].

(** A byte string of [n] bytes. *)
Definition filler (n : nat) : bytes := Some (replicate n "x"%byte).

(** [DefaultOptions().setMaxNodeSize(64)] *)
Definition opts64 : option Options := Some (setMaxNodeSize DefaultOptions 64).

(** The tree [NewWith] returns for [opts64] on the empty heap, and the heap
    it leaves. *)
Definition tree0 : TBtree :=
  mkTBtree (Some 0%nat) 64 0%N DefaultInsertionCountThreshold 0%N ∅ 0%N false.

Definition heap0 : heap :=
  mkHeap [LeafNode (mkLeafNode None nil_slice 0%N 0 64 0%N)] [] [].

(** The inserts of scenario 2 of the specification. *)
Definition inserts_abc : list (bytes * bytes * N) :=
  [(key1 "a", key1 "1", 1%N); (key1 "b", key1 "2", 2%N); (key1 "c", key1 "3", 3%N)].

(** Three entries of 40, 20 and 60 bytes, none larger than the node size
    64, the middle key last. *)
Definition inserts_acb : list (bytes * bytes * N) :=
  [(key1 "a", filler 23, 1%N); (key1 "c", filler 3, 2%N); (key1 "b", filler 43, 3%N)].

(** The tree and the heap after the inserts of [inserts_abc] on [tree0]. *)
Definition tree_abc : TBtree :=
  Eval vm_compute in
    match Inserts 1 tree0 inserts_abc heap0 with
    | Val ((_, t), _) => t
    | _ => tree0
    end.

Definition heap_abc : heap :=
  Eval vm_compute in
    match Inserts 1 tree0 inserts_abc heap0 with
    | Val (_, h) => h
    | _ => heap0
    end.

(** Two further inserts: a fourth key, which splits the root leaf, and a
    new value for "a". *)
Definition inserts_da : list (bytes * bytes * N) :=
  [(key1 "d", key1 "4", 4%N); (key1 "a", key1 "5", 5%N)].

Definition tree_abcda : TBtree :=
  Eval vm_compute in
    match Inserts 2 tree_abc inserts_da heap_abc with
    | Val ((_, t), _) => t
    | _ => tree0
    end.

Definition heap_abcda : heap :=
  Eval vm_compute in
    match Inserts 2 tree_abc inserts_da heap_abc with
    | Val (_, h) => h
    | _ => heap0
    end.

(** The same five inserts taken apart: "a" first, then three other keys,
    then "a" again. *)
Definition tree_a : TBtree :=
  Eval vm_compute in
    match TBtree_Insert 1 tree0 (key1 "a") (key1 "1") 1%N heap0 with
    | Val ((_, t), _) => t
    | _ => tree0
    end.

Definition heap_a : heap :=
  Eval vm_compute in
    match TBtree_Insert 1 tree0 (key1 "a") (key1 "1") 1%N heap0 with
    | Val (_, h) => h
    | _ => heap0
    end.

Definition inserts_bcd : list (bytes * bytes * N) :=
  [(key1 "b", key1 "2", 2%N); (key1 "c", key1 "3", 3%N); (key1 "d", key1 "4", 4%N)].

Definition tree_abcd : TBtree :=
  Eval vm_compute in
    match Inserts 1 tree_a inserts_bcd heap_a with
    | Val ((_, t), _) => t
    | _ => tree0
    end.

Definition heap_abcd : heap :=
  Eval vm_compute in
    match Inserts 1 tree_a inserts_bcd heap_a with
    | Val (_, h) => h
    | _ => heap0
    end.

(** ** Sizes and timestamps of a run of entries *)

(** The running size [splitInfo] has accumulated before it looks at entry
    [i]: the sizes of the first [i] entries, added in order with Go's
    addition. *)
Definition size_upto (vs : list leafValue) (i : nat) : Z :=
  foldl (fun acc v => int_add acc (leafValue_size v)) 0 (take i vs).

(** Including entry [i] would exceed [maxSize]. *)
Definition overflows (vs : list leafValue) (maxSize : Z) (i : nat) : Prop :=
  exists v, vs !! i = Some v /\ int_add (size_upto vs i) (leafValue_size v) > maxSize.

(** The largest [ts] among the entries, 0 for none. *)
Definition max_ts (vs : list leafValue) : N :=
  foldr (fun v m => N.max (lv_ts v) m) 0%N vs.

(** ** A leaf whose [csize] has drifted from the size of its entries *)

(** An entry of 57 bytes under "a", then a replacement of it by one of 17
    bytes: [csize] is carried over. *)
Definition inserts_aa : list (bytes * bytes * N) :=
  [(key1 "a", filler 40, 1%N); (key1 "a", None, 2%N)].

Definition tree_aa : TBtree :=
  Eval vm_compute in
    match Inserts 1 tree0 inserts_aa heap0 with
    | Val ((_, t), _) => t
    | _ => tree0
    end.

Definition heap_aa : heap :=
  Eval vm_compute in
    match Inserts 1 tree0 inserts_aa heap0 with
    | Val (_, h) => h
    | _ => heap0
    end.

Definition entry_a : leafValue := mkLeafValue (key1 "a") 2%N 1%N None.
Definition entry_b : leafValue := mkLeafValue (key1 "b") 3%N 0%N None.

(** The heap in which the insert of "b" into [tree_aa] calls [split]: the
    new leaf, node 3, holds "a" and "b", 34 bytes in all, with [csize] 74. *)
Definition heap_drifted : heap :=
  mkHeap (h_nodes heap_aa ++
          [LeafNode (mkLeafNode (Some 2%nat) (Slice 2 0 2 0) 3%N 74 64 0%N)])
         (h_leafValues heap_aa ++ [[Some entry_a; Some entry_b]])
         (h_childRefs heap_aa).

(** ** The contents of a tree *)

(** [a < b] in the order of [bytes.Compare]. *)
Definition key_lt (a b : bytes) : Prop := bytes_Compare a b = -1.

(** Keys strictly ascending. *)
Fixpoint ascending (vs : list leafValue) : Prop :=
  match vs with
  | [] => True
  | v :: vs' => Forall (fun w => key_lt (lv_key v) (lv_key w)) vs' /\ ascending vs'
  end.

(** The first entry stored under [key]. *)
Fixpoint find_key (key : bytes) (vs : list leafValue) : option leafValue :=
  match vs with
  | [] => None
  | v :: vs' => if bytes_Equal (lv_key v) key then Some v else find_key key vs'
  end.

(** The entries after an insert of [key]: the entry under [key] replaced,
    its [ts] kept as [prevTs], or a new entry put before the first larger
    key. *)
Fixpoint put (key value : bytes) (ts : N) (vs : list leafValue) : list leafValue :=
  match vs with
  | [] => [mkLeafValue key ts 0%N value]
  | v :: vs' =>
      if bytes_Equal (lv_key v) key then mkLeafValue key ts (lv_ts v) value :: vs'
      else if bytes_Compare (lv_key v) key =? 1
           then mkLeafValue key ts 0%N value :: v :: vs'
           else v :: put key value ts vs'
  end.

(** [p] is a leaf holding the entries [vs]. *)
Definition leaf_at (h : heap) (p : node) (vs : list leafValue) : Prop :=
  exists l ln,
    p = Some l /\ h_nodes h !! l = Some (LeafNode ln) /\
    store_elems (h_leafValues h) (l_values ln) = Some (Some <$> vs).

(** The last entry of [vs] has key [k]. *)
Definition last_key (vs : list leafValue) (k : bytes) : Prop :=
  exists v, last vs = Some v /\ lv_key v = k.

(** [p] is the root of a tree of depth at most [d] whose leaves hold, from
    left to right, the entries [vs]; below the root no node is empty, and
    every child reference carries the largest key of its child. *)
Fixpoint subtree (d : nat) (h : heap) (p : node) (vs : list leafValue) : Prop :=
  match d with
  | O => leaf_at h p vs
  | S d' =>
      leaf_at h p vs \/
      exists n nd cs vss,
        p = Some n /\ h_nodes h !! n = Some (InnerNode nd) /\
        store_elems (h_childRefs h) (n_nodes nd) = Some (Some <$> cs) /\
        vs = concat vss /\
        Forall2 (fun c vs' => subtree d' h (cr_node c) vs' /\ last_key vs' (cr_key c))
                cs vss
  end.

(** The entry [get] reads for [key]: the walk of [get], returning the
    [leafValue] itself. *)
Definition leafNode_entry (l : loc) (key : bytes) : M (option leafValue) :=
  do ln <- load_leaf l;
  do '(i, found) <- leafNode_indexOf l key;
  if negb found then ret None
  else do leafValue <- index_leafValues (l_values ln) i; ret (Some leafValue).

Definition innerNode_entry (entry_child : node -> bytes -> M (option leafValue))
    (n : loc) (key : bytes) : M (option leafValue) :=
  do nd <- load_inner n;
  do i <- innerNode_indexOf n key;
  do c <- index_childRefs (n_nodes nd) i;
  if bytes_Compare key (cr_key c) =? 1 then ret None
  else entry_child (cr_node c) key.

Fixpoint node_entry (fuel : nat) (p : node) (key : bytes) : M (option leafValue) :=
  match fuel with
  | O => out_of_fuel
  | S fuel' =>
      do o <- load_node p;
      match p, o with
      | Some l, LeafNode _ => leafNode_entry l key
      | Some n, InnerNode _ => innerNode_entry (node_entry fuel') n key
      | None, _ => panic
      end
  end.

(** What [get] returns for an entry, or for none. *)
Definition get_result (e : option leafValue) : bytes * N * option error :=
  match e with
  | Some v => (lv_value v, lv_ts v, None)
  | None => (None, 0%N, Some ErrKeyNotFound)
  end.

(** What [insertAt] returns on a tree holding [vs]: [n1], and [n2] when the
    node was split, hold between them the entries [vs'], [n2] the upper,
    non-empty part. *)
Definition insert_post (d : nat) (h' : heap) (n1 n2 : node) (vs' : list leafValue)
  : Prop :=
  exists vs1 vs2,
    subtree d h' n1 vs1 /\ vs1 ++ vs2 = vs' /\
    match n2 with
    | None => vs2 = []
    | Some _ => subtree d h' n2 vs2 /\ vs2 <> []
    end.

(** The tree [t] holds the entries [vs], in ascending order of keys. *)
Definition tree_holds (t : TBtree) (h : heap) (vs : list leafValue) : Prop :=
  exists d, subtree d h (root t) vs /\ ascending vs /\
            (vs <> [] \/ leaf_at h (root t) vs).

(** The states a caller can bring a tree to. *)
Inductive reachable : TBtree -> heap -> Prop :=
| reachable_NewWith opt h0 t h :
    NewWith opt h0 = Val ((Some t, None), h) -> reachable t h
| reachable_Insert fuel t h key value ts e t' h' :
    reachable t h ->
    TBtree_Insert fuel t key value ts h = Val ((e, t'), h') ->
    reachable t' h'
| reachable_Snapshot t h s e t' :
    reachable t h -> TBtree_Snapshot t = (s, e, t') -> reachable t' h
| reachable_snapshotClosed t h s e t' :
    reachable t h -> TBtree_snapshotClosed t s = (e, t') -> reachable t' h.

(** ** [Close] and the mutex *)

(** Every exported method of [TBtree] starts with [t.rwmutex.Lock()] and
    defers the [Unlock].  A [sync.RWMutex] is not reentrant: [Lock] on a
    mutex that is held waits for its release.  A call made while its own
    caller holds the mutex therefore never returns. *)
Inductive call (A : Type) :=
| Returns (a : A)
| Blocks.
Arguments Returns {A} a.
Arguments Blocks {A}.

(** [t.rwmutex.Lock()]; [held] tells whether the mutex is held when the call
    is made, the result whether it is held afterwards. *)
Definition RWMutex_Lock (held : bool) : call bool :=
  if held then Blocks else Returns true.

(** [TBtree.Snapshot] with its locking; between [Lock] and the deferred
    [Unlock] it runs [TBtree_Snapshot]. *)
Definition TBtree_Snapshot_call (held : bool) (t : TBtree)
  : call (option Snapshot * option error * TBtree) :=
  match RWMutex_Lock held with
  | Blocks => Blocks
  | Returns _ => Returns (TBtree_Snapshot t)
  end.

(** [TBtree.Close]: the returned error and the tree after the call. *)
Definition TBtree_Close (held : bool) (t : TBtree) : call (option error * TBtree) :=
  match RWMutex_Lock held with
  | Blocks => Blocks
  | Returns held' =>
      if closed t then Returns (Some ErrAlreadyClosed, t)
      else if 0 <? Z.of_nat (size (snapshots t)) then Returns (Some ErrSnapshotsNotClosed, t)
      else if (0 <? insertionCount t)%N then
        match TBtree_Snapshot_call held' t with
        | Blocks => Blocks
        | Returns (_, Some err, t') => Returns (Some err, t')
        | Returns (_, None, t') => Returns (None, set_closed true t')
        end
      else Returns (None, set_closed true t)
  end.

(** ** The snapshot table *)

(** Every id in the snapshot table is below [maxSnapshotId]. *)
Definition snapshots_below (t : TBtree) : Prop :=
  forall id s, snapshots t !! id = Some s -> (id < maxSnapshotId t)%N.

(** The condition under which [Snapshot] does not create a snapshot:
    [len(t.snapshots) > 0 && t.insertionCount <= t.insertionCountThreshold]. *)
Definition reuses_snapshot (t : TBtree) : bool :=
  (0 <? Z.of_nat (size (snapshots t))) && (insertionCount t <=? insertionCountThreshold t)%N.

(** ** The fields [prevNode] and [cts] of a node *)

Definition obj_prevNode (o : nodeObj) : node :=
  match o with
  | LeafNode ln => l_prevNode ln
  | InnerNode nd => n_prevNode nd
  end.

Definition obj_cts (o : nodeObj) : N :=
  match o with
  | LeafNode ln => l_cts ln
  | InnerNode nd => n_cts nd
  end.

(** Reading [prevNode] through the [node] interface. *)
Definition node_prevNode (p : node) : M node :=
  do o <- load_node p; ret (obj_prevNode o).

(** The node struct at [l] has the given [prevNode] and [cts]. *)
Definition node_is (l : loc) (prev : node) (ts : N) (ns : list nodeObj) : Prop :=
  exists o, ns !! l = Some o /\ obj_prevNode o = prev /\ obj_cts o = ts.

(** [m], started on node structs with [P], ends on node structs with [Q]. *)
Definition post {A} (P : list nodeObj -> Prop) (m : M A)
    (Q : A -> list nodeObj -> Prop) : Prop :=
  forall h a h', m h = Val (a, h') -> P (h_nodes h) -> Q a (h_nodes h').

(** ** [findLeafNode] *)

(** [type path []*innerNode]: the inner nodes walked through, the root
    first.  [findLeafNode] only appends to the path it is given, and returns
    a nil path together with an error; the value is the list of the
    elements, nil being the empty list. *)
Definition path := list loc.

(** [neqKey == nil] *)
Definition is_nil (b : bytes) : bool :=
  match b with None => true | Some _ => false end.

(** The test of the first loop on a key:
    [bytes.Compare(keyPrefix, key) < 1 && bytes.Compare(key, neqKey) == 1]. *)
Definition matches_asc (keyPrefix neqKey key : bytes) : bool :=
  (bytes_Compare keyPrefix key <? 1) && (bytes_Compare key neqKey =? 1).

(** The test of the second loop:
    [bytes.Compare(key, keyPrefix) < 1 && bytes.Compare(key, neqKey) < 0]. *)
Definition matches_desc (keyPrefix neqKey key : bytes) : bool :=
  (bytes_Compare key keyPrefix <? 1) && (bytes_Compare key neqKey <? 0).

(** The first loop of [leafNode.findLeafNode] from index [i] on: the index
    it returns with, or [None] when it runs to the end. *)
Fixpoint leafNode_findLeafNode_loop (vs : list (option leafValue))
    (keyPrefix neqKey : bytes) (i : Z) : option (option Z) :=
  match vs with
  | [] => Some None
  | None :: _ => None
  | Some v :: vs' =>
      if matches_asc keyPrefix neqKey (lv_key v) then Some (Some i)
      else leafNode_findLeafNode_loop vs' keyPrefix neqKey (i + 1)
  end.

(** The second loop, downwards from [i]; [rvs] is [l.values[:i]] in reverse
    order, so that its head is [l.values[i-1]]. *)
Fixpoint leafNode_findLeafNode_loop_desc (rvs : list (option leafValue))
    (keyPrefix neqKey : bytes) (i : Z) : option (option Z) :=
  match rvs with
  | [] => Some None
  | None :: _ => None
  | Some v :: rvs' =>
      if matches_desc keyPrefix neqKey (lv_key v) then Some (Some (i - 1))
      else leafNode_findLeafNode_loop_desc rvs' keyPrefix neqKey (i - 1)
  end.

(** [leafNode.findLeafNode]: the path, the leaf ([None] is nil), the index
    and the error. *)
Definition leafNode_findLeafNode (l : loc) (keyPrefix : bytes) (path_ : path)
    (neqKey : bytes) (ascOrder : bool) : M (path * option loc * Z * option error) :=
  do ln <- load_leaf l;
  do vs <- leafValues_of (l_values ln);
  if ascOrder || is_nil neqKey then
    do found <- lift (leafNode_findLeafNode_loop vs keyPrefix neqKey 0);
    match found with
    | Some i => ret (path_, Some l, i, None)
    | None =>
        if ascOrder || (slice_len (l_values ln) =? 0)
        then ret ([], None, 0, Some ErrKeyNotFound)
        else ret (path_, Some l, slice_len (l_values ln) - 1, None)
    end
  else
    do found <- lift (leafNode_findLeafNode_loop_desc (rev vs) keyPrefix neqKey
                        (slice_len (l_values ln)));
    match found with
    | Some i => ret (path_, Some l, i, None)
    | None => ret ([], None, 0, Some ErrKeyNotFound)
    end.

(** The loops of [innerNode.findLeafNode]: the child reference they return
    with, or [None] when they run to the end. *)
Fixpoint innerNode_findLeafNode_loop (cs : list (option childRef))
    (keyPrefix neqKey : bytes) : option (option childRef) :=
  match cs with
  | [] => Some None
  | None :: _ => None
  | Some c :: cs' =>
      if matches_asc keyPrefix neqKey (cr_key c) then Some (Some c)
      else innerNode_findLeafNode_loop cs' keyPrefix neqKey
  end.

Fixpoint innerNode_findLeafNode_loop_desc (rcs : list (option childRef))
    (keyPrefix neqKey : bytes) : option (option childRef) :=
  match rcs with
  | [] => Some None
  | None :: _ => None
  | Some c :: rcs' =>
      if matches_desc keyPrefix neqKey (cr_key c) then Some (Some c)
      else innerNode_findLeafNode_loop_desc rcs' keyPrefix neqKey
  end.

(** [innerNode.findLeafNode]; [find_child] is the call
    [n.nodes[i].node.findLeafNode(...)] through the interface. *)
Definition innerNode_findLeafNode
    (find_child : node -> bytes -> path -> bytes -> bool ->
                  M (path * option loc * Z * option error))
    (n : loc) (keyPrefix : bytes) (path_ : path) (neqKey : bytes) (ascOrder : bool)
  : M (path * option loc * Z * option error) :=
  do nd <- load_inner n;
  do cs <- childRefs_of (n_nodes nd);
  if ascOrder || is_nil neqKey then
    do found <- lift (innerNode_findLeafNode_loop cs keyPrefix neqKey);
    match found with
    | Some c => find_child (cr_node c) keyPrefix (path_ ++ [n]) neqKey ascOrder
    | None =>
        if ascOrder then ret ([], None, 0, Some ErrKeyNotFound)
        else
          do c <- index_childRefs (n_nodes nd) (slice_len (n_nodes nd) - 1);
          find_child (cr_node c) keyPrefix (path_ ++ [n]) neqKey ascOrder
    end
  else
    do found <- lift (innerNode_findLeafNode_loop_desc (rev cs) keyPrefix neqKey);
    match found with
    | Some c => find_child (cr_node c) keyPrefix (path_ ++ [n]) neqKey ascOrder
    | None => ret ([], None, 0, Some ErrKeyNotFound)
    end.

Fixpoint node_findLeafNode (fuel : nat) (p : node) (keyPrefix : bytes) (path_ : path)
    (neqKey : bytes) (ascOrder : bool) : M (path * option loc * Z * option error) :=
  match fuel with
  | O => out_of_fuel
  | S fuel' =>
      do o <- load_node p;
      match p, o with
      | Some l, LeafNode _ => leafNode_findLeafNode l keyPrefix path_ neqKey ascOrder
      | Some n, InnerNode _ =>
          innerNode_findLeafNode (node_findLeafNode fuel') n keyPrefix path_ neqKey ascOrder
      | None, _ => panic
      end
  end.

(** The first of the entries [vs] whose key passes the test of the first
    loop, and the last whose key passes the test of the second. *)
Fixpoint seek_asc (keyPrefix neqKey : bytes) (vs : list leafValue) : option leafValue :=
  match vs with
  | [] => None
  | v :: vs' =>
      if matches_asc keyPrefix neqKey (lv_key v) then Some v
      else seek_asc keyPrefix neqKey vs'
  end.

Definition seek_desc (keyPrefix neqKey : bytes) (vs : list leafValue) : option leafValue :=
  last (filter (fun v => matches_desc keyPrefix neqKey (lv_key v) = true) vs).

(** [findLeafNode] returned the leaf and index of the entry [v], after the
    inner nodes of [path]. *)
Definition found_entry (h : heap) (r : path * option loc * Z * option error)
    (path_ : path) (v : leafValue) : Prop :=
  exists path' l ln i,
    r = (path_ ++ path', Some l, i, None) /\
    h_nodes h !! l = Some (LeafNode ln) /\
    index_leafValues (l_values ln) i h = Val (v, h).

Definition not_found : path * option loc * Z * option error :=
  ([], None, 0, Some ErrKeyNotFound).

(** ** The nodes of a tree *)

(** [node_below h p q]: [q] is [p], or is reached from [p] through child
    references. *)
Inductive node_below (h : heap) : node -> node -> Prop :=
| node_below_refl p : node_below h p p
| node_below_child n nd cs c q :
    h_nodes h !! n = Some (InnerNode nd) ->
    store_elems (h_childRefs h) (n_nodes nd) = Some cs ->
    Some c ∈ cs ->
    node_below h (cr_node c) q ->
    node_below h (Some n) q.

(** ** Trees whose entries fit their nodes *)

(** An entry of [key] and [value] fits a node of size [m]: its size,
    [16 + len(key) + len(value)], is at most [m]. *)
Definition entry_fits (m : Z) (key value : bytes) : Prop :=
  16 + len key + len value <= m.

(** [p] is a leaf of size [m] that is not empty and whose entries fit it. *)
Definition leaf_sized (m : Z) (h : heap) (p : node) : Prop :=
  exists l ln vs,
    p = Some l /\ h_nodes h !! l = Some (LeafNode ln) /\
    store_elems (h_leafValues h) (l_values ln) = Some (Some <$> vs) /\
    vs <> [] /\ l_maxSize ln = m /\
    Forall (fun v => entry_fits m (lv_key v) (lv_value v)) vs.

(** [p] is the root of a tree of depth at most [d] all of whose nodes have
    size [m]: no node is empty, every entry and every child reference is
    set, every entry fits [m], and the key of every child reference is at
    most [m] long. *)
Fixpoint sized (m : Z) (d : nat) (h : heap) (p : node) : Prop :=
  match d with
  | O => leaf_sized m h p
  | S d' =>
      leaf_sized m h p \/
      exists n nd cs,
        p = Some n /\ h_nodes h !! n = Some (InnerNode nd) /\
        store_elems (h_childRefs h) (n_nodes nd) = Some (Some <$> cs) /\
        cs <> [] /\ n_maxSize nd = m /\
        Forall (fun c => len (cr_key c) <= m /\ sized m d' h (cr_node c)) cs
  end.

(** The root of a new tree: an empty leaf with [csize] 0. *)
Definition empty_leaf (m : Z) (h : heap) (p : node) : Prop :=
  exists l ln,
    p = Some l /\ h_nodes h !! l = Some (LeafNode ln) /\
    store_elems (h_leafValues h) (l_values ln) = Some [] /\
    l_csize ln = 0 /\ l_maxSize ln = m.

(** The tree [t] has depth at most [d], a node size within the range of
    [int], and holds only entries that fit its nodes. *)
Definition tree_sized (d : nat) (t : TBtree) (h : heap) : Prop :=
  maxNodeSize t < 2 ^ 63 /\
  (sized (maxNodeSize t) d h (root t) \/ empty_leaf (maxNodeSize t) h (root t)).

(** [walk h p pa l]: [pa] lists the inner nodes on the way from the node
    [p] down to the leaf [l], [p] first; it is empty when [p] is [l]. *)
Inductive walk (h : heap) : node -> path -> loc -> Prop :=
| walk_leaf l ln :
    h_nodes h !! l = Some (LeafNode ln) -> walk h (Some l) [] l
| walk_inner n nd cs c pa l :
    h_nodes h !! n = Some (InnerNode nd) ->
    store_elems (h_childRefs h) (n_nodes nd) = Some cs ->
    Some c ∈ cs ->
    walk h (cr_node c) pa l ->
    walk h (Some n) (n :: pa) l.

(** What a result of [findLeafNode] can be on the node [p]. *)
Definition findLeafNode_shape (h : heap) (p : node) (pa : path)
    (r : path * option loc * Z * option error) : Prop :=
  r = not_found \/
  exists pa' l ln i,
    r = (pa ++ pa', Some l, i, None) /\ walk h p pa' l /\
    h_nodes h !! l = Some (LeafNode ln) /\ 0 <= i < slice_len (l_values ln).

(** ** Sizes and timestamps of a run of child references *)

(** The running size [splitInfo] of an inner node has accumulated before it
    looks at reference [i]: the lengths of the first [i] keys, added in
    order with Go's addition. *)
Definition keys_upto (cs : list childRef) (i : nat) : Z :=
  foldl (fun acc c => int_add acc (len (cr_key c))) 0 (take i cs).

(** Including the key of reference [i] would exceed [maxSize]. *)
Definition key_overflows (cs : list childRef) (maxSize : Z) (i : nat) : Prop :=
  exists c, cs !! i = Some c /\ int_add (keys_upto cs i) (len (cr_key c)) > maxSize.

(** The largest [cts] among the references, 0 for none. *)
Definition max_cts (cs : list childRef) : N :=
  foldr (fun c m => N.max (cr_cts c) m) 0%N cs.

(** ** An inner node whose keys are longer than its [maxSize] *)

(** A key of 40 bytes. *)
Definition long_key (b : byte) : bytes := Some (replicate 40 b).

(** Two entries of 56 bytes each into the tree of [opts64]: the second
    insert splits the leaf, and [Insert] builds a root, node 4, over the
    two halves; its [csize] is 80 and its [maxSize] 64. *)
Definition inserts_long : list (bytes * bytes * N) :=
  [(long_key "a", None, 1%N); (long_key "b", None, 2%N)].

Definition heap_long : heap :=
  Eval vm_compute in
    match Inserts 1 tree0 inserts_long heap0 with
    | Val (_, h) => h
    | _ => heap0
    end.

(** ** The height of a tree *)

(** [height m h p]: every leaf below the node [p] lies exactly [m] inner
    nodes below it, and every child reference on the way is set. *)
Fixpoint height (m : nat) (h : heap) (p : node) : Prop :=
  match m with
  | O => exists l ln, p = Some l /\ h_nodes h !! l = Some (LeafNode ln)
  | S m' =>
      exists n nd cs,
        p = Some n /\ h_nodes h !! n = Some (InnerNode nd) /\
        store_elems (h_childRefs h) (n_nodes nd) = Some (Some <$> cs) /\
        Forall (fun c => height m' h (cr_node c)) cs
  end.

(** ** The calls a reader has seen *)

(** The value and [ts] of the last call of [ops] that returned nil (its
    entry in [es]) for a key equal to [key] as [bytes.Equal] has it; [acc]
    when there is no such call. *)
Fixpoint last_insert (key : bytes) (ops : list (bytes * bytes * N))
    (es : list (option error)) (acc : option (bytes * N)) : option (bytes * N) :=
  match ops, es with
  | (k, v, ts) :: ops', e :: es' =>
      last_insert key ops' es'
        (match e with
         | None => if bytes_Equal k key then Some (v, ts) else acc
         | Some _ => acc
         end)
  | _, _ => acc
  end.

(** What [get] returns for a value and [ts], or for none. *)
Definition get_of (r : option (bytes * N)) : bytes * N * option error :=
  match r with
  | Some (v, ts) => (v, ts, None)
  | None => (None, 0%N, Some ErrKeyNotFound)
  end.

(** ** Nodes stamped with the largest timestamp below them *)

(** [p] is a leaf whose [cts] is [t], the largest [ts] among its entries. *)
Definition leaf_stamped (h : heap) (p : node) (t : N) : Prop :=
  exists l ln vs,
    p = Some l /\ h_nodes h !! l = Some (LeafNode ln) /\
    store_elems (h_leafValues h) (l_values ln) = Some (Some <$> vs) /\
    l_cts ln = t /\ t = max_ts vs.

(** [p] is the root of a tree of depth at most [d] whose [cts] is [t]; in
    every leaf [cts] is the largest [ts] among the entries, in every inner
    node the largest [cts] among the child references, and every child
    reference carries the [cts] of its child. *)
Fixpoint stamped (d : nat) (h : heap) (p : node) (t : N) : Prop :=
  match d with
  | O => leaf_stamped h p t
  | S d' =>
      leaf_stamped h p t \/
      exists n nd cs,
        p = Some n /\ h_nodes h !! n = Some (InnerNode nd) /\
        store_elems (h_childRefs h) (n_nodes nd) = Some (Some <$> cs) /\
        n_cts nd = t /\ t = max_cts cs /\
        Forall (fun c => stamped d' h (cr_node c) (cr_cts c)) cs
  end.

(** What [insertAt] with [ts] returns on a stamped tree: stamped nodes,
    the larger [cts] of which is [ts]. *)
Definition stamp_post (d : nat) (h' : heap) (n1 n2 : node) (ts : N) : Prop :=
  exists t1,
    stamped d h' n1 t1 /\
    match n2 with
    | None => t1 = ts
    | Some _ => exists t2, stamped d h' n2 t2 /\ N.max t1 t2 = ts
    end.

(** * Proofs *)

(** ** Heap extension: the writes of a computation go to fresh objects *)

Lemma heap_le_refl h : heap_le h h.
Proof. by repeat split. Qed.

Lemma heap_le_trans h1 h2 h3 : heap_le h1 h2 -> heap_le h2 h3 -> heap_le h1 h3.
Proof. intros (?&?&?) (?&?&?). repeat split; by etrans. Qed.

Lemma prefix_insert_ge {A} (l1 l2 : list A) (i : nat) x :
  l1 `prefix_of` l2 -> (length l1 <= i)%nat -> l1 `prefix_of` <[i:=x]> l2.
Proof.
  intros [k ->] Hi. rewrite insert_app_r_alt by done. by apply prefix_app_r.
Qed.

Section Preserves.
Context (h0 : heap).

Lemma preserves_ret {A} (a : A) (Q : A -> Prop) : Q a -> preserves h0 (ret a) Q.
Proof. intros HQ h r h' Hle [= <- <-]. done. Qed.

Lemma preserves_bind {A B} (m : M A) (f : A -> M B) Q R :
  preserves h0 m Q -> (forall a, Q a -> preserves h0 (f a) R) ->
  preserves h0 (bind m f) R.
Proof.
  intros Hm Hf h r h' Hle H. unfold bind in H.
  destruct (m h) as [[a h1]| |] eqn:E; try discriminate.
  destruct (Hm _ _ _ Hle E) as [Hle1 HQ]. eapply Hf; eauto.
Qed.

Lemma preserves_weaken {A} (m : M A) (Q R : A -> Prop) :
  preserves h0 m Q -> (forall a, Q a -> R a) -> preserves h0 m R.
Proof. intros Hm HQR h r h' Hle H. destruct (Hm _ _ _ Hle H). auto. Qed.

Lemma preserves_panic {A} (Q : A -> Prop) : preserves h0 panic Q.
Proof. intros h r h' _ [=]. Qed.

Lemma preserves_out_of_fuel {A} (Q : A -> Prop) : preserves h0 out_of_fuel Q.
Proof. intros h r h' _ [=]. Qed.

Lemma preserves_lift {A} (o : option A) : preserves h0 (lift o) (fun a => o = Some a).
Proof. destruct o; simpl; [by apply preserves_ret | apply preserves_panic]. Qed.

Lemma preserves_alloc_node o : preserves h0 (alloc_node o) (fresh_node h0).
Proof.
  intros h r h' (Hn & Hl & Hc) [= <- <-]. split.
  - repeat split; simpl; auto. by apply prefix_app_r.
  - unfold fresh_node. by apply prefix_length.
Qed.

Lemma preserves_load_node p : preserves h0 (load_node p) (fun _ => True).
Proof.
  intros h r h' Hle H. unfold load_node in H.
  destruct p as [l|]; [destruct (h_nodes h !! l)|]; simplify_eq. done.
Qed.

Lemma preserves_load_leaf l : preserves h0 (load_leaf l) (fun _ => True).
Proof.
  intros h r h' Hle H. unfold load_leaf in H.
  destruct (h_nodes h !! l) as [[]|]; simplify_eq. done.
Qed.

Lemma preserves_load_inner l : preserves h0 (load_inner l) (fun _ => True).
Proof.
  intros h r h' Hle H. unfold load_inner in H.
  destruct (h_nodes h !! l) as [[]|]; simplify_eq. done.
Qed.

Lemma preserves_store_node l o :
  fresh_node h0 l -> preserves h0 (store_node l o) (fun _ => True).
Proof.
  intros Hf h r h' (Hn & Hl & Hc) H. unfold store_node in H.
  case_decide; simplify_eq. split; [|done].
  repeat split; simpl; auto. by apply prefix_insert_ge.
Qed.

Lemma preserves_update_leaf l f :
  fresh_node h0 l -> preserves h0 (update_leaf l f) (fun _ => True).
Proof.
  intros Hf. eapply preserves_bind; [apply preserves_load_leaf|].
  intros. by apply preserves_store_node.
Qed.

Lemma preserves_update_inner l f :
  fresh_node h0 l -> preserves h0 (update_inner l f) (fun _ => True).
Proof.
  intros Hf. eapply preserves_bind; [apply preserves_load_inner|].
  intros. by apply preserves_store_node.
Qed.

Lemma preserves_make_leafValues n : preserves h0 (make_leafValues n) (fresh_leafValues h0).
Proof.
  intros h r h' (Hn & Hl & Hc) H. unfold make_leafValues, store_make in H.
  destruct (0 <=? n); simplify_eq. split.
  - repeat split; simpl; auto. by apply prefix_app_r.
  - unfold fresh_leafValues; simpl. by apply prefix_length.
Qed.

Lemma preserves_make_childRefs n : preserves h0 (make_childRefs n) (fresh_childRefs h0).
Proof.
  intros h r h' (Hn & Hl & Hc) H. unfold make_childRefs, store_make in H.
  destruct (0 <=? n); simplify_eq. split.
  - repeat split; simpl; auto. by apply prefix_app_r.
  - unfold fresh_childRefs; simpl. by apply prefix_length.
Qed.

Lemma preserves_leafValues_of s : preserves h0 (leafValues_of s) (fun _ => True).
Proof.
  intros h r h' Hle H. unfold leafValues_of in H.
  destruct (store_elems _ _); simplify_eq. done.
Qed.
Lemma preserves_childRefs_of s : preserves h0 (childRefs_of s) (fun _ => True).
Proof.
  intros h r h' Hle H. unfold childRefs_of in H.
  destruct (store_elems _ _); simplify_eq. done.
Qed.

Lemma preserves_index_leafValues s i : preserves h0 (index_leafValues s i) (fun _ => True).
Proof.
  intros h r h' Hle H. unfold index_leafValues in H.
  destruct (store_index _ _ _) as [[]|]; simplify_eq. done.
Qed.
Lemma preserves_index_childRefs s i : preserves h0 (index_childRefs s i) (fun _ => True).
Proof.
  intros h r h' Hle H. unfold index_childRefs in H.
  destruct (store_index _ _ _) as [[]|]; simplify_eq. done.
Qed.

Lemma store_assign_prefix {A} (st0 st st' : store A) s i x :
  st0 `prefix_of` st -> (length st0 <= s_arr s)%nat ->
  store_assign st s i x = Some st' -> st0 `prefix_of` st'.
Proof.
  unfold store_assign. intros Hp Hf H.
  destruct (_ && _); [|done]. destruct (st !! s_arr s); simpl in H; [|done].
  case_decide; simplify_eq. by apply prefix_insert_ge.
Qed.

Lemma store_copy_prefix {A} (st0 st st' : store A) d s :
  st0 `prefix_of` st -> (length st0 <= s_arr d)%nat ->
  store_copy st d s = Some st' -> st0 `prefix_of` st'.
Proof.
  unfold store_copy. intros Hp Hf H.
  case_decide; simplify_eq; [done|].
  destruct (store_elems st s); simpl in H; [|done].
  destruct (st !! s_arr d); simpl in H; [|done].
  case_decide; simplify_eq. by apply prefix_insert_ge.
Qed.

Lemma preserves_assign_leafValues s i v :
  fresh_leafValues h0 s -> preserves h0 (assign_leafValues s i v) (fun _ => True).
Proof.
  intros Hf h r h' (Hn & Hl & Hc) H. unfold assign_leafValues in H.
  destruct (store_assign _ _ _ _) eqn:E; simplify_eq. split; [|done].
  repeat split; simpl; auto. eapply store_assign_prefix; eauto.
Qed.
Lemma preserves_assign_childRefs s i v :
  fresh_childRefs h0 s -> preserves h0 (assign_childRefs s i v) (fun _ => True).
Proof.
  intros Hf h r h' (Hn & Hl & Hc) H. unfold assign_childRefs in H.
  destruct (store_assign _ _ _ _) eqn:E; simplify_eq. split; [|done].
  repeat split; simpl; auto. eapply store_assign_prefix; eauto.
Qed.
Lemma preserves_copy_leafValues d s :
  fresh_leafValues h0 d -> preserves h0 (copy_leafValues d s) (fun _ => True).
Proof.
  intros Hf h r h' (Hn & Hl & Hc) H. unfold copy_leafValues in H.
  destruct (store_copy _ _ _) eqn:E; simplify_eq. split; [|done].
  repeat split; simpl; auto. eapply store_copy_prefix; eauto.
Qed.
Lemma preserves_copy_childRefs d s :
  fresh_childRefs h0 d -> preserves h0 (copy_childRefs d s) (fun _ => True).
Proof.
  intros Hf h r h' (Hn & Hl & Hc) H. unfold copy_childRefs in H.
  destruct (store_copy _ _ _) eqn:E; simplify_eq. split; [|done].
  repeat split; simpl; auto. eapply store_copy_prefix; eauto.
Qed.

Lemma slice_to_arr s i s' : slice_to s i = Some s' -> s_arr s' = s_arr s.
Proof. unfold slice_to. destruct (_ && _); intros; simplify_eq. done. Qed.
Lemma slice_from_arr s i s' : slice_from s i = Some s' -> s_arr s' = s_arr s.
Proof. unfold slice_from. destruct (_ && _); intros; simplify_eq. done. Qed.
End Preserves.


Ltac solve_fresh :=
  unfold fresh_leafValues, fresh_childRefs, fresh_node in *;
  repeat match goal with
  | H : slice_to _ _ = Some _ |- _ => apply slice_to_arr in H
  | H : slice_from _ _ = Some _ |- _ => apply slice_from_arr in H
  end;
  simpl in *; try congruence; try lia.

Ltac pprim :=
  first [ apply preserves_load_node | apply preserves_load_leaf | apply preserves_load_inner
        | apply preserves_alloc_node | apply preserves_make_leafValues | apply preserves_make_childRefs
        | apply preserves_leafValues_of | apply preserves_childRefs_of
        | apply preserves_index_leafValues | apply preserves_index_childRefs
        | apply preserves_lift
        | apply preserves_store_node; solve_fresh
        | apply preserves_update_leaf; solve_fresh
        | apply preserves_update_inner; solve_fresh
        | apply preserves_assign_leafValues; solve_fresh
        | apply preserves_assign_childRefs; solve_fresh
        | apply preserves_copy_leafValues; solve_fresh
        | apply preserves_copy_childRefs; solve_fresh ].

Ltac pstep :=
  first
  [ apply preserves_ret; try done
  | apply preserves_panic
  | apply preserves_out_of_fuel
  | pprim
  | eapply preserves_bind; [ pprim | intros ? ? ] ].

Lemma preserves_leafNode_updateTs h0 l :
  fresh_node h0 l -> preserves h0 (leafNode_updateTs l) (fun _ => True).
Proof. intros Hf. unfold leafNode_updateTs. repeat pstep. Qed.

Lemma preserves_innerNode_updateTs h0 l :
  fresh_node h0 l -> preserves h0 (innerNode_updateTs l) (fun _ => True).
Proof. intros Hf. unfold innerNode_updateTs. repeat pstep. Qed.

Lemma preserves_innerNode_updateSize h0 l :
  fresh_node h0 l -> preserves h0 (innerNode_updateSize l) (fun _ => True).
Proof. intros Hf. unfold innerNode_updateSize. repeat pstep. Qed.

Lemma preserves_leafNode_indexOf h0 l k : preserves h0 (leafNode_indexOf l k) (fun _ => True).
Proof. unfold leafNode_indexOf. repeat pstep. eapply preserves_weaken; [pstep|done]. Qed.

Lemma preserves_leafNode_splitInfo h0 l : preserves h0 (leafNode_splitInfo l) (fun _ => True).
Proof. unfold leafNode_splitInfo. repeat pstep. eapply preserves_weaken; [pstep|done]. Qed.

Lemma preserves_leafNode_split h0 l :
  fresh_node h0 l -> preserves h0 (leafNode_split l) (fun _ => True).
Proof.
  intros Hf. unfold leafNode_split. pstep.
  destruct (_ <=? _); [by pstep|].
  eapply preserves_bind; [apply preserves_leafNode_splitInfo|intros [si ss] _].
  do 2 pstep.
  eapply preserves_bind; [by apply preserves_leafNode_updateTs|intros _ _].
  do 3 pstep.
  eapply preserves_bind; [by apply preserves_leafNode_updateTs|intros _ _].
  by pstep.
Qed.


Lemma preserves_seq h0 {A B} (m : M A) (k : M B) R :
  preserves h0 m (fun _ => True) -> preserves h0 k R -> preserves h0 (m ;; k) R.
Proof. intros Hm Hk. eapply preserves_bind; [exact Hm|]. intros _ _. exact Hk. Qed.

Lemma preserves_leafNode_insertAt h0 l k v ts :
  preserves h0 (leafNode_insertAt l k v ts) (fun _ => True).
Proof.
  unfold leafNode_insertAt. pstep.
  eapply preserves_bind; [apply preserves_leafNode_indexOf|intros [i found] _].
  destruct found.
  - do 7 pstep.
    apply preserves_seq; [|by pstep].
    destruct (_ <? _); [|by pstep]. repeat pstep.
  - do 6 pstep.
    apply preserves_seq.
    { destruct (_ <? _); [|by pstep]. repeat pstep. }
    eapply preserves_bind; [by apply preserves_leafNode_split|].
    intros [n2 err] _. by pstep.
Qed.

Lemma preserves_innerNode_indexOf h0 l k : preserves h0 (innerNode_indexOf l k) (fun _ => True).
Proof. unfold innerNode_indexOf. repeat pstep. eapply preserves_weaken; [pstep|done]. Qed.

Lemma preserves_innerNode_splitInfo h0 l : preserves h0 (innerNode_splitInfo l) (fun _ => True).
Proof. unfold innerNode_splitInfo. repeat pstep. eapply preserves_weaken; [pstep|done]. Qed.

Lemma preserves_innerNode_split h0 l :
  fresh_node h0 l -> preserves h0 (innerNode_split l) (fun _ => True).
Proof.
  intros Hf. unfold innerNode_split. pstep.
  destruct (_ <=? _); [by pstep|].
  eapply preserves_bind; [apply preserves_innerNode_splitInfo|intros [si ss] _].
  do 2 pstep.
  apply preserves_seq; [by apply preserves_innerNode_updateTs|].
  do 3 pstep.
  apply preserves_seq; [by apply preserves_innerNode_updateTs|].
  by pstep.
Qed.

Lemma preserves_node_ts h0 p : preserves h0 (node_ts p) (fun _ => True).
Proof.
  unfold node_ts. pstep. destruct p as [l|]; [|pstep].
  destruct a; unfold leafNode_ts, innerNode_ts; repeat pstep.
Qed.

Lemma preserves_node_maxKey h0 p : preserves h0 (node_maxKey p) (fun _ => True).
Proof.
  unfold node_maxKey. pstep. destruct p as [l|]; [|pstep].
  destruct a; unfold leafNode_maxKey, innerNode_maxKey; repeat pstep.
Qed.

Lemma preserves_innerNode_insertAt_one h0 n nd i c1 ts :
  preserves h0 (innerNode_insertAt_one n nd i c1 ts) (fun _ => True).
Proof.
  unfold innerNode_insertAt_one. do 4 pstep.
  apply preserves_seq; [pstep|].
  eapply preserves_bind; [apply preserves_node_maxKey|intros k1 _].
  eapply preserves_bind; [apply preserves_node_ts|intros t1 _].
  apply preserves_seq; [pstep|].
  apply preserves_seq.
  { destruct (_ <? _); [|by pstep]. repeat pstep. }
  apply preserves_seq; [by apply preserves_innerNode_updateSize|].
  by pstep.
Qed.

Lemma preserves_innerNode_insertAt_two h0 n nd i c1 c2 ts :
  preserves h0 (innerNode_insertAt_two n nd i c1 c2 ts) (fun _ => True).
Proof.
  unfold innerNode_insertAt_two. do 4 pstep.
  apply preserves_seq; [pstep|].
  eapply preserves_bind; [apply preserves_node_maxKey|intros k1 _].
  eapply preserves_bind; [apply preserves_node_ts|intros t1 _].
  apply preserves_seq; [pstep|].
  eapply preserves_bind; [apply preserves_node_maxKey|intros k2 _].
  eapply preserves_bind; [apply preserves_node_ts|intros t2 _].
  apply preserves_seq; [pstep|].
  apply preserves_seq.
  { destruct (_ <? _); [|by pstep]. repeat pstep. }
  apply preserves_seq; [by apply preserves_innerNode_updateSize|].
  eapply preserves_bind; [by apply preserves_innerNode_split|].
  intros [n2 err] _. by pstep.
Qed.

Lemma preserves_innerNode_insertAt h0 rec n k v ts :
  (forall p k v ts, preserves h0 (rec p k v ts) (fun _ => True)) ->
  preserves h0 (innerNode_insertAt rec n k v ts) (fun _ => True).
Proof.
  intros Hrec. unfold innerNode_insertAt. pstep.
  eapply preserves_bind; [apply preserves_innerNode_indexOf|intros i _].
  pstep.
  eapply preserves_bind; [apply Hrec|intros [[c1 c2] err] _].
  destruct err; [by pstep|]. destruct c2.
  - apply preserves_innerNode_insertAt_two.
  - apply preserves_innerNode_insertAt_one.
Qed.

Lemma preserves_node_insertAt h0 fuel : forall p k v ts,
  preserves h0 (node_insertAt fuel p k v ts) (fun _ => True).
Proof.
  induction fuel as [|fuel IH]; intros p k v ts; simpl; [pstep|].
  pstep. destruct p as [l|]; [|pstep]. destruct a.
  - apply preserves_leafNode_insertAt.
  - by apply preserves_innerNode_insertAt.
Qed.

Lemma preserves_TBtree_Insert_newRoot h0 t n1 n2 ts :
  preserves h0 (TBtree_Insert_newRoot t n1 n2 ts) (fun _ => True).
Proof.
  unfold TBtree_Insert_newRoot. do 2 pstep.
  eapply preserves_bind; [apply preserves_node_maxKey|intros k1 _].
  eapply preserves_bind; [apply preserves_node_ts|intros t1 _].
  apply preserves_seq; [pstep|].
  eapply preserves_bind; [apply preserves_node_maxKey|intros k2 _].
  eapply preserves_bind; [apply preserves_node_ts|intros t2 _].
  apply preserves_seq; [pstep|].
  apply preserves_seq; [by apply preserves_innerNode_updateSize|].
  by pstep.
Qed.

Lemma preserves_TBtree_Insert h0 fuel t k v ts :
  preserves h0 (TBtree_Insert fuel t k v ts) (fun _ => True).
Proof.
  unfold TBtree_Insert. destruct (closed t); [by pstep|].
  eapply preserves_bind with (Q := fun _ => True).
  { destruct k; [|by pstep].
    eapply preserves_bind; [apply preserves_node_ts|intros; by pstep]. }
  intros illegal _. destruct illegal; [by pstep|].
  eapply preserves_bind; [apply preserves_node_insertAt|intros [[n1 n2] err] _].
  destruct err; [by pstep|]. destruct n2; [|by pstep].
  eapply preserves_bind; [apply preserves_TBtree_Insert_newRoot|intros; by pstep].
Qed.


(** ** Read-only computations *)

Lemma stable_ret {A} (a : A) : stable (ret a).
Proof. intros h r h1 [= <- <-]. done. Qed.

Lemma stable_panic {A} : stable (@panic A).
Proof. intros h r h1 [=]. Qed.

Lemma stable_out_of_fuel {A} : stable (@out_of_fuel A).
Proof. intros h r h1 [=]. Qed.

Lemma stable_lift {A} (o : option A) : stable (lift o).
Proof. destruct o; [apply stable_ret|apply stable_panic]. Qed.

Lemma stable_bind {A B} (m : M A) (f : A -> M B) :
  stable m -> (forall a, stable (f a)) -> stable (bind m f).
Proof.
  intros Hm Hf h r h1 H. unfold bind in H.
  destruct (m h) as [[a h2]| |] eqn:E; try discriminate.
  destruct (Hm _ _ _ E) as [-> Hm']. destruct (Hf _ _ _ _ H) as [-> Hf'].
  split; [done|]. intros h' Hle. unfold bind. rewrite (Hm' _ Hle). auto.
Qed.

Lemma store_elems_prefix {A} (st st' : store A) s xs :
  st `prefix_of` st' -> store_elems st s = Some xs -> store_elems st' s = Some xs.
Proof.
  unfold store_elems. intros Hp H. destruct (decide (s_len s = 0%nat)); [done|].
  destruct (st !! s_arr s) as [a|] eqn:E; [|done].
  by rewrite (prefix_lookup_Some _ _ _ _ E Hp).
Qed.

Lemma store_index_prefix {A} (st st' : store A) s i x :
  st `prefix_of` st' -> store_index st s i = Some x -> store_index st' s i = Some x.
Proof.
  unfold store_index. intros Hp H. destruct (_ && _); [|done].
  destruct (st !! s_arr s) as [a|] eqn:E; [|done].
  by rewrite (prefix_lookup_Some _ _ _ _ E Hp).
Qed.

Lemma stable_load_node p : stable (load_node p).
Proof.
  intros h r h1 H. unfold load_node in *. destruct p as [l|]; [|done].
  destruct (h_nodes h !! l) eqn:E; simplify_eq. split; [done|].
  intros h' (Hn & _). by rewrite (prefix_lookup_Some _ _ _ _ E Hn).
Qed.

Lemma stable_load_leaf l : stable (load_leaf l).
Proof.
  intros h r h1 H. unfold load_leaf in *.
  destruct (h_nodes h !! l) as [[]|] eqn:E; simplify_eq. split; [done|].
  intros h' (Hn & _). by rewrite (prefix_lookup_Some _ _ _ _ E Hn).
Qed.

Lemma stable_load_inner l : stable (load_inner l).
Proof.
  intros h r h1 H. unfold load_inner in *.
  destruct (h_nodes h !! l) as [[]|] eqn:E; simplify_eq. split; [done|].
  intros h' (Hn & _). by rewrite (prefix_lookup_Some _ _ _ _ E Hn).
Qed.

Lemma stable_leafValues_of s : stable (leafValues_of s).
Proof.
  intros h r h1 H. unfold leafValues_of in *.
  destruct (store_elems _ _) eqn:E; simplify_eq. split; [done|].
  intros h' (_ & Hl & _). by rewrite (store_elems_prefix _ _ _ _ Hl E).
Qed.

Lemma stable_childRefs_of s : stable (childRefs_of s).
Proof.
  intros h r h1 H. unfold childRefs_of in *.
  destruct (store_elems _ _) eqn:E; simplify_eq. split; [done|].
  intros h' (_ & _ & Hc). by rewrite (store_elems_prefix _ _ _ _ Hc E).
Qed.

Lemma stable_index_leafValues s i : stable (index_leafValues s i).
Proof.
  intros h r h1 H. unfold index_leafValues in *.
  destruct (store_index _ _ _) as [[v|]|] eqn:E; simplify_eq. split; [done|].
  intros h' (_ & Hl & _). by rewrite (store_index_prefix _ _ _ _ _ Hl E).
Qed.

Lemma stable_index_childRefs s i : stable (index_childRefs s i).
Proof.
  intros h r h1 H. unfold index_childRefs in *.
  destruct (store_index _ _ _) as [[v|]|] eqn:E; simplify_eq. split; [done|].
  intros h' (_ & _ & Hc). by rewrite (store_index_prefix _ _ _ _ _ Hc E).
Qed.

Ltac sstep :=
  first [ apply stable_ret | apply stable_panic | apply stable_out_of_fuel | apply stable_lift
        | apply stable_load_node | apply stable_load_leaf | apply stable_load_inner
        | apply stable_leafValues_of | apply stable_childRefs_of
        | apply stable_index_leafValues | apply stable_index_childRefs
        | apply stable_bind; [|intros ?] ].

Lemma stable_leafNode_indexOf l k : stable (leafNode_indexOf l k).
Proof. unfold leafNode_indexOf. repeat sstep. Qed.

Lemma stable_innerNode_indexOf l k : stable (innerNode_indexOf l k).
Proof. unfold innerNode_indexOf. repeat sstep. Qed.

Lemma stable_leafNode_get l k : stable (leafNode_get l k).
Proof.
  unfold leafNode_get. sstep; [sstep|]. sstep; [apply stable_leafNode_indexOf|].
  destruct a0 as [i found]. destruct (negb found); repeat sstep.
Qed.

Lemma stable_innerNode_get rec n k :
  (forall p k, stable (rec p k)) -> stable (innerNode_get rec n k).
Proof.
  intros Hrec. unfold innerNode_get. sstep; [sstep|].
  sstep; [apply stable_innerNode_indexOf|]. sstep; [sstep|].
  destruct (_ =? _); [sstep|apply Hrec].
Qed.

Lemma stable_node_get fuel : forall p k, stable (node_get fuel p k).
Proof.
  induction fuel as [|fuel IH]; intros p k; simpl; [sstep|].
  sstep; [sstep|]. destruct p as [l|]; [|sstep]. destruct a.
  - apply stable_leafNode_get.
  - by apply stable_innerNode_get.
Qed.

Lemma stable_node_ts p : stable (node_ts p).
Proof.
  unfold node_ts. sstep; [sstep|]. destruct p as [l|]; [|sstep].
  destruct a; unfold leafNode_ts, innerNode_ts; repeat sstep.
Qed.

Lemma stable_node_maxKey p : stable (node_maxKey p).
Proof.
  unfold node_maxKey. sstep; [sstep|]. destruct p as [l|]; [|sstep].
  destruct a; unfold leafNode_maxKey, innerNode_maxKey; repeat sstep.
Qed.

(** ** Inversion of a run that returned *)

Lemma bind_Val {A B} (m : M A) (f : A -> M B) h r :
  bind m f h = Val r -> exists a h1, m h = Val (a, h1) /\ f a h1 = Val r.
Proof.
  unfold bind. destruct (m h) as [[a h1]| |]; try discriminate. eauto.
Qed.

Lemma ret_Val {A} (a : A) h r : ret a h = Val r -> r = (a, h).
Proof. unfold ret. congruence. Qed.

Lemma lift_Val {A} (o : option A) h r :
  lift o h = Val r -> exists a, o = Some a /\ r = (a, h).
Proof. destruct o; simpl; unfold ret, panic; intros; simplify_eq; eauto. Qed.

Ltac minv1 :=
  match goal with
  | H : bind _ _ _ = Val _ |- _ =>
      let a := fresh "a" in let h := fresh "h" in let H1 := fresh "H" in
      apply bind_Val in H; destruct H as (a & h & H1 & H)
  | H : ret _ _ = Val _ |- _ => apply ret_Val in H; simplify_eq
  | H : lift _ _ = Val _ |- _ =>
      let a := fresh "a" in let H1 := fresh "H" in
      apply lift_Val in H; destruct H as (a & H1 & H); simplify_eq
  | H : panic _ = Val _ |- _ => discriminate H
  | H : out_of_fuel _ = Val _ |- _ => discriminate H
  | H : (match ?x with _ => _ end) _ = Val _ |- _ => destruct x eqn:?
  | H : (if ?x then _ else _) _ = Val _ |- _ => destruct x eqn:?
  | H : (let '(_, _) := ?x in _) _ = Val _ |- _ => destruct x eqn:?
  end.
Ltac minv := repeat minv1.

(** ** [insertAt] returns no error *)

Lemma leafNode_split_err l h r h' : leafNode_split l h = Val (r, h') -> r.2 = None.
Proof. unfold leafNode_split. intros H. minv; reflexivity. Qed.

Lemma innerNode_split_err n h r h' : innerNode_split n h = Val (r, h') -> r.2 = None.
Proof. unfold innerNode_split. intros H. minv; reflexivity. Qed.

Lemma leafNode_insertAt_err l k v ts h r h' :
  leafNode_insertAt l k v ts h = Val (r, h') -> r.2 = None.
Proof.
  unfold leafNode_insertAt. intros H. minv; try reflexivity.
  all: match goal with
       | H : leafNode_split _ _ = _ |- _ => apply leafNode_split_err in H
       end; done.
Qed.

Lemma node_insertAt_err fuel : forall p k v ts h r h',
  node_insertAt fuel p k v ts h = Val (r, h') -> r.2 = None.
Proof.
  induction fuel as [|fuel IH]; simpl; intros p k v ts h r h' H; [discriminate|].
  minv.
  - eapply leafNode_insertAt_err; eauto.
  - unfold innerNode_insertAt, innerNode_insertAt_one, innerNode_insertAt_two in H.
    minv; try reflexivity;
      repeat match goal with
      | H : node_insertAt _ _ _ _ _ _ = _ |- _ => apply IH in H; simpl in H
      | H : innerNode_split _ _ = _ |- _ => apply innerNode_split_err in H; simpl in H
      end; simplify_eq; done.
Qed.

(** ** The guards of [Insert] *)

Lemma node_ts_heap p h r h' : node_ts p h = Val (r, h') -> h' = h.
Proof. intros H. by destruct (stable_node_ts _ _ _ _ H). Qed.

Lemma TBtree_Insert_closed fuel t key value ts h :
  closed t = true ->
  TBtree_Insert fuel t key value ts h = Val ((Some ErrAlreadyClosed, t), h).
Proof. intros Hc. unfold TBtree_Insert. by rewrite Hc. Qed.

Lemma TBtree_Insert_nil_key fuel t value ts h :
  closed t = false ->
  TBtree_Insert fuel t None value ts h = Val ((Some ErrIllegalArgument, t), h).
Proof. intros Hc. unfold TBtree_Insert. by rewrite Hc. Qed.

Lemma TBtree_Insert_stale_ts fuel t key value ts h rts :
  closed t = false -> node_ts (root t) h = Val (rts, h) -> (ts <= rts)%N ->
  TBtree_Insert fuel t key value ts h = Val ((Some ErrIllegalArgument, t), h).
Proof.
  intros Hc Hts Hle. unfold TBtree_Insert. rewrite Hc.
  destruct key as [k|]; [|done].
  unfold bind at 1. unfold bind at 1. rewrite Hts. unfold ret at 1.
  by rewrite (proj2 (N.leb_le _ _) Hle).
Qed.

Lemma TBtree_Insert_error fuel t key value ts h e t' h' :
  TBtree_Insert fuel t key value ts h = Val ((Some e, t'), h') ->
  t' = t /\ h' = h /\
  (e = ErrAlreadyClosed /\ closed t = true \/
   e = ErrIllegalArgument /\ closed t = false /\
   (key = None \/ exists rts, node_ts (root t) h = Val (rts, h) /\ (ts <= rts)%N)).
Proof.
  unfold TBtree_Insert. intros H. destruct (closed t) eqn:Hc.
  { minv. auto. }
  apply bind_Val in H as (illegal & h1 & Hill & H).
  assert (h1 = h /\ (illegal = true ->
            key = None \/ exists rts, node_ts (root t) h = Val (rts, h) /\ (ts <= rts)%N))
    as [-> Hwhy].
  { clear H. destruct key as [k|]; minv.
    - match goal with
      | H : node_ts _ _ = _ |- _ => pose proof (node_ts_heap _ _ _ _ H) as ->
      end.
      split; [done|]. intros Hle%N.leb_le. right. eauto.
    - auto. }
  destruct illegal.
  { cbn iota in H. minv; (split; [done|]); (split; [done|]); right; auto. }
  cbn iota in H.
  apply bind_Val in H as ([[n1 n2] err] & h2 & Hins & H).
  apply node_insertAt_err in Hins as Herr. simpl in Herr. subst err.
  destruct n2; minv.
Qed.

(** ** A sequence of inserts extends the heap *)

Lemma TBtree_Insert_heap_le fuel t k v ts h r h' :
  TBtree_Insert fuel t k v ts h = Val (r, h') -> heap_le h h'.
Proof. intros H. eapply preserves_TBtree_Insert; [apply heap_le_refl|exact H]. Qed.

Lemma Inserts_heap_le fuel ops : forall t h r h',
  Inserts fuel t ops h = Val (r, h') -> heap_le h h'.
Proof.
  induction ops as [|[[k v] ts] ops IH]; simpl; intros t h r h' H.
  - minv. apply heap_le_refl.
  - minv.
    repeat match goal with
    | H : TBtree_Insert _ _ _ _ _ _ = _ |- _ => apply TBtree_Insert_heap_le in H
    | H : Inserts _ _ _ _ = _ |- _ => apply IH in H
    end.
    eapply heap_le_trans; eauto.
Qed.

(** ** Slices and backing arrays *)

Section StoreFacts.
Context {A : Type}.
Implicit Types (st : store A) (s : slice) (xs : list (option A)).

Lemma store_elems_length st s xs : store_elems st s = Some xs -> length xs = s_len s.
Proof.
  unfold store_elems. destruct (decide (s_len s = 0%nat)) as [->|]; [by intros [= <-]|].
  destruct (st !! s_arr s) as [a|]; simpl; [|done].
  case_decide; [|done]. intros [= <-]. rewrite length_take, length_drop. lia.
Qed.

Lemma store_elems_slice_to st s hi s' xs :
  slice_to s hi = Some s' -> hi <= slice_len s -> store_elems st s = Some xs ->
  store_elems st s' = Some (take (Z.to_nat hi) xs).
Proof.
  unfold slice_to, slice_len. destruct (_ && _) eqn:E; [|done]. intros [= <-] Hhi.
  apply andb_true_iff in E as [?%Z.leb_le _].
  unfold store_elems; simpl.
  destruct (decide (s_len s = 0%nat)) as [Hz|Hz].
  { intros [= <-]. rewrite decide_True by lia. by rewrite take_nil. }
  destruct (st !! s_arr s) as [a|]; simpl; [|done].
  case_decide; [|done]. intros [= <-].
  destruct (decide (Z.to_nat hi = 0%nat)) as [->|]; [done|].
  rewrite decide_True by lia. f_equal.
  rewrite take_take. f_equal. lia.
Qed.

Lemma store_elems_slice_from st s lo s' xs :
  slice_from s lo = Some s' -> store_elems st s = Some xs ->
  store_elems st s' = Some (drop (Z.to_nat lo) xs).
Proof.
  unfold slice_from, slice_len. destruct (_ && _) eqn:E; [|done]. intros [= <-].
  apply andb_true_iff in E as [?%Z.leb_le ?%Z.leb_le].
  unfold store_elems; simpl.
  destruct (decide (s_len s = 0%nat)) as [Hz|Hz].
  { intros [= <-]. rewrite decide_True by lia. by rewrite drop_nil. }
  destruct (st !! s_arr s) as [a|]; simpl; [|done].
  case_decide; [|done]. intros [= <-].
  destruct (decide (s_len s - Z.to_nat lo = 0)%nat) as [Hl|Hl].
  { rewrite drop_ge by (rewrite length_take, length_drop; lia). done. }
  rewrite decide_True by lia. f_equal.
  by rewrite skipn_firstn_comm, drop_drop.
Qed.

Lemma store_make_Some st n :
  0 <= n ->
  store_make st n = Some (Slice (length st) 0 (Z.to_nat n) 0,
                          st ++ [replicate (Z.to_nat n) None]).
Proof. intros Hn. unfold store_make. by rewrite (proj2 (Z.leb_le _ _) Hn). Qed.

(** Writes to the array allocated last. *)
Lemma store_assign_last st (arr : list (option A)) off n spare i x :
  0 <= i < Z.of_nat n -> (off + Z.to_nat i < length arr)%nat ->
  store_assign (st ++ [arr]) (Slice (length st) off n spare) i x
    = Some (st ++ [<[(off + Z.to_nat i)%nat := x]> arr]).
Proof.
  intros Hi Hlen. unfold store_assign, slice_len. cbn [s_arr s_off s_len].
  rewrite (proj2 (andb_true_iff _ _)) by
    (split; [apply Z.leb_le|apply Z.ltb_lt]; lia).
  rewrite list_lookup_middle by done. simpl.
  rewrite decide_True by done. f_equal.
  rewrite insert_app_r_alt by done. by rewrite Nat.sub_diag.
Qed.

Lemma store_copy_last st (arr : list (option A)) off n spare src xs :
  (off + n <= length arr)%nat ->
  store_elems st src = Some xs ->
  store_copy (st ++ [arr]) (Slice (length st) off n spare) src
    = Some (st ++ [take off arr
                   ++ take (n `min` s_len src) xs
                   ++ drop (off + n `min` s_len src) arr]).
Proof.
  intros Hlen Hxs. unfold store_copy. cbn [s_arr s_off s_len].
  destruct (decide (_ = 0%nat)) as [Hz|Hz].
  { rewrite Hz, Nat.add_0_r. simpl. by rewrite take_drop. }
  rewrite (store_elems_prefix st (st ++ [arr]) _ _ (prefix_app_r _ _ _ (reflexivity _)) Hxs).
  simpl. rewrite list_lookup_middle by done. simpl.
  rewrite decide_True by done. f_equal.
  rewrite insert_app_r_alt by done. by rewrite Nat.sub_diag.
Qed.

Lemma store_elems_last st (arr : list (option A)) s :
  s_arr s = length st -> (s_off s + s_len s <= length arr)%nat ->
  store_elems (st ++ [arr]) s = Some (take (s_len s) (drop (s_off s) arr)).
Proof.
  intros Ha Hlen. unfold store_elems.
  destruct (decide (s_len s = 0%nat)) as [->|]; [done|].
  rewrite Ha, list_lookup_middle by done. simpl. by rewrite decide_True.
Qed.

Lemma store_elems_last_whole st xs n spare :
  n = length xs -> store_elems (st ++ [xs]) (Slice (length st) 0 n spare) = Some xs.
Proof.
  intros ->. rewrite store_elems_last by (simpl; lia). simpl. by rewrite take_ge.
Qed.

Lemma store_index_elems st s i xs :
  store_elems st s = Some xs -> 0 <= i ->
  store_index st s i = xs !! Z.to_nat i.
Proof.
  intros Hxs Hi. pose proof (store_elems_length _ _ _ Hxs) as Hlen.
  unfold store_index, slice_len. rewrite (proj2 (Z.leb_le _ _) Hi). simpl.
  destruct (i <? Z.of_nat (s_len s)) eqn:E.
  - apply Z.ltb_lt in E. unfold store_elems in Hxs.
    destruct (decide (s_len s = 0%nat)); [lia|].
    destruct (st !! s_arr s) as [a|]; simpl in *; [|done].
    case_decide; [|done]. simplify_eq.
    rewrite lookup_take_lt by lia. by rewrite lookup_drop.
  - apply Z.ltb_ge in E. symmetry. apply lookup_ge_None. lia.
Qed.
End StoreFacts.

(** ** Running a computation forward *)

Lemma run_bind {A B} (m : M A) (f : A -> M B) h a h1 :
  m h = Val (a, h1) -> bind m f h = f a h1.
Proof. unfold bind. by intros ->. Qed.

Lemma run_lift {A} (o : option A) a h : o = Some a -> lift o h = Val (a, h).
Proof. by intros ->. Qed.

Lemma run_load_node l o h :
  h_nodes h !! l = Some o -> load_node (Some l) h = Val (o, h).
Proof. unfold load_node. by intros ->. Qed.

Lemma run_load_leaf l ln h :
  h_nodes h !! l = Some (LeafNode ln) -> load_leaf l h = Val (ln, h).
Proof. unfold load_leaf. by intros ->. Qed.

Lemma run_load_inner n nd h :
  h_nodes h !! n = Some (InnerNode nd) -> load_inner n h = Val (nd, h).
Proof. unfold load_inner. by intros ->. Qed.

Lemma run_update_leaf l ln f h :
  h_nodes h !! l = Some (LeafNode ln) ->
  update_leaf l f h
    = Val (tt, mkHeap (<[l := LeafNode (f ln)]> (h_nodes h)) (h_leafValues h) (h_childRefs h)).
Proof.
  intros Hl. unfold update_leaf. rewrite (run_bind _ _ _ _ _ (run_load_leaf _ _ _ Hl)).
  unfold store_node. rewrite decide_True; [done|]. by eapply lookup_lt_Some.
Qed.

Lemma run_update_inner n nd f h :
  h_nodes h !! n = Some (InnerNode nd) ->
  update_inner n f h
    = Val (tt, mkHeap (<[n := InnerNode (f nd)]> (h_nodes h)) (h_leafValues h) (h_childRefs h)).
Proof.
  intros Hl. unfold update_inner. rewrite (run_bind _ _ _ _ _ (run_load_inner _ _ _ Hl)).
  unfold store_node. rewrite decide_True; [done|]. by eapply lookup_lt_Some.
Qed.

Lemma run_leafValues_of s es h :
  store_elems (h_leafValues h) s = Some es -> leafValues_of s h = Val (es, h).
Proof. unfold leafValues_of. by intros ->. Qed.

Lemma run_childRefs_of s cs h :
  store_elems (h_childRefs h) s = Some cs -> childRefs_of s h = Val (cs, h).
Proof. unfold childRefs_of. by intros ->. Qed.

(** ** leafNode.indexOf *)

Lemma leafNode_indexOf_loop_range es key : forall i0 i found,
  leafNode_indexOf_loop es key i0 = Some (i, found) ->
  i0 <= i <= i0 + Z.of_nat (length es) /\
  (found = true -> i < i0 + Z.of_nat (length es)).
Proof.
  induction es as [|[v|] es IH]; simpl; intros i0 i found H.
  - simplify_eq. split; [lia|done].
  - destruct (bytes_Equal _ _); [simplify_eq; split; [lia|intros; lia]|].
    destruct (_ =? 1); [simplify_eq; split; [lia|done]|].
    destruct (IH _ _ _ H) as [H1 H2]. split; [lia|]. intros Hf. specialize (H2 Hf). lia.
  - done.
Qed.

Lemma run_leafNode_indexOf l key h ln es :
  h_nodes h !! l = Some (LeafNode ln) ->
  store_elems (h_leafValues h) (l_values ln) = Some es ->
  leafNode_indexOf l key h = lift (leafNode_indexOf_loop es key 0) h.
Proof.
  intros Hl Hes. unfold leafNode_indexOf.
  rewrite (run_bind _ _ _ _ _ (run_load_leaf _ _ _ Hl)).
  by rewrite (run_bind _ _ _ _ _ (run_leafValues_of _ _ _ Hes)).
Qed.

Lemma leafNode_indexOf_Val l key h r h' :
  leafNode_indexOf l key h = Val (r, h') ->
  h' = h /\ exists ln es,
    h_nodes h !! l = Some (LeafNode ln) /\
    store_elems (h_leafValues h) (l_values ln) = Some es /\
    leafNode_indexOf_loop es key 0 = Some r.
Proof.
  unfold leafNode_indexOf, load_leaf, leafValues_of. intros H.
  apply bind_Val in H as (ln & h1 & H1 & H).
  destruct (h_nodes h !! l) as [[ln'|]|] eqn:El; simplify_eq.
  apply bind_Val in H as (es & h2 & H2 & H).
  destruct (store_elems _ _) as [es'|] eqn:Ees; simplify_eq.
  apply lift_Val in H as (a & Ha & H). simplify_eq. eauto 10.
Qed.

(** ** Overwriting a window of an array *)

Lemma splice_eq {A} (arr pre mid post xs : list A) (off n : nat) :
  arr = pre ++ mid ++ post -> length pre = off -> length mid = n ->
  take off arr ++ xs ++ drop (off + n) arr = pre ++ xs ++ post.
Proof.
  intros -> <- <-. rewrite take_app_length. f_equal. f_equal.
  rewrite drop_app_add, drop_app_length. done.
Qed.

Lemma replicate_split {A} (x : A) (i m : nat) :
  (i <= m)%nat -> replicate (S m) x = replicate i x ++ x :: replicate (m - i) x.
Proof.
  intros Hi. replace (S m) with (i + S (m - i))%nat by lia.
  by rewrite replicate_add.
Qed.

Lemma insert_at_end {A} (pre post : list A) (i : nat) x y :
  length pre = i -> <[i := y]> (pre ++ x :: post) = pre ++ y :: post.
Proof.
  intros <-. rewrite insert_app_r_alt by done. by rewrite Nat.sub_diag.
Qed.

(** ** leafNode.insertAt, the key not found *)

Lemma run_leafNode_insertAt_new l key value ts h ln es i :
  h_nodes h !! l = Some (LeafNode ln) ->
  store_elems (h_leafValues h) (l_values ln) = Some es ->
  leafNode_indexOf_loop es key 0 = Some (i, false) ->
  let lv := mkLeafValue key ts 0%N value in
  let newLeaf := length (h_nodes h) in
  leafNode_insertAt l key value ts h =
    (do '(n2, err) <- leafNode_split newLeaf; ret (Some newLeaf, n2, err))
      (mkHeap
         (h_nodes h ++
          [LeafNode (mkLeafNode (Some l)
                       (Slice (length (h_leafValues h)) 0 (S (length es)) 0) ts
                       (int_add (l_csize ln) (leafValue_size lv)) (l_maxSize ln) 0%N)])
         (h_leafValues h ++ [take (Z.to_nat i) es ++ Some lv :: drop (Z.to_nat i) es])
         (h_childRefs h)).
Proof.
  intros Hl Hes Hidx lv newLeaf.
  pose proof (store_elems_length _ _ _ Hes) as Hlen.
  destruct (leafNode_indexOf_loop_range _ _ _ _ _ Hidx) as [Hi _].
  unfold leafNode_insertAt.
  rewrite (run_bind _ _ _ _ _ (run_load_leaf _ _ _ Hl)).
  rewrite (run_bind _ _ _ (i, false) h)
    by (erewrite run_leafNode_indexOf by eauto; by apply run_lift).
  cbn beta iota.
  (* make *)
  unfold make_leafValues at 1. unfold bind at 1.
  unfold slice_len. rewrite <- Hlen.
  rewrite store_make_Some by lia.
  replace (Z.to_nat (Z.of_nat (length es) + 1)) with (S (length es)) by lia.
  (* alloc *)
  unfold alloc_node at 1. unfold bind at 1. cbn [h_nodes h_leafValues h_childRefs].
  (* copy(newLeaf.values[:i], l.values[:i]) *)
  assert (slice_to (Slice (length (h_leafValues h)) 0 (S (length es)) 0) i = Some (Slice (length (h_leafValues h)) 0 (Z.to_nat i)
                                   (S (length es) - Z.to_nat i))) as Hd.
  { unfold slice_to, s_cap. simpl.
    rewrite (proj2 (andb_true_iff _ _)) by (split; apply Z.leb_le; lia).
    do 2 f_equal. lia. }
  rewrite (run_bind _ _ _ _ _ (run_lift _ _ _ Hd)).
  assert (exists s, slice_to (l_values ln) i = Some s) as [s Hs].
  { unfold slice_to, s_cap.
    rewrite (proj2 (andb_true_iff _ _)) by (split; apply Z.leb_le; lia). eauto. }
  rewrite (run_bind _ _ _ _ _ (run_lift _ _ _ Hs)).
  pose proof (store_elems_slice_to _ _ _ _ _ Hs ltac:(unfold slice_len; lia) Hes) as Hes1.
  assert (s_len s = Z.to_nat i) as Hslen.
  { apply store_elems_length in Hes1. rewrite length_take in Hes1. lia. }
  unfold copy_leafValues at 1. unfold bind at 1. cbn [h_nodes h_leafValues h_childRefs].
  rewrite (store_copy_last _ _ _ _ _ _ (take (Z.to_nat i) es))
    by (first [exact Hes1 | simpl; rewrite length_replicate; lia]).
  rewrite Hslen, Nat.min_id, take_take, Nat.min_id.
  rewrite (splice_eq _ [] (replicate (Z.to_nat i) None)
             (None :: replicate (length es - Z.to_nat i) None))
    by (try apply length_replicate; try done; simpl; apply replicate_split; lia).
  (* newLeaf.values[i] = lv *)
  unfold assign_leafValues at 1. unfold bind at 1. cbn [h_nodes h_leafValues h_childRefs].
  rewrite store_assign_last
    by (first [lia | simpl; rewrite length_app, length_take; simpl;
                     rewrite length_replicate; lia]).
  cbn [app]. rewrite Nat.add_0_l.
  rewrite (insert_at_end _ _ _ _ (Some lv)) by (rewrite length_take; lia).
  (* the tail *)
  cbn [s_len].
  destruct (i + 1 <? Z.of_nat (S (length es))) eqn:Hlt.
  - apply Z.ltb_lt in Hlt.
    assert (slice_from (Slice (length (h_leafValues h)) 0 (S (length es)) 0) (i + 1)
            = Some (Slice (length (h_leafValues h)) (Z.to_nat i + 1)
                      (length es - Z.to_nat i) 0)) as Hd2.
    { unfold slice_from, slice_len. simpl.
      rewrite (proj2 (andb_true_iff _ _)) by (split; apply Z.leb_le; lia).
      do 2 f_equal; lia. }
    assert (exists s2, slice_from (l_values ln) i = Some s2) as [s2 Hs2].
    { unfold slice_from, slice_len.
      rewrite (proj2 (andb_true_iff _ _)) by (split; apply Z.leb_le; lia). eauto. }
    pose proof (store_elems_slice_from _ _ _ _ _ Hs2 Hes) as Hes2.
    assert (s_len s2 = (length es - Z.to_nat i)%nat) as Hs2len.
    { apply store_elems_length in Hes2. rewrite length_drop in Hes2. lia. }
    unfold bind at 1. unfold bind at 1.
    rewrite (run_lift _ _ _ Hd2). unfold bind at 1. rewrite (run_lift _ _ _ Hs2).
    unfold copy_leafValues. cbn [h_nodes h_leafValues h_childRefs].
    rewrite (store_copy_last _ _ _ _ _ _ (drop (Z.to_nat i) es))
      by (first [exact Hes2 | simpl; rewrite length_app, length_take; simpl;
                              rewrite length_replicate; lia]).
    rewrite Hs2len, Nat.min_id.
    rewrite (take_ge (drop _ _)) by (rewrite length_drop; lia).
    rewrite (splice_eq _ (take (Z.to_nat i) es ++ [Some lv])
               (replicate (length es - Z.to_nat i) None) [])
      by (rewrite ?length_app, ?length_take, ?length_replicate, ?app_nil_r,
            <- ?app_assoc; simpl; try done; lia).
    rewrite app_nil_r, <- app_assoc. done.
  - apply Z.ltb_ge in Hlt. unfold bind at 1. unfold ret at 1.
    replace (length es - Z.to_nat i)%nat with 0%nat by lia. simpl.
    rewrite (drop_ge es) by lia. done.
Qed.

Lemma leafNode_indexOf_loop_found es key : forall i0 i,
  leafNode_indexOf_loop es key i0 = Some (i, true) ->
  exists old, es !! Z.to_nat (i - i0) = Some (Some old) /\
              bytes_Equal (lv_key old) key = true.
Proof.
  induction es as [|[v|] es IH]; simpl; intros i0 i H; [done| |done].
  destruct (bytes_Equal (lv_key v) key) eqn:E.
  { simplify_eq. rewrite Z.sub_diag. simpl. eauto. }
  destruct (_ =? 1); [done|].
  pose proof (leafNode_indexOf_loop_range _ _ _ _ _ H) as [Hr _].
  destruct (IH _ _ H) as (old & Hold & Hk). exists old. split; [|done].
  replace (Z.to_nat (i - i0)) with (S (Z.to_nat (i - (i0 + 1)))) by lia. done.
Qed.

(** ** leafNode.insertAt, the key found *)

Lemma run_leafNode_insertAt_found l key value ts h ln es i old :
  h_nodes h !! l = Some (LeafNode ln) ->
  store_elems (h_leafValues h) (l_values ln) = Some es ->
  leafNode_indexOf_loop es key 0 = Some (i, true) ->
  es !! Z.to_nat i = Some (Some old) ->
  let lv := mkLeafValue key ts (lv_ts old) value in
  leafNode_insertAt l key value ts h =
    Val ((Some (length (h_nodes h)), None, None),
      mkHeap
         (h_nodes h ++
          [LeafNode (mkLeafNode (Some l)
                       (Slice (length (h_leafValues h)) 0 (length es) 0) ts
                       (l_csize ln) (l_maxSize ln) 0%N)])
         (h_leafValues h ++ [take (Z.to_nat i) es ++ Some lv :: drop (S (Z.to_nat i)) es])
         (h_childRefs h)).
Proof.
  intros Hl Hes Hidx Hold lv.
  pose proof (store_elems_length _ _ _ Hes) as Hlen.
  destruct (leafNode_indexOf_loop_range _ _ _ _ _ Hidx) as [Hi Hi'].
  specialize (Hi' eq_refl).
  unfold leafNode_insertAt.
  rewrite (run_bind _ _ _ _ _ (run_load_leaf _ _ _ Hl)).
  rewrite (run_bind _ _ _ (i, true) h)
    by (erewrite run_leafNode_indexOf by eauto; by apply run_lift).
  cbn beta iota.
  unfold make_leafValues at 1. unfold bind at 1.
  unfold slice_len. rewrite <- Hlen.
  rewrite store_make_Some by lia. rewrite Nat2Z.id.
  unfold alloc_node at 1. unfold bind at 1. cbn [h_nodes h_leafValues h_childRefs].
  assert (slice_to (Slice (length (h_leafValues h)) 0 (length es) 0) i
          = Some (Slice (length (h_leafValues h)) 0 (Z.to_nat i)
                    (length es - Z.to_nat i))) as Hd.
  { unfold slice_to, s_cap. simpl.
    rewrite (proj2 (andb_true_iff _ _)) by (split; apply Z.leb_le; lia).
    do 2 f_equal. lia. }
  rewrite (run_bind _ _ _ _ _ (run_lift _ _ _ Hd)).
  assert (exists s, slice_to (l_values ln) i = Some s) as [s Hs].
  { unfold slice_to, s_cap.
    rewrite (proj2 (andb_true_iff _ _)) by (split; apply Z.leb_le; lia). eauto. }
  rewrite (run_bind _ _ _ _ _ (run_lift _ _ _ Hs)).
  pose proof (store_elems_slice_to _ _ _ _ _ Hs ltac:(unfold slice_len; lia) Hes) as Hes1.
  assert (s_len s = Z.to_nat i) as Hslen.
  { apply store_elems_length in Hes1. rewrite length_take in Hes1. lia. }
  unfold copy_leafValues at 1. unfold bind at 1. cbn [h_nodes h_leafValues h_childRefs].
  rewrite (store_copy_last _ _ _ _ _ _ (take (Z.to_nat i) es))
    by (first [exact Hes1 | simpl; rewrite length_replicate; lia]).
  rewrite Hslen, Nat.min_id, take_take, Nat.min_id.
  rewrite (splice_eq _ [] (replicate (Z.to_nat i) None)
             (None :: replicate (length es - S (Z.to_nat i)) None))
    by (try apply length_replicate; try done; simpl;
        replace (length es) with (S (length es - 1)) at 1 by lia;
        rewrite (replicate_split _ (Z.to_nat i)) by lia; do 3 f_equal; lia).
  (* prevTs: l.values[i].ts *)
  unfold index_leafValues at 1. unfold bind at 1. cbn [h_nodes h_leafValues h_childRefs].
  rewrite (store_index_elems _ _ _ es)
    by (first [lia | apply (store_elems_prefix (h_leafValues h));
                     [by apply prefix_app_r | exact Hes]]).
  rewrite Hold.
  unfold assign_leafValues at 1. unfold bind at 1. cbn [h_nodes h_leafValues h_childRefs].
  rewrite store_assign_last
    by (first [lia | simpl; rewrite length_app, length_take; simpl;
                     rewrite length_replicate; lia]).
  cbn [app]. rewrite Nat.add_0_l.
  rewrite (insert_at_end _ _ _ _ (Some lv)) by (rewrite length_take; lia).
  cbn [s_len].
  destruct (i + 1 <? Z.of_nat (length es)) eqn:Hlt.
  - apply Z.ltb_lt in Hlt.
    assert (slice_from (Slice (length (h_leafValues h)) 0 (length es) 0) (i + 1)
            = Some (Slice (length (h_leafValues h)) (Z.to_nat i + 1)
                      (length es - S (Z.to_nat i)) 0)) as Hd2.
    { unfold slice_from, slice_len. simpl.
      rewrite (proj2 (andb_true_iff _ _)) by (split; apply Z.leb_le; lia).
      do 2 f_equal; lia. }
    assert (exists s2, slice_from (l_values ln) (i + 1) = Some s2) as [s2 Hs2].
    { unfold slice_from, slice_len.
      rewrite (proj2 (andb_true_iff _ _)) by (split; apply Z.leb_le; lia). eauto. }
    pose proof (store_elems_slice_from _ _ _ _ _ Hs2 Hes) as Hes2.
    replace (Z.to_nat (i + 1)) with (S (Z.to_nat i)) in Hes2 by lia.
    assert (s_len s2 = (length es - S (Z.to_nat i))%nat) as Hs2len.
    { apply store_elems_length in Hes2. rewrite length_drop in Hes2. lia. }
    unfold bind at 1. unfold bind at 1.
    rewrite (run_lift _ _ _ Hd2). unfold bind at 1. rewrite (run_lift _ _ _ Hs2).
    unfold copy_leafValues. cbn [h_nodes h_leafValues h_childRefs].
    rewrite (store_copy_last _ _ _ _ _ _ (drop (S (Z.to_nat i)) es))
      by (first [exact Hes2 | simpl; rewrite length_app, length_take; simpl;
                              rewrite length_replicate; lia]).
    rewrite Hs2len, Nat.min_id.
    rewrite (take_ge (drop _ _)) by (rewrite length_drop; lia).
    rewrite (splice_eq _ (take (Z.to_nat i) es ++ [Some lv])
               (replicate (length es - S (Z.to_nat i)) None) [])
      by (rewrite ?length_app, ?length_take, ?length_replicate, ?app_nil_r,
            <- ?app_assoc; simpl; try done; lia).
    unfold bind, ret. rewrite app_nil_r, <- app_assoc. done.
  - apply Z.ltb_ge in Hlt. unfold bind, ret.
    replace (length es - S (Z.to_nat i))%nat with 0%nat by lia. simpl.
    rewrite (drop_ge es) by lia. done.
Qed.

(** ** leafNode.updateTs and leafNode.split *)

Lemma run_leafNode_updateTs l h ln es cts :
  h_nodes h !! l = Some (LeafNode ln) ->
  store_elems (h_leafValues h) (l_values ln) = Some es ->
  leafNode_updateTs_loop es 0%N = Some cts ->
  leafNode_updateTs l h
    = Val (tt, mkHeap (<[l := LeafNode (set_l_cts cts ln)]> (h_nodes h))
                      (h_leafValues h) (h_childRefs h)).
Proof.
  intros Hl Hes Hloop. unfold leafNode_updateTs.
  assert (l < length (h_nodes h))%nat as Hlt by (by eapply lookup_lt_Some).
  rewrite (run_bind _ _ _ _ _ (run_update_leaf _ _ _ _ Hl)).
  erewrite run_bind;
    [|apply run_load_leaf; simpl; by apply list_lookup_insert_eq].
  erewrite run_bind; [|by apply run_leafValues_of].
  erewrite run_bind; [|by apply run_lift].
  erewrite run_update_leaf by (simpl; by apply list_lookup_insert_eq).
  simpl. by rewrite list_insert_insert_eq.
Qed.

Lemma leafNode_splitInfo_loop_range es maxSize : forall i0 si0 ss0 si ss,
  leafNode_splitInfo_loop es maxSize i0 si0 ss0 = Some (si, ss) ->
  (es = [] /\ si = si0) \/ (i0 <= si < i0 + Z.of_nat (length es)).
Proof.
  induction es as [|[v|] es IH]; simpl; intros i0 si0 ss0 si ss H; [by left; simplify_eq| |done].
  right. destruct (_ >? _); [simplify_eq; lia|].
  apply IH in H as [[-> ->]|H]; simpl; lia.
Qed.

Lemma run_leafNode_split l h ln es si ss ctsL ctsR :
  h_nodes h !! l = Some (LeafNode ln) ->
  store_elems (h_leafValues h) (l_values ln) = Some es ->
  l_maxSize ln < l_csize ln ->
  leafNode_splitInfo_loop es (l_maxSize ln) 0 0 0 = Some (si, ss) ->
  leafNode_updateTs_loop (take (Z.to_nat si) es) 0%N = Some ctsL ->
  leafNode_updateTs_loop (drop (Z.to_nat si) es) 0%N = Some ctsR ->
  exists left right,
    slice_to (l_values ln) si = Some left /\
    slice_from (l_values ln) si = Some right /\
    leafNode_split l h =
      Val ((Some (length (h_nodes h)), None),
        mkHeap
          (<[l := LeafNode (mkLeafNode (l_prevNode ln) left ctsL ss (l_maxSize ln) (l_offset ln))]>
             (h_nodes h) ++
           [LeafNode (mkLeafNode None right ctsR (int_sub (l_csize ln) ss) (l_maxSize ln) 0%N)])
          (h_leafValues h) (h_childRefs h)).
Proof.
  intros Hl Hes Hbig Hinfo HL HR.
  pose proof (store_elems_length _ _ _ Hes) as Hlen.
  assert (l < length (h_nodes h))%nat as Hlt by (by eapply lookup_lt_Some).
  assert (0 <= si <= Z.of_nat (length es)) as Hsi.
  { apply leafNode_splitInfo_loop_range in Hinfo as [[-> ->]|?]; simpl; lia. }
  assert (exists left, slice_to (l_values ln) si = Some left) as [left Hleft].
  { unfold slice_to, s_cap.
    rewrite (proj2 (andb_true_iff _ _)) by (split; apply Z.leb_le; lia). eauto. }
  assert (exists right, slice_from (l_values ln) si = Some right) as [right Hright].
  { unfold slice_from, slice_len.
    rewrite (proj2 (andb_true_iff _ _)) by (split; apply Z.leb_le; lia). eauto. }
  exists left, right. split; [done|]. split; [done|].
  unfold leafNode_split.
  rewrite (run_bind _ _ _ _ _ (run_load_leaf _ _ _ Hl)).
  rewrite (proj2 (Z.leb_gt _ _) Hbig).
  rewrite (run_bind _ _ _ (si, ss) h).
  2:{ unfold leafNode_splitInfo.
      rewrite (run_bind _ _ _ _ _ (run_load_leaf _ _ _ Hl)).
      erewrite run_bind; [|by apply run_leafValues_of].
      by apply run_lift. }
  cbn beta iota.
  rewrite (run_bind _ _ _ _ _ (run_lift _ _ _ Hright)).
  unfold alloc_node at 1. unfold bind at 1.
  erewrite run_bind.
  2:{ eapply run_leafNode_updateTs.
      - simpl. by apply list_lookup_middle.
      - simpl. eapply store_elems_slice_from; eauto.
      - exact HR. }
  cbn [h_nodes h_leafValues h_childRefs set_l_cts l_prevNode l_values l_csize l_maxSize l_offset].
  rewrite (run_bind _ _ _ _ _ (run_lift _ _ _ Hleft)).
  erewrite run_bind.
  2:{ eapply run_update_leaf. simpl.
      rewrite list_lookup_insert_ne by lia. by rewrite lookup_app_l. }
  erewrite run_bind.
  2:{ eapply run_update_leaf. simpl. apply list_lookup_insert_eq.
      rewrite length_insert, length_app. lia. }
  erewrite run_bind.
  2:{ eapply run_leafNode_updateTs.
      - simpl. apply list_lookup_insert_eq.
        rewrite !length_insert, length_app. lia.
      - simpl. eapply store_elems_slice_to; eauto. unfold slice_len. lia.
      - exact HL. }
  unfold ret. simpl. do 3 f_equal.
  rewrite !list_insert_insert_eq.
  rewrite (insert_app_r_alt _ _ (length (h_nodes h))) by lia.
  rewrite Nat.sub_diag. simpl.
  by rewrite insert_app_l by done.
Qed.

(** ** The loops of a leaf on a run of entries *)

Lemma leafNode_updateTs_loop_max vs : forall cts,
  leafNode_updateTs_loop (Some <$> vs) cts = Some (N.max cts (max_ts vs)).
Proof.
  induction vs as [|v vs IH]; simpl; intros cts.
  - f_equal. lia.
  - rewrite IH. f_equal. destruct (cts <? lv_ts v)%N eqn:E;
      [apply N.ltb_lt in E|apply N.ltb_ge in E]; lia.
Qed.

Lemma size_upto_S vs i v :
  vs !! i = Some v ->
  size_upto vs (S i) = int_add (size_upto vs i) (leafValue_size v).
Proof.
  intros Hv. unfold size_upto.
  rewrite (take_S_r _ _ _ Hv), foldl_app. done.
Qed.

Lemma not_overflows_le vs maxSize i v :
  vs !! i = Some v ->
  (int_add (size_upto vs i) (leafValue_size v) >? maxSize) = false ->
  ~ overflows vs maxSize i.
Proof.
  intros Hv Hle (v' & Hv' & Hgt). simplify_eq.
  apply Z.gtb_gt in Hgt. congruence.
Qed.

Lemma not_overflows_ge vs maxSize i : (length vs <= i)%nat -> ~ overflows vs maxSize i.
Proof. intros Hi (v & Hv & _). apply lookup_lt_Some in Hv. lia. Qed.

(** [splitInfo] from index [length pre] on, no earlier entry overflowing. *)
Lemma leafNode_splitInfo_loop_spec maxSize rest : forall pre si0,
  (forall j, (j < length pre)%nat -> ~ overflows (pre ++ rest) maxSize j) ->
  exists (si : nat) ss,
    leafNode_splitInfo_loop (Some <$> rest) maxSize
      (Z.of_nat (length pre)) si0 (size_upto (pre ++ rest) (length pre))
      = Some (if decide (rest = []) then si0 else Z.of_nat si, ss) /\
    (rest <> [] ->
     (forall j, (j < si)%nat -> ~ overflows (pre ++ rest) maxSize j) /\
     (overflows (pre ++ rest) maxSize si /\ ss = size_upto (pre ++ rest) si \/
      (forall j, ~ overflows (pre ++ rest) maxSize j) /\
      si = (length (pre ++ rest) - 1)%nat /\
      ss = size_upto (pre ++ rest) (length (pre ++ rest)))).
Proof.
  induction rest as [|v rest IH]; intros pre si0 Hpre.
  { exists 0%nat, (size_upto (pre ++ []) (length pre)). simpl. done. }
  assert ((pre ++ v :: rest) !! length pre = Some v) as Hv by (by apply list_lookup_middle).
  simpl.
  destruct (int_add _ _ >? maxSize) eqn:E.
  { exists (length pre), (size_upto (pre ++ v :: rest) (length pre)).
    split; [done|]. intros _. split; [done|]. left. split; [|done].
    exists v. split; [done|]. by apply Z.gtb_gt. }
  specialize (IH (pre ++ [v]) (Z.of_nat (length pre))).
  rewrite <- !app_assoc in IH. simpl in IH.
  rewrite length_app in IH. simpl in IH.
  destruct IH as (si & ss & Hloop & Hspec).
  { intros j Hj. destruct (decide (j = length pre)) as [->|].
    - by eapply not_overflows_le.
    - apply Hpre. lia. }
  rewrite Nat.add_1_r, (size_upto_S _ _ _ Hv) in Hloop.
  replace (Z.of_nat (length pre) + 1) with (Z.of_nat (S (length pre))) by lia.
  destruct (decide (rest = [])) as [->|Hne].
  - exists (length pre), ss. split; [exact Hloop|]. intros _. split; [done|].
    right. simpl in Hloop. simplify_eq.
    split; [|split].
    + intros j. destruct (decide (j < length pre)%nat); [by apply Hpre|].
      destruct (decide (j = length pre)) as [->|]; [by eapply not_overflows_le|].
      apply not_overflows_ge. rewrite length_app. simpl. lia.
    + rewrite length_app. simpl. lia.
    + rewrite length_app. simpl. rewrite Nat.add_1_r. by erewrite size_upto_S.
  - exists si, ss. split; [exact Hloop|]. intros _. by apply Hspec.
Qed.

Lemma leafNode_splitInfo_loop_entries maxSize vs :
  vs <> [] ->
  exists (si : nat) ss,
    leafNode_splitInfo_loop (Some <$> vs) maxSize 0 0 0 = Some (Z.of_nat si, ss) /\
    (si < length vs)%nat /\
    (forall j, (j < si)%nat -> ~ overflows vs maxSize j) /\
    (overflows vs maxSize si /\ ss = size_upto vs si \/
     (forall j, ~ overflows vs maxSize j) /\
     si = (length vs - 1)%nat /\ ss = size_upto vs (length vs)).
Proof.
  intros Hne.
  destruct (leafNode_splitInfo_loop_spec maxSize vs [] 0) as (si & ss & Hloop & Hspec).
  { simpl. intros j Hj. lia. }
  simpl in Hloop. rewrite decide_False in Hloop by done.
  exists si, ss. split; [exact Hloop|].
  destruct (Hspec Hne) as [Hbefore Hat]. simpl in *.
  split; [|done].
  destruct Hat as [[(v & Hv & _) _]|(_ & -> & _)].
  - by eapply lookup_lt_Some.
  - destruct vs; [done|simpl; lia].
Qed.

Lemma leafNode_splitInfo_loop_all maxSize vs :
  exists (si : nat) ss,
    leafNode_splitInfo_loop (Some <$> vs) maxSize 0 0 0 = Some (Z.of_nat si, ss) /\
    (si <= length vs)%nat /\
    (forall j, (j < si)%nat -> ~ overflows vs maxSize j) /\
    (overflows vs maxSize si /\ ss = size_upto vs si \/
     (forall j, ~ overflows vs maxSize j) /\
     si = (length vs - 1)%nat /\ ss = size_upto vs (length vs)).
Proof.
  destruct (decide (vs = [])) as [->|Hne].
  - exists 0%nat, 0. split; [done|]. split; [done|]. split; [intros; lia|].
    right. split; [|done]. intros j. apply not_overflows_ge. simpl. lia.
  - destruct (leafNode_splitInfo_loop_entries maxSize vs Hne)
      as (si & ss & Hloop & Hlt & Hspec).
    exists si, ss. split; [done|]. split; [lia|done].
Qed.

(** ** The order of keys *)

Lemma to_N_inj (x y : byte) : Byte.to_N x = Byte.to_N y -> x = y.
Proof.
  intros H. pose proof (Byte.of_to_N x) as Hx. rewrite H, Byte.of_to_N in Hx.
  congruence.
Qed.

Lemma compare_list_refl a : compare_list a a = 0.
Proof.
  induction a as [|x a IH]; simpl; [done|].
  by rewrite N.ltb_irrefl.
Qed.

Lemma compare_list_eq a : forall b, compare_list a b = 0 -> a = b.
Proof.
  induction a as [|x a IH]; intros [|y b]; simpl; try done.
  destruct (N.ltb_spec (Byte.to_N x) (Byte.to_N y)); [done|].
  destruct (N.ltb_spec (Byte.to_N y) (Byte.to_N x)); [done|].
  intros Hab. f_equal; [apply to_N_inj; lia|by apply IH].
Qed.

Lemma compare_list_antisym a : forall b,
  compare_list a b = -1 <-> compare_list b a = 1.
Proof.
  induction a as [|x a IH]; intros [|y b]; simpl; try done.
  destruct (N.ltb_spec (Byte.to_N x) (Byte.to_N y));
    destruct (N.ltb_spec (Byte.to_N y) (Byte.to_N x)); try done; try lia;
    try apply IH.
Qed.

Lemma compare_list_cases a : forall b,
  compare_list a b = -1 \/ compare_list a b = 0 \/ compare_list a b = 1.
Proof.
  induction a as [|x a IH]; intros [|y b]; simpl; auto.
  destruct (_ <? _)%N; [auto|]. destruct (_ <? _)%N; auto.
Qed.

Lemma compare_list_trans a : forall b c,
  compare_list a b = -1 -> compare_list b c = -1 -> compare_list a c = -1.
Proof.
  induction a as [|x a IH]; intros [|y b] [|z c]; simpl; try done.
  destruct (N.ltb_spec (Byte.to_N x) (Byte.to_N y)).
  - intros _.
    destruct (N.ltb_spec (Byte.to_N y) (Byte.to_N z)).
    + intros _. destruct (N.ltb_spec (Byte.to_N x) (Byte.to_N z)); [done|lia].
    + destruct (N.ltb_spec (Byte.to_N z) (Byte.to_N y)); [done|].
      intros _. destruct (N.ltb_spec (Byte.to_N x) (Byte.to_N z)); [done|lia].
  - destruct (N.ltb_spec (Byte.to_N y) (Byte.to_N x)); [done|].
    intros Hab.
    destruct (N.ltb_spec (Byte.to_N y) (Byte.to_N z)).
    + intros _. destruct (N.ltb_spec (Byte.to_N x) (Byte.to_N z)); [done|lia].
    + destruct (N.ltb_spec (Byte.to_N z) (Byte.to_N y)); [done|].
      intros Hbc.
      destruct (N.ltb_spec (Byte.to_N x) (Byte.to_N z)); [done|].
      destruct (N.ltb_spec (Byte.to_N z) (Byte.to_N x)); [lia|].
      by eapply IH.
Qed.

Lemma bytes_Equal_true a b : bytes_Equal a b = true <-> data a = data b.
Proof. unfold bytes_Equal. apply bool_decide_eq_true. Qed.

Lemma bytes_Equal_Compare a b : bytes_Equal a b = true <-> bytes_Compare a b = 0.
Proof.
  rewrite bytes_Equal_true. unfold bytes_Compare. split.
  - intros ->. apply compare_list_refl.
  - apply compare_list_eq.
Qed.

Lemma bytes_Compare_data a b c d :
  data a = data c -> data b = data d -> bytes_Compare a b = bytes_Compare c d.
Proof. unfold bytes_Compare. by intros -> ->. Qed.

Lemma key_lt_trans a b c : key_lt a b -> key_lt b c -> key_lt a c.
Proof. apply compare_list_trans. Qed.

Lemma key_lt_irrefl a : ~ key_lt a a.
Proof. unfold key_lt, bytes_Compare. by rewrite compare_list_refl. Qed.

Lemma key_lt_gt a b : key_lt a b <-> bytes_Compare b a = 1.
Proof. apply compare_list_antisym. Qed.

(** [k <= b] (the test [bytes.Compare(k, b) < 1]) and [a < k] give [a < b]. *)
Lemma key_lt_le_trans a k b :
  key_lt a k -> (bytes_Compare k b <? 1) = true -> key_lt a b.
Proof.
  intros Hak Hkb%Z.ltb_lt. unfold key_lt, bytes_Compare in *.
  destruct (compare_list_cases (data k) (data b)) as [H|[H|H]]; [| |lia].
  - by eapply compare_list_trans.
  - apply compare_list_eq in H. by rewrite <- H.
Qed.

Lemma key_le_lt_trans a k b :
  (bytes_Compare a k <? 1) = true -> key_lt k b -> key_lt a b.
Proof.
  intros Hak%Z.ltb_lt Hkb. unfold key_lt, bytes_Compare in *.
  destruct (compare_list_cases (data a) (data k)) as [H|[H|H]]; [| |lia].
  - by eapply compare_list_trans.
  - apply compare_list_eq in H. by rewrite H.
Qed.

(** [not (k <= a)] is [a < k]. *)
Lemma key_lt_of_not_le k a : (bytes_Compare k a <? 1) = false -> key_lt a k.
Proof.
  intros H%Z.ltb_ge. apply key_lt_gt.
  unfold bytes_Compare in *.
  destruct (compare_list_cases (data k) (data a)) as [?|[?|?]]; lia.
Qed.

(** ** Entries in ascending order *)

Lemma ascending_app vs ws :
  ascending (vs ++ ws) <->
  ascending vs /\ ascending ws /\
  Forall (fun v => Forall (fun w => key_lt (lv_key v) (lv_key w)) ws) vs.
Proof.
  induction vs as [|v vs IH]; simpl.
  - split; [intros; by repeat split|by intros (_ & ? & _)].
  - rewrite Forall_app, IH, Forall_cons. tauto.
Qed.

Lemma ascending_all_le_last vs v k :
  ascending vs -> last vs = Some v -> lv_key v = k ->
  Forall (fun w => (bytes_Compare (lv_key w) k <? 1) = true) vs.
Proof.
  induction vs as [|w vs IH]; intros Hasc Hlast Hk; [done|].
  destruct Hasc as [Hw Hasc]. constructor.
  - destruct vs as [|w' vs].
    + simpl in Hlast. simplify_eq. apply Z.ltb_lt.
      unfold bytes_Compare. rewrite compare_list_refl. lia.
    + assert (v ∈ w' :: vs) as Hin.
      { change (last (w :: w' :: vs)) with (last (w' :: vs)) in Hlast.
        rewrite last_lookup in Hlast. apply list_elem_of_lookup. eauto. }
      rewrite Forall_forall in Hw. specialize (Hw _ Hin).
      apply Z.ltb_lt. unfold key_lt in Hw. subst k. lia.
  - destruct vs as [|w' vs]; [done|]. by apply IH.
Qed.

(** ** [find_key] and [put] *)

Lemma find_key_data k k' vs : data k = data k' -> find_key k vs = find_key k' vs.
Proof.
  intros Hk. induction vs as [|v vs IH]; simpl; [done|].
  rewrite IH. unfold bytes_Equal. by rewrite Hk.
Qed.

Lemma find_key_all_lt k vs :
  Forall (fun w => key_lt (lv_key w) k) vs -> find_key k vs = None.
Proof.
  induction 1 as [|v vs Hv _ IH]; simpl; [done|].
  destruct (bytes_Equal (lv_key v) k) eqn:E; [|done].
  apply bytes_Equal_Compare in E. unfold key_lt in Hv. lia.
Qed.

Lemma find_key_all_gt k vs :
  Forall (fun w => key_lt k (lv_key w)) vs -> find_key k vs = None.
Proof.
  induction 1 as [|v vs Hv _ IH]; simpl; [done|].
  destruct (bytes_Equal (lv_key v) k) eqn:E; [|done].
  apply bytes_Equal_true in E. unfold key_lt, bytes_Compare in Hv.
  rewrite E, compare_list_refl in Hv. done.
Qed.

Lemma find_key_app k vs ws :
  find_key k (vs ++ ws)
  = match find_key k vs with Some v => Some v | None => find_key k ws end.
Proof.
  induction vs as [|v vs IH]; simpl; [done|].
  by destruct (bytes_Equal (lv_key v) k).
Qed.

Lemma find_key_put_other k k' v ts vs :
  data k' <> data k -> find_key k' (put k v ts vs) = find_key k' vs.
Proof.
  intros Hne.
  assert (bytes_Equal k k' = false) as Hkk.
  { apply not_true_is_false. rewrite bytes_Equal_true. congruence. }
  induction vs as [|w vs IH]; simpl.
  - by rewrite Hkk.
  - destruct (bytes_Equal (lv_key w) k) eqn:E.
    + simpl. rewrite Hkk.
      apply bytes_Equal_true in E.
      replace (bytes_Equal (lv_key w) k') with false; [done|].
      symmetry. apply not_true_is_false. rewrite bytes_Equal_true. congruence.
    + destruct (_ =? 1); simpl; [by rewrite Hkk|]. by rewrite IH.
Qed.

Lemma find_key_put_same k v ts vs :
  ascending vs ->
  find_key k (put k v ts vs)
  = Some (mkLeafValue k ts (from_option lv_ts 0%N (find_key k vs)) v).
Proof.
  assert (bytes_Equal k k = true) as Hkk by (by apply bytes_Equal_true).
  induction vs as [|w vs IH]; simpl; intros Hasc.
  - by rewrite Hkk.
  - destruct Hasc as [Hw Hasc].
    destruct (bytes_Equal (lv_key w) k) eqn:E; simpl.
    + by rewrite Hkk.
    + destruct (bytes_Compare (lv_key w) k =? 1) eqn:C; simpl.
      * rewrite Hkk. rewrite find_key_all_gt; [done|].
        apply Z.eqb_eq, key_lt_gt in C.
        eapply Forall_impl; [exact Hw|]. intros x Hx. by eapply key_lt_trans.
      * rewrite E. by apply IH.
Qed.

Lemma put_all_lt k v ts vs ws :
  Forall (fun w => key_lt (lv_key w) k) vs ->
  put k v ts (vs ++ ws) = vs ++ put k v ts ws.
Proof.
  induction 1 as [|w vs Hw _ IH]; simpl; [done|].
  unfold key_lt in Hw.
  replace (bytes_Equal (lv_key w) k) with false.
  2:{ symmetry. apply not_true_is_false. rewrite bytes_Equal_Compare. lia. }
  replace (bytes_Compare (lv_key w) k =? 1) with false by (symmetry; apply Z.eqb_neq; lia).
  by rewrite IH.
Qed.

(** An entry of [vs] is at or above [k]: the insert stays within [vs]. *)
Lemma put_app_le k v ts vs ws :
  Exists (fun w => ~ key_lt (lv_key w) k) vs ->
  put k v ts (vs ++ ws) = put k v ts vs ++ ws.
Proof.
  induction vs as [|w vs IH]; intros Hex; [by apply Exists_nil in Hex|].
  simpl. destruct (bytes_Equal (lv_key w) k) eqn:E; [done|].
  destruct (bytes_Compare (lv_key w) k =? 1) eqn:C; [done|].
  simpl. f_equal. apply IH.
  apply Exists_cons in Hex as [Hw|?]; [|done].
  exfalso. apply Hw. unfold key_lt.
  apply Z.eqb_neq in C. apply not_true_iff_false in E.
  rewrite bytes_Equal_Compare in E.
  destruct (compare_list_cases (data (lv_key w)) (data k)) as [?|[?|?]];
    unfold bytes_Compare in *; [done|done|done].
Qed.

Lemma put_not_nil k v ts vs : put k v ts vs <> [].
Proof.
  destruct vs as [|w vs]; simpl; [done|].
  destruct (bytes_Equal _ _); [done|]. by destruct (_ =? 1).
Qed.

Lemma Forall_put (P : leafValue -> Prop) k v ts vs :
  (forall prev, P (mkLeafValue k ts prev v)) -> Forall P vs -> Forall P (put k v ts vs).
Proof.
  intros Hnew. induction 1 as [|w vs Hw Hvs IH]; simpl.
  - by repeat constructor.
  - destruct (bytes_Equal _ _); [by constructor|].
    destruct (_ =? 1); by repeat constructor.
Qed.

Lemma ascending_put k v ts vs : ascending vs -> ascending (put k v ts vs).
Proof.
  induction vs as [|w vs IH]; simpl; intros Hasc; [done|].
  destruct Hasc as [Hw Hasc].
  destruct (bytes_Equal (lv_key w) k) eqn:E.
  - simpl. split; [|done]. apply bytes_Equal_true in E.
    eapply Forall_impl; [exact Hw|]. intros x Hx. simpl.
    unfold key_lt in *. by rewrite (bytes_Compare_data k _ (lv_key w) (lv_key x)).
  - destruct (bytes_Compare (lv_key w) k =? 1) eqn:C.
    + apply Z.eqb_eq, key_lt_gt in C. simpl. split; [|done].
      constructor; [done|].
      eapply Forall_impl; [exact Hw|]. intros x Hx. by eapply key_lt_trans.
    + simpl. split; [|by apply IH].
      apply Forall_put; [|done]. intros prev. simpl.
      apply Z.eqb_neq in C. apply not_true_iff_false in E.
      rewrite bytes_Equal_Compare in E. unfold key_lt.
      destruct (compare_list_cases (data (lv_key w)) (data k)) as [?|[?|?]];
        unfold bytes_Compare in *; [done|done|done].
Qed.

(** ** A leaf and its entries *)

Lemma leafNode_indexOf_loop_put key value ts vs : forall i0,
  exists (n : nat) found,
    leafNode_indexOf_loop (Some <$> vs) key i0 = Some (i0 + Z.of_nat n, found) /\
    (n <= length vs)%nat /\
    (found = true ->
     exists old, vs !! n = Some old /\
       put key value ts vs
       = take n vs ++ mkLeafValue key ts (lv_ts old) value :: drop (S n) vs) /\
    (found = false ->
     put key value ts vs = take n vs ++ mkLeafValue key ts 0%N value :: drop n vs).
Proof.
  induction vs as [|w vs IH]; intros i0.
  - exists 0%nat, false. simpl. rewrite Z.add_0_r. split; [done|]. split; [done|].
    split; done.
  - rewrite fmap_cons. cbn [leafNode_indexOf_loop put length].
    destruct (bytes_Equal (lv_key w) key) eqn:E.
    { exists 0%nat, true. rewrite Z.add_0_r. split; [done|]. split; [lia|].
      split; [|done]. intros _. exists w. done. }
    destruct (bytes_Compare (lv_key w) key =? 1) eqn:C.
    { exists 0%nat, false. rewrite Z.add_0_r. split; [done|]. split; [lia|].
      split; done. }
    destruct (IH (i0 + 1)) as (n & found & Hloop & Hn & Hfound & Hnew).
    exists (S n), found. split; [rewrite Hloop; do 2 f_equal; lia|].
    split; [lia|]. split.
    + intros Hf. destruct (Hfound Hf) as (old & Hold & Hput).
      exists old. split; [done|]. simpl. by rewrite Hput.
    + intros Hf. simpl. by rewrite (Hnew Hf).
Qed.

Lemma leafNode_indexOf_loop_find key vs : forall i0 i found,
  ascending vs ->
  leafNode_indexOf_loop (Some <$> vs) key i0 = Some (i, found) ->
  if found then find_key key vs = vs !! Z.to_nat (i - i0) /\ i0 <= i
  else find_key key vs = None.
Proof.
  induction vs as [|w vs IH]; intros i0 i found Hasc H.
  - simpl in H. by simplify_eq.
  - rewrite fmap_cons in H. cbn [leafNode_indexOf_loop find_key] in *.
    destruct Hasc as [Hw Hasc].
    destruct (bytes_Equal (lv_key w) key) eqn:E.
    { simplify_eq. rewrite Z.sub_diag. simpl. split; [done|lia]. }
    destruct (bytes_Compare (lv_key w) key =? 1) eqn:C.
    { simplify_eq. apply find_key_all_gt.
      apply Z.eqb_eq, key_lt_gt in C.
      eapply Forall_impl; [exact Hw|]. intros x Hx. by eapply key_lt_trans. }
    specialize (IH _ _ _ Hasc H). destruct found; [|done].
    destruct IH as [IH Hi]. split; [|lia]. rewrite IH.
    replace (Z.to_nat (i - i0)) with (S (Z.to_nat (i - (i0 + 1)))) by lia. done.
Qed.

Lemma heap_le_alloc_leafValues h o arr :
  heap_le h (mkHeap (h_nodes h ++ [o]) (h_leafValues h ++ [arr]) (h_childRefs h)).
Proof. split; [|split]; simpl; [by apply prefix_app_r..|done]. Qed.

Lemma leaf_at_last h ln vs :
  leaf_at (mkHeap (h_nodes h ++ [LeafNode ln]) (h_leafValues h ++ [Some <$> vs])
                  (h_childRefs h))
          (Some (length (h_nodes h))) vs <->
  l_values ln = l_values ln /\
  store_elems (h_leafValues h ++ [Some <$> vs]) (l_values ln) = Some (Some <$> vs).
Proof.
  unfold leaf_at. simpl. split.
  - intros (l & ln' & [= <-] & Hl & Hes).
    rewrite list_lookup_middle in Hl by done. by simplify_eq.
  - intros [_ Hes]. exists (length (h_nodes h)), ln.
    split; [done|]. split; [by apply list_lookup_middle|done].
Qed.

Lemma leafNode_insertAt_entries l key value ts h vs r h' :
  leaf_at h (Some l) vs ->
  leafNode_insertAt l key value ts h = Val (r, h') ->
  exists n1 n2 vs1 vs2,
    r = (n1, n2, None) /\
    leaf_at h' n1 vs1 /\
    vs1 ++ vs2 = put key value ts vs /\
    match n2 with
    | None => vs2 = []
    | Some _ => leaf_at h' n2 vs2 /\ vs2 <> []
    end.
Proof.
  intros (l' & ln & [= <-] & Hl & Hes) Hrun.
  destruct (leafNode_indexOf_loop_put key value ts vs 0)
    as (n & found & Hloop & Hn & Hfound & Hnew).
  rewrite Z.add_0_l in Hloop.
  destruct found.
  - destruct (Hfound eq_refl) as (old & Hold & Hput). clear Hfound Hnew.
    erewrite run_leafNode_insertAt_found in Hrun; eauto.
    2:{ rewrite Nat2Z.id, list_lookup_fmap, Hold. done. }
    injection Hrun as <- <-. rewrite Nat2Z.id.
    exists (Some (length (h_nodes h))), None, (put key value ts vs), [].
    split; [done|]. split; [|split; [by rewrite app_nil_r|done]].
    rewrite Hput. exists (length (h_nodes h)). eexists.
    split; [done|]. split; [simpl; by apply list_lookup_middle|].
    simpl. rewrite <- fmap_take, <- fmap_drop.
    change (Some {| lv_key := key; lv_ts := ts; lv_prevTs := lv_ts old; lv_value := value |}
            :: (Some <$> drop (S n) vs))
      with (Some <$> ({| lv_key := key; lv_ts := ts; lv_prevTs := lv_ts old; lv_value := value |}
                       :: drop (S n) vs)).
    rewrite <- fmap_app.
    apply store_elems_last_whole.
    apply lookup_lt_Some in Hold.
    rewrite !length_fmap, length_app, length_take. simpl. rewrite length_drop. lia.
  - specialize (Hnew eq_refl). clear Hfound.
    erewrite run_leafNode_insertAt_new in Hrun; eauto.
    rewrite Nat2Z.id, <- fmap_take, <- fmap_drop in Hrun.
    change (Some {| lv_key := key; lv_ts := ts; lv_prevTs := 0; lv_value := value |}
            :: (Some <$> drop n vs))
      with (Some <$> ({| lv_key := key; lv_ts := ts; lv_prevTs := 0; lv_value := value |}
                       :: drop n vs)) in Hrun.
    rewrite <- fmap_app, <- Hnew, length_fmap in Hrun.
    set (vs' := put key value ts vs) in *.
    assert (length vs' = S (length vs)) as Hlen'.
    { subst vs'. rewrite Hnew, length_app, length_take. simpl. rewrite length_drop. lia. }
    set (nl := mkLeafNode _ _ _ _ _ _) in Hrun.
    set (h1 := mkHeap _ _ _) in Hrun.
    assert (h_nodes h1 !! length (h_nodes h) = Some (LeafNode nl)) as Hnl
      by (simpl; by apply list_lookup_middle).
    assert (store_elems (h_leafValues h1) (l_values nl) = Some (Some <$> vs')) as Hes'.
    { simpl. apply store_elems_last_whole. rewrite length_fmap. lia. }
    apply bind_Val in Hrun as ([n2 err] & h2 & Hsplit & Hret).
    apply ret_Val in Hret. injection Hret as -> ->.
    destruct (Z_le_gt_dec (l_csize nl) (l_maxSize nl)) as [Hle|Hgt].
    + unfold leafNode_split in Hsplit.
      rewrite (run_bind _ _ _ _ _ (run_load_leaf _ _ _ Hnl)) in Hsplit.
      rewrite (proj2 (Z.leb_le _ _) Hle) in Hsplit.
      injection Hsplit as <- <- <-.
      exists (Some (length (h_nodes h))), None, vs', [].
      split; [done|]. split; [|split; [by rewrite app_nil_r|done]].
      exists (length (h_nodes h)), nl. done.
    + destruct (leafNode_splitInfo_loop_entries (l_maxSize nl) vs')
        as (si & ss & Hinfo & Hsi & _); [by apply put_not_nil|].
      destruct (run_leafNode_split _ h1 nl (Some <$> vs') (Z.of_nat si) ss
                  (max_ts (take si vs')) (max_ts (drop si vs')) Hnl Hes'
                  ltac:(lia) Hinfo)
        as (left & right & Hleft & Hright & Hrun).
      { rewrite Nat2Z.id, <- fmap_take, leafNode_updateTs_loop_max. f_equal. lia. }
      { rewrite Nat2Z.id, <- fmap_drop, leafNode_updateTs_loop_max. f_equal. lia. }
      rewrite Hrun in Hsplit. injection Hsplit as <- <- <-.
      exists (Some (length (h_nodes h))), (Some (length (h_nodes h1))),
        (take si vs'), (drop si vs').
      split; [done|]. split; [|split; [by apply take_drop|split]].
      * exists (length (h_nodes h)). eexists. split; [done|]. split.
        { cbn [h_nodes]. rewrite lookup_app_l by (rewrite length_insert; simpl;
            rewrite length_app; simpl; lia).
          apply list_lookup_insert_eq. simpl. rewrite length_app. simpl. lia. }
        cbn [l_values h_leafValues].
        pose proof (store_elems_slice_to _ _ _ _ _ Hleft
                      ltac:(unfold slice_len; simpl; lia) Hes') as H1.
        by rewrite Nat2Z.id, <- fmap_take in H1.
      * exists (length (h_nodes h1)). eexists. split; [done|]. split.
        { cbn [h_nodes]. apply list_lookup_middle. by rewrite length_insert. }
        cbn [l_values h_leafValues].
        pose proof (store_elems_slice_from _ _ _ _ _ Hright Hes') as H2.
        by rewrite Nat2Z.id, <- fmap_drop in H2.
      * intros Hnil. apply (f_equal length) in Hnil.
        rewrite length_drop in Hnil. simpl in Hnil. lia.
Qed.

(** ** The loops of an inner node on a run of child references *)

Lemma innerNode_updateSize_loop_total cs : forall csize,
  exists csize', innerNode_updateSize_loop (Some <$> cs) csize = Some csize'.
Proof.
  induction cs as [|c cs IH]; intros csize; [by eexists|].
  rewrite fmap_cons. cbn [innerNode_updateSize_loop]. apply IH.
Qed.

Lemma innerNode_updateTs_loop_total cs : forall cts,
  exists cts', innerNode_updateTs_loop (Some <$> cs) cts = Some cts'.
Proof.
  induction cs as [|c cs IH]; intros cts; [by eexists|].
  rewrite fmap_cons. cbn [innerNode_updateTs_loop]. apply IH.
Qed.

Lemma innerNode_splitInfo_loop_total maxSize cs : forall i0 si0 ss0,
  exists si ss,
    innerNode_splitInfo_loop (Some <$> cs) maxSize i0 si0 ss0 = Some (si, ss) /\
    (cs = [] /\ si = si0 \/ i0 <= si < i0 + Z.of_nat (length cs)).
Proof.
  induction cs as [|c cs IH]; intros i0 si0 ss0.
  { exists si0, ss0. split; [done|by left]. }
  rewrite fmap_cons. cbn [innerNode_splitInfo_loop length].
  destruct (_ >? _).
  { exists i0, ss0. split; [done|]. right. lia. }
  destruct (IH (i0 + 1) i0 (int_add ss0 (len (cr_key c)))) as (si & ss & Hloop & Hr).
  exists si, ss. split; [done|]. right. destruct Hr as [[-> ->]|Hr]; simpl; lia.
Qed.

(** [indexOf]: the first child reference whose key is at or above [key],
    the last one when there is none. *)
Lemma innerNode_indexOf_loop_spec key cs n : forall i0,
  exists i,
    innerNode_indexOf_loop (Some <$> cs) key i0 n = Some i /\
    ((exists (m : nat) c,
        i = i0 + Z.of_nat m /\ cs !! m = Some c /\
        (bytes_Compare key (cr_key c) <? 1) = true /\
        Forall (fun c' => key_lt (cr_key c') key) (take m cs)) \/
     (i = n - 1 /\ Forall (fun c' => key_lt (cr_key c') key) cs)).
Proof.
  induction cs as [|c cs IH]; intros i0.
  { exists (n - 1). split; [done|]. by right. }
  rewrite fmap_cons. cbn [innerNode_indexOf_loop].
  destruct (bytes_Compare key (cr_key c) <? 1) eqn:E.
  { exists i0. split; [done|]. left. exists 0%nat, c.
    rewrite Z.add_0_r. by repeat split. }
  destruct (IH (i0 + 1)) as (i & Hloop & Hspec).
  exists i. split; [done|].
  apply key_lt_of_not_le in E.
  destruct Hspec as [(m & c' & -> & Hc' & Hle & Hlt)|[-> Hall]].
  - left. exists (S m), c'. split; [lia|]. split; [done|]. split; [done|].
    simpl. by constructor.
  - right. split; [done|]. by constructor.
Qed.

(** ** innerNode.updateSize, updateTs and split *)

Lemma run_innerNode_updateSize n h nd cs csize :
  h_nodes h !! n = Some (InnerNode nd) ->
  store_elems (h_childRefs h) (n_nodes nd) = Some cs ->
  innerNode_updateSize_loop cs 0 = Some csize ->
  innerNode_updateSize n h
    = Val (tt, mkHeap (<[n := InnerNode (set_n_csize csize nd)]> (h_nodes h))
                      (h_leafValues h) (h_childRefs h)).
Proof.
  intros Hn Hcs Hloop. unfold innerNode_updateSize.
  assert (n < length (h_nodes h))%nat as Hlt by (by eapply lookup_lt_Some).
  rewrite (run_bind _ _ _ _ _ (run_update_inner _ _ _ _ Hn)).
  erewrite run_bind;
    [|apply run_load_inner; simpl; by apply list_lookup_insert_eq].
  erewrite run_bind; [|by apply run_childRefs_of].
  erewrite run_bind; [|by apply run_lift].
  erewrite run_update_inner by (simpl; by apply list_lookup_insert_eq).
  simpl. by rewrite list_insert_insert_eq.
Qed.

Lemma run_innerNode_updateTs n h nd cs cts :
  h_nodes h !! n = Some (InnerNode nd) ->
  store_elems (h_childRefs h) (n_nodes nd) = Some cs ->
  innerNode_updateTs_loop cs 0%N = Some cts ->
  innerNode_updateTs n h
    = Val (tt, mkHeap (<[n := InnerNode (set_n_cts cts nd)]> (h_nodes h))
                      (h_leafValues h) (h_childRefs h)).
Proof.
  intros Hn Hcs Hloop. unfold innerNode_updateTs.
  assert (n < length (h_nodes h))%nat as Hlt by (by eapply lookup_lt_Some).
  rewrite (run_bind _ _ _ _ _ (run_update_inner _ _ _ _ Hn)).
  erewrite run_bind;
    [|apply run_load_inner; simpl; by apply list_lookup_insert_eq].
  erewrite run_bind; [|by apply run_childRefs_of].
  erewrite run_bind; [|by apply run_lift].
  erewrite run_update_inner by (simpl; by apply list_lookup_insert_eq).
  simpl. by rewrite list_insert_insert_eq.
Qed.

Lemma run_innerNode_split n h nd cs si ss ctsL ctsR :
  h_nodes h !! n = Some (InnerNode nd) ->
  store_elems (h_childRefs h) (n_nodes nd) = Some cs ->
  n_maxSize nd < n_csize nd ->
  innerNode_splitInfo_loop cs (n_maxSize nd) 0 0 0 = Some (si, ss) ->
  0 <= si <= Z.of_nat (length cs) ->
  innerNode_updateTs_loop (take (Z.to_nat si) cs) 0%N = Some ctsL ->
  innerNode_updateTs_loop (drop (Z.to_nat si) cs) 0%N = Some ctsR ->
  exists left right,
    slice_to (n_nodes nd) si = Some left /\
    slice_from (n_nodes nd) si = Some right /\
    innerNode_split n h =
      Val ((Some (length (h_nodes h)), None),
        mkHeap
          (<[n := InnerNode (mkInnerNode (n_prevNode nd) left ctsL ss (n_maxSize nd) (n_offset nd))]>
             (h_nodes h) ++
           [InnerNode (mkInnerNode None right ctsR (int_sub (n_csize nd) ss) (n_maxSize nd) 0%N)])
          (h_leafValues h) (h_childRefs h)).
Proof.
  intros Hn Hcs Hbig Hinfo Hsi HL HR.
  pose proof (store_elems_length _ _ _ Hcs) as Hlen.
  assert (n < length (h_nodes h))%nat as Hlt by (by eapply lookup_lt_Some).
  assert (exists left, slice_to (n_nodes nd) si = Some left) as [left Hleft].
  { unfold slice_to, s_cap.
    rewrite (proj2 (andb_true_iff _ _)) by (split; apply Z.leb_le; lia). eauto. }
  assert (exists right, slice_from (n_nodes nd) si = Some right) as [right Hright].
  { unfold slice_from, slice_len.
    rewrite (proj2 (andb_true_iff _ _)) by (split; apply Z.leb_le; lia). eauto. }
  exists left, right. split; [done|]. split; [done|].
  unfold innerNode_split.
  rewrite (run_bind _ _ _ _ _ (run_load_inner _ _ _ Hn)).
  rewrite (proj2 (Z.leb_gt _ _) Hbig).
  rewrite (run_bind _ _ _ (si, ss) h).
  2:{ unfold innerNode_splitInfo.
      rewrite (run_bind _ _ _ _ _ (run_load_inner _ _ _ Hn)).
      erewrite run_bind; [|by apply run_childRefs_of].
      by apply run_lift. }
  cbn beta iota.
  rewrite (run_bind _ _ _ _ _ (run_lift _ _ _ Hright)).
  unfold alloc_node at 1. unfold bind at 1.
  erewrite run_bind.
  2:{ eapply run_innerNode_updateTs.
      - simpl. by apply list_lookup_middle.
      - simpl. eapply store_elems_slice_from; eauto.
      - exact HR. }
  cbn [h_nodes h_leafValues h_childRefs set_n_cts n_prevNode n_nodes n_csize n_maxSize n_offset].
  rewrite (run_bind _ _ _ _ _ (run_lift _ _ _ Hleft)).
  erewrite run_bind.
  2:{ eapply run_update_inner. simpl.
      rewrite list_lookup_insert_ne by lia. by rewrite lookup_app_l. }
  erewrite run_bind.
  2:{ eapply run_update_inner. simpl. apply list_lookup_insert_eq.
      rewrite length_insert, length_app. lia. }
  erewrite run_bind.
  2:{ eapply run_innerNode_updateTs.
      - simpl. apply list_lookup_insert_eq.
        rewrite !length_insert, length_app. lia.
      - simpl. eapply store_elems_slice_to; eauto. unfold slice_len. lia.
      - exact HL. }
  unfold ret. simpl. do 3 f_equal.
  rewrite !list_insert_insert_eq.
  rewrite (insert_app_r_alt _ _ (length (h_nodes h))) by lia.
  rewrite Nat.sub_diag. simpl.
  by rewrite insert_app_l by done.
Qed.

(** ** innerNode.insertAt, the child returned one node *)

Lemma heap_le_alloc_childRefs h o arr :
  heap_le h (mkHeap (h_nodes h ++ [o]) (h_leafValues h) (h_childRefs h ++ [arr])).
Proof. split; [|split]; simpl; [by apply prefix_app_r|done|by apply prefix_app_r]. Qed.

Lemma run_stable {A} (m : M A) h a h1 h' :
  stable m -> m h = Val (a, h1) -> heap_le h h' -> m h' = Val (a, h').
Proof. intros Hst Hm Hle. destruct (Hst _ _ _ Hm) as [_ H]. by apply H. Qed.

Lemma run_innerNode_insertAt_one n nd (i : nat) c1 ts h cs k1 t1 csize h1 h2 :
  store_elems (h_childRefs h) (n_nodes nd) = Some cs ->
  (i < length cs)%nat ->
  node_maxKey c1 h = Val (k1, h1) ->
  node_ts c1 h = Val (t1, h2) ->
  innerNode_updateSize_loop
    (take i cs ++ Some (mkChildRef k1 t1 c1) :: drop (S i) cs) 0 = Some csize ->
  innerNode_insertAt_one n nd (Z.of_nat i) c1 ts h =
    Val ((Some (length (h_nodes h)), None, None),
      mkHeap
        (h_nodes h ++
         [InnerNode (mkInnerNode (Some n)
                       (Slice (length (h_childRefs h)) 0 (length cs) 0) ts
                       csize (n_maxSize nd) 0%N)])
        (h_leafValues h)
        (h_childRefs h ++ [take i cs ++ Some (mkChildRef k1 t1 c1) :: drop (S i) cs])).
Proof.
  intros Hcs Hi Hk Ht Hsize.
  pose proof (store_elems_length _ _ _ Hcs) as Hlen.
  unfold innerNode_insertAt_one.
  unfold make_childRefs at 1. unfold bind at 1.
  unfold slice_len. rewrite <- Hlen.
  rewrite store_make_Some by lia. rewrite Nat2Z.id.
  unfold alloc_node at 1. unfold bind at 1. cbn [h_nodes h_leafValues h_childRefs].
  assert (slice_to (Slice (length (h_childRefs h)) 0 (length cs) 0) (Z.of_nat i)
          = Some (Slice (length (h_childRefs h)) 0 i (length cs - i))) as Hd.
  { unfold slice_to, s_cap. simpl.
    rewrite (proj2 (andb_true_iff _ _)) by (split; apply Z.leb_le; lia).
    do 2 f_equal; lia. }
  rewrite (run_bind _ _ _ _ _ (run_lift _ _ _ Hd)).
  assert (exists s, slice_to (n_nodes nd) (Z.of_nat i) = Some s) as [s Hs].
  { unfold slice_to, s_cap.
    rewrite (proj2 (andb_true_iff _ _)) by (split; apply Z.leb_le; lia). eauto. }
  rewrite (run_bind _ _ _ _ _ (run_lift _ _ _ Hs)).
  pose proof (store_elems_slice_to _ _ _ _ _ Hs ltac:(unfold slice_len; lia) Hcs) as Hcs1.
  rewrite Nat2Z.id in Hcs1.
  assert (s_len s = i) as Hslen.
  { apply store_elems_length in Hcs1. rewrite length_take in Hcs1. lia. }
  unfold copy_childRefs at 1. unfold bind at 1. cbn [h_nodes h_leafValues h_childRefs].
  rewrite (store_copy_last _ _ _ _ _ _ (take i cs))
    by (first [exact Hcs1 | simpl; rewrite length_replicate; lia]).
  rewrite Hslen, Nat.min_id, take_take, Nat.min_id.
  rewrite (splice_eq _ [] (replicate i None)
             (None :: replicate (length cs - S i) None))
    by (try apply length_replicate; try done; simpl;
        replace (length cs) with (S (length cs - 1)) at 1 by lia;
        rewrite (replicate_split _ i) by lia; do 3 f_equal; lia).
  cbn [app].
  (* c1.maxKey(), c1.ts() *)
  erewrite run_bind;
    [|eapply (run_stable _ _ _ _ _ (stable_node_maxKey _) Hk), heap_le_alloc_childRefs].
  erewrite run_bind;
    [|eapply (run_stable _ _ _ _ _ (stable_node_ts _) Ht), heap_le_alloc_childRefs].
  unfold assign_childRefs at 1. unfold bind at 1. cbn [h_nodes h_leafValues h_childRefs].
  rewrite store_assign_last
    by (first [lia | simpl; rewrite length_app, length_take; simpl;
                     rewrite length_replicate; lia]).
  rewrite Nat.add_0_l, Nat2Z.id.
  rewrite (insert_at_end _ _ _ _ (Some (mkChildRef k1 t1 c1)))
    by (rewrite length_take; lia).
  cbn [s_len].
  assert (exists hf,
    (if Z.of_nat i + 1 <? Z.of_nat (length cs)
     then
       do d <- lift (slice_from (Slice (length (h_childRefs h)) 0 (length cs) 0)
                       (Z.of_nat i + 1));
       do s0 <- lift (slice_from (n_nodes nd) (Z.of_nat i + 1));
       copy_childRefs d s0
     else ret tt)
      (mkHeap (h_nodes h ++
               [InnerNode (mkInnerNode (Some n)
                  (Slice (length (h_childRefs h)) 0 (length cs) 0) ts 0
                  (n_maxSize nd) 0%N)])
              (h_leafValues h)
              (h_childRefs h ++
               [take i cs ++ Some (mkChildRef k1 t1 c1)
                :: replicate (length cs - S i) None]))
    = Val (tt, hf) /\
    hf = mkHeap (h_nodes h ++
               [InnerNode (mkInnerNode (Some n)
                  (Slice (length (h_childRefs h)) 0 (length cs) 0) ts 0
                  (n_maxSize nd) 0%N)])
              (h_leafValues h)
              (h_childRefs h ++
               [take i cs ++ Some (mkChildRef k1 t1 c1) :: drop (S i) cs]))
    as (hf & Htail & ->).
  { eexists. split; [|reflexivity].
    destruct (Z.of_nat i + 1 <? Z.of_nat (length cs)) eqn:Hlt.
    - apply Z.ltb_lt in Hlt.
      assert (slice_from (Slice (length (h_childRefs h)) 0 (length cs) 0) (Z.of_nat i + 1)
              = Some (Slice (length (h_childRefs h)) (i + 1)
                        (length cs - S i) 0)) as Hd2.
      { unfold slice_from, slice_len. simpl.
        rewrite (proj2 (andb_true_iff _ _)) by (split; apply Z.leb_le; lia).
        do 2 f_equal; lia. }
      assert (exists s2, slice_from (n_nodes nd) (Z.of_nat i + 1) = Some s2) as [s2 Hs2].
      { unfold slice_from, slice_len.
        rewrite (proj2 (andb_true_iff _ _)) by (split; apply Z.leb_le; lia). eauto. }
      pose proof (store_elems_slice_from _ _ _ _ _ Hs2 Hcs) as Hcs2.
      replace (Z.to_nat (Z.of_nat i + 1)) with (S i) in Hcs2 by lia.
      assert (s_len s2 = (length cs - S i)%nat) as Hs2len.
      { apply store_elems_length in Hcs2. rewrite length_drop in Hcs2. lia. }
      rewrite (run_bind _ _ _ _ _ (run_lift _ _ _ Hd2)).
      rewrite (run_bind _ _ _ _ _ (run_lift _ _ _ Hs2)).
      unfold copy_childRefs. cbn [h_nodes h_leafValues h_childRefs].
      rewrite (store_copy_last _ _ _ _ _ _ (drop (S i) cs))
        by (first [exact Hcs2 | simpl; rewrite length_app, length_take; simpl;
                                rewrite length_replicate; lia]).
      rewrite Hs2len, Nat.min_id.
      rewrite (take_ge (drop _ _)) by (rewrite length_drop; lia).
      rewrite (splice_eq _ (take i cs ++ [Some (mkChildRef k1 t1 c1)])
                 (replicate (length cs - S i) None) [])
        by (rewrite ?length_app, ?length_take, ?length_replicate, ?app_nil_r,
              <- ?app_assoc; simpl; try done; lia).
      rewrite app_nil_r, <- app_assoc. done.
    - apply Z.ltb_ge in Hlt. unfold ret.
      replace (length cs - S i)%nat with 0%nat by lia. simpl.
      rewrite (drop_ge cs) by lia. done. }
  rewrite (run_bind _ _ _ _ _ Htail).
  erewrite run_bind.
  2:{ eapply run_innerNode_updateSize.
      - simpl. by apply list_lookup_middle.
      - simpl. apply store_elems_last_whole.
        rewrite length_app, length_take. simpl. rewrite length_drop. lia.
      - exact Hsize. }
  unfold ret. simpl. do 3 f_equal.
  rewrite insert_app_r_alt by done. by rewrite Nat.sub_diag.
Qed.

(** ** innerNode.insertAt, the child returned two nodes *)

Lemma run_innerNode_insertAt_two n nd (i : nat) c1 c2 ts h cs k1 t1 k2 t2 csize
    h1 h2 h3 h4 :
  store_elems (h_childRefs h) (n_nodes nd) = Some cs ->
  (i < length cs)%nat ->
  node_maxKey c1 h = Val (k1, h1) ->
  node_ts c1 h = Val (t1, h2) ->
  node_maxKey c2 h = Val (k2, h3) ->
  node_ts c2 h = Val (t2, h4) ->
  innerNode_updateSize_loop
    (take i cs ++ Some (mkChildRef k1 t1 c1) :: Some (mkChildRef k2 t2 c2)
       :: drop (S i) cs) 0 = Some csize ->
  innerNode_insertAt_two n nd (Z.of_nat i) c1 c2 ts h =
    (do '(n2, err) <- innerNode_split (length (h_nodes h));
     ret (Some (length (h_nodes h)), n2, err))
      (mkHeap
        (h_nodes h ++
         [InnerNode (mkInnerNode (Some n)
                       (Slice (length (h_childRefs h)) 0 (S (length cs)) 0) ts
                       csize (n_maxSize nd) 0%N)])
        (h_leafValues h)
        (h_childRefs h ++
         [take i cs ++ Some (mkChildRef k1 t1 c1) :: Some (mkChildRef k2 t2 c2)
            :: drop (S i) cs])).
Proof.
  intros Hcs Hi Hk1 Ht1 Hk2 Ht2 Hsize.
  pose proof (store_elems_length _ _ _ Hcs) as Hlen.
  unfold innerNode_insertAt_two.
  unfold make_childRefs at 1. unfold bind at 1.
  unfold slice_len. rewrite <- Hlen.
  rewrite store_make_Some by lia.
  replace (Z.to_nat (Z.of_nat (length cs) + 1)) with (S (length cs)) by lia.
  unfold alloc_node at 1. unfold bind at 1. cbn [h_nodes h_leafValues h_childRefs].
  assert (slice_to (Slice (length (h_childRefs h)) 0 (S (length cs)) 0) (Z.of_nat i)
          = Some (Slice (length (h_childRefs h)) 0 i (S (length cs) - i))) as Hd.
  { unfold slice_to, s_cap. simpl.
    rewrite (proj2 (andb_true_iff _ _)) by (split; apply Z.leb_le; lia).
    do 2 f_equal; lia. }
  rewrite (run_bind _ _ _ _ _ (run_lift _ _ _ Hd)).
  assert (exists s, slice_to (n_nodes nd) (Z.of_nat i) = Some s) as [s Hs].
  { unfold slice_to, s_cap.
    rewrite (proj2 (andb_true_iff _ _)) by (split; apply Z.leb_le; lia). eauto. }
  rewrite (run_bind _ _ _ _ _ (run_lift _ _ _ Hs)).
  pose proof (store_elems_slice_to _ _ _ _ _ Hs ltac:(unfold slice_len; lia) Hcs) as Hcs1.
  rewrite Nat2Z.id in Hcs1.
  assert (s_len s = i) as Hslen.
  { apply store_elems_length in Hcs1. rewrite length_take in Hcs1. lia. }
  unfold copy_childRefs at 1. unfold bind at 1. cbn [h_nodes h_leafValues h_childRefs].
  rewrite (store_copy_last _ _ _ _ _ _ (take i cs))
    by (first [exact Hcs1 | simpl; rewrite length_replicate; lia]).
  rewrite Hslen, Nat.min_id, take_take, Nat.min_id.
  rewrite (splice_eq _ [] (replicate i None)
             (None :: None :: replicate (length cs - S i) None))
    by (try apply length_replicate; try done;
        rewrite (replicate_split _ i (length cs)) by lia; cbn [app]; do 2 f_equal;
        replace (length cs - i)%nat with (S (length cs - S i)) by lia; done).
  cbn [app].
  erewrite run_bind;
    [|eapply (run_stable _ _ _ _ _ (stable_node_maxKey _) Hk1), heap_le_alloc_childRefs].
  erewrite run_bind;
    [|eapply (run_stable _ _ _ _ _ (stable_node_ts _) Ht1), heap_le_alloc_childRefs].
  unfold assign_childRefs at 1. unfold bind at 1. cbn [h_nodes h_leafValues h_childRefs].
  rewrite store_assign_last
    by (first [lia | simpl; rewrite length_app, length_take; simpl;
                     rewrite length_replicate; lia]).
  rewrite Nat.add_0_l, Nat2Z.id.
  rewrite (insert_at_end _ _ _ _ (Some (mkChildRef k1 t1 c1)))
    by (rewrite length_take; lia).
  erewrite run_bind;
    [|eapply (run_stable _ _ _ _ _ (stable_node_maxKey _) Hk2), heap_le_alloc_childRefs].
  erewrite run_bind;
    [|eapply (run_stable _ _ _ _ _ (stable_node_ts _) Ht2), heap_le_alloc_childRefs].
  unfold assign_childRefs at 1. unfold bind at 1. cbn [h_nodes h_leafValues h_childRefs].
  rewrite store_assign_last
    by (first [lia | simpl; rewrite length_app, length_take; simpl;
                     rewrite length_replicate; lia]).
  rewrite Nat.add_0_l. replace (Z.to_nat (Z.of_nat i + 1)) with (S i) by lia.
  rewrite (cons_middle (Some (mkChildRef k1 t1 c1))), app_assoc.
  rewrite (insert_at_end _ _ _ _ (Some (mkChildRef k2 t2 c2)))
    by (rewrite length_app, length_take; simpl; lia).
  cbn [s_len].
  set (pre := take i cs ++ [Some (mkChildRef k1 t1 c1)]).
  assert (length pre = S i) as Hpre
    by (subst pre; rewrite length_app, length_take; simpl; lia).
  assert (exists hf,
    (if Z.of_nat i + 2 <? Z.of_nat (S (length cs))
     then
       do d <- lift (slice_from (Slice (length (h_childRefs h)) 0 (S (length cs)) 0)
                       (Z.of_nat i + 2));
       do s0 <- lift (slice_from (n_nodes nd) (Z.of_nat i + 1));
       copy_childRefs d s0
     else ret tt)
      (mkHeap (h_nodes h ++
               [InnerNode (mkInnerNode (Some n)
                  (Slice (length (h_childRefs h)) 0 (S (length cs)) 0) ts 0
                  (n_maxSize nd) 0%N)])
              (h_leafValues h)
              (h_childRefs h ++
               [pre ++ Some (mkChildRef k2 t2 c2)
                :: replicate (length cs - S i) None]))
    = Val (tt, hf) /\
    hf = mkHeap (h_nodes h ++
               [InnerNode (mkInnerNode (Some n)
                  (Slice (length (h_childRefs h)) 0 (S (length cs)) 0) ts 0
                  (n_maxSize nd) 0%N)])
              (h_leafValues h)
              (h_childRefs h ++
               [pre ++ Some (mkChildRef k2 t2 c2) :: drop (S i) cs]))
    as (hf & Htail & ->).
  { eexists. split; [|reflexivity].
    destruct (Z.of_nat i + 2 <? Z.of_nat (S (length cs))) eqn:Hlt.
    - apply Z.ltb_lt in Hlt.
      assert (slice_from (Slice (length (h_childRefs h)) 0 (S (length cs)) 0)
                (Z.of_nat i + 2)
              = Some (Slice (length (h_childRefs h)) (i + 2)
                        (length cs - S i) 0)) as Hd2.
      { unfold slice_from, slice_len. simpl.
        rewrite (proj2 (andb_true_iff _ _)) by (split; apply Z.leb_le; lia).
        do 2 f_equal; lia. }
      assert (exists s2, slice_from (n_nodes nd) (Z.of_nat i + 1) = Some s2) as [s2 Hs2].
      { unfold slice_from, slice_len.
        rewrite (proj2 (andb_true_iff _ _)) by (split; apply Z.leb_le; lia). eauto. }
      pose proof (store_elems_slice_from _ _ _ _ _ Hs2 Hcs) as Hcs2.
      replace (Z.to_nat (Z.of_nat i + 1)) with (S i) in Hcs2 by lia.
      assert (s_len s2 = (length cs - S i)%nat) as Hs2len.
      { apply store_elems_length in Hcs2. rewrite length_drop in Hcs2. lia. }
      rewrite (run_bind _ _ _ _ _ (run_lift _ _ _ Hd2)).
      rewrite (run_bind _ _ _ _ _ (run_lift _ _ _ Hs2)).
      unfold copy_childRefs. cbn [h_nodes h_leafValues h_childRefs].
      rewrite (store_copy_last _ _ _ _ _ _ (drop (S i) cs))
        by (first [exact Hcs2 | simpl; rewrite length_app, Hpre; simpl;
                                rewrite length_replicate; lia]).
      rewrite Hs2len, Nat.min_id.
      rewrite (take_ge (drop _ _)) by (rewrite length_drop; lia).
      rewrite (splice_eq _ (pre ++ [Some (mkChildRef k2 t2 c2)])
                 (replicate (length cs - S i) None) [])
        by (rewrite ?length_app, ?Hpre, ?length_replicate, ?app_nil_r,
              <- ?app_assoc; simpl; try done; lia).
      rewrite app_nil_r, <- app_assoc. done.
    - apply Z.ltb_ge in Hlt. unfold ret.
      replace (length cs - S i)%nat with 0%nat by lia. simpl.
      rewrite (drop_ge cs) by lia. done. }
  rewrite (run_bind _ _ _ _ _ Htail).
  subst pre. rewrite <- app_assoc. cbn [app].
  erewrite run_bind.
  2:{ eapply run_innerNode_updateSize.
      - simpl. by apply list_lookup_middle.
      - simpl. apply store_elems_last_whole.
        rewrite length_app, length_take. simpl. rewrite length_drop. lia.
      - exact Hsize. }
  simpl. rewrite insert_app_r_alt by done. by rewrite Nat.sub_diag.
Qed.

(** ** The new root of TBtree.Insert *)

Lemma run_TBtree_Insert_newRoot t n1 n2 ts h k1 t1 k2 t2 csize h1 h2 h3 h4 :
  node_maxKey n1 h = Val (k1, h1) ->
  node_ts n1 h = Val (t1, h2) ->
  node_maxKey n2 h = Val (k2, h3) ->
  node_ts n2 h = Val (t2, h4) ->
  innerNode_updateSize_loop
    [Some (mkChildRef k1 t1 n1); Some (mkChildRef k2 t2 n2)] 0 = Some csize ->
  TBtree_Insert_newRoot t n1 n2 ts h =
    Val (Some (length (h_nodes h)),
      mkHeap
        (h_nodes h ++
         [InnerNode (mkInnerNode (root t)
                       (Slice (length (h_childRefs h)) 0 2 0) ts
                       csize (maxNodeSize t) 0%N)])
        (h_leafValues h)
        (h_childRefs h ++
         [[Some (mkChildRef k1 t1 n1); Some (mkChildRef k2 t2 n2)]])).
Proof.
  intros Hk1 Ht1 Hk2 Ht2 Hsize.
  unfold TBtree_Insert_newRoot.
  unfold make_childRefs at 1. unfold bind at 1.
  rewrite store_make_Some by lia.
  unfold alloc_node at 1. unfold bind at 1. cbn [h_nodes h_leafValues h_childRefs].
  erewrite run_bind;
    [|eapply (run_stable _ _ _ _ _ (stable_node_maxKey _) Hk1), heap_le_alloc_childRefs].
  erewrite run_bind;
    [|eapply (run_stable _ _ _ _ _ (stable_node_ts _) Ht1), heap_le_alloc_childRefs].
  unfold assign_childRefs at 1. unfold bind at 1. cbn [h_nodes h_leafValues h_childRefs].
  rewrite store_assign_last by (simpl; lia).
  erewrite run_bind;
    [|eapply (run_stable _ _ _ _ _ (stable_node_maxKey _) Hk2), heap_le_alloc_childRefs].
  erewrite run_bind;
    [|eapply (run_stable _ _ _ _ _ (stable_node_ts _) Ht2), heap_le_alloc_childRefs].
  unfold assign_childRefs at 1. unfold bind at 1. cbn [h_nodes h_leafValues h_childRefs].
  rewrite store_assign_last by (simpl; lia).
  erewrite run_bind.
  2:{ eapply run_innerNode_updateSize.
      - simpl. by apply list_lookup_middle.
      - simpl. by apply store_elems_last_whole.
      - exact Hsize. }
  unfold ret. simpl. do 3 f_equal.
  rewrite insert_app_r_alt by done. by rewrite Nat.sub_diag.
Qed.

(** ** Trees in the heap *)

Lemma leaf_at_mono h h' p vs : heap_le h h' -> leaf_at h p vs -> leaf_at h' p vs.
Proof.
  intros (Hn & Hl & _) (l & ln & -> & Hnode & Hes).
  exists l, ln. split; [done|]. split.
  - by eapply prefix_lookup_Some.
  - by eapply store_elems_prefix.
Qed.

Lemma subtree_mono d : forall h h' p vs,
  heap_le h h' -> subtree d h p vs -> subtree d h' p vs.
Proof.
  induction d as [|d IH]; intros h h' p vs Hle; simpl.
  - by apply leaf_at_mono.
  - intros [Hleaf|(n & nd & cs & vss & -> & Hnode & Hcs & -> & Hall)].
    + left. by eapply leaf_at_mono.
    + right. exists n, nd, cs, vss. destruct Hle as (Hn & Hl & Hc).
      split; [done|]. split; [by eapply prefix_lookup_Some|].
      split; [by eapply store_elems_prefix|]. split; [done|].
      eapply Forall2_impl; [exact Hall|]. intros c vs' [Hsub Hlast].
      split; [|done]. eapply IH; [|exact Hsub]. done.
Qed.

Lemma subtree_deeper d : forall h p vs, subtree d h p vs -> subtree (S d) h p vs.
Proof.
  induction d as [|d IH]; intros h p vs; [by left|].
  intros [Hleaf|(n & nd & cs & vss & -> & Hnode & Hcs & -> & Hall)]; [by left|].
  right. exists n, nd, cs, vss. do 4 (split; [done|]).
  eapply Forall2_impl; [exact Hall|]. intros c vs' [Hsub Hlast].
  split; [by apply IH|done].
Qed.

Lemma last_key_not_nil vs k : last_key vs k -> vs <> [].
Proof. by intros (v & Hv & _) ->. Qed.

Lemma last_concat_last_key (vss : list (list leafValue)) vs' :
  last vss = Some vs' -> vs' <> [] -> last (concat vss) = last vs'.
Proof.
  intros Hlast Hne.
  apply last_Some in Hlast as [vss' ->].
  rewrite concat_app. simpl. rewrite app_nil_r.
  rewrite last_app. destruct (last vs') eqn:E; [done|].
  apply last_None in E. done.
Qed.

(** [maxKey] returns the last key of the tree, and panics on an empty one. *)
Lemma node_maxKey_subtree d : forall h p vs,
  subtree d h p vs ->
  node_maxKey p h = match last vs with
                    | Some v => Val (lv_key v, h)
                    | None => Panic
                    end.
Proof.
  assert (forall h p vs, leaf_at h p vs ->
    node_maxKey p h = match last vs with
                      | Some v => Val (lv_key v, h)
                      | None => Panic
                      end) as Hleaf.
  { intros h p vs (l & ln & -> & Hnode & Hes).
    unfold node_maxKey. rewrite (run_bind _ _ _ _ _ (run_load_node _ _ _ Hnode)).
    unfold leafNode_maxKey. rewrite (run_bind _ _ _ _ _ (run_load_leaf _ _ _ Hnode)).
    pose proof (store_elems_length _ _ _ Hes) as Hlen. rewrite length_fmap in Hlen.
    unfold bind, index_leafValues.
    destruct vs as [|v vs _] using rev_ind.
    - unfold store_index, slice_len. simpl in Hlen. rewrite <- Hlen. done.
    - rewrite last_snoc. rewrite length_app in Hlen. simpl in Hlen.
      rewrite (store_index_elems _ _ _ _ Hes) by (unfold slice_len; lia).
      unfold slice_len. rewrite <- Hlen.
      replace (Z.to_nat (Z.of_nat (length vs + 1) - 1)) with (length vs) by lia.
      rewrite fmap_app. simpl. by rewrite list_lookup_middle by (by rewrite length_fmap). }
  induction d as [|d IH]; intros h p vs; simpl; [apply Hleaf|].
  intros [?|(n & nd & cs & vss & -> & Hnode & Hcs & -> & Hall)]; [by apply Hleaf|].
  unfold node_maxKey. rewrite (run_bind _ _ _ _ _ (run_load_node _ _ _ Hnode)).
  unfold innerNode_maxKey. rewrite (run_bind _ _ _ _ _ (run_load_inner _ _ _ Hnode)).
  pose proof (store_elems_length _ _ _ Hcs) as Hlen. rewrite length_fmap in Hlen.
  unfold bind, index_childRefs.
  destruct cs as [|c cs _] using rev_ind.
  - apply Forall2_nil_inv_l in Hall as ->. simpl.
    unfold store_index, slice_len. simpl in Hlen. rewrite <- Hlen. done.
  - apply Forall2_app_inv_l in Hall as (vss1 & vss2 & _ & Hlast & ->).
    apply Forall2_cons_inv_l in Hlast as (vs' & ? & [_ (v & Hv & Hk)] & ->%Forall2_nil_inv_l & ->).
    rewrite concat_app. simpl. rewrite app_nil_r, last_app, Hv.
    rewrite length_app in Hlen. simpl in Hlen.
    rewrite (store_index_elems _ _ _ _ Hcs) by (unfold slice_len; lia).
    unfold slice_len. rewrite <- Hlen.
    replace (Z.to_nat (Z.of_nat (length cs + 1) - 1)) with (length cs) by lia.
    rewrite fmap_app. simpl. rewrite list_lookup_middle by (by rewrite length_fmap).
    unfold ret. by rewrite Hk.
Qed.

Lemma node_ts_subtree d h p vs :
  subtree d h p vs -> exists t, node_ts p h = Val (t, h).
Proof.
  assert (leaf_at h p vs -> exists t, node_ts p h = Val (t, h)) as Hleaf.
  { intros (l & ln & -> & Hnode & Hes). exists (l_cts ln).
    unfold node_ts. rewrite (run_bind _ _ _ _ _ (run_load_node _ _ _ Hnode)).
    unfold leafNode_ts. by rewrite (run_bind _ _ _ _ _ (run_load_leaf _ _ _ Hnode)). }
  destruct d as [|d]; simpl; [done|].
  intros [?|(n & nd & cs & vss & -> & Hnode & Hcs & -> & Hall)]; [by apply Hleaf|].
  exists (n_cts nd).
  unfold node_ts. rewrite (run_bind _ _ _ _ _ (run_load_node _ _ _ Hnode)).
  unfold innerNode_ts. by rewrite (run_bind _ _ _ _ _ (run_load_inner _ _ _ Hnode)).
Qed.

(** A computation that calls [maxKey] on an empty tree does not return. *)
Lemma preserves_node_maxKey_empty d h0 p :
  subtree d h0 p [] -> preserves h0 (node_maxKey p) (fun _ => False).
Proof.
  intros Hsub h r h' Hle Hrun.
  rewrite (node_maxKey_subtree d h p []) in Hrun; [done|].
  by eapply subtree_mono.
Qed.

(** ** Routing an insert to a child *)

Lemma ascending_concat_elem (vss : list (list leafValue)) vs :
  ascending (concat vss) -> vs ∈ vss -> ascending vs.
Proof.
  induction vss as [|vs' vss IH]; simpl; intros Hasc Hin.
  - by apply elem_of_nil in Hin.
  - apply ascending_app in Hasc as (H1 & H2 & _).
    apply elem_of_cons in Hin as [->|Hin]; [done|by apply IH].
Qed.

Lemma concat_all_lt key (cs : list childRef) (vss : list (list leafValue)) :
  Forall2 (fun c vs' => last_key vs' (cr_key c)) cs vss ->
  ascending (concat vss) ->
  Forall (fun c' => key_lt (cr_key c') key) cs ->
  Forall (fun w => key_lt (lv_key w) key) (concat vss).
Proof.
  induction 1 as [|c vs' cs vss (v & Hv & Hk) _ IH]; simpl; intros Hasc Hlt; [done|].
  apply ascending_app in Hasc as (H1 & H2 & _).
  apply Forall_cons in Hlt as [Hc Hlt].
  apply Forall_app. split; [|by apply IH].
  eapply Forall_impl; [by eapply ascending_all_le_last|].
  intros w Hw. simpl in Hw. by eapply key_le_lt_trans.
Qed.

Lemma put_concat key value ts (cs : list childRef) (vss : list (list leafValue))
    m c vs_m :
  Forall2 (fun c vs' => last_key vs' (cr_key c)) cs vss ->
  ascending (concat vss) ->
  cs !! m = Some c -> vss !! m = Some vs_m ->
  Forall (fun c' => key_lt (cr_key c') key) (take m cs) ->
  (bytes_Compare key (cr_key c) <? 1) = true \/ S m = length cs ->
  put key value ts (concat vss)
  = concat (take m vss) ++ put key value ts vs_m ++ concat (drop (S m) vss).
Proof.
  intros Hall Hasc Hc Hvs Hlt Hroute.
  rewrite <- (take_drop_middle vss m vs_m Hvs) in Hasc |- * at 1.
  rewrite concat_app in Hasc |- *. simpl in Hasc |- *.
  apply ascending_app in Hasc as (Hasc1 & Hasc2 & _).
  rewrite put_all_lt.
  2:{ eapply concat_all_lt; [|exact Hasc1|exact Hlt]. by apply Forall2_take. }
  f_equal.
  destruct Hroute as [Hle|Hlast].
  - apply put_app_le.
    destruct (Forall2_lookup_lr _ _ _ _ _ _ Hall Hc Hvs) as (v & Hv & Hk).
    apply Exists_exists. exists v. split.
    + rewrite last_lookup in Hv. apply list_elem_of_lookup. eauto.
    + rewrite Hk. intros Hlt'%key_lt_gt. apply Z.ltb_lt in Hle. lia.
  - apply Forall2_length in Hall.
    rewrite (drop_ge vss) by lia. simpl. by rewrite !app_nil_r.
Qed.

Lemma find_key_concat key (cs : list childRef) (vss : list (list leafValue))
    m c vs_m :
  Forall2 (fun c vs' => last_key vs' (cr_key c)) cs vss ->
  ascending (concat vss) ->
  cs !! m = Some c -> vss !! m = Some vs_m ->
  Forall (fun c' => key_lt (cr_key c') key) (take m cs) ->
  (bytes_Compare key (cr_key c) <? 1) = true ->
  find_key key (concat vss) = find_key key vs_m.
Proof.
  intros Hall Hasc Hc Hvs Hlt Hle.
  rewrite <- (take_drop_middle vss m vs_m Hvs) in Hasc |- * at 1.
  rewrite concat_app in Hasc |- *. simpl in Hasc |- *.
  apply ascending_app in Hasc as (Hasc1 & Hasc2 & _).
  rewrite find_key_app, find_key_all_lt.
  2:{ eapply concat_all_lt; [|exact Hasc1|exact Hlt]. by apply Forall2_take. }
  rewrite find_key_app. destruct (find_key key vs_m) eqn:E; [done|].
  apply find_key_all_gt.
  apply ascending_app in Hasc2 as (Hm & _ & Hcross).
  destruct (Forall2_lookup_lr _ _ _ _ _ _ Hall Hc Hvs) as (v & Hv & Hk).
  assert (v ∈ vs_m) as Hin.
  { rewrite last_lookup in Hv. apply list_elem_of_lookup. eauto. }
  rewrite Forall_forall in Hcross. specialize (Hcross _ Hin).
  eapply Forall_impl; [exact Hcross|]. intros w Hw. simpl in Hw.
  rewrite Hk in Hw.
  apply Z.ltb_lt in Hle.
  destruct (compare_list_cases (data key) (data (cr_key c))) as [H|[H|H]];
    unfold bytes_Compare in Hle; [| |lia].
  - by eapply key_lt_trans.
  - apply compare_list_eq in H. unfold key_lt, bytes_Compare in *. by rewrite H.
Qed.

(** ** An insert that meets an empty node does not return *)

Lemma innerNode_insertAt_one_empty d h0 n nd i c1 ts :
  subtree d h0 c1 [] ->
  preserves h0 (innerNode_insertAt_one n nd i c1 ts) (fun _ => False).
Proof.
  intros Hsub. unfold innerNode_insertAt_one. do 4 pstep.
  apply preserves_seq; [pstep|].
  eapply preserves_bind; [by eapply preserves_node_maxKey_empty|]. by intros ? [].
Qed.

Lemma innerNode_insertAt_two_empty d h0 n nd i c1 c2 ts :
  subtree d h0 c1 [] ->
  preserves h0 (innerNode_insertAt_two n nd i c1 c2 ts) (fun _ => False).
Proof.
  intros Hsub. unfold innerNode_insertAt_two. do 4 pstep.
  apply preserves_seq; [pstep|].
  eapply preserves_bind; [by eapply preserves_node_maxKey_empty|]. by intros ? [].
Qed.

Lemma TBtree_Insert_newRoot_empty d h0 t n1 n2 ts :
  subtree d h0 n1 [] ->
  preserves h0 (TBtree_Insert_newRoot t n1 n2 ts) (fun _ => False).
Proof.
  intros Hsub. unfold TBtree_Insert_newRoot. do 2 pstep.
  eapply preserves_bind; [by eapply preserves_node_maxKey_empty|]. by intros ? [].
Qed.

(** ** insertAt on a tree *)

Lemma subtree_inner d h n nd cs vss :
  h_nodes h !! n = Some (InnerNode nd) ->
  store_elems (h_childRefs h) (n_nodes nd) = Some (Some <$> cs) ->
  Forall2 (fun c vs' => subtree d h (cr_node c) vs' /\ last_key vs' (cr_key c)) cs vss ->
  subtree (S d) h (Some n) (concat vss).
Proof. intros. right. exists n, nd, cs, vss. by repeat split. Qed.

Lemma concat_not_nil (cs : list childRef) (vss : list (list leafValue)) :
  Forall2 (fun c vs' => last_key vs' (cr_key c)) cs vss -> cs <> [] -> concat vss <> [].
Proof.
  destruct 1 as [|c vs' cs vss Hk _]; [done|]. intros _. simpl.
  apply last_key_not_nil in Hk. by destruct vs'.
Qed.

Lemma innerNode_split_subtree d hS n nd cs vss r h' :
  h_nodes hS !! n = Some (InnerNode nd) ->
  store_elems (h_childRefs hS) (n_nodes nd) = Some (Some <$> cs) ->
  cs <> [] ->
  Forall2 (fun c vs' => subtree d h' (cr_node c) vs' /\ last_key vs' (cr_key c)) cs vss ->
  innerNode_split n hS = Val (r, h') ->
  exists n2, r = (n2, None) /\ insert_post (S d) h' (Some n) n2 (concat vss).
Proof.
  intros Hn Hcs Hne Hall Hrun.
  destruct (Z_le_gt_dec (n_csize nd) (n_maxSize nd)) as [Hle|Hgt].
  - unfold innerNode_split in Hrun.
    rewrite (run_bind _ _ _ _ _ (run_load_inner _ _ _ Hn)) in Hrun.
    rewrite (proj2 (Z.leb_le _ _) Hle) in Hrun. injection Hrun as <- <-.
    exists None. split; [done|]. exists (concat vss), [].
    split; [by eapply subtree_inner|]. split; [by rewrite app_nil_r|done].
  - destruct (innerNode_splitInfo_loop_total (n_maxSize nd) cs 0 0 0)
      as (si & ss & Hinfo & [[-> _]|Hsi]); [done|].
    destruct (innerNode_updateTs_loop_total (take (Z.to_nat si) cs) 0%N) as [ctsL HL].
    destruct (innerNode_updateTs_loop_total (drop (Z.to_nat si) cs) 0%N) as [ctsR HR].
    rewrite fmap_take in HL. rewrite fmap_drop in HR.
    destruct (run_innerNode_split n hS nd (Some <$> cs) si ss ctsL ctsR Hn Hcs
                ltac:(lia) Hinfo ltac:(rewrite length_fmap; lia) HL HR)
      as (left & right & Hleft & Hright & Hrun').
    rewrite Hrun' in Hrun. injection Hrun as <- <-.
    assert (n < length (h_nodes hS))%nat as Hlt by (by eapply lookup_lt_Some).
    pose proof (store_elems_length _ _ _ Hcs) as Hlen. rewrite length_fmap in Hlen.
    exists (Some (length (h_nodes hS))). split; [done|].
    exists (concat (take (Z.to_nat si) vss)), (concat (drop (Z.to_nat si) vss)).
    split; [|split; [|split]].
    + eapply (subtree_inner _ _ _ _ (take (Z.to_nat si) cs)).
      * cbn [h_nodes]. rewrite lookup_app_l by (by rewrite length_insert).
        by apply list_lookup_insert_eq.
      * cbn [h_childRefs n_nodes]. rewrite fmap_take.
        eapply store_elems_slice_to; eauto. unfold slice_len. lia.
      * by apply Forall2_take.
    + by rewrite <- concat_app, take_drop.
    + eapply (subtree_inner _ _ _ _ (drop (Z.to_nat si) cs)).
      * cbn [h_nodes]. apply list_lookup_middle. by rewrite length_insert.
      * cbn [h_childRefs n_nodes]. rewrite fmap_drop.
        eapply store_elems_slice_from; eauto.
      * by apply Forall2_drop.
    + eapply (concat_not_nil (drop (Z.to_nat si) cs)).
      * apply Forall2_drop. eapply Forall2_impl; [exact Hall|]. by intros ?? [_ ?].
      * intros Hnil. apply (f_equal length) in Hnil.
        rewrite length_drop in Hnil. simpl in Hnil. lia.
Qed.

Lemma Forall2_replace1 {A B} (P : A -> B -> Prop) cs vss m c1 v1 :
  Forall2 P cs vss -> P c1 v1 ->
  Forall2 P (take m cs ++ c1 :: drop (S m) cs) (take m vss ++ v1 :: drop (S m) vss).
Proof.
  intros Hall H1. apply Forall2_app; [by apply Forall2_take|].
  constructor; [done|by apply Forall2_drop].
Qed.

Lemma Forall2_replace2 {A B} (P : A -> B -> Prop) cs vss m c1 v1 c2 v2 :
  Forall2 P cs vss -> P c1 v1 -> P c2 v2 ->
  Forall2 P (take m cs ++ c1 :: c2 :: drop (S m) cs)
            (take m vss ++ v1 :: v2 :: drop (S m) vss).
Proof.
  intros Hall H1 H2. apply Forall2_app; [by apply Forall2_take|].
  constructor; [done|]. constructor; [done|by apply Forall2_drop].
Qed.

Lemma fmap_replace1 {A} (cs : list A) m c :
  take m (Some <$> cs) ++ Some c :: drop (S m) (Some <$> cs)
  = Some <$> (take m cs ++ c :: drop (S m) cs).
Proof. by rewrite fmap_app, fmap_cons, fmap_take, fmap_drop. Qed.

Lemma fmap_replace2 {A} (cs : list A) m c c' :
  take m (Some <$> cs) ++ Some c :: Some c' :: drop (S m) (Some <$> cs)
  = Some <$> (take m cs ++ c :: c' :: drop (S m) cs).
Proof. by rewrite fmap_app, !fmap_cons, fmap_take, fmap_drop. Qed.

Lemma leaf_at_subtree d h p vs : leaf_at h p vs -> subtree d h p vs.
Proof. destruct d; [done|by left]. Qed.

Lemma leaf_insert_post d h' n1 n2 vs1 vs2 vs' :
  leaf_at h' n1 vs1 -> vs1 ++ vs2 = vs' ->
  match n2 with None => vs2 = [] | Some _ => leaf_at h' n2 vs2 /\ vs2 <> [] end ->
  insert_post d h' n1 n2 vs'.
Proof.
  intros H1 Happ H2. exists vs1, vs2. split; [by apply leaf_at_subtree|].
  split; [done|]. destruct n2; [|done]. destruct H2. split; [by apply leaf_at_subtree|done].
Qed.

(** The child [indexOf] routes [key] to. *)
Lemma innerNode_indexOf_route key (cs : list childRef) :
  cs <> [] ->
  exists (m : nat) c,
    innerNode_indexOf_loop (Some <$> cs) key 0 (Z.of_nat (length cs))
      = Some (Z.of_nat m) /\
    cs !! m = Some c /\
    Forall (fun c' => key_lt (cr_key c') key) (take m cs) /\
    ((bytes_Compare key (cr_key c) <? 1) = true \/
     S m = length cs /\ key_lt (cr_key c) key).
Proof.
  intros Hne.
  destruct (innerNode_indexOf_loop_spec key cs (Z.of_nat (length cs)) 0)
    as (i & Hloop & [(m & c & -> & Hc & Hle & Hlt)|[-> Hall]]).
  - exists m, c. rewrite Z.add_0_l in Hloop. auto.
  - destruct cs as [|c cs _] using rev_ind; [done|].
    exists (length cs), c. rewrite length_app in *. simpl in *.
    replace (Z.of_nat (length cs + 1) - 1) with (Z.of_nat (length cs)) in Hloop by lia.
    split; [done|]. split; [by apply list_lookup_middle|].
    apply Forall_app in Hall as [Hall Hc]. apply Forall_cons in Hc as [Hc _].
    split; [by rewrite take_app_length|]. right. split; [lia|done].
Qed.

Lemma run_innerNode_indexOf n key h nd cs :
  h_nodes h !! n = Some (InnerNode nd) ->
  store_elems (h_childRefs h) (n_nodes nd) = Some cs ->
  innerNode_indexOf n key h
  = lift (innerNode_indexOf_loop cs key 0 (slice_len (n_nodes nd))) h.
Proof.
  intros Hn Hcs. unfold innerNode_indexOf.
  rewrite (run_bind _ _ _ _ _ (run_load_inner _ _ _ Hn)).
  by rewrite (run_bind _ _ _ _ _ (run_childRefs_of _ _ _ Hcs)).
Qed.

Lemma node_insertAt_subtree d : forall fuel h p vs key value ts r h',
  subtree d h p vs -> ascending vs ->
  node_insertAt fuel p key value ts h = Val (r, h') ->
  exists n1 n2, r = (n1, n2, None) /\ insert_post d h' n1 n2 (put key value ts vs).
Proof.
  assert (forall d0 fuel h p vs key value ts r h',
    leaf_at h p vs ->
    node_insertAt fuel p key value ts h = Val (r, h') ->
    exists n1 n2, r = (n1, n2, None) /\ insert_post d0 h' n1 n2 (put key value ts vs))
    as Hleaf.
  { intros d0 fuel h p vs key value ts r h' Hat Hrun.
    destruct fuel as [|fuel]; [done|]. simpl in Hrun.
    pose proof Hat as (l & ln & -> & Hnode & Hes).
    rewrite (run_bind _ _ _ _ _ (run_load_node _ _ _ Hnode)) in Hrun.
    destruct (leafNode_insertAt_entries _ _ _ _ _ _ _ _ Hat Hrun)
      as (n1 & n2 & vs1 & vs2 & -> & H1 & Happ & H2).
    exists n1, n2. split; [done|]. by eapply leaf_insert_post. }
  induction d as [|d IH]; intros fuel h p vs key value ts r h' Hsub Hasc Hrun.
  { by eapply Hleaf. }
  destruct Hsub as [Hat|(n & nd & cs & vss & -> & Hnode & Hcs & -> & Hall)].
  { by eapply Hleaf. }
  destruct fuel as [|fuel]; [done|]. simpl in Hrun.
  rewrite (run_bind _ _ _ _ _ (run_load_node _ _ _ Hnode)) in Hrun.
  cbn beta iota in Hrun. unfold innerNode_insertAt in Hrun.
  pose proof (run_load_inner _ _ _ Hnode) as Hli.
  rewrite (run_bind _ _ _ _ _ Hli) in Hrun.
  pose proof (store_elems_length _ _ _ Hcs) as Hlen. rewrite length_fmap in Hlen.
  destruct (decide (cs = [])) as [->|Hne].
  { exfalso. apply bind_Val in Hrun as (i & h1 & Hidx & Hrun).
    rewrite (run_innerNode_indexOf _ _ _ _ _ Hnode Hcs) in Hidx.
    unfold slice_len in Hidx. rewrite <- Hlen in Hidx. simpl in Hidx.
    injection Hidx as <- <-.
    apply bind_Val in Hrun as (c & h1 & Hidx & _).
    unfold index_childRefs, store_index in Hidx. simpl in Hidx. done. }
  destruct (innerNode_indexOf_route key cs Hne) as (m & c & Hloop & Hc & Hlt & Hroute).
  assert (innerNode_indexOf n key h = Val (Z.of_nat m, h)) as Hidx.
  { rewrite (run_innerNode_indexOf _ _ _ _ _ Hnode Hcs).
    unfold slice_len. rewrite <- Hlen, Hloop. done. }
  rewrite (run_bind _ _ _ _ _ Hidx) in Hrun.
  assert (m < length cs)%nat as Hm by (by eapply lookup_lt_Some).
  assert (index_childRefs (n_nodes nd) (Z.of_nat m) h = Val (c, h)) as Hic.
  { unfold index_childRefs.
    rewrite (store_index_elems _ _ _ _ Hcs) by lia.
    rewrite Nat2Z.id, list_lookup_fmap, Hc. done. }
  rewrite (run_bind _ _ _ _ _ Hic) in Hrun.
  apply bind_Val in Hrun as ([[c1 c2] err] & h1 & Hrec & Hrun).
  destruct (Forall2_lookup_l _ _ _ _ _ Hall Hc) as (vs_m & Hvs & Hsub_m & Hlast_m).
  assert (ascending vs_m) as Hasc_m.
  { eapply ascending_concat_elem; [exact Hasc|]. apply list_elem_of_lookup. eauto. }
  destruct (IH _ _ _ _ _ _ _ _ _ Hsub_m Hasc_m Hrec)
    as (c1' & c2' & [= -> -> ->] & vs1 & vs2 & Hsub1 & Happ & Hsub2).
  assert (heap_le h h1) as Hle1.
  { eapply preserves_node_insertAt; [apply heap_le_refl|exact Hrec]. }
  assert (Forall2 (fun c vs' => last_key vs' (cr_key c)) cs vss) as Hkeys.
  { eapply Forall2_impl; [exact Hall|]. by intros ?? [_ ?]. }
  assert (put key value ts (concat vss)
          = concat (take m vss) ++ put key value ts vs_m ++ concat (drop (S m) vss))
    as Hput.
  { eapply put_concat; eauto. destruct Hroute as [?|[? _]]; auto. }
  assert (store_elems (h_childRefs h1) (n_nodes nd) = Some (Some <$> cs)) as Hcs1.
  { destruct Hle1 as (_ & _ & Hc1). by eapply store_elems_prefix. }
  (* the children seen from the final heap *)
  assert (heap_le h1 h') as Hle'.
  { destruct c2'.
    - eapply preserves_innerNode_insertAt_two; [apply heap_le_refl|exact Hrun].
    - eapply preserves_innerNode_insertAt_one; [apply heap_le_refl|exact Hrun]. }
  assert (Forall2 (fun c vs' => subtree d h' (cr_node c) vs' /\ last_key vs' (cr_key c))
                  cs vss) as Hall'.
  { eapply Forall2_impl; [exact Hall|]. intros c0 vs0 [Hs0 Hk0]. split; [|done].
    eapply subtree_mono; [|exact Hs0]. by eapply heap_le_trans. }
  (* c1 is not empty *)
  destruct (last vs1) as [v1|] eqn:Hlast1.
  2:{ apply last_None in Hlast1 as ->. exfalso.
      destruct c2'.
      - by eapply (innerNode_insertAt_two_empty d h1); [|apply heap_le_refl|exact Hrun].
      - by eapply (innerNode_insertAt_one_empty d h1); [|apply heap_le_refl|exact Hrun]. }
  pose proof (node_maxKey_subtree _ _ _ _ Hsub1) as Hk1. rewrite Hlast1 in Hk1.
  destruct (node_ts_subtree _ _ _ _ Hsub1) as [t1 Ht1].
  assert (last_key vs1 (lv_key v1)) as Hlk1 by (by exists v1).
  destruct c2' as [c2'|].
  - (* two nodes *)
    destruct Hsub2 as [Hsub2 Hne2].
    destruct (last vs2) as [v2|] eqn:Hlast2; [|by apply last_None in Hlast2].
    pose proof (node_maxKey_subtree _ _ _ _ Hsub2) as Hk2. rewrite Hlast2 in Hk2.
    destruct (node_ts_subtree _ _ _ _ Hsub2) as [t2 Ht2].
    assert (last_key vs2 (lv_key v2)) as Hlk2 by (by exists v2).
    set (cs' := take m cs ++ mkChildRef (lv_key v1) t1 c1'
                  :: mkChildRef (lv_key v2) t2 (Some c2') :: drop (S m) cs).
    destruct (innerNode_updateSize_loop_total cs' 0) as [csize Hsize].
    subst cs'. rewrite <- fmap_replace2 in Hsize.
    erewrite (run_innerNode_insertAt_two _ _ m) in Hrun; eauto;
      [|by rewrite length_fmap].
    rewrite length_fmap, fmap_replace2 in Hrun.
    apply bind_Val in Hrun as ([n2 err] & h2 & Hsplit & Hret).
    apply ret_Val in Hret. injection Hret as -> ->.
    eapply innerNode_split_subtree
      with (d := d)
           (vss := take m vss ++ vs1 :: vs2 :: drop (S m) vss) in Hsplit.
    + destruct Hsplit as (n2' & [= -> ->] & Hpost).
      exists (Some (length (h_nodes h1))), n2'. split; [done|].
      rewrite Hput, <- Happ.
      rewrite concat_app in Hpost. simpl in Hpost.
      by rewrite <- !app_assoc.
    + simpl. by apply list_lookup_middle.
    + simpl. apply store_elems_last_whole.
      rewrite length_fmap, length_app, length_take. simpl. rewrite length_drop. lia.
    + by destruct (take m cs).
    + apply Forall2_replace2; [done|..].
      * split; [by eapply subtree_mono|done].
      * split; [by eapply subtree_mono|done].
  - (* one node *)
    subst vs2. rewrite app_nil_r in Happ. subst vs1.
    set (cs' := take m cs ++ mkChildRef (lv_key v1) t1 c1' :: drop (S m) cs).
    destruct (innerNode_updateSize_loop_total cs' 0) as [csize Hsize].
    subst cs'. rewrite <- fmap_replace1 in Hsize.
    erewrite (run_innerNode_insertAt_one _ _ m) in Hrun; eauto;
      [|by rewrite length_fmap].
    rewrite length_fmap, fmap_replace1 in Hrun.
    injection Hrun as <- <-.
    exists (Some (length (h_nodes h1))), None. split; [done|].
    exists (put key value ts (concat vss)), []. split; [|by rewrite app_nil_r].
    rewrite Hput.
    change (put key value ts vs_m ++ concat (drop (S m) vss))
      with (concat (put key value ts vs_m :: drop (S m) vss)).
    rewrite <- concat_app.
    eapply subtree_inner.
    + simpl. by apply list_lookup_middle.
    + simpl. apply store_elems_last_whole.
      rewrite length_fmap, length_app, length_take. simpl. rewrite length_drop. lia.
    + set (hf := mkHeap _ _ _) in *.
      apply Forall2_replace1.
      * eapply Forall2_impl; [exact Hall|]. intros c0 vs0 [Hs0 Hk0]. split; [|done].
        eapply subtree_mono; [|exact Hs0].
        eapply heap_le_trans; [exact Hle1|]. apply heap_le_alloc_childRefs.
      * split; [|done]. eapply subtree_mono; [|exact Hsub1].
        apply heap_le_alloc_childRefs.
Qed.

(** ** Reading a tree *)

Lemma run_leafNode_entry l key h ln vs :
  h_nodes h !! l = Some (LeafNode ln) ->
  store_elems (h_leafValues h) (l_values ln) = Some (Some <$> vs) ->
  ascending vs ->
  leafNode_entry l key h = Val (find_key key vs, h).
Proof.
  intros Hl Hes Hasc. unfold leafNode_entry.
  rewrite (run_bind _ _ _ _ _ (run_load_leaf _ _ _ Hl)).
  destruct (leafNode_indexOf_loop_put key None 0%N vs 0)
    as (n & found & Hloop & Hn & _).
  rewrite Z.add_0_l in Hloop.
  pose proof (leafNode_indexOf_loop_find _ _ _ _ _ Hasc Hloop) as Hfind.
  erewrite run_bind;
    [|erewrite run_leafNode_indexOf by eauto; by apply run_lift].
  cbn beta iota. destruct found; simpl.
  - destruct Hfind as [Hfind _]. rewrite Z.sub_0_r, Nat2Z.id in Hfind.
    destruct (leafNode_indexOf_loop_found _ _ _ _ Hloop) as (old & Hold & _).
    rewrite Z.sub_0_r in Hold.
    unfold bind, index_leafValues.
    rewrite (store_index_elems _ _ _ _ Hes) by lia. rewrite Hold.
    rewrite Nat2Z.id, list_lookup_fmap in Hold.
    destruct (vs !! n) as [old'|]; simpl in Hold; simplify_eq.
    unfold ret. by rewrite Hfind.
  - by rewrite Hfind.
Qed.

Lemma node_entry_subtree d : forall fuel h p vs key,
  subtree d h p vs -> ascending vs -> vs <> [] \/ leaf_at h p vs -> (d < fuel)%nat ->
  node_entry fuel p key h = Val (find_key key vs, h).
Proof.
  assert (forall fuel h p vs key,
    leaf_at h p vs -> ascending vs -> (0 < fuel)%nat ->
    node_entry fuel p key h = Val (find_key key vs, h)) as Hleaf.
  { intros fuel h p vs key (l & ln & -> & Hnode & Hes) Hasc Hfuel.
    destruct fuel as [|fuel]; [lia|]. simpl.
    rewrite (run_bind _ _ _ _ _ (run_load_node _ _ _ Hnode)).
    by eapply run_leafNode_entry. }
  induction d as [|d IH]; intros fuel h p vs key Hsub Hasc Hne Hfuel.
  { by apply Hleaf. }
  destruct Hsub as [Hat|(n & nd & cs & vss & -> & Hnode & Hcs & -> & Hall)].
  { apply Hleaf; [done|done|lia]. }
  destruct Hne as [Hne|(l & ln & [= <-] & Hnode' & _)]; [|congruence].
  destruct fuel as [|fuel]; [lia|]. simpl.
  rewrite (run_bind _ _ _ _ _ (run_load_node _ _ _ Hnode)). cbn beta iota.
  unfold innerNode_entry.
  rewrite (run_bind _ _ _ _ _ (run_load_inner _ _ _ Hnode)).
  pose proof (store_elems_length _ _ _ Hcs) as Hlen. rewrite length_fmap in Hlen.
  assert (Forall2 (fun c vs' => last_key vs' (cr_key c)) cs vss) as Hkeys.
  { eapply Forall2_impl; [exact Hall|]. by intros ?? [_ ?]. }
  assert (cs <> []) as Hcne.
  { intros ->. by apply Forall2_nil_inv_l in Hall as ->. }
  destruct (innerNode_indexOf_route key cs Hcne) as (m & c & Hloop & Hc & Hlt & Hroute).
  assert (innerNode_indexOf n key h = Val (Z.of_nat m, h)) as Hidx.
  { rewrite (run_innerNode_indexOf _ _ _ _ _ Hnode Hcs).
    unfold slice_len. rewrite <- Hlen, Hloop. done. }
  rewrite (run_bind _ _ _ _ _ Hidx).
  assert (m < length cs)%nat as Hm by (by eapply lookup_lt_Some).
  assert (index_childRefs (n_nodes nd) (Z.of_nat m) h = Val (c, h)) as Hic.
  { unfold index_childRefs.
    rewrite (store_index_elems _ _ _ _ Hcs) by lia.
    rewrite Nat2Z.id, list_lookup_fmap, Hc. done. }
  rewrite (run_bind _ _ _ _ _ Hic).
  destruct (Forall2_lookup_l _ _ _ _ _ Hall Hc) as (vs_m & Hvs & Hsub_m & Hlast_m).
  destruct Hroute as [Hle|[Hlast Hgt]].
  - replace (bytes_Compare key (cr_key c) =? 1) with false
      by (symmetry; apply Z.eqb_neq; apply Z.ltb_lt in Hle; lia).
    rewrite (find_key_concat key cs vss m c vs_m) by done.
    apply IH; [done| |left; by eapply last_key_not_nil|lia].
    eapply ascending_concat_elem; [exact Hasc|]. apply list_elem_of_lookup. eauto.
  - replace (bytes_Compare key (cr_key c) =? 1) with true
      by (symmetry; apply Z.eqb_eq; by apply key_lt_gt).
    unfold ret. f_equal. f_equal. symmetry. apply find_key_all_lt.
    eapply concat_all_lt; [exact Hkeys|exact Hasc|].
    rewrite <- (take_drop_middle cs m c Hc).
    apply Forall_app. split; [done|].
    rewrite drop_ge by lia. by constructor.
Qed.

(** [get] returns what the entry gives. *)
Lemma run_leafNode_get l key h :
  leafNode_get l key h = (do e <- leafNode_entry l key; ret (get_result e)) h.
Proof.
  unfold leafNode_get, leafNode_entry, bind.
  destruct (load_leaf l h) as [[ln h1]| |]; [|done..].
  destruct (leafNode_indexOf l key h1) as [[[i found] h2]| |]; [|done..].
  destruct found; simpl; [|done].
  by destruct (index_leafValues (l_values ln) i h2) as [[v h3]| |].
Qed.

Lemma run_node_get fuel : forall p key h,
  node_get fuel p key h = (do e <- node_entry fuel p key; ret (get_result e)) h.
Proof.
  induction fuel as [|fuel IH]; intros p key h; [done|]. simpl.
  unfold bind.
  destruct (load_node p h) as [[o h1]| |]; [|done..].
  destruct p as [l|]; [|done]. destruct o as [ln|nd].
  - rewrite run_leafNode_get. done.
  - unfold innerNode_get, innerNode_entry, bind.
    destruct (load_inner l h1) as [[nd' h2]| |]; [|done..].
    destruct (innerNode_indexOf l key h2) as [[i h3]| |]; [|done..].
    destruct (index_childRefs (n_nodes nd') i h3) as [[c h4]| |]; [|done..].
    destruct (_ =? 1); [done|]. rewrite IH. done.
Qed.

(** ** The entries of the tree *)

Lemma NewWith_holds opt h0 t h :
  NewWith opt h0 = Val ((Some t, None), h) -> tree_holds t h [].
Proof.
  unfold NewWith. destruct opt as [o|]; [|done].
  destruct (_ || _); [done|]. intros Hrun.
  unfold bind, alloc_node, ret in Hrun. injection Hrun as <- <-.
  assert (leaf_at
    (mkHeap (h_nodes h0 ++ [LeafNode (mkLeafNode None nil_slice 0%N 0 (opt_maxNodeSize o) 0%N)])
            (h_leafValues h0) (h_childRefs h0))
    (Some (length (h_nodes h0))) []) as Hat.
  { eexists _, _. split; [done|]. split; [simpl; by apply list_lookup_middle|done]. }
  exists 0%nat. split; [exact Hat|]. split; [done|]. by right.
Qed.

Lemma TBtree_Insert_holds fuel t key value ts h vs t' h' :
  tree_holds t h vs ->
  TBtree_Insert fuel t key value ts h = Val ((None, t'), h') ->
  tree_holds t' h' (put key value ts vs).
Proof.
  intros (d & Hsub & Hasc & _) Hrun. unfold TBtree_Insert in Hrun.
  destruct (closed t); [done|].
  apply bind_Val in Hrun as (illegal & h1 & Hill & Hrun).
  assert (h1 = h) as ->.
  { clear Hrun. destruct key.
    - apply bind_Val in Hill as (rts & h2 & Hts & Hret).
      apply ret_Val in Hret. apply node_ts_heap in Hts. congruence.
    - apply ret_Val in Hill. congruence. }
  destruct illegal; [done|].
  apply bind_Val in Hrun as ([[n1 n2] err] & h1 & Hins & Hrun).
  destruct (node_insertAt_subtree _ _ _ _ _ _ _ _ _ _ Hsub Hasc Hins)
    as (n1' & n2' & [= -> -> ->] & vs1 & vs2 & Hsub1 & Happ & Hsub2).
  pose proof (ascending_put key value ts vs Hasc) as Hasc'.
  destruct n2' as [n2|].
  - destruct Hsub2 as [Hsub2 Hne2].
    apply bind_Val in Hrun as (newRoot & h2 & Hroot & Hret).
    apply ret_Val in Hret. injection Hret as -> ->.
    destruct (last vs1) as [v1|] eqn:Hlast1.
    2:{ apply last_None in Hlast1 as ->. exfalso.
        by eapply (TBtree_Insert_newRoot_empty d h1); [|apply heap_le_refl|exact Hroot]. }
    destruct (last vs2) as [v2|] eqn:Hlast2; [|by apply last_None in Hlast2].
    pose proof (node_maxKey_subtree _ _ _ _ Hsub1) as Hk1. rewrite Hlast1 in Hk1.
    pose proof (node_maxKey_subtree _ _ _ _ Hsub2) as Hk2. rewrite Hlast2 in Hk2.
    destruct (node_ts_subtree _ _ _ _ Hsub1) as [t1 Ht1].
    destruct (node_ts_subtree _ _ _ _ Hsub2) as [t2 Ht2].
    destruct (innerNode_updateSize_loop_total
                [mkChildRef (lv_key v1) t1 n1'; mkChildRef (lv_key v2) t2 (Some n2)] 0)
      as [csize Hsize].
    erewrite run_TBtree_Insert_newRoot in Hroot; eauto.
    injection Hroot as <- <-.
    exists (S d). split; [|split].
    + rewrite <- Happ.
      replace (vs1 ++ vs2) with (concat [vs1; vs2]) by (simpl; by rewrite app_nil_r).
      eapply (subtree_inner _ _ _ _
                [mkChildRef (lv_key v1) t1 n1'; mkChildRef (lv_key v2) t2 (Some n2)]).
      * simpl. by apply list_lookup_middle.
      * simpl. by apply store_elems_last_whole.
      * repeat constructor; simpl;
          try (eapply subtree_mono; [apply heap_le_alloc_childRefs|done]);
          by eexists.
    + done.
    + left. apply put_not_nil.
  - subst vs2. rewrite app_nil_r in Happ. subst vs1.
    apply ret_Val in Hrun. injection Hrun as -> ->.
    exists d. split; [done|]. split; [done|]. left. apply put_not_nil.
Qed.

Lemma TBtree_Insert_holds_any fuel t key value ts h vs e t' h' :
  tree_holds t h vs ->
  TBtree_Insert fuel t key value ts h = Val ((e, t'), h') ->
  tree_holds t' h' (match e with None => put key value ts vs | Some _ => vs end).
Proof.
  intros Hholds Hrun. destruct e as [e|].
  - apply TBtree_Insert_error in Hrun as (-> & -> & _). done.
  - by eapply TBtree_Insert_holds.
Qed.

Lemma tree_holds_root t t' h vs : root t' = root t -> tree_holds t h vs -> tree_holds t' h vs.
Proof. unfold tree_holds. by intros ->. Qed.

Lemma reachable_holds t h : reachable t h -> exists vs, tree_holds t h vs.
Proof.
  induction 1 as [opt h0 t h Hnew|fuel t h key value ts e t' h' _ [vs IH] Hins
                 |t h s e t' _ [vs IH] Hsnap|t h s e t' _ [vs IH] Hsc].
  - exists []. by eapply NewWith_holds.
  - eexists. by eapply TBtree_Insert_holds_any.
  - exists vs. eapply tree_holds_root; [|exact IH].
    unfold TBtree_Snapshot, TBtree_newSnapshot in Hsnap.
    destruct (closed t); [by injection Hsnap as _ _ <-|].
    destruct (_ && _); by injection Hsnap as _ _ <-.
  - exists vs. eapply tree_holds_root; [|exact IH].
    unfold TBtree_snapshotClosed in Hsc.
    destruct (closed t); by injection Hsc as _ <-.
Qed.

(** Inserts under other keys leave the entry of [key] as it is. *)
Lemma Inserts_holds_other key fuel ops : forall t h vs es t' h',
  tree_holds t h vs ->
  Forall (fun op => data op.1.1 <> data key) ops ->
  Inserts fuel t ops h = Val ((es, t'), h') ->
  exists vs', tree_holds t' h' vs' /\ find_key key vs' = find_key key vs.
Proof.
  induction ops as [|[[k v] ts] ops IH]; simpl; intros t h vs es t' h' Hholds Hother Hrun.
  - injection Hrun as <- <- <-. eauto.
  - apply Forall_cons in Hother as [Hk Hother]. simpl in Hk.
    apply bind_Val in Hrun as ([e t1] & h1 & Hins & Hrun).
    apply bind_Val in Hrun as ([es' t2] & h2 & Hrest & Hret).
    apply ret_Val in Hret. injection Hret as -> -> ->.
    pose proof (TBtree_Insert_holds_any _ _ _ _ _ _ _ _ _ _ Hholds Hins) as Hholds1.
    destruct (IH _ _ _ _ _ _ Hholds1 Hother Hrest) as (vs' & Hholds' & Hfind).
    exists vs'. split; [done|]. rewrite Hfind.
    destruct e; [done|]. apply find_key_put_other. congruence.
Qed.

Lemma tree_holds_get t h vs key :
  tree_holds t h vs ->
  exists d, forall fuel, (d < fuel)%nat ->
    node_entry fuel (root t) key h = Val (find_key key vs, h) /\
    node_get fuel (root t) key h = Val (get_result (find_key key vs), h).
Proof.
  intros (d & Hsub & Hasc & Hne). exists d. intros fuel Hfuel.
  pose proof (node_entry_subtree d fuel h (root t) vs key Hsub Hasc Hne Hfuel) as He.
  split; [done|]. rewrite run_node_get. by rewrite (run_bind _ _ _ _ _ He).
Qed.

(** ** Reading a tree that holds [vs] *)

Lemma tree_holds_reads t h vs :
  tree_holds t h vs ->
  exists d, forall fuel key, (d < fuel)%nat ->
    node_entry fuel (root t) key h = Val (find_key key vs, h) /\
    node_get fuel (root t) key h = Val (get_result (find_key key vs), h).
Proof.
  intros (d & Hsub & Hasc & Hne). exists d. intros fuel key Hfuel.
  pose proof (node_entry_subtree d fuel h (root t) vs key Hsub Hasc Hne Hfuel) as He.
  split; [done|]. rewrite run_node_get. by rewrite (run_bind _ _ _ _ _ He).
Qed.

Lemma find_key_Some k vs w :
  find_key k vs = Some w -> w ∈ vs /\ data (lv_key w) = data k.
Proof.
  induction vs as [|v vs IH]; simpl; [done|].
  destruct (bytes_Equal (lv_key v) k) eqn:E.
  - intros [= ->]. split; [left|]. by apply bytes_Equal_true.
  - intros [Hin Hk]%IH. split; [by right|done].
Qed.

Lemma find_key_elem vs w : ascending vs -> w ∈ vs -> find_key (lv_key w) vs = Some w.
Proof.
  induction vs as [|v vs IH]; simpl; [intros _ Hin; by apply elem_of_nil in Hin|].
  intros [Hall Hasc] Hin.
  apply elem_of_cons in Hin as [->|Hin].
  - by rewrite (proj2 (bytes_Equal_true _ _) eq_refl).
  - destruct (bytes_Equal (lv_key v) (lv_key w)) eqn:E; [|by apply IH].
    exfalso. rewrite Forall_forall in Hall. specialize (Hall _ Hin).
    apply bytes_Equal_Compare in E. unfold key_lt in Hall. lia.
Qed.

(** Inserts that fail, and inserts under other keys, leave the entry of
    [key] as it is. *)
Lemma Inserts_holds_unless key fuel ops : forall t h vs es t' h',
  tree_holds t h vs ->
  Inserts fuel t ops h = Val ((es, t'), h') ->
  Forall2 (fun op e => e = None -> data op.1.1 <> data key) ops es ->
  exists vs', tree_holds t' h' vs' /\ find_key key vs' = find_key key vs.
Proof.
  induction ops as [|[[k v] ts] ops IH]; simpl; intros t h vs es t' h' Hholds Hrun Hother.
  - injection Hrun as <- <- <-. eauto.
  - apply bind_Val in Hrun as ([e t1] & h1 & Hins & Hrun).
    apply bind_Val in Hrun as ([es' t2] & h2 & Hrest & Hret).
    apply ret_Val in Hret. injection Hret as -> -> ->.
    apply Forall2_cons in Hother as [Hk Hother]. simpl in Hk.
    pose proof (TBtree_Insert_holds_any _ _ _ _ _ _ _ _ _ _ Hholds Hins) as Hholds1.
    destruct (IH _ _ _ _ _ _ Hholds1 Hrest Hother) as (vs' & Hholds' & Hfind).
    exists vs'. split; [done|]. rewrite Hfind.
    destruct e; [done|]. apply find_key_put_other. intros E. by apply Hk.
Qed.

Lemma Inserts_length fuel ops : forall t h es t' h',
  Inserts fuel t ops h = Val ((es, t'), h') -> length es = length ops.
Proof.
  induction ops as [|[[k v] ts] ops IH]; simpl; intros t h es t' h' Hrun.
  - by injection Hrun as <- <- <-.
  - apply bind_Val in Hrun as ([e t1] & h1 & Hins & Hrun).
    apply bind_Val in Hrun as ([es' t2] & h2 & Hrest & Hret).
    apply ret_Val in Hret. injection Hret as -> -> ->. simpl. f_equal. eauto.
Qed.

(** ** Snapshots and [Close] *)

Lemma TBtree_Insert_fields fuel t key value ts h e t' h' :
  TBtree_Insert fuel t key value ts h = Val ((e, t'), h') ->
  snapshots t' = snapshots t /\ maxSnapshotId t' = maxSnapshotId t /\
  closed t' = closed t /\ maxNodeSize t' = maxNodeSize t /\
  insertionCountThreshold t' = insertionCountThreshold t /\
  insertionCount t' = match e with
                      | None => uint64_incr (insertionCount t)
                      | Some _ => insertionCount t
                      end.
Proof.
  intros Hrun. destruct e as [e|].
  { apply TBtree_Insert_error in Hrun as (-> & _ & _). done. }
  unfold TBtree_Insert in Hrun. destruct (closed t) eqn:Hc; [done|].
  apply bind_Val in Hrun as (illegal & h1 & _ & Hrun).
  destruct illegal; [done|].
  apply bind_Val in Hrun as ([[n1 n2] err] & h2 & _ & Hrun).
  destruct err; [done|]. destruct n2.
  - apply bind_Val in Hrun as (newRoot & h3 & _ & Hret).
    apply ret_Val in Hret. injection Hret as -> ->. done.
  - apply ret_Val in Hrun. injection Hrun as -> ->. done.
Qed.

Lemma uint64_incr_pos x : (x < 2 ^ 64 - 1)%N -> (0 < uint64_incr x)%N.
Proof.
  intros Hx. unfold uint64_incr. rewrite N.mod_small by lia. lia.
Qed.

Lemma size_snapshots_pos (m : gmap N Snapshot) :
  (0 <? Z.of_nat (size m)) = false <-> m = ∅.
Proof.
  rewrite Z.ltb_ge. split.
  - intros Hs. apply map_size_empty_iff. lia.
  - intros ->. by rewrite map_size_empty.
Qed.

(** The outcomes of [Close], case by case. *)
Lemma TBtree_Close_cases t :
  (closed t = true -> TBtree_Close false t = Returns (Some ErrAlreadyClosed, t)) /\
  (closed t = false -> snapshots t <> ∅ ->
   TBtree_Close false t = Returns (Some ErrSnapshotsNotClosed, t)) /\
  (closed t = false -> snapshots t = ∅ -> insertionCount t <> 0%N ->
   TBtree_Close false t = Blocks) /\
  (closed t = false -> snapshots t = ∅ -> insertionCount t = 0%N ->
   TBtree_Close false t = Returns (None, set_closed true t)) /\
  (forall t', TBtree_Close false t = Returns (None, t') ->
   closed t = false /\ snapshots t = ∅ /\ insertionCount t = 0%N /\
   t' = set_closed true t).
Proof.
  unfold TBtree_Close, TBtree_Snapshot_call. cbn [RWMutex_Lock].
  destruct (closed t) eqn:Hc.
  { do 4 (split; [done|]). by intros t' [=]. }
  destruct (0 <? Z.of_nat (size (snapshots t))) eqn:Hs.
  { assert (snapshots t <> ∅) as Hne.
    { intros E. apply size_snapshots_pos in E. congruence. }
    do 4 (split; [done|]). by intros t' [=]. }
  apply size_snapshots_pos in Hs.
  destruct (0 <? insertionCount t)%N eqn:Hi.
  - apply N.ltb_lt in Hi.
    split; [done|]. split; [done|]. split; [done|]. split; [intros; lia|].
    by intros t' [=].
  - apply N.ltb_ge in Hi. assert (insertionCount t = 0%N) as Hz by lia.
    do 4 (split; [done|]). by intros t' [= <-].
Qed.

(** ** What a computation does to the fields of one node *)

Lemma post_ret {A} P (a : A) (Q : A -> list nodeObj -> Prop) :
  (forall ns, P ns -> Q a ns) -> post P (ret a) Q.
Proof. intros HQ h r h' [= <- <-]. apply HQ. Qed.

Lemma post_bind {A B} P (m : M A) (f : A -> M B) Q R :
  post P m Q -> (forall a, post (Q a) (f a) R) -> post P (bind m f) R.
Proof.
  intros Hm Hf h r h' H HP. apply bind_Val in H as (a & h1 & Hma & Hfa).
  eapply Hf; [exact Hfa|]. by eapply Hm.
Qed.

Lemma post_ret_same {A} P (a : A) : post P (ret a) (fun _ => P).
Proof. by apply post_ret. Qed.

Lemma post_panic {A} P (Q : A -> list nodeObj -> Prop) : post P panic Q.
Proof. by intros h r h' [=]. Qed.

Lemma post_out_of_fuel {A} P (Q : A -> list nodeObj -> Prop) : post P out_of_fuel Q.
Proof. by intros h r h' [=]. Qed.

(** A computation that leaves the node structs alone. *)
Lemma post_same {A} P (m : M A) :
  (forall h a h', m h = Val (a, h') -> h_nodes h' = h_nodes h) -> post P m (fun _ => P).
Proof. intros Hm h a h' H HP. by rewrite (Hm _ _ _ H). Qed.

Lemma post_stable {A} P (m : M A) : stable m -> post P m (fun _ => P).
Proof. intros Hst. apply post_same. intros h a h' H. by destruct (Hst _ _ _ H) as [-> _]. Qed.

Lemma post_lift {A} P (o : option A) : post P (lift o) (fun _ => P).
Proof. apply post_stable, stable_lift. Qed.

Lemma post_make_leafValues P n : post P (make_leafValues n) (fun _ => P).
Proof.
  apply post_same. intros h a h'. unfold make_leafValues.
  destruct (store_make _ _) as [[s st]|]; [|done]. by intros [= _ <-].
Qed.

Lemma post_make_childRefs P n : post P (make_childRefs n) (fun _ => P).
Proof.
  apply post_same. intros h a h'. unfold make_childRefs.
  destruct (store_make _ _) as [[s st]|]; [|done]. by intros [= _ <-].
Qed.

Lemma post_assign_leafValues P s i v : post P (assign_leafValues s i v) (fun _ => P).
Proof.
  apply post_same. intros h a h'. unfold assign_leafValues.
  destruct (store_assign _ _ _ _); [|done]. by intros [= _ <-].
Qed.

Lemma post_assign_childRefs P s i c : post P (assign_childRefs s i c) (fun _ => P).
Proof.
  apply post_same. intros h a h'. unfold assign_childRefs.
  destruct (store_assign _ _ _ _); [|done]. by intros [= _ <-].
Qed.

Lemma post_copy_leafValues P d s : post P (copy_leafValues d s) (fun _ => P).
Proof.
  apply post_same. intros h a h'. unfold copy_leafValues.
  destruct (store_copy _ _ _); [|done]. by intros [= _ <-].
Qed.

Lemma post_copy_childRefs P d s : post P (copy_childRefs d s) (fun _ => P).
Proof.
  apply post_same. intros h a h'. unfold copy_childRefs.
  destruct (store_copy _ _ _); [|done]. by intros [= _ <-].
Qed.

Section Node_is.
Context (l : loc) (prev : node) (ts : N).

Lemma post_alloc_node o :
  post (node_is l prev ts) (alloc_node o) (fun _ => node_is l prev ts).
Proof.
  intros h a h' [= _ <-] (o' & Hl & Hp & Hc). exists o'. simpl.
  split; [by apply lookup_app_l_Some|done].
Qed.

Lemma post_store_node n o :
  (forall o', obj_prevNode o' = prev -> obj_cts o' = ts -> n = l ->
     obj_prevNode o = prev /\ obj_cts o = ts) ->
  post (node_is l prev ts) (store_node n o) (fun _ => node_is l prev ts).
Proof.
  intros Ho h a h'. unfold store_node. destruct (decide _) as [Hlt|]; [|done].
  intros [= _ <-] (o' & Hl & Hp & Hc). simpl.
  destruct (decide (n = l)) as [->|Hne].
  - exists o. rewrite list_lookup_insert_eq by done. split; [done|]. by eapply Ho.
  - exists o'. by rewrite list_lookup_insert_ne.
Qed.

(** An assignment to a field other than [prevNode] and [cts]. *)
Lemma post_update_inner n f :
  (forall nd, n_prevNode (f nd) = n_prevNode nd /\ n_cts (f nd) = n_cts nd) ->
  post (node_is l prev ts) (update_inner n f) (fun _ => node_is l prev ts).
Proof.
  intros Hf h a h' H HP. unfold update_inner in H.
  apply bind_Val in H as (nd & h1 & Hload & Hstore).
  unfold load_inner in Hload.
  destruct (h_nodes h !! n) as [[|nd']|] eqn:Hn; try done. injection Hload as -> ->.
  refine (post_store_node n _ _ _ _ _ Hstore HP). intros o' Hp Hc ->.
  destruct HP as (o & Hl & Hp' & Hc'). rewrite Hn in Hl. injection Hl as <-.
  simpl in Hp', Hc'. simpl. destruct (Hf nd) as [-> ->]. done.
Qed.

Lemma post_innerNode_updateSize n :
  post (node_is l prev ts) (innerNode_updateSize n) (fun _ => node_is l prev ts).
Proof.
  unfold innerNode_updateSize.
  eapply post_bind; [by apply post_update_inner|intros ?].
  eapply post_bind; [apply post_stable, stable_load_inner|intros nd].
  eapply post_bind; [apply post_stable, stable_childRefs_of|intros cs].
  eapply post_bind; [apply post_lift|intros csize].
  by apply post_update_inner.
Qed.
End Node_is.

Ltac kprim :=
  first [ apply post_ret_same | apply post_lift | apply post_make_leafValues | apply post_make_childRefs
        | apply post_assign_leafValues | apply post_assign_childRefs
        | apply post_copy_leafValues | apply post_copy_childRefs
        | apply post_alloc_node | apply post_innerNode_updateSize
        | apply post_stable, stable_load_node | apply post_stable, stable_load_leaf
        | apply post_stable, stable_load_inner
        | apply post_stable, stable_index_leafValues
        | apply post_stable, stable_index_childRefs
        | apply post_stable, stable_node_maxKey | apply post_stable, stable_node_ts ].

Ltac kstep :=
  first [ apply post_panic | kprim | eapply post_bind; [kprim|intros ?] ].

(** [split] that returns no node has changed nothing. *)
Lemma leafNode_split_None l h e h' : leafNode_split l h = Val ((None, e), h') -> h' = h.
Proof.
  unfold leafNode_split. intros H. apply bind_Val in H as (ln & h1 & Hload & H).
  apply stable_load_leaf in Hload as [-> _].
  destruct (_ <=? _); [by injection H as _ <-|].
  exfalso. minv.
Qed.

Lemma innerNode_split_None n h e h' : innerNode_split n h = Val ((None, e), h') -> h' = h.
Proof.
  unfold innerNode_split. intros H. apply bind_Val in H as (nd & h1 & Hload & H).
  apply stable_load_inner in Hload as [-> _].
  destruct (_ <=? _); [by injection H as _ <-|].
  exfalso. minv.
Qed.

Lemma alloc_node_is o h l h' :
  alloc_node o h = Val (l, h') -> node_is l (obj_prevNode o) (obj_cts o) (h_nodes h').
Proof. intros [= <- <-]. exists o. simpl. split; [by apply list_lookup_middle|done]. Qed.

(** The node [p], when it is not nil, has the given [prevNode] and [cts]. *)
Lemma leafNode_insertAt_node_is l key value ts h n1 e h' :
  leafNode_insertAt l key value ts h = Val ((n1, None, e), h') ->
  exists l1, n1 = Some l1 /\ node_is l1 (Some l) ts (h_nodes h').
Proof.
  unfold leafNode_insertAt. intros H.
  apply bind_Val in H as (ln & h1 & _ & H).
  apply bind_Val in H as ([i found] & h2 & _ & H).
  destruct found.
  - apply bind_Val in H as (vals & h3 & _ & H).
    apply bind_Val in H as (newLeaf & h4 & Halloc & H).
    apply alloc_node_is in Halloc. simpl in Halloc.
    match type of H with
    | ?m _ = _ =>
        assert (post (node_is newLeaf (Some l) ts) m
                  (fun r ns => exists l1, r.1.1 = Some l1 /\ node_is l1 (Some l) ts ns))
          as Hall
    end.
    { do 5 kstep.
      eapply post_bind.
      { destruct (_ <? _); repeat kstep. }
      intros ?. apply post_ret. eauto. }
    exact (Hall _ _ _ H Halloc).
  - apply bind_Val in H as (vals & h3 & _ & H).
    apply bind_Val in H as (newLeaf & h4 & Halloc & H).
    apply alloc_node_is in Halloc. simpl in Halloc.
    assert (post (node_is newLeaf (Some l) ts)
              (do '(n2, err) <- leafNode_split newLeaf; ret (Some newLeaf, n2, err))
              (fun r ns => r.1.2 = None ->
                 exists l1, r.1.1 = Some l1 /\ node_is l1 (Some l) ts ns)) as Hsplit.
    { intros h5 [[r1 r2] r3] h6 Hrun HP Hnone. simpl in Hnone. subst r2.
      apply bind_Val in Hrun as ([n2 err] & h7 & Hsp & Hret).
      apply ret_Val in Hret. injection Hret as -> <- -> ->.
      apply leafNode_split_None in Hsp as ->. simpl. eauto. }
    match type of H with
    | ?m _ = _ =>
        assert (post (node_is newLeaf (Some l) ts) m
                  (fun r ns => r.1.2 = None ->
                     exists l1, r.1.1 = Some l1 /\ node_is l1 (Some l) ts ns))
          as Hall
    end.
    { do 4 kstep.
      eapply post_bind; [|intros ?; exact Hsplit].
      destruct (_ <? _); repeat kstep. }
    by apply (Hall _ _ _ H Halloc).
Qed.

Lemma innerNode_insertAt_one_node_is n nd i c1 ts h n1 n2 e h' :
  innerNode_insertAt_one n nd i c1 ts h = Val ((n1, n2, e), h') ->
  exists l1, n1 = Some l1 /\ node_is l1 (Some n) ts (h_nodes h').
Proof.
  unfold innerNode_insertAt_one. intros H.
  apply bind_Val in H as (nodes & h1 & _ & H).
  apply bind_Val in H as (newNode & h2 & Halloc & H).
  apply alloc_node_is in Halloc. simpl in Halloc.
  match type of H with
  | ?m _ = _ =>
      assert (post (node_is newNode (Some n) ts) m
                (fun r ns => exists l1, r.1.1 = Some l1 /\ node_is l1 (Some n) ts ns))
        as Hall
  end.
  { do 6 kstep.
    eapply post_bind.
    { destruct (_ <? _); repeat kstep. }
    intros ?. kstep. apply post_ret. eauto. }
  exact (Hall _ _ _ H Halloc).
Qed.

Lemma innerNode_insertAt_two_node_is n nd i c1 c2 ts h n1 e h' :
  innerNode_insertAt_two n nd i c1 c2 ts h = Val ((n1, None, e), h') ->
  exists l1, n1 = Some l1 /\ node_is l1 (Some n) ts (h_nodes h').
Proof.
  unfold innerNode_insertAt_two. intros H.
  apply bind_Val in H as (nodes & h1 & _ & H).
  apply bind_Val in H as (newNode & h2 & Halloc & H).
  apply alloc_node_is in Halloc. simpl in Halloc.
  match type of H with
  | ?m _ = _ =>
      assert (post (node_is newNode (Some n) ts) m
                (fun r ns => r.1.2 = None ->
                   exists l1, r.1.1 = Some l1 /\ node_is l1 (Some n) ts ns))
        as Hall
  end.
  { do 9 kstep.
    eapply post_bind.
    { destruct (_ <? _); repeat kstep. }
    intros ?. kstep.
    intros h5 [[r1 r2] r3] h6 Hrun HP Hnone. simpl in Hnone. subst r2.
    apply bind_Val in Hrun as ([n2 err] & h7 & Hsp & Hret).
    apply ret_Val in Hret. injection Hret as -> <- -> ->.
    apply innerNode_split_None in Hsp as ->. simpl. eauto. }
  by apply (Hall _ _ _ H Halloc).
Qed.

Lemma node_insertAt_node_is fuel p key value ts h n1 e h' :
  node_insertAt fuel p key value ts h = Val ((n1, None, e), h') ->
  exists l1, n1 = Some l1 /\ node_is l1 p ts (h_nodes h').
Proof.
  destruct fuel as [|fuel]; [done|]. simpl. intros H.
  apply bind_Val in H as (o & h1 & Hload & H).
  destruct p as [l|]; [|done]. destruct o as [ln|nd].
  - by eapply leafNode_insertAt_node_is.
  - unfold innerNode_insertAt in H.
    apply bind_Val in H as (nd' & h2 & _ & H).
    apply bind_Val in H as (i & h3 & _ & H).
    apply bind_Val in H as (cRef & h4 & _ & H).
    apply bind_Val in H as ([[c1 c2] err] & h5 & Hchild & H).
    apply node_insertAt_err in Hchild. simpl in Hchild. subst err.
    destruct c2.
    + by eapply innerNode_insertAt_two_node_is.
    + by eapply innerNode_insertAt_one_node_is.
Qed.

Lemma TBtree_Insert_newRoot_node_is t n1 n2 ts h r h' :
  TBtree_Insert_newRoot t n1 n2 ts h = Val (r, h') ->
  exists l1, r = Some l1 /\ node_is l1 (root t) ts (h_nodes h').
Proof.
  unfold TBtree_Insert_newRoot. intros H.
  apply bind_Val in H as (ns & h1 & _ & H).
  apply bind_Val in H as (newRoot & h2 & Halloc & H).
  apply alloc_node_is in Halloc. simpl in Halloc.
  match type of H with
  | ?m _ = _ =>
      assert (post (node_is newRoot (root t) ts) m
                (fun r ns => exists l1, r = Some l1 /\ node_is l1 (root t) ts ns))
        as Hall
  end.
  { do 7 kstep. apply post_ret. eauto. }
  exact (Hall _ _ _ H Halloc).
Qed.

Lemma node_is_reads l prev ts h :
  node_is l prev ts (h_nodes h) ->
  node_ts (Some l) h = Val (ts, h) /\ node_prevNode (Some l) h = Val (prev, h).
Proof.
  intros (o & Hl & Hp & Hc). split.
  - unfold node_ts. rewrite (run_bind _ _ _ _ _ (run_load_node _ _ _ Hl)).
    destruct o as [ln|nd]; simpl in Hc; subst ts.
    + unfold leafNode_ts. by rewrite (run_bind _ _ _ _ _ (run_load_leaf _ _ _ Hl)).
    + unfold innerNode_ts. by rewrite (run_bind _ _ _ _ _ (run_load_inner _ _ _ Hl)).
  - unfold node_prevNode. rewrite (run_bind _ _ _ _ _ (run_load_node _ _ _ Hl)).
    by subst prev.
Qed.

Lemma TBtree_Insert_root fuel t key value ts h t' h' :
  TBtree_Insert fuel t key value ts h = Val ((None, t'), h') ->
  node_ts (root t') h' = Val (ts, h') /\
  node_prevNode (root t') h' = Val (root t, h').
Proof.
  intros Hrun. unfold TBtree_Insert in Hrun. destruct (closed t); [done|].
  apply bind_Val in Hrun as (illegal & h1 & _ & Hrun).
  destruct illegal; [done|].
  apply bind_Val in Hrun as ([[n1 n2] err] & h2 & Hins & Hrun).
  destruct err; [done|]. destruct n2.
  - apply bind_Val in Hrun as (newRoot & h3 & Hroot & Hret).
    apply ret_Val in Hret. injection Hret as -> ->.
    apply TBtree_Insert_newRoot_node_is in Hroot as (l1 & -> & His).
    by apply node_is_reads.
  - apply ret_Val in Hrun. injection Hrun as -> ->.
    apply node_insertAt_node_is in Hins as (l1 & -> & His).
    by apply node_is_reads.
Qed.

(** With [ts0] the [ts] of the root before the calls: every call that
    succeeds has a timestamp above [ts0], and the timestamps of the calls
    that succeed increase. *)
Lemma Inserts_ts fuel ops : forall t h es t' h' ts0,
  Inserts fuel t ops h = Val ((es, t'), h') ->
  node_ts (root t) h = Val (ts0, h) ->
  (forall j op, ops !! j = Some op -> es !! j = Some None -> (ts0 < op.2)%N) /\
  (forall i j op_i op_j,
     (i < j)%nat -> ops !! i = Some op_i -> ops !! j = Some op_j ->
     es !! i = Some None -> es !! j = Some None -> (op_i.2 < op_j.2)%N).
Proof.
  induction ops as [|[[k v] ts] ops IH]; simpl; intros t h es t' h' ts0 Hrun Hts0.
  { split; intros; by rewrite lookup_nil in *. }
  apply bind_Val in Hrun as ([e t1] & h1 & Hins & Hrun).
  apply bind_Val in Hrun as ([es' t2] & h2 & Hrest & Hret).
  apply ret_Val in Hret. injection Hret as -> -> ->.
  destruct e as [e|].
  - apply TBtree_Insert_error in Hins as (-> & -> & _).
    destruct (IH _ _ _ _ _ _ Hrest Hts0) as [Hlow Hinc]. split.
    + intros [|j] op Hop He; simpl in *; [done|]. by eapply Hlow.
    + intros [|i] [|j] op_i op_j Hij Hi Hj Hei Hej; simpl in *; try done; try lia.
      eapply (Hinc i j); eauto; lia.
  - assert (ts0 < ts)%N as Hlt.
    { unfold TBtree_Insert in Hins. destruct (closed t); [done|].
      apply bind_Val in Hins as (illegal & h3 & Hill & Hins).
      destruct illegal; [|clear Hins]; [done|].
      destruct k; [|by apply ret_Val in Hill].
      apply bind_Val in Hill as (rts & h4 & Hts & Hret).
      apply ret_Val in Hret. injection Hret as Hle _.
      rewrite Hts0 in Hts. injection Hts as <- _.
      symmetry in Hle. apply N.leb_gt in Hle. done. }
    apply TBtree_Insert_root in Hins as [Hts1 _].
    destruct (IH _ _ _ _ _ _ Hrest Hts1) as [Hlow Hinc]. split.
    + intros [|j] op Hop He; simpl in *; [by injection Hop as <-|].
      specialize (Hlow _ _ Hop He). lia.
    + intros [|i] [|j] op_i op_j Hij Hi Hj Hei Hej; simpl in *; try done; try lia.
      * injection Hi as <-. simpl. by eapply Hlow.
      * eapply (Hinc i j); eauto; lia.
Qed.

(** ** Concrete runs *)

Lemma reachable_Inserts fuel ops : forall t h es t' h',
  reachable t h -> Inserts fuel t ops h = Val ((es, t'), h') -> reachable t' h'.
Proof.
  induction ops as [|[[k v] ts] ops IH]; simpl; intros t h es t' h' Hreach Hrun.
  - by injection Hrun as _ <- <-.
  - apply bind_Val in Hrun as ([e t1] & h1 & Hins & Hrun).
    apply bind_Val in Hrun as ([es' t2] & h2 & Hrest & Hret).
    apply ret_Val in Hret. injection Hret as _ -> ->.
    eapply IH; [|exact Hrest]. eapply reachable_Insert; eauto.
Qed.

Lemma reachable_tree0 : reachable tree0 heap0.
Proof. apply (reachable_NewWith opts64 empty_heap). vm_compute; reflexivity. Qed.

Lemma Insert_a1 :
  TBtree_Insert 1 tree0 (key1 "a") (key1 "1") 1%N heap0 = Val ((None, tree_a), heap_a).
Proof. vm_compute; reflexivity. Qed.

Lemma Inserts_bcd :
  Inserts 1 tree_a inserts_bcd heap_a = Val (([None; None; None], tree_abcd), heap_abcd).
Proof. vm_compute; reflexivity. Qed.

Lemma Insert_a5 :
  TBtree_Insert 2 tree_abcd (key1 "a") (key1 "5") 5%N heap_abcd
  = Val ((None, tree_abcda), heap_abcda).
Proof. vm_compute; reflexivity. Qed.

Lemma reachable_tree_abcd : reachable tree_abcd heap_abcd.
Proof.
  eapply reachable_Inserts; [|exact Inserts_bcd].
  eapply reachable_Insert; [exact reachable_tree0|exact Insert_a1].
Qed.

(** ** [findLeafNode] *)

Lemma key_le_trans a b c :
  (bytes_Compare a b <? 1) = true -> (bytes_Compare b c <? 1) = true ->
  (bytes_Compare a c <? 1) = true.
Proof.
  intros Hab Hbc. apply Z.ltb_lt.
  destruct (compare_list_cases (data a) (data b)) as [H|[H|H]].
  - pose proof (key_lt_le_trans a b c H Hbc) as Hac. unfold key_lt in Hac. lia.
  - apply compare_list_eq in H. apply Z.ltb_lt in Hbc.
    unfold bytes_Compare in *. rewrite H. lia.
  - apply Z.ltb_lt in Hab. unfold bytes_Compare in Hab. lia.
Qed.

Lemma key_le_of_lt a b : key_lt a b -> (bytes_Compare a b <? 1) = true.
Proof. unfold key_lt. intros ->. done. Qed.

Lemma key_le_refl a : (bytes_Compare a a <? 1) = true.
Proof. unfold bytes_Compare. by rewrite compare_list_refl. Qed.

Lemma key_lt_neg a b : (bytes_Compare a b <? 0) = true <-> key_lt a b.
Proof.
  unfold key_lt. rewrite Z.ltb_lt. unfold bytes_Compare.
  destruct (compare_list_cases (data a) (data b)) as [?|[?|?]]; lia.
Qed.

Lemma matches_asc_true kp nk k :
  matches_asc kp nk k = true <-> (bytes_Compare kp k <? 1) = true /\ key_lt nk k.
Proof.
  unfold matches_asc. rewrite andb_true_iff, Z.eqb_eq, key_lt_gt. done.
Qed.

Lemma matches_desc_true kp nk k :
  matches_desc kp nk k = true <-> (bytes_Compare k kp <? 1) = true /\ key_lt k nk.
Proof. unfold matches_desc. by rewrite andb_true_iff, key_lt_neg. Qed.

Lemma matches_asc_mono kp nk k k' :
  (bytes_Compare k k' <? 1) = true ->
  matches_asc kp nk k = true -> matches_asc kp nk k' = true.
Proof.
  rewrite !matches_asc_true. intros Hle [H1 H2]. split.
  - by eapply key_le_trans.
  - by eapply key_lt_le_trans.
Qed.

Lemma matches_desc_mono kp nk k k' :
  (bytes_Compare k k' <? 1) = true ->
  matches_desc kp nk k' = true -> matches_desc kp nk k = true.
Proof.
  rewrite !matches_desc_true. intros Hle [H1 H2]. split.
  - by eapply key_le_trans.
  - by eapply key_le_lt_trans.
Qed.

Lemma matches_asc_data kp nk k k' :
  data k = data k' -> matches_asc kp nk k = matches_asc kp nk k'.
Proof.
  intros E. unfold matches_asc.
  by rewrite (bytes_Compare_data kp k kp k' eq_refl E),
             (bytes_Compare_data k nk k' nk E eq_refl).
Qed.

Lemma matches_desc_data kp nk k k' :
  data k = data k' -> matches_desc kp nk k = matches_desc kp nk k'.
Proof.
  intros E. unfold matches_desc.
  by rewrite (bytes_Compare_data k kp k' kp E eq_refl),
             (bytes_Compare_data k nk k' nk E eq_refl).
Qed.

(** *** The entries the loops stop at *)

Lemma seek_asc_app kp nk vs ws :
  seek_asc kp nk (vs ++ ws)
  = match seek_asc kp nk vs with Some v => Some v | None => seek_asc kp nk ws end.
Proof.
  induction vs as [|v vs IH]; simpl; [done|]. by destruct (matches_asc _ _ _).
Qed.

Lemma seek_asc_None kp nk vs :
  seek_asc kp nk vs = None <-> Forall (fun v => matches_asc kp nk (lv_key v) = false) vs.
Proof.
  induction vs as [|v vs IH]; simpl; [by split; [constructor|]|].
  destruct (matches_asc _ _ _) eqn:E.
  - split; [done|]. intros [? _]%Forall_cons. congruence.
  - rewrite IH. split; [by constructor|by intros [_ ?]%Forall_cons].
Qed.

(** The first match: it is among the entries, it passes the test, and no
    entry before it does. *)
Lemma seek_asc_Some kp nk vs v :
  seek_asc kp nk vs = Some v ->
  exists n, vs !! n = Some v /\ matches_asc kp nk (lv_key v) = true /\
            Forall (fun w => matches_asc kp nk (lv_key w) = false) (take n vs).
Proof.
  induction vs as [|w vs IH]; simpl; [done|].
  destruct (matches_asc kp nk (lv_key w)) eqn:E.
  - intros [= ->]. exists 0%nat. done.
  - intros (n & Hn & Hm & Hall)%IH. exists (S n). simpl. split; [done|]. split; [done|].
    by constructor.
Qed.

(** In an ascending run of entries, the test of the first loop fails on
    every entry when it fails on the last. *)
Lemma seek_asc_last_fails kp nk vs v :
  ascending vs -> last vs = Some v -> matches_asc kp nk (lv_key v) = false ->
  seek_asc kp nk vs = None.
Proof.
  intros Hasc Hlast Hv. apply seek_asc_None.
  pose proof (ascending_all_le_last _ _ _ Hasc Hlast eq_refl) as Hle.
  eapply Forall_impl; [exact Hle|]. intros w Hw. simpl in Hw.
  destruct (matches_asc kp nk (lv_key w)) eqn:E; [|done].
  by rewrite (matches_asc_mono _ _ _ _ Hw E) in Hv.
Qed.

Lemma seek_asc_last_matches kp nk vs v :
  last vs = Some v -> matches_asc kp nk (lv_key v) = true -> seek_asc kp nk vs <> None.
Proof.
  intros Hlast Hv Hnone. rewrite seek_asc_None in Hnone.
  apply last_Some in Hlast as [vs' ->]. apply Forall_app in Hnone as [_ Hnone].
  apply Forall_cons in Hnone as [Hnone _]. congruence.
Qed.

Lemma seek_desc_app_last kp nk vs v :
  seek_desc kp nk (vs ++ [v])
  = if matches_desc kp nk (lv_key v) then Some v else seek_desc kp nk vs.
Proof.
  unfold seek_desc. rewrite filter_app, filter_cons, filter_nil.
  destruct (matches_desc kp nk (lv_key v)) eqn:E.
  - rewrite decide_True by done. by rewrite last_snoc.
  - rewrite decide_False by congruence. by rewrite app_nil_r.
Qed.

(** The last match: it is among the entries, it passes the test, and no
    entry after it does. *)
Lemma seek_desc_Some kp nk vs v :
  seek_desc kp nk vs = Some v ->
  exists n, vs !! n = Some v /\ matches_desc kp nk (lv_key v) = true /\
            Forall (fun w => matches_desc kp nk (lv_key w) = false) (drop (S n) vs).
Proof.
  induction vs as [|w vs IH] using rev_ind; [done|].
  rewrite seek_desc_app_last. destruct (matches_desc kp nk (lv_key w)) eqn:E.
  - intros [= ->]. exists (length vs). split; [by apply list_lookup_middle|].
    split; [done|]. rewrite drop_ge by (rewrite length_app; simpl; lia). constructor.
  - intros (n & Hn & Hm & Hall)%IH. exists n.
    pose proof (lookup_lt_Some _ _ _ Hn) as Hlt.
    split; [by apply lookup_app_l_Some|]. split; [done|].
    rewrite drop_app_le by lia. apply Forall_app. split; [done|]. by repeat constructor.
Qed.

Lemma seek_desc_None kp nk vs :
  seek_desc kp nk vs = None <-> Forall (fun v => matches_desc kp nk (lv_key v) = false) vs.
Proof.
  induction vs as [|w vs IH] using rev_ind; [by split; [constructor|]|].
  rewrite seek_desc_app_last, Forall_app, Forall_singleton.
  destruct (matches_desc _ _ _) eqn:E.
  - split; [done|]. by intros [_ ?].
  - rewrite IH. tauto.
Qed.

Lemma rev_fmap {A B} (f : A -> B) (l : list A) : rev (f <$> l) = f <$> rev l.
Proof.
  induction l as [|x l IH]; [done|].
  rewrite fmap_cons. cbn [rev]. by rewrite fmap_app, IH.
Qed.

Lemma leafNode_findLeafNode_loop_spec kp nk vs : forall i0,
  match seek_asc kp nk vs with
  | Some v =>
      exists n : nat,
        leafNode_findLeafNode_loop (Some <$> vs) kp nk i0 = Some (Some (i0 + Z.of_nat n)) /\
        vs !! n = Some v
  | None => leafNode_findLeafNode_loop (Some <$> vs) kp nk i0 = Some None
  end.
Proof.
  induction vs as [|w vs IH]; intros i0; [done|].
  rewrite fmap_cons. cbn [leafNode_findLeafNode_loop seek_asc].
  destruct (matches_asc _ _ _).
  - exists 0%nat. split; [f_equal; f_equal; lia|done].
  - specialize (IH (i0 + 1)). destruct (seek_asc kp nk vs); [|done].
    destruct IH as (n & Hloop & Hn). exists (S n). split; [|done].
    rewrite Hloop. f_equal. f_equal. lia.
Qed.

Lemma leafNode_findLeafNode_loop_desc_spec kp nk vs :
  match seek_desc kp nk vs with
  | Some v =>
      exists n : nat,
        leafNode_findLeafNode_loop_desc (rev (Some <$> vs)) kp nk (Z.of_nat (length vs))
          = Some (Some (Z.of_nat n)) /\
        vs !! n = Some v
  | None =>
      leafNode_findLeafNode_loop_desc (rev (Some <$> vs)) kp nk (Z.of_nat (length vs))
        = Some None
  end.
Proof.
  induction vs as [|w vs IH] using rev_ind; [done|].
  rewrite seek_desc_app_last, fmap_app, rev_app_distr, length_app.
  cbn [fmap list_fmap rev app leafNode_findLeafNode_loop_desc length].
  destruct (matches_desc _ _ _).
  - exists (length vs). split; [f_equal; f_equal; lia|by apply list_lookup_middle].
  - replace (Z.of_nat (length vs + 1) - 1) with (Z.of_nat (length vs)) by lia.
    destruct (seek_desc kp nk vs); [|done].
    destruct IH as (n & Hloop & Hn). exists n. split; [done|].
    by apply lookup_app_l_Some.
Qed.

Lemma run_index_leafValues s h vs (n : nat) v :
  store_elems (h_leafValues h) s = Some (Some <$> vs) -> vs !! n = Some v ->
  index_leafValues s (Z.of_nat n) h = Val (v, h).
Proof.
  intros Hes Hn. unfold index_leafValues.
  rewrite (store_index_elems _ _ _ _ Hes) by lia.
  by rewrite Nat2Z.id, list_lookup_fmap, Hn.
Qed.

Lemma run_index_childRefs s h cs (n : nat) c :
  store_elems (h_childRefs h) s = Some (Some <$> cs) -> cs !! n = Some c ->
  index_childRefs s (Z.of_nat n) h = Val (c, h).
Proof.
  intros Hes Hn. unfold index_childRefs.
  rewrite (store_index_elems _ _ _ _ Hes) by lia.
  by rewrite Nat2Z.id, list_lookup_fmap, Hn.
Qed.

(** What the branch of the first loop returns on the entries [vs]: the
    first match; without one, nothing in ascending order, the last entry
    otherwise. *)
Lemma seek_fwd_cases kp nk (asc : bool) vs :
  (match seek_asc kp nk vs with
   | Some v => Some v
   | None => if asc then None else last vs
   end) = None ->
  seek_asc kp nk vs = None /\ (asc = true \/ vs = []).
Proof.
  destruct (seek_asc kp nk vs); [done|]. intros H. split; [done|].
  destruct asc; [by left|]. right. by apply last_None.
Qed.

(** [leafNode.findLeafNode] on a leaf holding [vs]. *)
Lemma run_leafNode_findLeafNode l kp pa nk (asc : bool) h ln vs :
  h_nodes h !! l = Some (LeafNode ln) ->
  store_elems (h_leafValues h) (l_values ln) = Some (Some <$> vs) ->
  exists r,
    leafNode_findLeafNode l kp pa nk asc h = Val (r, h) /\
    match (if asc || is_nil nk
           then match seek_asc kp nk vs with
                | Some v => Some v
                | None => if asc then None else last vs
                end
           else seek_desc kp nk vs) with
    | Some v => exists i, r = (pa, Some l, i, None) /\
                          index_leafValues (l_values ln) i h = Val (v, h)
    | None => r = not_found
    end.
Proof.
  intros Hl Hes. unfold leafNode_findLeafNode.
  rewrite (run_bind _ _ _ _ _ (run_load_leaf _ _ _ Hl)).
  rewrite (run_bind _ _ _ _ _ (run_leafValues_of _ _ _ Hes)).
  pose proof (store_elems_length _ _ _ Hes) as Hlen. rewrite length_fmap in Hlen.
  unfold slice_len. rewrite <- Hlen.
  destruct (asc || is_nil nk) eqn:Hmode.
  - pose proof (leafNode_findLeafNode_loop_spec kp nk vs 0) as Hloop.
    destruct (seek_asc kp nk vs) as [v|].
    + destruct Hloop as (n & Hloop & Hn).
      rewrite (run_bind _ _ _ _ _ (run_lift _ _ _ Hloop)). cbn beta iota.
      eexists. split; [reflexivity|]. exists (0 + Z.of_nat n). split; [done|].
      rewrite Z.add_0_l. by eapply run_index_leafValues.
    + rewrite (run_bind _ _ _ _ _ (run_lift _ _ _ Hloop)). cbn beta iota.
      destruct asc; simpl; [by eexists|].
      destruct vs as [|w vs _] using rev_ind; simpl; [by eexists|].
      rewrite length_app. simpl.
      replace (Z.of_nat (length vs + 1) =? 0) with false by (symmetry; apply Z.eqb_neq; lia).
      eexists. split; [reflexivity|]. rewrite last_snoc. eexists. split; [done|].
      replace (Z.of_nat (length vs + 1) - 1) with (Z.of_nat (length vs)) by lia.
      eapply run_index_leafValues; [done|]. by apply list_lookup_middle.
  - pose proof (leafNode_findLeafNode_loop_desc_spec kp nk vs) as Hloop.
    destruct (seek_desc kp nk vs) as [v|].
    + destruct Hloop as (n & Hloop & Hn).
      rewrite (run_bind _ _ _ _ _ (run_lift _ _ _ Hloop)). cbn beta iota.
      eexists. split; [reflexivity|]. exists (Z.of_nat n). split; [done|].
      by eapply run_index_leafValues.
    + rewrite (run_bind _ _ _ _ _ (run_lift _ _ _ Hloop)). cbn beta iota. by eexists.
Qed.

(** *** The loops of [innerNode.findLeafNode] *)

Lemma innerNode_findLeafNode_loop_spec kp nk (cs : list childRef)
    (vss : list (list leafValue)) :
  Forall2 (fun c vs' => last_key vs' (cr_key c)) cs vss ->
  ascending (concat vss) ->
  match innerNode_findLeafNode_loop (Some <$> cs) kp nk with
  | Some (Some c) =>
      exists m vs_m,
        cs !! m = Some c /\ vss !! m = Some vs_m /\
        seek_asc kp nk (concat vss) = seek_asc kp nk vs_m /\
        seek_asc kp nk vs_m <> None
  | Some None => seek_asc kp nk (concat vss) = None
  | None => False
  end.
Proof.
  induction 1 as [|c vs' cs vss (v & Hlast & Hkey) Hall IH]; intros Hasc; [done|].
  rewrite fmap_cons. cbn [innerNode_findLeafNode_loop concat] in *.
  apply ascending_app in Hasc as (Hasc1 & Hasc2 & _).
  rewrite seek_asc_app.
  destruct (matches_asc kp nk (cr_key c)) eqn:E.
  - rewrite <- Hkey in E. pose proof (seek_asc_last_matches _ _ _ _ Hlast E) as Hne.
    exists 0%nat, vs'. split; [done|]. split; [done|]. split; [|done].
    by destruct (seek_asc kp nk vs').
  - rewrite <- Hkey in E. rewrite (seek_asc_last_fails _ _ _ _ Hasc1 Hlast E).
    specialize (IH Hasc2).
    destruct (innerNode_findLeafNode_loop (Some <$> cs) kp nk) as [[c'|]|]; [|done..].
    destruct IH as (m & vs_m & ? & ? & ? & ?). by exists (S m), vs_m.
Qed.

(** The second loop returns with one of the references, or runs to the
    end. *)
Lemma innerNode_findLeafNode_loop_desc_elem kp nk (cs : list childRef) :
  match innerNode_findLeafNode_loop_desc (Some <$> cs) kp nk with
  | Some (Some c) => c ∈ cs
  | Some None => True
  | None => False
  end.
Proof.
  induction cs as [|c cs IH]; [done|].
  rewrite fmap_cons. cbn [innerNode_findLeafNode_loop_desc].
  destruct (matches_desc _ _ _); [by left|].
  destruct (innerNode_findLeafNode_loop_desc (Some <$> cs) kp nk) as [[c'|]|]; [|done..].
  by right.
Qed.

Lemma found_entry_longer h r pa n v :
  found_entry h r (pa ++ [n]) v -> found_entry h r pa v.
Proof.
  intros (pa' & l & ln & i & -> & Hl & Hi). exists (n :: pa'), l, ln, i.
  split; [by rewrite <- app_assoc|done].
Qed.

(** *** The branch of the first loop on a tree *)

Lemma node_findLeafNode_fwd kp nk (asc : bool) d : forall fuel h p vs pa,
  asc || is_nil nk = true ->
  subtree d h p vs -> ascending vs -> vs <> [] \/ leaf_at h p vs -> (d < fuel)%nat ->
  exists r,
    node_findLeafNode fuel p kp pa nk asc h = Val (r, h) /\
    match (match seek_asc kp nk vs with
           | Some v => Some v
           | None => if asc then None else last vs
           end) with
    | Some v => found_entry h r pa v
    | None => r = not_found
    end.
Proof.
  intros fuel h p vs pa Hmode. revert fuel h p vs pa.
  assert (forall fuel h p vs pa,
    leaf_at h p vs -> (0 < fuel)%nat ->
    exists r,
      node_findLeafNode fuel p kp pa nk asc h = Val (r, h) /\
      match (match seek_asc kp nk vs with
             | Some v => Some v
             | None => if asc then None else last vs
             end) with
      | Some v => found_entry h r pa v
      | None => r = not_found
      end) as Hleaf.
  { intros fuel h p vs pa (l & ln & -> & Hnode & Hes) Hfuel.
    destruct fuel as [|fuel]; [lia|]. simpl.
    rewrite (run_bind _ _ _ _ _ (run_load_node _ _ _ Hnode)). cbn beta iota.
    destruct (run_leafNode_findLeafNode l kp pa nk asc h ln vs Hnode Hes)
      as (r & Hrun & Hr).
    rewrite Hmode in Hr. exists r. split; [done|].
    destruct (match seek_asc kp nk vs with Some v => Some v | None => _ end) as [v|];
      [|done].
    destruct Hr as (i & -> & Hi). exists [], l, ln, i. by rewrite app_nil_r. }
  induction d as [|d IH]; intros fuel h p vs pa Hsub Hasc Hne Hfuel.
  { by apply Hleaf. }
  destruct Hsub as [Hat|(n & nd & cs & vss & -> & Hnode & Hcs & -> & Hall)].
  { apply Hleaf; [done|lia]. }
  destruct Hne as [Hne|(l & ln & [= <-] & Hnode' & _)]; [|congruence].
  destruct fuel as [|fuel]; [lia|]. simpl.
  rewrite (run_bind _ _ _ _ _ (run_load_node _ _ _ Hnode)). cbn beta iota.
  unfold innerNode_findLeafNode.
  rewrite (run_bind _ _ _ _ _ (run_load_inner _ _ _ Hnode)).
  rewrite (run_bind _ _ _ _ _ (run_childRefs_of _ _ _ Hcs)).
  rewrite Hmode.
  pose proof (store_elems_length _ _ _ Hcs) as Hlen. rewrite length_fmap in Hlen.
  assert (Forall2 (fun c vs' => last_key vs' (cr_key c)) cs vss) as Hkeys.
  { eapply Forall2_impl; [exact Hall|]. by intros ?? [_ ?]. }
  pose proof (innerNode_findLeafNode_loop_spec kp nk cs vss Hkeys Hasc) as Hloop.
  destruct (innerNode_findLeafNode_loop (Some <$> cs) kp nk) as [[c|]|] eqn:Eloop;
    [| |done].
  - destruct Hloop as (m & vs_m & Hc & Hvs & Hseek & Hsome).
    rewrite (run_bind _ _ _ _ _ (run_lift _ _ _ eq_refl)). cbn beta iota.
    destruct (Forall2_lookup_l _ _ _ _ _ Hall Hc) as (vs_m' & Hvs' & Hsub_m & Hlast_m).
    rewrite Hvs in Hvs'. injection Hvs' as <-.
    destruct (IH fuel h (cr_node c) vs_m (pa ++ [n]) Hsub_m) as (r & Hrun & Hr);
      [|left; by eapply last_key_not_nil|lia|].
    { eapply ascending_concat_elem; [exact Hasc|]. apply list_elem_of_lookup. eauto. }
    exists r. split; [done|]. rewrite Hseek.
    destruct (seek_asc kp nk vs_m) as [v|]; [|done].
    by eapply found_entry_longer.
  - rewrite (run_bind _ _ _ _ _ (run_lift _ _ _ eq_refl)). cbn beta iota.
    rewrite Hloop. destruct asc; [by eexists|].
    assert (cs <> []) as Hcne.
    { intros ->. by apply Forall2_nil_inv_l in Hall as ->. }
    destruct cs as [|c cs' _] using rev_ind; [done|]. clear Hcne.
    apply Forall2_app_inv_l in Hall as (vss1 & vss2 & Hall1 & Hall2 & ->).
    apply Forall2_cons_inv_l in Hall2 as (vs_c & vss3 & [Hsub_c Hlast_c] & Hnil & ->).
    apply Forall2_nil_inv_l in Hnil as ->.
    rewrite length_app in Hlen. simpl in Hlen.
    assert (index_childRefs (n_nodes nd) (slice_len (n_nodes nd) - 1) h = Val (c, h))
      as Hic.
    { unfold slice_len. rewrite <- Hlen.
      replace (Z.of_nat (length cs' + 1) - 1) with (Z.of_nat (length cs')) by lia.
      eapply run_index_childRefs; [exact Hcs|]. by apply list_lookup_middle. }
    rewrite (run_bind _ _ _ _ _ Hic).
    rewrite concat_app in Hasc, Hloop |- *. simpl in Hasc, Hloop |- *.
    rewrite app_nil_r in Hasc, Hloop |- *.
    apply ascending_app in Hasc as (_ & Hasc_c & _).
    rewrite seek_asc_app in Hloop.
    destruct (seek_asc kp nk (concat vss1)); [done|].
    destruct (IH fuel h (cr_node c) vs_c (pa ++ [n]) Hsub_c Hasc_c) as (r & Hrun & Hr);
      [left; by eapply last_key_not_nil|lia|].
    exists r. split; [done|]. rewrite Hloop in Hr. cbn iota in Hr.
    pose proof (last_key_not_nil _ _ Hlast_c) as Hvne.
    destruct vs_c as [|w vs_c _] using rev_ind; [done|].
    rewrite app_assoc, last_snoc. rewrite last_snoc in Hr.
    by eapply found_entry_longer.
Qed.

(** *** The branch of the second loop on a tree *)

Lemma node_findLeafNode_desc kp nk d : forall fuel h p vs pa,
  is_nil nk = false -> subtree d h p vs -> (d < fuel)%nat ->
  exists r,
    node_findLeafNode fuel p kp pa nk false h = Val (r, h) /\
    (r = not_found \/
     exists v, found_entry h r pa v /\ v ∈ vs /\ matches_desc kp nk (lv_key v) = true).
Proof.
  intros fuel h p vs pa Hmode. revert fuel h p vs pa.
  assert (forall fuel h p vs pa,
    leaf_at h p vs -> (0 < fuel)%nat ->
    exists r,
      node_findLeafNode fuel p kp pa nk false h = Val (r, h) /\
      (r = not_found \/
       exists v, found_entry h r pa v /\ v ∈ vs /\
                 matches_desc kp nk (lv_key v) = true)) as Hleaf.
  { intros fuel h p vs pa (l & ln & -> & Hnode & Hes) Hfuel.
    destruct fuel as [|fuel]; [lia|]. simpl.
    rewrite (run_bind _ _ _ _ _ (run_load_node _ _ _ Hnode)). cbn beta iota.
    destruct (run_leafNode_findLeafNode l kp pa nk false h ln vs Hnode Hes)
      as (r & Hrun & Hr).
    rewrite Hmode in Hr. cbn [orb] in Hr. exists r. split; [done|].
    destruct (seek_desc kp nk vs) as [v|] eqn:Hseek; [|by left].
    right. exists v. destruct Hr as (i & -> & Hi).
    apply seek_desc_Some in Hseek as (m & Hm & Hv & _).
    split; [exists [], l, ln, i; by rewrite app_nil_r|].
    split; [|done]. apply list_elem_of_lookup. eauto. }
  induction d as [|d IH]; intros fuel h p vs pa Hsub Hfuel.
  { by apply Hleaf. }
  destruct Hsub as [Hat|(n & nd & cs & vss & -> & Hnode & Hcs & -> & Hall)].
  { apply Hleaf; [done|lia]. }
  destruct fuel as [|fuel]; [lia|]. simpl.
  rewrite (run_bind _ _ _ _ _ (run_load_node _ _ _ Hnode)). cbn beta iota.
  unfold innerNode_findLeafNode.
  rewrite (run_bind _ _ _ _ _ (run_load_inner _ _ _ Hnode)).
  rewrite (run_bind _ _ _ _ _ (run_childRefs_of _ _ _ Hcs)).
  rewrite Hmode. cbn [orb].
  rewrite rev_fmap.
  pose proof (innerNode_findLeafNode_loop_desc_elem kp nk (rev cs)) as Hloop.
  destruct (innerNode_findLeafNode_loop_desc (Some <$> rev cs) kp nk) as [[c|]|];
    [| |done].
  - rewrite (run_bind _ _ _ _ _ (run_lift _ _ _ eq_refl)). cbn beta iota.
    apply list_elem_of_In, in_rev, list_elem_of_In, list_elem_of_lookup in Hloop
      as [m Hc].
    destruct (Forall2_lookup_l _ _ _ _ _ Hall Hc) as (vs_m & Hvs & Hsub_m & _).
    destruct (IH fuel h (cr_node c) vs_m (pa ++ [n]) Hsub_m) as (r & Hrun & Hr); [lia|].
    exists r. split; [done|]. destruct Hr as [->|(v & Hfound & Hin & Hv)]; [by left|].
    right. exists v. split; [by eapply found_entry_longer|]. split; [|done].
    apply list_elem_of_In, in_concat. exists vs_m. split.
    + apply list_elem_of_In, list_elem_of_lookup. eauto.
    + by apply list_elem_of_In.
  - rewrite (run_bind _ _ _ _ _ (run_lift _ _ _ eq_refl)). cbn beta iota.
    eexists. split; [reflexivity|]. by left.
Qed.

(** *** The keys [get] finds *)

Lemma ascending_lookup_lt vs : forall i j a b,
  ascending vs -> vs !! i = Some a -> vs !! j = Some b -> (i < j)%nat ->
  key_lt (lv_key a) (lv_key b).
Proof.
  induction vs as [|v vs IH]; intros i j a b Hasc Hi Hj Hij; [done|].
  destruct Hasc as [Hall Hasc]. destruct j as [|j]; [lia|]. simpl in Hj.
  destruct i as [|i]; simpl in Hi.
  - injection Hi as <-. rewrite Forall_forall in Hall. apply Hall.
    apply list_elem_of_lookup. eauto.
  - eapply (IH i j); eauto. lia.
Qed.

Lemma subtree_reads d fuel h p vs key :
  subtree d h p vs -> ascending vs -> vs <> [] \/ leaf_at h p vs -> (d < fuel)%nat ->
  node_get fuel p key h = Val (get_result (find_key key vs), h).
Proof.
  intros Hsub Hasc Hne Hfuel. rewrite run_node_get.
  by rewrite (run_bind _ _ _ _ _ (node_entry_subtree d fuel h p vs key Hsub Hasc Hne Hfuel)).
Qed.

(** [get] finds [key] exactly when an entry is stored under it. *)
Lemma get_result_ok key vs value ts :
  get_result (find_key key vs) = (value, ts, None) ->
  exists w, w ∈ vs /\ data (lv_key w) = data key.
Proof.
  destruct (find_key key vs) as [w|] eqn:E; [|done]. intros _.
  exists w. by apply find_key_Some.
Qed.

Lemma get_result_elem vs w :
  ascending vs -> w ∈ vs ->
  get_result (find_key (lv_key w) vs) = (lv_value w, lv_ts w, None).
Proof. intros Hasc Hin. by rewrite (find_key_elem _ _ Hasc Hin). Qed.

(** ** The timestamps of the stored entries *)

Lemma TBtree_Insert_ts_above fuel t key value ts h t' h' rts :
  TBtree_Insert fuel t key value ts h = Val ((None, t'), h') ->
  node_ts (root t) h = Val (rts, h) -> (rts < ts)%N.
Proof.
  intros Hins Hts. unfold TBtree_Insert in Hins. destruct (closed t); [done|].
  apply bind_Val in Hins as (illegal & h3 & Hill & Hins).
  destruct illegal; [done|]. clear Hins.
  destruct key; [|by apply ret_Val in Hill].
  apply bind_Val in Hill as (rts' & h4 & Hts' & Hret).
  apply ret_Val in Hret. injection Hret as Hle _.
  rewrite Hts in Hts'. injection Hts' as <- _.
  symmetry in Hle. by apply N.leb_gt in Hle.
Qed.

Lemma Forall_put_ts key value ts rts vs :
  (rts < ts)%N ->
  Forall (fun w => (lv_prevTs w < lv_ts w <= rts)%N) vs ->
  Forall (fun w => (lv_prevTs w < lv_ts w <= ts)%N) (put key value ts vs).
Proof.
  intros Hlt. induction 1 as [|w vs Hw Hall IH]; simpl.
  { repeat constructor; simpl; lia. }
  destruct (bytes_Equal (lv_key w) key).
  { constructor; [simpl; lia|]. eapply Forall_impl; [exact Hall|]. simpl. lia. }
  destruct (_ =? 1).
  - constructor; [simpl; lia|]. constructor; [lia|].
    eapply Forall_impl; [exact Hall|]. simpl. lia.
  - constructor; [lia|done].
Qed.

(** The entries of a reachable tree, with the [ts] of its root. *)
Lemma reachable_holds_ts t h :
  reachable t h ->
  exists vs rts,
    tree_holds t h vs /\ node_ts (root t) h = Val (rts, h) /\
    Forall (fun w => (lv_prevTs w < lv_ts w <= rts)%N) vs.
Proof.
  induction 1 as [opt h0 t h Hnew|fuel t h key value ts e t' h' _ (vs & rts & IH & Hts & Hall) Hins
                 |t h s e t' _ (vs & rts & IH & Hts & Hall) Hsnap
                 |t h s e t' _ (vs & rts & IH & Hts & Hall) Hsc].
  - exists [], 0%N. split; [by eapply NewWith_holds|]. split; [|constructor].
    destruct (NewWith_holds _ _ _ _ Hnew) as (d & _ & _ & [?|Hat]); [done|].
    destruct Hat as (l & ln & Hroot & Hnode & Hes).
    unfold NewWith in Hnew. destruct opt as [o|]; [|done]. destruct (_ || _); [done|].
    unfold bind, alloc_node, ret in Hnew. injection Hnew as <- <-.
    simpl in Hroot. injection Hroot as <-. simpl in Hnode.
    rewrite list_lookup_middle in Hnode by done. injection Hnode as <-.
    cbn [root]. unfold node_ts.
    erewrite run_bind; [|apply run_load_node; simpl; by apply list_lookup_middle].
    cbn beta iota. unfold leafNode_ts.
    erewrite run_bind; [|apply run_load_leaf; simpl; by apply list_lookup_middle]. done.
  - destruct e as [e|].
    + apply TBtree_Insert_error in Hins as (-> & -> & _). eauto.
    + exists (put key value ts vs), ts.
      split; [by eapply TBtree_Insert_holds|].
      split; [by apply TBtree_Insert_root in Hins as [? _]|].
      eapply Forall_put_ts; [|exact Hall]. by eapply TBtree_Insert_ts_above.
  - exists vs, rts.
    assert (root t' = root t) as Hroot.
    { unfold TBtree_Snapshot, TBtree_newSnapshot in Hsnap.
      destruct (closed t); [by injection Hsnap as _ _ <-|].
      destruct (_ && _); by injection Hsnap as _ _ <-. }
    split; [by eapply tree_holds_root|]. by rewrite Hroot.
  - exists vs, rts.
    assert (root t' = root t) as Hroot.
    { unfold TBtree_snapshotClosed in Hsc. destruct (closed t); by injection Hsc as _ <-. }
    split; [by eapply tree_holds_root|]. by rewrite Hroot.
Qed.

(** ** The nodes below the root *)

Lemma ascending_concat_lookup_lt (vss : list (list leafValue)) : forall i j a b x y,
  ascending (concat vss) -> (i < j)%nat ->
  vss !! i = Some a -> vss !! j = Some b -> x ∈ a -> y ∈ b ->
  key_lt (lv_key x) (lv_key y).
Proof.
  intros i j a b x y Hasc Hij Hi Hj Hx Hy.
  rewrite <- (take_drop_middle vss j b Hj) in Hasc.
  rewrite concat_app in Hasc. simpl in Hasc.
  apply ascending_app in Hasc as (_ & _ & Hall).
  rewrite Forall_forall in Hall.
  assert (x ∈ concat (take j vss)) as Hxin.
  { apply list_elem_of_In, in_concat. exists a. split; [|by apply list_elem_of_In].
    apply list_elem_of_In, list_elem_of_lookup. exists i. by rewrite lookup_take_lt. }
  specialize (Hall _ Hxin). rewrite Forall_forall in Hall. apply Hall.
  apply elem_of_app. by left.
Qed.

(** A node below the root of a subtree is the root of a subtree of its
    own, not empty unless it is that root. *)
Lemma subtree_below h p q :
  node_below h p q ->
  forall d vs, subtree d h p vs -> ascending vs ->
  exists d' vs', subtree d' h q vs' /\ ascending vs' /\ (q = p /\ vs' = vs \/ vs' <> []).
Proof.
  induction 1 as [p|n nd cs c q Hnode Hcs Hc Hbelow IH]; intros d vs Hsub Hasc.
  { exists d, vs. auto. }
  assert (exists d1 vs1, subtree d1 h (cr_node c) vs1 /\ ascending vs1 /\ vs1 <> [])
    as (d1 & vs1 & Hsub1 & Hasc1 & Hne1).
  { assert (~ leaf_at h (Some n) vs) as Hnot.
    { intros (l & ln & [= <-] & Hl & _). congruence. }
    destruct d as [|d]; [done|].
    destruct Hsub as [Hat|(n' & nd' & cs' & vss & [= <-] & Hnode' & Hcs' & -> & Hall)];
      [done|].
    rewrite Hnode in Hnode'. injection Hnode' as <-.
    rewrite Hcs in Hcs'. injection Hcs' as ->.
    apply list_elem_of_fmap in Hc as (c' & [= <-] & Hin).
    apply list_elem_of_lookup in Hin as [m Hm].
    destruct (Forall2_lookup_l _ _ _ _ _ Hall Hm) as (vs_m & Hvs & Hsub_m & Hlast_m).
    exists d, vs_m. split; [done|]. split; [|by eapply last_key_not_nil].
    eapply ascending_concat_elem; [exact Hasc|]. apply list_elem_of_lookup. eauto. }
  destruct (IH _ _ Hsub1 Hasc1) as (d' & vs' & Hsub' & Hasc' & Hor).
  exists d', vs'. split; [done|]. split; [done|]. right.
  destruct Hor as [[_ ->]|?]; done.
Qed.

(** ** [Insert] on entries that fit the nodes *)

Lemma int_add_small a b : - 2 ^ 63 <= a + b < 2 ^ 63 -> int_add a b = a + b.
Proof.
  intros H. unfold int_add, int_wrap. rewrite Z.mod_small by lia. lia.
Qed.

Lemma len_nonneg b : 0 <= len b.
Proof. unfold len. lia. Qed.

Lemma leafValue_size_fits m v :
  entry_fits m (lv_key v) (lv_value v) -> m < 2 ^ 63 ->
  leafValue_size v = 16 + len (lv_key v) + len (lv_value v).
Proof.
  unfold entry_fits, leafValue_size. intros Hfit Hm.
  pose proof (len_nonneg (lv_key v)). pose proof (len_nonneg (lv_value v)).
  rewrite (int_add_small 16) by lia. apply int_add_small. lia.
Qed.

Lemma fmap_insert_at {A} (vs : list A) n x :
  take n (Some <$> vs) ++ Some x :: drop n (Some <$> vs)
  = Some <$> (take n vs ++ x :: drop n vs).
Proof. by rewrite fmap_app, fmap_cons, fmap_take, fmap_drop. Qed.

(** The first entry of a leaf whose entries fit does not overflow. *)
Lemma fits_not_overflows_0 m vs :
  m < 2 ^ 63 -> Forall (fun v => entry_fits m (lv_key v) (lv_value v)) vs ->
  ~ overflows vs m 0.
Proof.
  intros Hm Hall (v & Hv & Hgt).
  destruct vs as [|v' vs]; [done|]. injection Hv as ->.
  apply Forall_cons in Hall as [Hfit _].
  unfold size_upto in Hgt. simpl in Hgt.
  rewrite (leafValue_size_fits _ _ Hfit Hm) in Hgt.
  pose proof (len_nonneg (lv_key v)). pose proof (len_nonneg (lv_value v)).
  unfold entry_fits in Hfit. rewrite int_add_small in Hgt by lia. lia.
Qed.

(** [split] of a leaf of two or more fitting entries, over its size: both
    halves are leaves that are not empty. *)
Lemma leafNode_split_sized m l h ln vs :
  h_nodes h !! l = Some (LeafNode ln) ->
  store_elems (h_leafValues h) (l_values ln) = Some (Some <$> vs) ->
  l_maxSize ln = m -> m < 2 ^ 63 ->
  Forall (fun v => entry_fits m (lv_key v) (lv_value v)) vs ->
  (2 <= length vs)%nat -> m < l_csize ln ->
  exists r h',
    leafNode_split l h = Val ((Some r, None), h') /\
    leaf_sized m h' (Some l) /\ leaf_sized m h' (Some r).
Proof.
  intros Hl Hes Hmax Hm Hall Hlen Hbig. subst m.
  assert (vs <> []) as Hne by (intros ->; simpl in Hlen; lia).
  destruct (leafNode_splitInfo_loop_entries (l_maxSize ln) vs Hne)
    as (si & ss & Hloop & Hsi & Hbefore & Hat).
  assert (1 <= si)%nat as Hsi1.
  { destruct si as [|si]; [|lia]. exfalso.
    destruct Hat as [[Hov _]|(_ & Hlast & _)]; [|lia].
    by eapply fits_not_overflows_0. }
  assert (l < length (h_nodes h))%nat as Hlt by (by eapply lookup_lt_Some).
  destruct (run_leafNode_split l h ln (Some <$> vs) (Z.of_nat si) ss
              (max_ts (take si vs)) (max_ts (drop si vs)) Hl Hes Hbig Hloop)
    as (left & right & Hleft & Hright & Hrun).
  { rewrite Nat2Z.id, <- fmap_take, leafNode_updateTs_loop_max. f_equal. lia. }
  { rewrite Nat2Z.id, <- fmap_drop, leafNode_updateTs_loop_max. f_equal. lia. }
  eexists _, _. split; [exact Hrun|].
  pose proof (store_elems_length _ _ _ Hes) as Hlen'. rewrite length_fmap in Hlen'.
  split.
  - eexists l, _, (take si vs). split; [done|]. cbn [h_nodes h_leafValues]. split.
    { rewrite lookup_app_l by (by rewrite length_insert).
      by apply list_lookup_insert_eq. }
    cbn [l_values l_maxSize]. split.
    { pose proof (store_elems_slice_to _ _ _ _ _ Hleft
                    ltac:(unfold slice_len; lia) Hes) as H1.
      by rewrite Nat2Z.id, <- fmap_take in H1. }
    split.
    { intros E. apply (f_equal length) in E. rewrite length_take in E. simpl in E. lia. }
    split; [done|]. by apply Forall_take.
  - eexists (length (h_nodes h)), _, (drop si vs). split; [done|].
    cbn [h_nodes h_leafValues]. split.
    { apply list_lookup_middle. by rewrite length_insert. }
    cbn [l_values l_maxSize]. split.
    { pose proof (store_elems_slice_from _ _ _ _ _ Hright Hes) as H2.
      by rewrite Nat2Z.id, <- fmap_drop in H2. }
    split.
    { intros E. apply (f_equal length) in E. rewrite length_drop in E. simpl in E. lia. }
    split; [done|]. by apply Forall_drop.
Qed.

(** [insertAt] on a leaf of fitting entries returns. *)
Lemma leafNode_insertAt_sized m l key value ts h ln vs :
  h_nodes h !! l = Some (LeafNode ln) ->
  store_elems (h_leafValues h) (l_values ln) = Some (Some <$> vs) ->
  l_maxSize ln = m -> m < 2 ^ 63 ->
  Forall (fun v => entry_fits m (lv_key v) (lv_value v)) vs ->
  entry_fits m key value ->
  (vs = [] -> l_csize ln = 0) ->
  exists n1 n2 h',
    leafNode_insertAt l key value ts h = Val ((n1, n2, None), h') /\
    leaf_sized m h' n1 /\
    match n2 with None => True | Some _ => leaf_sized m h' n2 end.
Proof.
  intros Hl Hes Hmax Hm Hall Hfit Hempty.
  destruct (leafNode_indexOf_loop_put key value ts vs 0)
    as (n & found & Hloop & Hn & Hfound & _).
  rewrite Z.add_0_l in Hloop.
  pose proof (store_elems_length _ _ _ Hes) as Hlen. rewrite length_fmap in Hlen.
  destruct found.
  - destruct (Hfound eq_refl) as (old & Hold & _).
    assert ((Some <$> vs) !! Z.to_nat (Z.of_nat n) = Some (Some old)) as Hold'
      by (by rewrite Nat2Z.id, list_lookup_fmap, Hold).
    rewrite (run_leafNode_insertAt_found _ _ _ _ _ _ _ _ _ Hl Hes Hloop Hold').
    cbn zeta. rewrite Nat2Z.id, fmap_replace1, length_fmap.
    eexists _, None, _. split; [reflexivity|]. split; [|done].
    eexists (length (h_nodes h)), _, _. split; [done|]. cbn [h_nodes h_leafValues].
    split; [by apply list_lookup_middle|]. cbn [l_values l_maxSize].
    pose proof (lookup_lt_Some _ _ _ Hold) as Hlt.
    split.
    { apply store_elems_last_whole.
      rewrite length_fmap, length_app, length_take. simpl. rewrite length_drop. lia. }
    split; [by destruct (take n vs)|]. split; [done|].
    apply Forall_app. split; [by apply Forall_take|].
    constructor; [done|]. by apply Forall_drop.
  - rewrite (run_leafNode_insertAt_new _ _ _ _ _ _ _ _ Hl Hes Hloop).
    cbn zeta. rewrite Nat2Z.id, fmap_insert_at, length_fmap.
    set (lv := mkLeafValue key ts 0%N value).
    set (vs' := take n vs ++ lv :: drop n vs).
    set (csize' := int_add (l_csize ln) (leafValue_size lv)).
    set (lnN := mkLeafNode (Some l) (Slice (length (h_leafValues h)) 0 (S (length vs)) 0)
                  ts csize' (l_maxSize ln) 0%N).
    set (h1 := mkHeap (h_nodes h ++ [LeafNode lnN])
                 (h_leafValues h ++ [Some <$> vs']) (h_childRefs h)).
    assert (h_nodes h1 !! length (h_nodes h) = Some (LeafNode lnN)) as Hl1
      by (by apply list_lookup_middle).
    assert (length vs' = S (length vs)) as Hlen'.
    { unfold vs'. rewrite length_app, length_take. simpl. rewrite length_drop. lia. }
    assert (store_elems (h_leafValues h1) (l_values lnN) = Some (Some <$> vs')) as Hes1.
    { apply store_elems_last_whole. by rewrite length_fmap. }
    assert (Forall (fun v => entry_fits m (lv_key v) (lv_value v)) vs') as Hall'.
    { apply Forall_app. split; [by apply Forall_take|].
      constructor; [done|]. by apply Forall_drop. }
    assert (vs' <> []) as Hne' by (intros E; rewrite E in Hlen'; done).
    destruct (decide (csize' <= m)) as [Hle|Hgt].
    + assert (leafNode_split (length (h_nodes h)) h1 = Val ((None, None), h1)) as Hsplit.
      { unfold leafNode_split. rewrite (run_bind _ _ _ _ _ (run_load_leaf _ _ _ Hl1)).
        cbn [l_csize l_maxSize lnN]. rewrite Hmax.
        by rewrite (proj2 (Z.leb_le _ _) Hle). }
      rewrite (run_bind _ _ _ _ _ Hsplit). cbn beta iota.
      eexists _, None, _. split; [reflexivity|]. split; [|done].
      eexists _, lnN, vs'. by repeat split.
    + assert (2 <= length vs')%nat as Hlen2.
      { destruct vs as [|v vs0]; [|simpl in Hlen'; lia]. exfalso. apply Hgt.
        unfold csize'. rewrite (Hempty eq_refl).
        rewrite (leafValue_size_fits m lv Hfit Hm). simpl.
        pose proof (len_nonneg key). pose proof (len_nonneg value).
        unfold entry_fits in Hfit. rewrite int_add_small by lia. lia. }
      destruct (leafNode_split_sized m _ h1 lnN vs' Hl1 Hes1 Hmax Hm Hall' Hlen2)
        as (r & h' & Hsplit & Hn1 & Hn2); [simpl; lia|].
      rewrite (run_bind _ _ _ _ _ Hsplit). cbn beta iota.
      eexists _, (Some r), _. split; [reflexivity|]. done.
Qed.

Lemma leaf_sized_mono m h h' p : heap_le h h' -> leaf_sized m h p -> leaf_sized m h' p.
Proof.
  intros (Hn & Hl & _) (l & ln & vs & -> & Hnode & Hes & Hrest).
  exists l, ln, vs. split; [done|]. split; [by eapply prefix_lookup_Some|].
  split; [by eapply store_elems_prefix|done].
Qed.

Lemma sized_leaf m d h p : leaf_sized m h p -> sized m d h p.
Proof. destruct d; [done|by left]. Qed.

Lemma sized_mono m d : forall h h' p, heap_le h h' -> sized m d h p -> sized m d h' p.
Proof.
  induction d as [|d IH]; intros h h' p Hle; simpl.
  - by apply leaf_sized_mono.
  - intros [Hleaf|(n & nd & cs & -> & Hnode & Hcs & Hne & Hmax & Hall)].
    + left. by eapply leaf_sized_mono.
    + right. exists n, nd, cs. destruct Hle as (Hn & Hl & Hc).
      split; [done|]. split; [by eapply prefix_lookup_Some|].
      split; [by eapply store_elems_prefix|]. split; [done|]. split; [done|].
      eapply Forall_impl; [exact Hall|]. intros c [Hlen Hsub].
      split; [done|]. eapply IH; [|exact Hsub]. done.
Qed.

Lemma sized_deeper m d : forall h p, sized m d h p -> sized m (S d) h p.
Proof.
  induction d as [|d IH]; intros h p; [by left|].
  intros [Hleaf|(n & nd & cs & -> & Hnode & Hcs & Hne & Hmax & Hall)]; [by left|].
  right. exists n, nd, cs. do 5 (split; [done|]).
  eapply Forall_impl; [exact Hall|]. intros c [Hlen Hsub]. split; [done|]. by apply IH.
Qed.

(** [maxKey] and [ts] of a node of a sized tree return. *)
Lemma sized_maxKey m d h p :
  sized m d h p -> exists k, node_maxKey p h = Val (k, h) /\ len k <= m.
Proof.
  assert (leaf_sized m h p -> exists k, node_maxKey p h = Val (k, h) /\ len k <= m)
    as Hleaf.
  { intros (l & ln & vs & -> & Hnode & Hes & Hne & _ & Hall).
    destruct vs as [|v vs _] using rev_ind; [done|].
    exists (lv_key v). split.
    - unfold node_maxKey. rewrite (run_bind _ _ _ _ _ (run_load_node _ _ _ Hnode)).
      cbn beta iota. unfold leafNode_maxKey.
      rewrite (run_bind _ _ _ _ _ (run_load_leaf _ _ _ Hnode)).
      pose proof (store_elems_length _ _ _ Hes) as Hlen.
      rewrite length_fmap, length_app in Hlen. simpl in Hlen.
      unfold slice_len. rewrite <- Hlen.
      replace (Z.of_nat (length vs + 1) - 1) with (Z.of_nat (length vs)) by lia.
      erewrite run_bind; [|eapply run_index_leafValues;
                           [exact Hes|by apply list_lookup_middle]].
      done.
    - apply Forall_app in Hall as [_ Hv]. apply Forall_cons in Hv as [Hv _].
      unfold entry_fits in Hv. pose proof (len_nonneg (lv_value v)). lia. }
  destruct d as [|d]; [exact Hleaf|].
  intros [?|(n & nd & cs & -> & Hnode & Hcs & Hne & _ & Hall)]; [by apply Hleaf|].
  destruct cs as [|c cs _] using rev_ind; [done|].
  exists (cr_key c). split.
  - unfold node_maxKey. rewrite (run_bind _ _ _ _ _ (run_load_node _ _ _ Hnode)).
    cbn beta iota. unfold innerNode_maxKey.
    rewrite (run_bind _ _ _ _ _ (run_load_inner _ _ _ Hnode)).
    pose proof (store_elems_length _ _ _ Hcs) as Hlen.
    rewrite length_fmap, length_app in Hlen. simpl in Hlen.
    unfold slice_len. rewrite <- Hlen.
    replace (Z.of_nat (length cs + 1) - 1) with (Z.of_nat (length cs)) by lia.
    erewrite run_bind; [|eapply run_index_childRefs;
                         [exact Hcs|by apply list_lookup_middle]].
    done.
  - apply Forall_app in Hall as [_ Hc]. by apply Forall_cons in Hc as [[? _] _].
Qed.

Lemma sized_ts m d h p : sized m d h p -> exists t, node_ts p h = Val (t, h).
Proof.
  assert (leaf_sized m h p -> exists t, node_ts p h = Val (t, h)) as Hleaf.
  { intros (l & ln & vs & -> & Hnode & _). exists (l_cts ln).
    unfold node_ts. rewrite (run_bind _ _ _ _ _ (run_load_node _ _ _ Hnode)).
    cbn beta iota. unfold leafNode_ts.
    by rewrite (run_bind _ _ _ _ _ (run_load_leaf _ _ _ Hnode)). }
  destruct d as [|d]; [exact Hleaf|].
  intros [?|(n & nd & cs & -> & Hnode & _)]; [by apply Hleaf|].
  exists (n_cts nd).
  unfold node_ts. rewrite (run_bind _ _ _ _ _ (run_load_node _ _ _ Hnode)).
  cbn beta iota. unfold innerNode_ts.
  by rewrite (run_bind _ _ _ _ _ (run_load_inner _ _ _ Hnode)).
Qed.

(** [splitInfo] of an inner node whose keys fit stops after the first
    reference. *)
Lemma innerNode_splitInfo_loop_sized m (cs : list childRef) :
  m < 2 ^ 63 -> Forall (fun c => len (cr_key c) <= m) cs -> (2 <= length cs)%nat ->
  exists (si : nat) ss,
    innerNode_splitInfo_loop (Some <$> cs) m 0 0 0 = Some (Z.of_nat si, ss) /\
    (1 <= si < length cs)%nat.
Proof.
  intros Hm Hall Hlen. destruct cs as [|c0 [|c1 cs]]; [simpl in Hlen; lia..|].
  apply Forall_cons in Hall as [H0 _].
  rewrite fmap_cons. cbn [innerNode_splitInfo_loop].
  pose proof (len_nonneg (cr_key c0)).
  rewrite int_add_small by lia.
  replace (0 + len (cr_key c0) >? m) with false by (symmetry; rewrite Z.gtb_ltb; apply Z.ltb_ge; lia).
  destruct (innerNode_splitInfo_loop_total m (c1 :: cs) (0 + 1) 0 (0 + len (cr_key c0)))
    as (si & ss & Hloop & [[? _]|Hrange]); [done|].
  exists (Z.to_nat si), ss. rewrite Z2Nat.id by lia. split; [done|].
  simpl in Hrange |- *. lia.
Qed.

(** [split] of an inner node of two or more references with fitting keys,
    over its size: both halves are inner nodes that are not empty. *)
Lemma innerNode_split_sized m n h nd (cs : list childRef) :
  h_nodes h !! n = Some (InnerNode nd) ->
  store_elems (h_childRefs h) (n_nodes nd) = Some (Some <$> cs) ->
  n_maxSize nd = m -> m < 2 ^ 63 ->
  Forall (fun c => len (cr_key c) <= m) cs ->
  (2 <= length cs)%nat -> m < n_csize nd ->
  exists r h' ndL ndR (si : nat),
    innerNode_split n h = Val ((Some r, None), h') /\
    (1 <= si < length cs)%nat /\
    h_nodes h' !! n = Some (InnerNode ndL) /\
    store_elems (h_childRefs h') (n_nodes ndL) = Some (Some <$> take si cs) /\
    n_maxSize ndL = m /\
    h_nodes h' !! r = Some (InnerNode ndR) /\
    store_elems (h_childRefs h') (n_nodes ndR) = Some (Some <$> drop si cs) /\
    n_maxSize ndR = m.
Proof.
  intros Hn Hcs Hmax Hm Hall Hlen Hbig. subst m.
  destruct (innerNode_splitInfo_loop_sized _ cs Hm Hall Hlen) as (si & ss & Hloop & Hsi).
  destruct (innerNode_updateTs_loop_total (take si cs) 0%N) as [ctsL HL].
  destruct (innerNode_updateTs_loop_total (drop si cs) 0%N) as [ctsR HR].
  assert (n < length (h_nodes h))%nat as Hlt by (by eapply lookup_lt_Some).
  destruct (run_innerNode_split n h nd (Some <$> cs) (Z.of_nat si) ss ctsL ctsR
              Hn Hcs Hbig Hloop)
    as (left & right & Hleft & Hright & Hrun).
  { rewrite length_fmap. lia. }
  { by rewrite Nat2Z.id, <- fmap_take. }
  { by rewrite Nat2Z.id, <- fmap_drop. }
  pose proof (store_elems_length _ _ _ Hcs) as Hlen'. rewrite length_fmap in Hlen'.
  eexists _, _, _, _, si. split; [exact Hrun|]. split; [done|].
  cbn [h_nodes h_childRefs]. split.
  { rewrite lookup_app_l by (by rewrite length_insert). by apply list_lookup_insert_eq. }
  cbn [n_nodes n_maxSize]. split.
  { pose proof (store_elems_slice_to _ _ _ _ _ Hleft
                  ltac:(unfold slice_len; lia) Hcs) as H1.
    by rewrite Nat2Z.id, <- fmap_take in H1. }
  split; [done|]. split.
  { apply list_lookup_middle. by rewrite length_insert. }
  split; [|done].
  pose proof (store_elems_slice_from _ _ _ _ _ Hright Hcs) as H2.
  by rewrite Nat2Z.id, <- fmap_drop in H2.
Qed.

(** [insertAt] on a tree of fitting entries returns, and returns trees of
    fitting entries. *)
Lemma node_insertAt_sized m key value ts :
  m < 2 ^ 63 -> entry_fits m key value ->
  forall d fuel h p,
    sized m d h p -> (d < fuel)%nat ->
    exists n1 n2 h',
      node_insertAt fuel p key value ts h = Val ((n1, n2, None), h') /\
      sized m d h' n1 /\
      match n2 with None => True | Some _ => sized m d h' n2 end.
Proof.
  intros Hm Hfit.
  assert (forall d fuel h p,
    leaf_sized m h p -> (0 < fuel)%nat ->
    exists n1 n2 h',
      node_insertAt fuel p key value ts h = Val ((n1, n2, None), h') /\
      sized m d h' n1 /\
      match n2 with None => True | Some _ => sized m d h' n2 end) as Hleaf.
  { intros d fuel h p (l & ln & vs & -> & Hnode & Hes & Hne & Hmax & Hall) Hfuel.
    destruct fuel as [|fuel]; [lia|]. simpl.
    rewrite (run_bind _ _ _ _ _ (run_load_node _ _ _ Hnode)). cbn beta iota.
    destruct (leafNode_insertAt_sized m l key value ts h ln vs Hnode Hes Hmax Hm Hall Hfit)
      as (n1 & n2 & h' & Hrun & H1 & H2); [done|].
    exists n1, n2, h'. split; [done|]. split; [by apply sized_leaf|].
    destruct n2; [by apply sized_leaf|done]. }
  induction d as [|d IH]; intros fuel h p Hsub Hfuel.
  { by apply Hleaf. }
  destruct Hsub as [Hat|(n & nd & cs & -> & Hnode & Hcs & Hne & Hmax & Hall)].
  { apply Hleaf; [done|lia]. }
  destruct fuel as [|fuel]; [lia|]. simpl.
  rewrite (run_bind _ _ _ _ _ (run_load_node _ _ _ Hnode)). cbn beta iota.
  unfold innerNode_insertAt.
  rewrite (run_bind _ _ _ _ _ (run_load_inner _ _ _ Hnode)).
  pose proof (store_elems_length _ _ _ Hcs) as Hlen. rewrite length_fmap in Hlen.
  destruct (innerNode_indexOf_route key cs Hne) as (mi & c & Hloop & Hc & _ & _).
  assert (innerNode_indexOf n key h = Val (Z.of_nat mi, h)) as Hidx.
  { rewrite (run_innerNode_indexOf _ _ _ _ _ Hnode Hcs).
    unfold slice_len. rewrite <- Hlen, Hloop. done. }
  rewrite (run_bind _ _ _ _ _ Hidx).
  assert (mi < length cs)%nat as Hmi by (by eapply lookup_lt_Some).
  rewrite (run_bind _ _ _ _ _ (run_index_childRefs _ _ _ _ _ Hcs Hc)).
  pose proof Hall as Hall0. rewrite Forall_forall in Hall0.
  destruct (Hall0 c ltac:(apply list_elem_of_lookup; eauto)) as [_ Hsub_c].
  destruct (IH fuel h (cr_node c) Hsub_c ltac:(lia))
    as (c1 & c2 & h1 & Hrec & Hs1 & Hs2).
  rewrite (run_bind _ _ _ _ _ Hrec). cbn beta iota.
  assert (heap_le h h1) as Hle1.
  { eapply preserves_node_insertAt; [apply heap_le_refl|exact Hrec]. }
  assert (store_elems (h_childRefs h1) (n_nodes nd) = Some (Some <$> cs)) as Hcs1.
  { destruct Hle1 as (_ & _ & Hc1). by eapply store_elems_prefix. }
  assert (Forall (fun c => len (cr_key c) <= m /\ sized m d h1 (cr_node c)) cs) as Hall1.
  { eapply Forall_impl; [exact Hall|]. intros c0 [? Hs0]. split; [done|].
    by eapply sized_mono. }
  destruct (sized_maxKey _ _ _ _ Hs1) as (k1 & Hk1 & Hlk1).
  destruct (sized_ts _ _ _ _ Hs1) as (t1 & Ht1).
  destruct c2 as [c2|].
  - (* the child returned two nodes *)
    destruct (sized_maxKey _ _ _ _ Hs2) as (k2 & Hk2 & Hlk2).
    destruct (sized_ts _ _ _ _ Hs2) as (t2 & Ht2).
    set (cs' := take mi cs ++ mkChildRef k1 t1 c1
                  :: mkChildRef k2 t2 (Some c2) :: drop (S mi) cs).
    destruct (innerNode_updateSize_loop_total cs' 0) as [csize Hsize].
    assert (innerNode_updateSize_loop
              (take mi (Some <$> cs) ++ Some (mkChildRef k1 t1 c1)
                 :: Some (mkChildRef k2 t2 (Some c2)) :: drop (S mi) (Some <$> cs)) 0
            = Some csize) as Hsize' by (by rewrite fmap_replace2).
    rewrite (run_innerNode_insertAt_two n nd mi c1 (Some c2) ts h1 (Some <$> cs)
               k1 t1 k2 t2 csize h1 h1 h1 h1 Hcs1 ltac:(by rewrite length_fmap)
               Hk1 Ht1 Hk2 Ht2 Hsize').
    rewrite length_fmap, fmap_replace2. fold cs'.
    set (ndN := mkInnerNode (Some n) (Slice (length (h_childRefs h1)) 0 (S (length cs)) 0)
                  ts csize (n_maxSize nd) 0%N).
    set (h2 := mkHeap (h_nodes h1 ++ [InnerNode ndN]) (h_leafValues h1)
                 (h_childRefs h1 ++ [Some <$> cs'])).
    assert (length cs' = S (length cs)) as Hlen'.
    { unfold cs'. rewrite length_app, length_take. simpl. rewrite length_drop. lia. }
    assert (h_nodes h2 !! length (h_nodes h1) = Some (InnerNode ndN)) as Hn2
      by (by apply list_lookup_middle).
    assert (store_elems (h_childRefs h2) (n_nodes ndN) = Some (Some <$> cs')) as Hcs2.
    { apply store_elems_last_whole. by rewrite length_fmap. }
    assert (heap_le h1 h2) as Hle2 by apply heap_le_alloc_childRefs.
    assert (forall hf, heap_le h1 hf ->
              Forall (fun c => len (cr_key c) <= m /\ sized m d hf (cr_node c)) cs')
      as Hall'.
    { intros hf Hlef. unfold cs'. apply Forall_app. split.
      { apply Forall_take. eapply Forall_impl; [exact Hall1|].
        intros c0 [? Hs0]. split; [done|]. by eapply sized_mono. }
      constructor; [split; [done|by eapply sized_mono]|].
      constructor; [split; [done|by eapply sized_mono]|].
      apply Forall_drop. eapply Forall_impl; [exact Hall1|].
      intros c0 [? Hs0]. split; [done|]. by eapply sized_mono. }
    destruct (decide (csize <= m)) as [Hsmall|Hbig].
    + assert (innerNode_split (length (h_nodes h1)) h2 = Val ((None, None), h2)) as Hsplit.
      { unfold innerNode_split. rewrite (run_bind _ _ _ _ _ (run_load_inner _ _ _ Hn2)).
        cbn [n_csize n_maxSize ndN]. rewrite Hmax.
        by rewrite (proj2 (Z.leb_le _ _) Hsmall). }
      rewrite (run_bind _ _ _ _ _ Hsplit). cbn beta iota.
      eexists _, None, _. split; [reflexivity|]. split; [|done].
      right. exists (length (h_nodes h1)), ndN, cs'.
      split; [done|]. split; [done|]. split; [done|].
      split; [by destruct (take mi cs)|]. split; [done|]. by apply Hall'.
    + destruct (innerNode_split_sized m _ h2 ndN cs' Hn2 Hcs2 Hmax Hm)
        as (r & h' & ndL & ndR & si & Hsplit & Hsi & HnL & HcsL & HmL & HnR & HcsR & HmR).
      { eapply Forall_impl; [exact (Hall' h2 Hle2)|]. by intros c0 [? _]. }
      { lia. }
      { simpl. lia. }
      rewrite (run_bind _ _ _ _ _ Hsplit). cbn beta iota.
      assert (heap_le h1 h') as Hle'.
      { eapply (preserves_innerNode_split h1 (length (h_nodes h1)));
          [unfold fresh_node; lia|exact Hle2|exact Hsplit]. }
      eexists _, (Some r), _. split; [reflexivity|]. split.
      * right. exists (length (h_nodes h1)), ndL, (take si cs').
        split; [done|]. split; [done|]. split; [done|]. split.
        { intros E. apply (f_equal length) in E. rewrite length_take in E.
          simpl in E. lia. }
        split; [done|]. apply Forall_take. by apply Hall'.
      * right. exists r, ndR, (drop si cs').
        split; [done|]. split; [done|]. split; [done|]. split.
        { intros E. apply (f_equal length) in E. rewrite length_drop in E.
          simpl in E. lia. }
        split; [done|]. apply Forall_drop. by apply Hall'.
  - (* the child returned one node *)
    set (cs' := take mi cs ++ mkChildRef k1 t1 c1 :: drop (S mi) cs).
    destruct (innerNode_updateSize_loop_total cs' 0) as [csize Hsize].
    assert (innerNode_updateSize_loop
              (take mi (Some <$> cs) ++ Some (mkChildRef k1 t1 c1)
                 :: drop (S mi) (Some <$> cs)) 0
            = Some csize) as Hsize' by (by rewrite fmap_replace1).
    rewrite (run_innerNode_insertAt_one n nd mi c1 ts h1 (Some <$> cs)
               k1 t1 csize h1 h1 Hcs1 ltac:(by rewrite length_fmap) Hk1 Ht1 Hsize').
    rewrite length_fmap, fmap_replace1. fold cs'.
    eexists _, None, _. split; [reflexivity|]. split; [|done].
    right. eexists (length (h_nodes h1)), _, cs'. split; [done|].
    cbn [h_nodes h_childRefs]. split; [by apply list_lookup_middle|].
    cbn [n_nodes n_maxSize]. split.
    { apply store_elems_last_whole. rewrite length_fmap. unfold cs'.
      rewrite length_app, length_take. simpl. rewrite length_drop. lia. }
    split; [by destruct (take mi cs)|]. split; [done|].
    assert (heap_le h1 (mkHeap (h_nodes h1 ++ [InnerNode
              (mkInnerNode (Some n) (Slice (length (h_childRefs h1)) 0 (length cs) 0)
                 ts csize (n_maxSize nd) 0%N)]) (h_leafValues h1)
              (h_childRefs h1 ++ [Some <$> cs']))) as Hle2
      by apply heap_le_alloc_childRefs.
    unfold cs'. apply Forall_app. split.
    { apply Forall_take. eapply Forall_impl; [exact Hall1|].
      intros c0 [? Hs0]. split; [done|]. by eapply sized_mono. }
    constructor; [split; [done|by eapply sized_mono]|].
    apply Forall_drop. eapply Forall_impl; [exact Hall1|].
    intros c0 [? Hs0]. split; [done|]. by eapply sized_mono.
Qed.

Lemma tree_sized_deeper d t h : tree_sized d t h -> tree_sized (S d) t h.
Proof. intros [Hm [Hs|He]]; (split; [done|]); [left; by apply sized_deeper|by right]. Qed.

(** [Insert] of a fitting entry into a tree of fitting entries returns. *)
Lemma TBtree_Insert_sized d fuel t key value ts h :
  tree_sized d t h -> entry_fits (maxNodeSize t) key value -> (d < fuel)%nat ->
  exists e t' h',
    TBtree_Insert fuel t key value ts h = Val ((e, t'), h') /\
    tree_sized (S d) t' h'.
Proof.
  intros Hsized Hfit Hfuel. pose proof Hsized as [Hm Hroot].
  unfold TBtree_Insert.
  destruct (closed t).
  { eexists _, _, _. split; [reflexivity|]. by apply tree_sized_deeper. }
  destruct key as [k|].
  2:{ rewrite (run_bind _ _ _ _ _ (eq_refl : ret true h = Val (true, h))).
      eexists _, _, _. split; [reflexivity|]. by apply tree_sized_deeper. }
  assert (exists rts, node_ts (root t) h = Val (rts, h)) as [rts Hts].
  { destruct Hroot as [Hs|(l & ln & -> & Hnode & _)]; [by eapply sized_ts|].
    exists (l_cts ln). unfold node_ts.
    rewrite (run_bind _ _ _ _ _ (run_load_node _ _ _ Hnode)). cbn beta iota.
    unfold leafNode_ts. by rewrite (run_bind _ _ _ _ _ (run_load_leaf _ _ _ Hnode)). }
  rewrite (run_bind _ _ _ _ _ (run_bind _ _ _ _ _ Hts)).
  unfold ret at 1. cbn beta iota.
  destruct (ts <=? rts)%N.
  { eexists _, _, _. split; [reflexivity|]. by apply tree_sized_deeper. }
  assert (exists n1 n2 h1,
    node_insertAt fuel (root t) (Some k) value ts h = Val ((n1, n2, None), h1) /\
    sized (maxNodeSize t) d h1 n1 /\
    match n2 with None => True | Some _ => sized (maxNodeSize t) d h1 n2 end)
    as (n1 & n2 & h1 & Hins & Hs1 & Hs2).
  { destruct Hroot as [Hs|(l & ln & Hl & Hnode & Hes & Hcsize & Hmax)].
    - by apply node_insertAt_sized.
    - destruct fuel as [|fuel]; [lia|]. rewrite Hl. simpl.
      rewrite (run_bind _ _ _ _ _ (run_load_node _ _ _ Hnode)). cbn beta iota.
      destruct (leafNode_insertAt_sized (maxNodeSize t) l (Some k) value ts h ln []
                  Hnode Hes Hmax Hm ltac:(constructor) Hfit ltac:(done))
        as (n1 & n2 & h' & Hrun & H1 & H2).
      exists n1, n2, h'. split; [done|]. split; [by apply sized_leaf|].
      destruct n2; [by apply sized_leaf|done]. }
  rewrite (run_bind _ _ _ _ _ Hins). cbn beta iota.
  destruct n2 as [n2|].
  - destruct (sized_maxKey _ _ _ _ Hs1) as (k1 & Hk1 & Hlk1).
    destruct (sized_ts _ _ _ _ Hs1) as (t1 & Ht1).
    destruct (sized_maxKey _ _ _ _ Hs2) as (k2 & Hk2 & Hlk2).
    destruct (sized_ts _ _ _ _ Hs2) as (t2 & Ht2).
    destruct (innerNode_updateSize_loop_total
                [mkChildRef k1 t1 n1; mkChildRef k2 t2 (Some n2)] 0) as [csize Hsize].
    rewrite (run_bind _ _ _ _ _
      (run_TBtree_Insert_newRoot _ n1 (Some n2) ts h1 k1 t1 k2 t2 csize h1 h1 h1 h1
         Hk1 Ht1 Hk2 Ht2 Hsize)).
    eexists _, _, _. split; [reflexivity|]. split; [exact Hm|]. left.
    cbn [root set_root maxNodeSize set_insertionCount]. right.
    eexists (length (h_nodes h1)), _, [mkChildRef k1 t1 n1; mkChildRef k2 t2 (Some n2)].
    split; [done|]. cbn [h_nodes h_childRefs]. split; [by apply list_lookup_middle|].
    cbn [n_nodes n_maxSize]. split; [by apply store_elems_last_whole|].
    split; [done|]. split; [done|].
    repeat constructor; simpl; try done;
      (eapply sized_mono; [apply heap_le_alloc_childRefs|done]).
  - eexists _, _, _. split; [reflexivity|]. split; [exact Hm|]. left.
    cbn [root set_root maxNodeSize set_insertionCount]. by apply sized_deeper.
Qed.

Lemma TBtree_Insert_errors fuel t key value ts h e t' h' :
  closed t = false ->
  TBtree_Insert fuel t key value ts h = Val ((e, t'), h') ->
  e = None \/ e = Some ErrIllegalArgument.
Proof.
  intros Hopen Hrun. destruct e as [e|]; [|by left]. right.
  apply TBtree_Insert_error in Hrun as (_ & _ & [[_ Hc]|[-> _]]); [congruence|done].
Qed.

(** A sequence of [Insert] calls of fitting entries on a tree of fitting
    entries returns. *)
Lemma Inserts_sized fuel ops : forall d t h,
  tree_sized d t h -> closed t = false ->
  Forall (fun op => entry_fits (maxNodeSize t) op.1.1 op.1.2) ops ->
  (d + length ops < fuel)%nat ->
  exists es t' h',
    Inserts fuel t ops h = Val ((es, t'), h') /\
    tree_sized (d + length ops) t' h' /\
    closed t' = false /\ maxNodeSize t' = maxNodeSize t /\
    Forall (fun e => e = None \/ e = Some ErrIllegalArgument) es.
Proof.
  induction ops as [|[[k v] ts] ops IH]; simpl; intros d t h Hsized Hopen Hfit Hfuel.
  { eexists _, _, _. split; [reflexivity|]. rewrite Nat.add_0_r.
    split; [done|]. split; [done|]. split; [done|]. constructor. }
  apply Forall_cons in Hfit as [Hfit1 Hfit]. simpl in Hfit1.
  destruct (TBtree_Insert_sized d fuel t k v ts h Hsized Hfit1 ltac:(lia))
    as (e & t1 & h1 & Hins & Hsized1).
  destruct (TBtree_Insert_fields _ _ _ _ _ _ _ _ _ Hins) as (_ & _ & Hcl & Hmax & _).
  destruct (IH (S d) t1 h1 Hsized1) as (es & t' & h' & Hrest & Hsized' & Hopen' & Hmax' & Hes);
    [congruence|by rewrite Hmax|lia|].
  rewrite (run_bind _ _ _ _ _ Hins). cbn beta iota.
  rewrite (run_bind _ _ _ _ _ Hrest). cbn beta iota.
  eexists _, _, _. split; [reflexivity|].
  replace (d + S (length ops))%nat with (S d + length ops)%nat by lia.
  split; [done|]. split; [done|]. split; [congruence|].
  constructor; [|done]. exact (TBtree_Insert_errors _ _ _ _ _ _ _ _ _ Hopen Hins).
Qed.

(** ** The shape of what [findLeafNode] returns *)

Lemma leafNode_findLeafNode_loop_range es kp nk : forall i0 i,
  leafNode_findLeafNode_loop es kp nk i0 = Some (Some i) ->
  i0 <= i < i0 + Z.of_nat (length es).
Proof.
  induction es as [|[v|] es IH]; intros i0 i; simpl; [done| |done].
  destruct (matches_asc _ _ _).
  - intros [= <-]. lia.
  - intros H%IH. lia.
Qed.

Lemma leafNode_findLeafNode_loop_desc_range res kp nk : forall i0 i,
  leafNode_findLeafNode_loop_desc res kp nk i0 = Some (Some i) ->
  i0 - Z.of_nat (length res) <= i < i0.
Proof.
  induction res as [|[v|] res IH]; intros i0 i; simpl; [done| |done].
  destruct (matches_desc _ _ _).
  - intros [= <-]. lia.
  - intros H%IH. lia.
Qed.

Lemma innerNode_findLeafNode_loop_elem cs kp nk c :
  innerNode_findLeafNode_loop cs kp nk = Some (Some c) -> Some c ∈ cs.
Proof.
  induction cs as [|[c'|] cs IH]; simpl; [done| |done].
  destruct (matches_asc _ _ _).
  - intros [= <-]. by left.
  - intros H%IH. by right.
Qed.

Lemma innerNode_findLeafNode_loop_desc_elem' cs kp nk c :
  innerNode_findLeafNode_loop_desc cs kp nk = Some (Some c) -> Some c ∈ cs.
Proof.
  induction cs as [|[c'|] cs IH]; simpl; [done| |done].
  destruct (matches_desc _ _ _).
  - intros [= <-]. by left.
  - intros H%IH. by right.
Qed.

Lemma leafValues_of_Val s h r h' :
  leafValues_of s h = Val (r, h') ->
  h' = h /\ store_elems (h_leafValues h) s = Some r.
Proof.
  unfold leafValues_of. destruct (store_elems _ _); [|done]. by intros [= <- <-].
Qed.

Lemma childRefs_of_Val s h r h' :
  childRefs_of s h = Val (r, h') ->
  h' = h /\ store_elems (h_childRefs h) s = Some r.
Proof.
  unfold childRefs_of. destruct (store_elems _ _); [|done]. by intros [= <- <-].
Qed.

Lemma load_leaf_Val l h ln h' :
  load_leaf l h = Val (ln, h') -> h' = h /\ h_nodes h !! l = Some (LeafNode ln).
Proof.
  unfold load_leaf. destruct (h_nodes h !! l) as [[ln'|]|]; [|done..].
  by intros [= <- <-].
Qed.

Lemma load_inner_Val n h nd h' :
  load_inner n h = Val (nd, h') -> h' = h /\ h_nodes h !! n = Some (InnerNode nd).
Proof.
  unfold load_inner. destruct (h_nodes h !! n) as [[|nd']|]; [done| |done].
  by intros [= <- <-].
Qed.

Lemma index_childRefs_Val s i h c h' cs :
  index_childRefs s i h = Val (c, h') -> store_elems (h_childRefs h) s = Some cs ->
  h' = h /\ Some c ∈ cs.
Proof.
  unfold index_childRefs. intros H Hcs.
  destruct (store_index (h_childRefs h) s i) as [[c'|]|] eqn:E; [|done..].
  injection H as <- <-. split; [done|].
  assert (0 <= i) as Hi.
  { unfold store_index in E. destruct (0 <=? i) eqn:E0; [|done]. by apply Z.leb_le. }
  rewrite (store_index_elems _ _ _ _ Hcs Hi) in E.
  apply list_elem_of_lookup. eauto.
Qed.

Lemma leafNode_findLeafNode_shape l kp pa nk asc h r h' :
  leafNode_findLeafNode l kp pa nk asc h = Val (r, h') ->
  h' = h /\ findLeafNode_shape h (Some l) pa r.
Proof.
  unfold leafNode_findLeafNode. intros H.
  apply bind_Val in H as (ln & h1 & [-> Hl]%load_leaf_Val & H).
  apply bind_Val in H as (es & h1 & [-> Hes]%leafValues_of_Val & H).
  pose proof (store_elems_length _ _ _ Hes) as Hlen.
  assert (forall i, 0 <= i < slice_len (l_values ln) ->
            findLeafNode_shape h (Some l) pa (pa, Some l, i, None)) as Hfound.
  { intros i Hi. right. exists [], l, ln, i. rewrite app_nil_r.
    split; [done|]. split; [by econstructor|]. done. }
  destruct (asc || is_nil nk).
  - apply bind_Val in H as (found & h1 & Hloop & H).
    apply lift_Val in Hloop as (found' & Hloop & [= <- <-]).
    destruct found as [i|].
    + apply ret_Val in H. injection H as -> ->. split; [done|]. apply Hfound.
      apply leafNode_findLeafNode_loop_range in Hloop. unfold slice_len. lia.
    + destruct (asc || _) eqn:E.
      * apply ret_Val in H. injection H as -> ->. split; [done|]. by left.
      * apply ret_Val in H. injection H as -> ->. split; [done|]. apply Hfound.
        apply orb_false_iff in E as [_ E%Z.eqb_neq]. unfold slice_len in *. lia.
  - apply bind_Val in H as (found & h1 & Hloop & H).
    apply lift_Val in Hloop as (found' & Hloop & [= <- <-]).
    destruct found as [i|].
    + apply ret_Val in H. injection H as -> ->. split; [done|]. apply Hfound.
      apply leafNode_findLeafNode_loop_desc_range in Hloop.
      rewrite length_rev in Hloop. unfold slice_len in *. lia.
    + apply ret_Val in H. injection H as -> ->. split; [done|]. by left.
Qed.

Lemma findLeafNode_shape_child h n nd cs c pa r :
  h_nodes h !! n = Some (InnerNode nd) ->
  store_elems (h_childRefs h) (n_nodes nd) = Some cs ->
  Some c ∈ cs ->
  findLeafNode_shape h (cr_node c) (pa ++ [n]) r ->
  findLeafNode_shape h (Some n) pa r.
Proof.
  intros Hn Hcs Hc [->|(pa' & l & ln & i & -> & Hwalk & Hl & Hi)]; [by left|].
  right. exists (n :: pa'), l, ln, i. split; [by rewrite <- app_assoc|].
  split; [by econstructor|done].
Qed.

Lemma node_findLeafNode_shape fuel : forall p kp pa nk asc h r h',
  node_findLeafNode fuel p kp pa nk asc h = Val (r, h') ->
  h' = h /\ findLeafNode_shape h p pa r.
Proof.
  induction fuel as [|fuel IH]; intros p kp pa nk asc h r h' H; [done|].
  simpl in H. apply bind_Val in H as (o & h1 & Hload & H).
  apply stable_load_node in Hload as [-> _].
  destruct p as [l|]; [|done]. destruct o as [ln|nd].
  { by eapply leafNode_findLeafNode_shape. }
  unfold innerNode_findLeafNode in H.
  apply bind_Val in H as (nd' & h1 & [-> Hn]%load_inner_Val & H).
  apply bind_Val in H as (cs & h1 & [-> Hcs]%childRefs_of_Val & H).
  destruct (asc || is_nil nk).
  - apply bind_Val in H as (found & h1 & Hloop & H).
    apply lift_Val in Hloop as (found' & Hloop & [= <- <-]).
    destruct found as [c|].
    + apply IH in H as [-> Hshape]. split; [done|].
      eapply findLeafNode_shape_child; eauto.
      by eapply innerNode_findLeafNode_loop_elem.
    + destruct asc.
      * apply ret_Val in H. injection H as -> ->. split; [done|]. by left.
      * apply bind_Val in H as (c & h2 & Hidx & H).
        destruct (index_childRefs_Val _ _ _ _ _ _ Hidx Hcs) as [-> Hc].
        apply IH in H as [-> Hshape]. split; [done|].
        by eapply findLeafNode_shape_child.
  - apply bind_Val in H as (found & h1 & Hloop & H).
    apply lift_Val in Hloop as (found' & Hloop & [= <- <-]).
    destruct found as [c|].
    + apply IH in H as [-> Hshape]. split; [done|].
      eapply findLeafNode_shape_child; eauto.
      apply innerNode_findLeafNode_loop_desc_elem' in Hloop.
      by apply list_elem_of_In, in_rev, list_elem_of_In in Hloop.
    + apply ret_Val in H. injection H as -> ->. split; [done|]. by left.
Qed.

(** ** The loops of an inner node on a run of references *)

Lemma innerNode_updateTs_loop_max vs : forall cts,
  innerNode_updateTs_loop (Some <$> vs) cts = Some (N.max cts (max_cts vs)).
Proof.
  induction vs as [|v vs IH]; simpl; intros cts.
  - f_equal. lia.
  - rewrite IH. f_equal. destruct (cts <? cr_cts v)%N eqn:E;
      [apply N.ltb_lt in E|apply N.ltb_ge in E]; lia.
Qed.

Lemma keys_upto_S vs i v :
  vs !! i = Some v ->
  keys_upto vs (S i) = int_add (keys_upto vs i) (len (cr_key v)).
Proof.
  intros Hv. unfold keys_upto.
  rewrite (take_S_r _ _ _ Hv), foldl_app. done.
Qed.

Lemma not_key_overflows_le vs maxSize i v :
  vs !! i = Some v ->
  (int_add (keys_upto vs i) (len (cr_key v)) >? maxSize) = false ->
  ~ key_overflows vs maxSize i.
Proof.
  intros Hv Hle (v' & Hv' & Hgt). simplify_eq.
  apply Z.gtb_gt in Hgt. congruence.
Qed.

Lemma not_key_overflows_ge vs maxSize i : (length vs <= i)%nat -> ~ key_overflows vs maxSize i.
Proof. intros Hi (v & Hv & _). apply lookup_lt_Some in Hv. lia. Qed.

(** [splitInfo] from index [length pre] on, no earlier key overflowing. *)
Lemma innerNode_splitInfo_loop_spec maxSize rest : forall pre si0,
  (forall j, (j < length pre)%nat -> ~ key_overflows (pre ++ rest) maxSize j) ->
  exists (si : nat) ss,
    innerNode_splitInfo_loop (Some <$> rest) maxSize
      (Z.of_nat (length pre)) si0 (keys_upto (pre ++ rest) (length pre))
      = Some (if decide (rest = []) then si0 else Z.of_nat si, ss) /\
    (rest <> [] ->
     (forall j, (j < si)%nat -> ~ key_overflows (pre ++ rest) maxSize j) /\
     (key_overflows (pre ++ rest) maxSize si /\ ss = keys_upto (pre ++ rest) si \/
      (forall j, ~ key_overflows (pre ++ rest) maxSize j) /\
      si = (length (pre ++ rest) - 1)%nat /\
      ss = keys_upto (pre ++ rest) (length (pre ++ rest)))).
Proof.
  induction rest as [|v rest IH]; intros pre si0 Hpre.
  { exists 0%nat, (keys_upto (pre ++ []) (length pre)). simpl. done. }
  assert ((pre ++ v :: rest) !! length pre = Some v) as Hv by (by apply list_lookup_middle).
  simpl.
  destruct (int_add _ _ >? maxSize) eqn:E.
  { exists (length pre), (keys_upto (pre ++ v :: rest) (length pre)).
    split; [done|]. intros _. split; [done|]. left. split; [|done].
    exists v. split; [done|]. by apply Z.gtb_gt. }
  specialize (IH (pre ++ [v]) (Z.of_nat (length pre))).
  rewrite <- !app_assoc in IH. simpl in IH.
  rewrite length_app in IH. simpl in IH.
  destruct IH as (si & ss & Hloop & Hspec).
  { intros j Hj. destruct (decide (j = length pre)) as [->|].
    - by eapply not_key_overflows_le.
    - apply Hpre. lia. }
  rewrite Nat.add_1_r, (keys_upto_S _ _ _ Hv) in Hloop.
  replace (Z.of_nat (length pre) + 1) with (Z.of_nat (S (length pre))) by lia.
  destruct (decide (rest = [])) as [->|Hne].
  - exists (length pre), ss. split; [exact Hloop|]. intros _. split; [done|].
    right. simpl in Hloop. simplify_eq.
    split; [|split].
    + intros j. destruct (decide (j < length pre)%nat); [by apply Hpre|].
      destruct (decide (j = length pre)) as [->|]; [by eapply not_key_overflows_le|].
      apply not_key_overflows_ge. rewrite length_app. simpl. lia.
    + rewrite length_app. simpl. lia.
    + rewrite length_app. simpl. rewrite Nat.add_1_r. by erewrite keys_upto_S.
  - exists si, ss. split; [exact Hloop|]. intros _. by apply Hspec.
Qed.

Lemma innerNode_splitInfo_loop_entries maxSize vs :
  vs <> [] ->
  exists (si : nat) ss,
    innerNode_splitInfo_loop (Some <$> vs) maxSize 0 0 0 = Some (Z.of_nat si, ss) /\
    (si < length vs)%nat /\
    (forall j, (j < si)%nat -> ~ key_overflows vs maxSize j) /\
    (key_overflows vs maxSize si /\ ss = keys_upto vs si \/
     (forall j, ~ key_overflows vs maxSize j) /\
     si = (length vs - 1)%nat /\ ss = keys_upto vs (length vs)).
Proof.
  intros Hne.
  destruct (innerNode_splitInfo_loop_spec maxSize vs [] 0) as (si & ss & Hloop & Hspec).
  { simpl. intros j Hj. lia. }
  simpl in Hloop. rewrite decide_False in Hloop by done.
  exists si, ss. split; [exact Hloop|].
  destruct (Hspec Hne) as [Hbefore Hat]. simpl in *.
  split; [|done].
  destruct Hat as [[(v & Hv & _) _]|(_ & -> & _)].
  - by eapply lookup_lt_Some.
  - destruct vs; [done|simpl; lia].
Qed.

Lemma innerNode_splitInfo_loop_all maxSize vs :
  exists (si : nat) ss,
    innerNode_splitInfo_loop (Some <$> vs) maxSize 0 0 0 = Some (Z.of_nat si, ss) /\
    (si <= length vs)%nat /\
    (forall j, (j < si)%nat -> ~ key_overflows vs maxSize j) /\
    (key_overflows vs maxSize si /\ ss = keys_upto vs si \/
     (forall j, ~ key_overflows vs maxSize j) /\
     si = (length vs - 1)%nat /\ ss = keys_upto vs (length vs)).
Proof.
  destruct (decide (vs = [])) as [->|Hne].
  - exists 0%nat, 0. split; [done|]. split; [done|]. split; [intros; lia|].
    right. split; [|done]. intros j. apply not_key_overflows_ge. simpl. lia.
  - destruct (innerNode_splitInfo_loop_entries maxSize vs Hne)
      as (si & ss & Hloop & Hlt & Hspec).
    exists si, ss. split; [done|]. split; [lia|done].
Qed.

(** ** [indexOf] *)

Lemma leafNode_indexOf_loop_sorted key vs : forall i0,
  ascending vs ->
  exists (n : nat) found,
    leafNode_indexOf_loop (Some <$> vs) key i0 = Some (i0 + Z.of_nat n, found) /\
    (n <= length vs)%nat /\
    Forall (fun v => key_lt (lv_key v) key) (take n vs) /\
    Forall (fun v => key_lt key (lv_key v)) (drop (if found then S n else n) vs) /\
    (found = true ->
     exists v, vs !! n = Some v /\ bytes_Equal (lv_key v) key = true).
Proof.
  induction vs as [|v vs IH]; intros i0 Hasc.
  { exists 0%nat, false. simpl. rewrite Z.add_0_r. by repeat split. }
  destruct Hasc as [Hall Hasc]. rewrite fmap_cons. cbn [leafNode_indexOf_loop].
  destruct (bytes_Equal (lv_key v) key) eqn:Eeq.
  { exists 0%nat, true. rewrite Z.add_0_r. split; [done|]. split; [simpl; lia|].
    split; [constructor|]. split; [|by exists v].
    simpl. rewrite drop_0. eapply Forall_impl; [exact Hall|]. intros w Hw. simpl in Hw.
    apply bytes_Equal_true in Eeq. unfold key_lt in *.
    by rewrite <- (bytes_Compare_data _ _ _ _ Eeq eq_refl). }
  destruct (bytes_Compare (lv_key v) key =? 1) eqn:Egt.
  { exists 0%nat, false. rewrite Z.add_0_r. split; [done|]. split; [simpl; lia|].
    split; [constructor|]. split; [|done].
    simpl. apply Z.eqb_eq, key_lt_gt in Egt.
    constructor; [done|]. eapply Forall_impl; [exact Hall|]. intros w Hw.
    by eapply key_lt_trans. }
  assert (key_lt (lv_key v) key) as Hlt.
  { apply Z.eqb_neq in Egt.
    assert (bytes_Compare (lv_key v) key <> 0) as Hne.
    { intros E. apply bytes_Equal_Compare in E. congruence. }
    unfold key_lt, bytes_Compare in *.
    destruct (compare_list_cases (data (lv_key v)) (data key)) as [?|[?|?]]; done. }
  destruct (IH (i0 + 1) Hasc) as (n & found & Hloop & Hn & Hbefore & Hafter & Hfound).
  exists (S n), found. split; [rewrite Hloop; f_equal; f_equal; lia|].
  split; [simpl; lia|]. split; [by constructor|]. split; [|done].
  by destruct found.
Qed.

(** ** The height of the tree *)

Lemma height_mono m : forall h h' p, heap_le h h' -> height m h p -> height m h' p.
Proof.
  induction m as [|m IH]; intros h h' p Hle; simpl.
  - intros (l & ln & -> & Hnode). exists l, ln. destruct Hle as (Hn & _).
    split; [done|]. by eapply prefix_lookup_Some.
  - intros (n & nd & cs & -> & Hnode & Hcs & Hall).
    exists n, nd, cs. pose proof Hle as (Hn & Hl & Hc).
    split; [done|]. split; [by eapply prefix_lookup_Some|].
    split; [by eapply store_elems_prefix|].
    eapply Forall_impl; [exact Hall|]. intros c Hc'. by eapply IH.
Qed.

Lemma leaf_at_height h p vs : leaf_at h p vs -> height 0 h p.
Proof. intros (l & ln & -> & Hnode & _). by exists l, ln. Qed.

Lemma height_leaf_inv m h l ln :
  height m h (Some l) -> h_nodes h !! l = Some (LeafNode ln) -> m = 0%nat.
Proof.
  destruct m as [|m]; [done|].
  intros (n & nd & cs & [= <-] & Hnode & _) Hl. congruence.
Qed.

Lemma height_inner_inv m h n nd (cs : list childRef) :
  height m h (Some n) -> h_nodes h !! n = Some (InnerNode nd) ->
  store_elems (h_childRefs h) (n_nodes nd) = Some (Some <$> cs) ->
  exists m', m = S m' /\ Forall (fun c => height m' h (cr_node c)) cs.
Proof.
  destruct m as [|m].
  - intros (l & ln & [= <-] & Hl) Hnode. congruence.
  - intros (n' & nd' & cs' & [= <-] & Hnode' & Hcs' & Hall) Hnode Hcs.
    exists m. split; [done|].
    assert (nd' = nd) as -> by congruence.
    rewrite Hcs in Hcs'. injection Hcs' as Hcs'.
    apply (inj (fmap Some)) in Hcs'. by subst cs'.
Qed.

Lemma height_inner m h n nd (cs : list childRef) :
  h_nodes h !! n = Some (InnerNode nd) ->
  store_elems (h_childRefs h) (n_nodes nd) = Some (Some <$> cs) ->
  Forall (fun c => height m h (cr_node c)) cs ->
  height (S m) h (Some n).
Proof. intros. by exists n, nd, cs. Qed.

(** Every way from a node of height [m] down to a leaf passes [m] inner
    nodes. *)
Lemma walk_height h p pa l :
  walk h p pa l -> forall m, height m h p -> length pa = m.
Proof.
  induction 1 as [l ln Hl|n nd cs c pa l Hn Hcs Hc Hwalk IH]; intros m Hm.
  - symmetry. by eapply height_leaf_inv.
  - destruct m as [|m].
    { destruct Hm as (l' & ln & [= <-] & Hl). congruence. }
    destruct Hm as (n' & nd' & cs' & [= <-] & Hnode' & Hcs' & Hall).
    assert (nd' = nd) as -> by congruence.
    rewrite Hcs in Hcs'. injection Hcs' as ->.
    apply list_elem_of_fmap in Hc as (c' & [= ->] & Hc').
    rewrite Forall_forall in Hall. simpl. f_equal. apply IH. by apply Hall.
Qed.

Lemma innerNode_split_height m hS n nd (cs : list childRef) r h' :
  h_nodes hS !! n = Some (InnerNode nd) ->
  store_elems (h_childRefs hS) (n_nodes nd) = Some (Some <$> cs) ->
  cs <> [] ->
  Forall (fun c => height m h' (cr_node c)) cs ->
  innerNode_split n hS = Val (r, h') ->
  height (S m) h' (Some n) /\
  match r.1 with Some _ => height (S m) h' r.1 | None => True end.
Proof.
  intros Hn Hcs Hne Hall Hrun.
  destruct (Z_le_gt_dec (n_csize nd) (n_maxSize nd)) as [Hle|Hgt].
  - unfold innerNode_split in Hrun.
    rewrite (run_bind _ _ _ _ _ (run_load_inner _ _ _ Hn)) in Hrun.
    rewrite (proj2 (Z.leb_le _ _) Hle) in Hrun. injection Hrun as <- <-.
    split; [by eapply height_inner|done].
  - destruct (innerNode_splitInfo_loop_total (n_maxSize nd) cs 0 0 0)
      as (si & ss & Hinfo & [[-> _]|Hsi]); [done|].
    destruct (innerNode_updateTs_loop_total (take (Z.to_nat si) cs) 0%N) as [ctsL HL].
    destruct (innerNode_updateTs_loop_total (drop (Z.to_nat si) cs) 0%N) as [ctsR HR].
    rewrite fmap_take in HL. rewrite fmap_drop in HR.
    destruct (run_innerNode_split n hS nd (Some <$> cs) si ss ctsL ctsR Hn Hcs
                ltac:(lia) Hinfo ltac:(rewrite length_fmap; lia) HL HR)
      as (left & right & Hleft & Hright & Hrun').
    rewrite Hrun' in Hrun. injection Hrun as <- <-.
    assert (n < length (h_nodes hS))%nat as Hlt by (by eapply lookup_lt_Some).
    pose proof (store_elems_length _ _ _ Hcs) as Hlen. rewrite length_fmap in Hlen.
    cbn [fst]. split.
    + eapply (height_inner _ _ _ _ (take (Z.to_nat si) cs)).
      * cbn [h_nodes]. rewrite lookup_app_l by (by rewrite length_insert).
        by apply list_lookup_insert_eq.
      * cbn [h_childRefs n_nodes]. rewrite fmap_take.
        eapply store_elems_slice_to; eauto. unfold slice_len. lia.
      * by apply Forall_take.
    + eapply (height_inner _ _ _ _ (drop (Z.to_nat si) cs)).
      * cbn [h_nodes]. apply list_lookup_middle. by rewrite length_insert.
      * cbn [h_childRefs n_nodes]. rewrite fmap_drop.
        eapply store_elems_slice_from; eauto.
      * by apply Forall_drop.
Qed.

Lemma node_insertAt_height d : forall m fuel h p vs key value ts n1 n2 e h',
  subtree d h p vs -> ascending vs -> height m h p ->
  node_insertAt fuel p key value ts h = Val ((n1, n2, e), h') ->
  height m h' n1 /\ match n2 with Some _ => height m h' n2 | None => True end.
Proof.
  assert (forall m fuel h p vs key value ts n1 n2 e h',
    leaf_at h p vs -> height m h p ->
    node_insertAt fuel p key value ts h = Val ((n1, n2, e), h') ->
    height m h' n1 /\ match n2 with Some _ => height m h' n2 | None => True end)
    as Hleaf.
  { intros m fuel h p vs key value ts n1 n2 e h' Hat Hm Hrun.
    destruct fuel as [|fuel]; [done|]. simpl in Hrun.
    pose proof Hat as (l & ln & -> & Hnode & Hes).
    rewrite (run_bind _ _ _ _ _ (run_load_node _ _ _ Hnode)) in Hrun.
    destruct (leafNode_insertAt_entries _ _ _ _ _ _ _ _ Hat Hrun)
      as (n1' & n2' & vs1 & vs2 & [= -> -> ->] & H1 & Happ & H2).
    pose proof (height_leaf_inv _ _ _ _ Hm Hnode) as ->.
    split; [by eapply leaf_at_height|]. destruct n2'; [|done].
    destruct H2 as [H2 _]. by eapply leaf_at_height. }
  induction d as [|d IH]; intros m fuel h p vs key value ts n1 n2 e h' Hsub Hasc Hm Hrun.
  { by eapply Hleaf. }
  destruct Hsub as [Hat|(n & nd & cs & vss & -> & Hnode & Hcs & -> & Hall)].
  { by eapply Hleaf. }
  destruct (height_inner_inv _ _ _ _ _ Hm Hnode Hcs) as (m' & -> & Hhs).
  destruct fuel as [|fuel]; [done|]. simpl in Hrun.
  rewrite (run_bind _ _ _ _ _ (run_load_node _ _ _ Hnode)) in Hrun.
  cbn beta iota in Hrun. unfold innerNode_insertAt in Hrun.
  pose proof (run_load_inner _ _ _ Hnode) as Hli.
  rewrite (run_bind _ _ _ _ _ Hli) in Hrun.
  pose proof (store_elems_length _ _ _ Hcs) as Hlen. rewrite length_fmap in Hlen.
  destruct (decide (cs = [])) as [->|Hne].
  { exfalso. apply bind_Val in Hrun as (i & h1 & Hidx & Hrun).
    rewrite (run_innerNode_indexOf _ _ _ _ _ Hnode Hcs) in Hidx.
    unfold slice_len in Hidx. rewrite <- Hlen in Hidx. simpl in Hidx.
    injection Hidx as <- <-.
    apply bind_Val in Hrun as (c & h1 & Hidx & _).
    unfold index_childRefs, store_index in Hidx. simpl in Hidx. done. }
  destruct (innerNode_indexOf_route key cs Hne) as (i & c & Hloop & Hc & Hlt & Hroute).
  assert (innerNode_indexOf n key h = Val (Z.of_nat i, h)) as Hidx.
  { rewrite (run_innerNode_indexOf _ _ _ _ _ Hnode Hcs).
    unfold slice_len. rewrite <- Hlen, Hloop. done. }
  rewrite (run_bind _ _ _ _ _ Hidx) in Hrun.
  assert (i < length cs)%nat as Hi by (by eapply lookup_lt_Some).
  assert (index_childRefs (n_nodes nd) (Z.of_nat i) h = Val (c, h)) as Hic.
  { unfold index_childRefs.
    rewrite (store_index_elems _ _ _ _ Hcs) by lia.
    rewrite Nat2Z.id, list_lookup_fmap, Hc. done. }
  rewrite (run_bind _ _ _ _ _ Hic) in Hrun.
  apply bind_Val in Hrun as ([[c1 c2] err] & h1 & Hrec & Hrun).
  destruct (Forall2_lookup_l _ _ _ _ _ Hall Hc) as (vs_i & Hvs & Hsub_i & Hlast_i).
  assert (ascending vs_i) as Hasc_i.
  { eapply ascending_concat_elem; [exact Hasc|]. apply list_elem_of_lookup. eauto. }
  assert (height m' h (cr_node c)) as Hhc.
  { rewrite Forall_forall in Hhs. apply Hhs. apply list_elem_of_lookup. eauto. }
  destruct (IH _ _ _ _ _ _ _ _ _ _ _ _ Hsub_i Hasc_i Hhc Hrec) as [Hh1 Hh2].
  destruct (node_insertAt_subtree _ _ _ _ _ _ _ _ _ _ Hsub_i Hasc_i Hrec)
    as (c1' & c2' & [= -> -> ->] & vs1 & vs2 & Hsub1 & Happ & Hsub2).
  assert (heap_le h h1) as Hle1.
  { eapply preserves_node_insertAt; [apply heap_le_refl|exact Hrec]. }
  assert (store_elems (h_childRefs h1) (n_nodes nd) = Some (Some <$> cs)) as Hcs1.
  { destruct Hle1 as (_ & _ & Hc1). by eapply store_elems_prefix. }
  assert (heap_le h1 h') as Hle'.
  { destruct c2'.
    - eapply preserves_innerNode_insertAt_two; [apply heap_le_refl|exact Hrun].
    - eapply preserves_innerNode_insertAt_one; [apply heap_le_refl|exact Hrun]. }
  assert (Forall (fun c => height m' h' (cr_node c)) cs) as Hhs'.
  { eapply Forall_impl; [exact Hhs|]. intros c0 Hc0.
    eapply height_mono; [|exact Hc0]. by eapply heap_le_trans. }
  destruct (last vs1) as [v1|] eqn:Hlast1.
  2:{ apply last_None in Hlast1 as ->. exfalso.
      destruct c2'.
      - by eapply (innerNode_insertAt_two_empty d h1); [|apply heap_le_refl|exact Hrun].
      - by eapply (innerNode_insertAt_one_empty d h1); [|apply heap_le_refl|exact Hrun]. }
  pose proof (node_maxKey_subtree _ _ _ _ Hsub1) as Hk1. rewrite Hlast1 in Hk1.
  destruct (node_ts_subtree _ _ _ _ Hsub1) as [t1 Ht1].
  destruct c2' as [c2'|].
  - destruct Hsub2 as [Hsub2 Hne2].
    destruct (last vs2) as [v2|] eqn:Hlast2; [|by apply last_None in Hlast2].
    pose proof (node_maxKey_subtree _ _ _ _ Hsub2) as Hk2. rewrite Hlast2 in Hk2.
    destruct (node_ts_subtree _ _ _ _ Hsub2) as [t2 Ht2].
    set (cs' := take i cs ++ mkChildRef (lv_key v1) t1 c1'
                  :: mkChildRef (lv_key v2) t2 (Some c2') :: drop (S i) cs).
    destruct (innerNode_updateSize_loop_total cs' 0) as [csize Hsize].
    subst cs'. rewrite <- fmap_replace2 in Hsize.
    erewrite (run_innerNode_insertAt_two _ _ i) in Hrun; eauto;
      [|by rewrite length_fmap].
    rewrite length_fmap, fmap_replace2 in Hrun.
    apply bind_Val in Hrun as ([n2' err] & h2 & Hsplit & Hret).
    apply ret_Val in Hret. injection Hret as -> -> -> ->.
    eapply (innerNode_split_height m') in Hsplit.
    + exact Hsplit.
    + simpl. by apply list_lookup_middle.
    + simpl. apply store_elems_last_whole.
      rewrite length_fmap, length_app, length_take. simpl. rewrite length_drop. lia.
    + by destruct (take i cs).
    + apply Forall_app. split; [by apply Forall_take|].
      constructor; [simpl; eapply height_mono; [exact Hle'|exact Hh1]|].
      constructor; [simpl; eapply height_mono; [exact Hle'|exact Hh2]|].
      by apply Forall_drop.
  - set (cs' := take i cs ++ mkChildRef (lv_key v1) t1 c1' :: drop (S i) cs).
    destruct (innerNode_updateSize_loop_total cs' 0) as [csize Hsize].
    subst cs'. rewrite <- fmap_replace1 in Hsize.
    erewrite (run_innerNode_insertAt_one _ _ i) in Hrun; eauto;
      [|by rewrite length_fmap].
    rewrite length_fmap, fmap_replace1 in Hrun.
    injection Hrun as <- <- <- <-.
    split; [|done].
    eapply (height_inner _ _ _ _
              (take i cs ++ mkChildRef (lv_key v1) t1 c1' :: drop (S i) cs)).
    + simpl. by apply list_lookup_middle.
    + simpl. apply store_elems_last_whole.
      rewrite length_fmap, length_app, length_take. simpl. rewrite length_drop. lia.
    + set (hf := mkHeap _ _ _) in *.
      apply Forall_app. split; [by apply Forall_take|].
      constructor; [simpl; eapply height_mono; [exact Hle'|exact Hh1]|].
      by apply Forall_drop.
Qed.

(** A successful [Insert] keeps the height of the tree, or, when the root
    was split, makes it one more. *)
Lemma TBtree_Insert_height fuel t key value ts h vs m t' h' :
  tree_holds t h vs -> height m h (root t) ->
  TBtree_Insert fuel t key value ts h = Val ((None, t'), h') ->
  height m h' (root t') \/ height (S m) h' (root t').
Proof.
  intros (d & Hsub & Hasc & _) Hm Hrun. unfold TBtree_Insert in Hrun.
  destruct (closed t); [done|].
  apply bind_Val in Hrun as (illegal & h1 & Hill & Hrun).
  assert (h1 = h) as ->.
  { clear Hrun. destruct key.
    - apply bind_Val in Hill as (rts & h2 & Hts & Hret).
      apply ret_Val in Hret. apply node_ts_heap in Hts. congruence.
    - apply ret_Val in Hill. congruence. }
  destruct illegal; [done|].
  apply bind_Val in Hrun as ([[n1 n2] err] & h1 & Hins & Hrun).
  destruct (node_insertAt_height _ _ _ _ _ _ _ _ _ _ _ _ _ Hsub Hasc Hm Hins)
    as [Hh1 Hh2].
  destruct (node_insertAt_subtree _ _ _ _ _ _ _ _ _ _ Hsub Hasc Hins)
    as (n1' & n2' & [= -> -> ->] & vs1 & vs2 & Hsub1 & Happ & Hsub2).
  destruct n2' as [n2|].
  - right. destruct Hsub2 as [Hsub2 Hne2].
    apply bind_Val in Hrun as (newRoot & h2 & Hroot & Hret).
    apply ret_Val in Hret. injection Hret as -> ->.
    destruct (last vs1) as [v1|] eqn:Hlast1.
    2:{ apply last_None in Hlast1 as ->. exfalso.
        by eapply (TBtree_Insert_newRoot_empty d h1); [|apply heap_le_refl|exact Hroot]. }
    destruct (last vs2) as [v2|] eqn:Hlast2; [|by apply last_None in Hlast2].
    pose proof (node_maxKey_subtree _ _ _ _ Hsub1) as Hk1. rewrite Hlast1 in Hk1.
    pose proof (node_maxKey_subtree _ _ _ _ Hsub2) as Hk2. rewrite Hlast2 in Hk2.
    destruct (node_ts_subtree _ _ _ _ Hsub1) as [t1 Ht1].
    destruct (node_ts_subtree _ _ _ _ Hsub2) as [t2 Ht2].
    destruct (innerNode_updateSize_loop_total
                [mkChildRef (lv_key v1) t1 n1'; mkChildRef (lv_key v2) t2 (Some n2)] 0)
      as [csize Hsize].
    erewrite run_TBtree_Insert_newRoot in Hroot; eauto.
    injection Hroot as <- <-. cbn [root].
    eapply (height_inner _ _ _ _
              [mkChildRef (lv_key v1) t1 n1'; mkChildRef (lv_key v2) t2 (Some n2)]).
    + simpl. by apply list_lookup_middle.
    + simpl. by apply store_elems_last_whole.
    + repeat constructor; simpl;
        (eapply height_mono; [apply heap_le_alloc_childRefs|done]).
  - left. apply ret_Val in Hrun. injection Hrun as -> ->. done.
Qed.

Lemma NewWith_height opt h0 t h :
  NewWith opt h0 = Val ((Some t, None), h) -> height 0 h (root t).
Proof.
  intros Hnew. destruct (NewWith_holds _ _ _ _ Hnew) as (d & _ & _ & [?|Hat]); [done|].
  by eapply leaf_at_height.
Qed.

Lemma reachable_height t h : reachable t h -> exists m, height m h (root t).
Proof.
  induction 1 as [opt h0 t h Hnew|fuel t h key value ts e t' h' Hreach [m IH] Hins
                 |t h s e t' _ [m IH] Hsnap|t h s e t' _ [m IH] Hsc].
  - exists 0%nat. by eapply NewWith_height.
  - destruct e as [e|].
    + apply TBtree_Insert_error in Hins as (-> & -> & _). by exists m.
    + destruct (reachable_holds _ _ Hreach) as [vs Hholds].
      destruct (TBtree_Insert_height _ _ _ _ _ _ _ _ _ _ Hholds IH Hins); eauto.
  - exists m. unfold TBtree_Snapshot, TBtree_newSnapshot in Hsnap.
    destruct (closed t); [by injection Hsnap as _ _ <-|].
    destruct (_ && _); by injection Hsnap as _ _ <-.
  - exists m. unfold TBtree_snapshotClosed in Hsc.
    destruct (closed t); by injection Hsc as _ <-.
Qed.

(** ** The tree as a map *)

Lemma Inserts_holds_last fuel ops : forall t h vs es t' h',
  tree_holds t h vs ->
  Inserts fuel t ops h = Val ((es, t'), h') ->
  exists vs',
    tree_holds t' h' vs' /\
    forall key,
      (fun e => (lv_value e, lv_ts e)) <$> find_key key vs'
      = last_insert key ops es ((fun e => (lv_value e, lv_ts e)) <$> find_key key vs).
Proof.
  induction ops as [|[[k v] ts] ops IH]; simpl; intros t h vs es t' h' Hholds Hrun.
  - injection Hrun as <- <- <-. eauto.
  - apply bind_Val in Hrun as ([e t1] & h1 & Hins & Hrun).
    apply bind_Val in Hrun as ([es' t2] & h2 & Hrest & Hret).
    apply ret_Val in Hret. injection Hret as -> -> ->.
    pose proof (TBtree_Insert_holds_any _ _ _ _ _ _ _ _ _ _ Hholds Hins) as Hholds1.
    destruct (IH _ _ _ _ _ _ Hholds1 Hrest) as (vs' & Hholds' & Hfind).
    exists vs'. split; [done|]. intros key. rewrite Hfind. cbn [last_insert].
    f_equal. destruct e as [e|]; [done|].
    destruct (bytes_Equal k key) eqn:E.
    + apply bytes_Equal_true in E.
      rewrite <- (find_key_data _ _ _ E).
      destruct Hholds as (_ & _ & Hasc & _).
      by rewrite find_key_put_same.
    + rewrite find_key_put_other; [done|].
      intros E'. apply not_true_iff_false in E. apply E.
      apply bytes_Equal_true. congruence.
Qed.

(** ** The [cts] of the nodes *)

Lemma max_ts_le vs t : (max_ts vs <= t)%N <-> Forall (fun v => (lv_ts v <= t)%N) vs.
Proof.
  induction vs as [|v vs IH]; simpl.
  - split; [constructor|lia].
  - rewrite Forall_cons, <- IH. lia.
Qed.

Lemma max_ts_app a b : max_ts (a ++ b) = N.max (max_ts a) (max_ts b).
Proof. induction a as [|v a IH]; simpl; [lia|]. rewrite IH. lia. Qed.

Lemma max_ts_splice vs n m key ts prev value :
  (max_ts vs <= ts)%N ->
  max_ts (take n vs ++ mkLeafValue key ts prev value :: drop m vs) = ts.
Proof.
  intros Hle. apply max_ts_le in Hle.
  pose proof (proj2 (max_ts_le (take n vs) ts) (Forall_take _ _ _ Hle)).
  pose proof (proj2 (max_ts_le (drop m vs) ts) (Forall_drop _ _ _ Hle)).
  rewrite max_ts_app. simpl. lia.
Qed.

Lemma max_cts_le cs t : (max_cts cs <= t)%N <-> Forall (fun c => (cr_cts c <= t)%N) cs.
Proof.
  induction cs as [|c cs IH]; simpl.
  - split; [constructor|lia].
  - rewrite Forall_cons, <- IH. lia.
Qed.

Lemma max_cts_app a b : max_cts (a ++ b) = N.max (max_cts a) (max_cts b).
Proof. induction a as [|c a IH]; simpl; [lia|]. rewrite IH. lia. Qed.

Lemma max_cts_take_drop cs n : N.max (max_cts (take n cs)) (max_cts (drop n cs)) = max_cts cs.
Proof. by rewrite <- max_cts_app, take_drop. Qed.

Lemma max_ts_take_drop vs n : N.max (max_ts (take n vs)) (max_ts (drop n vs)) = max_ts vs.
Proof. by rewrite <- max_ts_app, take_drop. Qed.

Lemma leaf_stamped_mono h h' p t : heap_le h h' -> leaf_stamped h p t -> leaf_stamped h' p t.
Proof.
  intros (Hn & Hl & _) (l & ln & vs & -> & Hnode & Hes & Hrest).
  exists l, ln, vs. split; [done|]. split; [by eapply prefix_lookup_Some|].
  split; [by eapply store_elems_prefix|done].
Qed.

Lemma stamped_leaf d h p t : leaf_stamped h p t -> stamped d h p t.
Proof. destruct d; [done|by left]. Qed.

Lemma stamped_mono d : forall h h' p t, heap_le h h' -> stamped d h p t -> stamped d h' p t.
Proof.
  induction d as [|d IH]; intros h h' p t Hle; simpl.
  - by apply leaf_stamped_mono.
  - intros [Hleaf|(n & nd & cs & -> & Hnode & Hcs & Hcts & Hmax & Hall)].
    + left. by eapply leaf_stamped_mono.
    + right. exists n, nd, cs. pose proof Hle as (Hn & Hl & Hc).
      split; [done|]. split; [by eapply prefix_lookup_Some|].
      split; [by eapply store_elems_prefix|]. split; [done|]. split; [done|].
      eapply Forall_impl; [exact Hall|]. intros c Hst. by eapply IH.
Qed.

Lemma stamped_deeper d : forall h p t, stamped d h p t -> stamped (S d) h p t.
Proof.
  induction d as [|d IH]; intros h p t; [by left|].
  intros [Hleaf|(n & nd & cs & -> & Hnode & Hcs & Hcts & Hmax & Hall)]; [by left|].
  right. exists n, nd, cs. do 5 (split; [done|]).
  eapply Forall_impl; [exact Hall|]. intros c Hst. by apply IH.
Qed.

Lemma stamped_inner d h n nd (cs : list childRef) :
  h_nodes h !! n = Some (InnerNode nd) ->
  store_elems (h_childRefs h) (n_nodes nd) = Some (Some <$> cs) ->
  n_cts nd = max_cts cs ->
  Forall (fun c => stamped d h (cr_node c) (cr_cts c)) cs ->
  stamped (S d) h (Some n) (n_cts nd).
Proof. intros. right. by exists n, nd, cs. Qed.

(** [ts()] of a stamped node returns its stamp. *)
Lemma stamped_ts d h p t : stamped d h p t -> node_ts p h = Val (t, h).
Proof.
  assert (leaf_stamped h p t -> node_ts p h = Val (t, h)) as Hleaf.
  { intros (l & ln & vs & -> & Hnode & _ & <- & _).
    unfold node_ts. rewrite (run_bind _ _ _ _ _ (run_load_node _ _ _ Hnode)).
    cbn beta iota. unfold leafNode_ts.
    by rewrite (run_bind _ _ _ _ _ (run_load_leaf _ _ _ Hnode)). }
  destruct d as [|d]; [exact Hleaf|].
  intros [?|(n & nd & cs & -> & Hnode & _ & <- & _)]; [by apply Hleaf|].
  unfold node_ts. rewrite (run_bind _ _ _ _ _ (run_load_node _ _ _ Hnode)).
  cbn beta iota. unfold innerNode_ts.
  by rewrite (run_bind _ _ _ _ _ (run_load_inner _ _ _ Hnode)).
Qed.

Lemma leafNode_insertAt_stamped l key value ts h t0 n1 n2 e h' :
  leaf_stamped h (Some l) t0 -> (t0 <= ts)%N ->
  leafNode_insertAt l key value ts h = Val ((n1, n2, e), h') ->
  exists t1,
    leaf_stamped h' n1 t1 /\
    match n2 with
    | None => t1 = ts
    | Some _ => exists t2, leaf_stamped h' n2 t2 /\ N.max t1 t2 = ts
    end.
Proof.
  intros (l' & ln & vs & [= <-] & Hl & Hes & Hcts & Hmax) Hle Hrun.
  assert (max_ts vs <= ts)%N as Hvs by lia.
  destruct (leafNode_indexOf_loop_put key value ts vs 0)
    as (n & found & Hloop & Hn & Hfound & Hnew).
  rewrite Z.add_0_l in Hloop.
  destruct found.
  - destruct (Hfound eq_refl) as (old & Hold & _). clear Hfound Hnew.
    erewrite run_leafNode_insertAt_found in Hrun; eauto.
    2:{ rewrite Nat2Z.id, list_lookup_fmap, Hold. done. }
    injection Hrun as <- <- <- <-. rewrite Nat2Z.id.
    exists ts. split; [|done].
    exists (length (h_nodes h)). eexists.
    exists (take n vs ++ mkLeafValue key ts (lv_ts old) value :: drop (S n) vs).
    split; [done|]. split; [simpl; by apply list_lookup_middle|].
    split; [|split; [done|by rewrite max_ts_splice]].
    simpl. rewrite fmap_replace1.
    apply store_elems_last_whole.
    apply lookup_lt_Some in Hold.
    rewrite !length_fmap, length_app, length_take. simpl. rewrite length_drop. lia.
  - clear Hfound Hnew.
    erewrite run_leafNode_insertAt_new in Hrun; eauto.
    rewrite Nat2Z.id, fmap_insert_at, length_fmap in Hrun.
    set (vs' := take n vs ++ mkLeafValue key ts 0%N value :: drop n vs) in *.
    assert (length vs' = S (length vs)) as Hlen'.
    { subst vs'. rewrite length_app, length_take. simpl. rewrite length_drop. lia. }
    assert (max_ts vs' = ts) as Hmax' by (by apply max_ts_splice).
    set (nl := mkLeafNode _ _ _ _ _ _) in Hrun.
    set (h1 := mkHeap _ _ _) in Hrun.
    assert (h_nodes h1 !! length (h_nodes h) = Some (LeafNode nl)) as Hnl
      by (simpl; by apply list_lookup_middle).
    assert (store_elems (h_leafValues h1) (l_values nl) = Some (Some <$> vs')) as Hes'.
    { simpl. apply store_elems_last_whole. rewrite length_fmap. lia. }
    apply bind_Val in Hrun as ([n2' err] & h2 & Hsplit & Hret).
    apply ret_Val in Hret. injection Hret as -> -> -> ->.
    destruct (Z_le_gt_dec (l_csize nl) (l_maxSize nl)) as [Hle'|Hgt].
    + unfold leafNode_split in Hsplit.
      rewrite (run_bind _ _ _ _ _ (run_load_leaf _ _ _ Hnl)) in Hsplit.
      rewrite (proj2 (Z.leb_le _ _) Hle') in Hsplit.
      injection Hsplit as <- <- <-.
      exists ts. split; [|done].
      exists (length (h_nodes h)), nl, vs'. done.
    + assert (vs' <> []) as Hne' by (intros E; rewrite E in Hlen'; done).
      destruct (leafNode_splitInfo_loop_entries (l_maxSize nl) vs' Hne')
        as (si & ss & Hinfo & Hsi & _).
      destruct (run_leafNode_split _ h1 nl (Some <$> vs') (Z.of_nat si) ss
                  (max_ts (take si vs')) (max_ts (drop si vs')) Hnl Hes'
                  ltac:(lia) Hinfo)
        as (left & right & Hleft & Hright & Hrun).
      { rewrite Nat2Z.id, <- fmap_take, leafNode_updateTs_loop_max. f_equal. lia. }
      { rewrite Nat2Z.id, <- fmap_drop, leafNode_updateTs_loop_max. f_equal. lia. }
      rewrite Hrun in Hsplit. injection Hsplit as <- <- <-.
      exists (max_ts (take si vs')). split.
      * exists (length (h_nodes h)). eexists. exists (take si vs').
        split; [done|]. split.
        { cbn [h_nodes]. rewrite lookup_app_l by (rewrite length_insert; simpl;
            rewrite length_app; simpl; lia).
          apply list_lookup_insert_eq. simpl. rewrite length_app. simpl. lia. }
        cbn [l_values h_leafValues l_cts]. split; [|done].
        pose proof (store_elems_slice_to _ _ _ _ _ Hleft
                      ltac:(unfold slice_len; simpl; lia) Hes') as H1.
        by rewrite Nat2Z.id, <- fmap_take in H1.
      * exists (max_ts (drop si vs')). split; [|by rewrite max_ts_take_drop].
        exists (length (h_nodes h1)). eexists. exists (drop si vs').
        split; [done|]. split.
        { cbn [h_nodes]. apply list_lookup_middle. by rewrite length_insert. }
        cbn [l_values h_leafValues l_cts]. split; [|done].
        pose proof (store_elems_slice_from _ _ _ _ _ Hright Hes') as H2.
        by rewrite Nat2Z.id, <- fmap_drop in H2.
Qed.

Lemma innerNode_split_stamped d t hS n nd (cs : list childRef) n2 e h' :
  h_nodes hS !! n = Some (InnerNode nd) ->
  store_elems (h_childRefs hS) (n_nodes nd) = Some (Some <$> cs) ->
  cs <> [] ->
  n_cts nd = t -> t = max_cts cs ->
  Forall (fun c => stamped d h' (cr_node c) (cr_cts c)) cs ->
  innerNode_split n hS = Val ((n2, e), h') ->
  stamp_post (S d) h' (Some n) n2 t.
Proof.
  intros Hn Hcs Hne <- Hcts Hall Hrun.
  destruct (Z_le_gt_dec (n_csize nd) (n_maxSize nd)) as [Hle|Hgt].
  - unfold innerNode_split in Hrun.
    rewrite (run_bind _ _ _ _ _ (run_load_inner _ _ _ Hn)) in Hrun.
    rewrite (proj2 (Z.leb_le _ _) Hle) in Hrun. injection Hrun as <- <- <-.
    exists (n_cts nd). split; [by eapply stamped_inner|done].
  - destruct (innerNode_splitInfo_loop_total (n_maxSize nd) cs 0 0 0)
      as (si & ss & Hinfo & [[-> _]|Hsi]); [done|].
    destruct (run_innerNode_split n hS nd (Some <$> cs) si ss
                (max_cts (take (Z.to_nat si) cs)) (max_cts (drop (Z.to_nat si) cs))
                Hn Hcs ltac:(lia) Hinfo ltac:(rewrite length_fmap; lia))
      as (left & right & Hleft & Hright & Hrun').
    { rewrite <- fmap_take, innerNode_updateTs_loop_max. f_equal. lia. }
    { rewrite <- fmap_drop, innerNode_updateTs_loop_max. f_equal. lia. }
    rewrite Hrun' in Hrun. injection Hrun as <- <- <-.
    assert (n < length (h_nodes hS))%nat as Hlt by (by eapply lookup_lt_Some).
    pose proof (store_elems_length _ _ _ Hcs) as Hlen. rewrite length_fmap in Hlen.
    exists (max_cts (take (Z.to_nat si) cs)). split.
    + right. exists n. eexists. exists (take (Z.to_nat si) cs).
      split; [done|]. split.
      { cbn [h_nodes]. rewrite lookup_app_l by (by rewrite length_insert).
        by apply list_lookup_insert_eq. }
      cbn [h_childRefs n_nodes n_cts]. split.
      { rewrite fmap_take. eapply store_elems_slice_to; eauto. unfold slice_len. lia. }
      split; [done|]. split; [done|]. by apply Forall_take.
    + exists (max_cts (drop (Z.to_nat si) cs)).
      split; [|by rewrite max_cts_take_drop].
      right. exists (length (h_nodes hS)). eexists. exists (drop (Z.to_nat si) cs).
      split; [done|]. split.
      { cbn [h_nodes]. apply list_lookup_middle. by rewrite length_insert. }
      cbn [h_childRefs n_nodes n_cts]. split.
      { rewrite fmap_drop. eapply store_elems_slice_from; eauto. }
      split; [done|]. split; [done|]. by apply Forall_drop.
Qed.

Lemma node_insertAt_stamped d : forall fuel h p vs t0 key value ts n1 n2 e h',
  subtree d h p vs -> ascending vs -> stamped d h p t0 -> (t0 <= ts)%N ->
  node_insertAt fuel p key value ts h = Val ((n1, n2, e), h') ->
  stamp_post d h' n1 n2 ts.
Proof.
  assert (forall d0 fuel h p vs t0 key value ts n1 n2 e h',
    leaf_at h p vs -> stamped d0 h p t0 -> (t0 <= ts)%N ->
    node_insertAt fuel p key value ts h = Val ((n1, n2, e), h') ->
    stamp_post d0 h' n1 n2 ts) as Hleaf.
  { intros d0 fuel h p vs t0 key value ts n1 n2 e h' Hat Hst Hle Hrun.
    destruct fuel as [|fuel]; [done|]. simpl in Hrun.
    pose proof Hat as (l & ln & -> & Hnode & Hes).
    rewrite (run_bind _ _ _ _ _ (run_load_node _ _ _ Hnode)) in Hrun.
    assert (leaf_stamped h (Some l) t0) as Hls.
    { destruct d0 as [|d0]; [done|].
      destruct Hst as [?|(n & nd & cs & [= <-] & Hnode' & _)]; [done|congruence]. }
    destruct (leafNode_insertAt_stamped _ _ _ _ _ _ _ _ _ _ Hls Hle Hrun)
      as (t1 & H1 & H2).
    exists t1. split; [by apply stamped_leaf|].
    destruct n2; [|done]. destruct H2 as (t2 & H2 & Hmax).
    exists t2. split; [by apply stamped_leaf|done]. }
  induction d as [|d IH]; intros fuel h p vs t0 key value ts n1 n2 e h' Hsub Hasc Hst Hle Hrun.
  { by eapply Hleaf. }
  destruct Hsub as [Hat|(n & nd & cs & vss & -> & Hnode & Hcs & -> & Hall)].
  { by eapply Hleaf. }
  destruct Hst as [(l & ln & ? & [= <-] & Hl & _)|
                   (n' & nd' & cs' & [= <-] & Hnode' & Hcs' & Hcts & Hmax & Hst)];
    [congruence|].
  assert (nd' = nd) as -> by congruence.
  rewrite Hcs in Hcs'. injection Hcs' as Hcs'.
  apply (inj (fmap Some)) in Hcs'. subst cs'.
  destruct fuel as [|fuel]; [done|]. simpl in Hrun.
  rewrite (run_bind _ _ _ _ _ (run_load_node _ _ _ Hnode)) in Hrun.
  cbn beta iota in Hrun. unfold innerNode_insertAt in Hrun.
  pose proof (run_load_inner _ _ _ Hnode) as Hli.
  rewrite (run_bind _ _ _ _ _ Hli) in Hrun.
  pose proof (store_elems_length _ _ _ Hcs) as Hlen. rewrite length_fmap in Hlen.
  destruct (decide (cs = [])) as [->|Hne].
  { exfalso. apply bind_Val in Hrun as (i & h1 & Hidx & Hrun).
    rewrite (run_innerNode_indexOf _ _ _ _ _ Hnode Hcs) in Hidx.
    unfold slice_len in Hidx. rewrite <- Hlen in Hidx. simpl in Hidx.
    injection Hidx as <- <-.
    apply bind_Val in Hrun as (c & h1 & Hidx & _).
    unfold index_childRefs, store_index in Hidx. simpl in Hidx. done. }
  destruct (innerNode_indexOf_route key cs Hne) as (i & c & Hloop & Hc & Hlt & Hroute).
  assert (innerNode_indexOf n key h = Val (Z.of_nat i, h)) as Hidx.
  { rewrite (run_innerNode_indexOf _ _ _ _ _ Hnode Hcs).
    unfold slice_len. rewrite <- Hlen, Hloop. done. }
  rewrite (run_bind _ _ _ _ _ Hidx) in Hrun.
  assert (i < length cs)%nat as Hi by (by eapply lookup_lt_Some).
  assert (index_childRefs (n_nodes nd) (Z.of_nat i) h = Val (c, h)) as Hic.
  { unfold index_childRefs.
    rewrite (store_index_elems _ _ _ _ Hcs) by lia.
    rewrite Nat2Z.id, list_lookup_fmap, Hc. done. }
  rewrite (run_bind _ _ _ _ _ Hic) in Hrun.
  apply bind_Val in Hrun as ([[c1 c2] err] & h1 & Hrec & Hrun).
  destruct (Forall2_lookup_l _ _ _ _ _ Hall Hc) as (vs_i & Hvs & Hsub_i & Hlast_i).
  assert (ascending vs_i) as Hasc_i.
  { eapply ascending_concat_elem; [exact Hasc|]. apply list_elem_of_lookup. eauto. }
  assert (Forall (fun c => (cr_cts c <= ts)%N) cs) as Hcs_le.
  { apply max_cts_le. lia. }
  assert (stamped d h (cr_node c) (cr_cts c)) as Hst_c.
  { rewrite Forall_forall in Hst. apply Hst. apply list_elem_of_lookup. eauto. }
  assert (cr_cts c <= ts)%N as Hc_le.
  { rewrite Forall_forall in Hcs_le. apply Hcs_le. apply list_elem_of_lookup. eauto. }
  destruct (IH _ _ _ _ _ _ _ _ _ _ _ _ Hsub_i Hasc_i Hst_c Hc_le Hrec)
    as (t1 & Hst1 & Hst2).
  destruct (node_insertAt_subtree _ _ _ _ _ _ _ _ _ _ Hsub_i Hasc_i Hrec)
    as (c1' & c2' & [= -> -> ->] & vs1 & vs2 & Hsub1 & Happ & Hsub2).
  assert (heap_le h h1) as Hle1.
  { eapply preserves_node_insertAt; [apply heap_le_refl|exact Hrec]. }
  assert (store_elems (h_childRefs h1) (n_nodes nd) = Some (Some <$> cs)) as Hcs1.
  { destruct Hle1 as (_ & _ & Hc1). by eapply store_elems_prefix. }
  assert (heap_le h1 h') as Hle'.
  { destruct c2'.
    - eapply preserves_innerNode_insertAt_two; [apply heap_le_refl|exact Hrun].
    - eapply preserves_innerNode_insertAt_one; [apply heap_le_refl|exact Hrun]. }
  assert (Forall (fun c => stamped d h' (cr_node c) (cr_cts c)) cs) as Hst'.
  { eapply Forall_impl; [exact Hst|]. intros c0 Hc0.
    eapply stamped_mono; [|exact Hc0]. by eapply heap_le_trans. }
  destruct (last vs1) as [v1|] eqn:Hlast1.
  2:{ apply last_None in Hlast1 as ->. exfalso.
      destruct c2'.
      - by eapply (innerNode_insertAt_two_empty d h1); [|apply heap_le_refl|exact Hrun].
      - by eapply (innerNode_insertAt_one_empty d h1); [|apply heap_le_refl|exact Hrun]. }
  pose proof (node_maxKey_subtree _ _ _ _ Hsub1) as Hk1. rewrite Hlast1 in Hk1.
  pose proof (stamped_ts _ _ _ _ Hst1) as Ht1.
  pose proof (proj2 (max_cts_le (take i cs) ts) (Forall_take _ _ _ Hcs_le)) as Htake.
  pose proof (proj2 (max_cts_le (drop (S i) cs) ts) (Forall_drop _ _ _ Hcs_le)) as Hdrop.
  destruct c2' as [c2'|].
  - destruct Hsub2 as [Hsub2 Hne2]. destruct Hst2 as (t2 & Hst2 & Hmax12).
    destruct (last vs2) as [v2|] eqn:Hlast2; [|by apply last_None in Hlast2].
    pose proof (node_maxKey_subtree _ _ _ _ Hsub2) as Hk2. rewrite Hlast2 in Hk2.
    pose proof (stamped_ts _ _ _ _ Hst2) as Ht2.
    set (cs' := take i cs ++ mkChildRef (lv_key v1) t1 c1'
                  :: mkChildRef (lv_key v2) t2 (Some c2') :: drop (S i) cs).
    destruct (innerNode_updateSize_loop_total cs' 0) as [csize Hsize].
    subst cs'. rewrite <- fmap_replace2 in Hsize.
    erewrite (run_innerNode_insertAt_two _ _ i) in Hrun; eauto;
      [|by rewrite length_fmap].
    rewrite length_fmap, fmap_replace2 in Hrun.
    apply bind_Val in Hrun as ([n2' err] & h2 & Hsplit & Hret).
    apply ret_Val in Hret. injection Hret as -> -> -> ->.
    eapply (innerNode_split_stamped d ts) in Hsplit.
    + exact Hsplit.
    + simpl. by apply list_lookup_middle.
    + simpl. apply store_elems_last_whole.
      rewrite length_fmap, length_app, length_take. simpl. rewrite length_drop. lia.
    + by destruct (take i cs).
    + done.
    + rewrite max_cts_app. simpl. lia.
    + apply Forall_app. split; [by apply Forall_take|].
      constructor; [simpl; eapply stamped_mono; [exact Hle'|exact Hst1]|].
      constructor; [simpl; eapply stamped_mono; [exact Hle'|exact Hst2]|].
      by apply Forall_drop.
  - subst t1.
    set (cs' := take i cs ++ mkChildRef (lv_key v1) ts c1' :: drop (S i) cs).
    destruct (innerNode_updateSize_loop_total cs' 0) as [csize Hsize].
    subst cs'. rewrite <- fmap_replace1 in Hsize.
    erewrite (run_innerNode_insertAt_one _ _ i) in Hrun; eauto;
      [|by rewrite length_fmap].
    rewrite length_fmap, fmap_replace1 in Hrun.
    injection Hrun as <- <- <- <-.
    exists ts. split; [|done].
    right. exists (length (h_nodes h1)). eexists.
    exists (take i cs ++ mkChildRef (lv_key v1) ts c1' :: drop (S i) cs).
    split; [done|]. split; [simpl; by apply list_lookup_middle|].
    cbn [n_nodes n_cts h_childRefs]. split.
    { apply store_elems_last_whole.
      rewrite length_fmap, length_app, length_take. simpl. rewrite length_drop. lia. }
    split; [done|]. split; [rewrite max_cts_app; simpl; lia|].
    set (hf := mkHeap _ _ _) in *.
    apply Forall_app. split; [by apply Forall_take|].
    constructor; [simpl; eapply stamped_mono; [exact Hle'|exact Hst1]|].
    by apply Forall_drop.
Qed.

Lemma TBtree_Insert_stamped fuel t key value ts h vs d t0 t' h' :
  tree_holds t h vs -> stamped d h (root t) t0 ->
  TBtree_Insert fuel t key value ts h = Val ((None, t'), h') ->
  exists d', stamped d' h' (root t') ts.
Proof.
  intros (d0 & Hsub & Hasc & _) Hst Hins.
  pose proof (TBtree_Insert_ts_above _ _ _ _ _ _ _ _ _ Hins (stamped_ts _ _ _ _ Hst)) as Hts.
  set (dd := (d0 `max` d)%nat).
  assert (subtree dd h (root t) vs) as Hsub'.
  { subst dd. clear -Hsub. 
    assert (forall k, subtree (k + d0) h (root t) vs) as Hk.
    { induction k as [|k IHk]; [done|]. by apply subtree_deeper. }
    replace (d0 `max` d)%nat with ((d0 `max` d - d0) + d0)%nat by lia. apply Hk. }
  assert (stamped dd h (root t) t0) as Hst'.
  { subst dd. clear -Hst.
    assert (forall k, stamped (k + d) h (root t) t0) as Hk.
    { induction k as [|k IHk]; [done|]. by apply stamped_deeper. }
    replace (d0 `max` d)%nat with ((d0 `max` d - d) + d)%nat by lia. apply Hk. }
  clearbody dd. clear Hsub Hst.
  unfold TBtree_Insert in Hins.
  destruct (closed t); [done|].
  apply bind_Val in Hins as (illegal & h1 & Hill & Hrun).
  assert (h1 = h) as ->.
  { clear Hrun. destruct key.
    - apply bind_Val in Hill as (rts & h2 & Hts' & Hret).
      apply ret_Val in Hret. apply node_ts_heap in Hts'. congruence.
    - apply ret_Val in Hill. congruence. }
  destruct illegal; [done|].
  apply bind_Val in Hrun as ([[n1 n2] err] & h1 & Hins & Hrun).
  assert (t0 <= ts)%N as Hle by lia.
  destruct (node_insertAt_stamped _ _ _ _ _ _ _ _ _ _ _ _ _ Hsub' Hasc Hst' Hle Hins)
    as (t1 & Hst1 & Hst2).
  destruct (node_insertAt_subtree _ _ _ _ _ _ _ _ _ _ Hsub' Hasc Hins)
    as (n1' & n2' & [= -> -> ->] & vs1 & vs2 & Hsub1 & Happ & Hsub2).
  destruct n2' as [n2|].
  - destruct Hsub2 as [Hsub2 Hne2]. destruct Hst2 as (t2 & Hst2 & Hmax).
    apply bind_Val in Hrun as (newRoot & h2 & Hroot & Hret).
    apply ret_Val in Hret. injection Hret as -> ->.
    destruct (last vs1) as [v1|] eqn:Hlast1.
    2:{ apply last_None in Hlast1 as ->. exfalso.
        by eapply (TBtree_Insert_newRoot_empty dd h1); [|apply heap_le_refl|exact Hroot]. }
    destruct (last vs2) as [v2|] eqn:Hlast2; [|by apply last_None in Hlast2].
    pose proof (node_maxKey_subtree _ _ _ _ Hsub1) as Hk1. rewrite Hlast1 in Hk1.
    pose proof (node_maxKey_subtree _ _ _ _ Hsub2) as Hk2. rewrite Hlast2 in Hk2.
    pose proof (stamped_ts _ _ _ _ Hst1) as Ht1.
    pose proof (stamped_ts _ _ _ _ Hst2) as Ht2.
    destruct (innerNode_updateSize_loop_total
                [mkChildRef (lv_key v1) t1 n1'; mkChildRef (lv_key v2) t2 (Some n2)] 0)
      as [csize Hsize].
    erewrite run_TBtree_Insert_newRoot in Hroot; eauto.
    injection Hroot as <- <-. cbn [root].
    exists (S dd). right. exists (length (h_nodes h1)). eexists.
    exists [mkChildRef (lv_key v1) t1 n1'; mkChildRef (lv_key v2) t2 (Some n2)].
    split; [done|]. split; [simpl; by apply list_lookup_middle|].
    cbn [n_nodes n_cts h_childRefs].
    split; [by apply store_elems_last_whole|].
    split; [done|]. split; [simpl; lia|].
    repeat constructor; simpl;
      (eapply stamped_mono; [apply heap_le_alloc_childRefs|done]).
  - subst t1. apply ret_Val in Hrun. injection Hrun as -> ->. by exists dd.
Qed.

Lemma reachable_stamped t h : reachable t h -> exists d t0, stamped d h (root t) t0.
Proof.
  induction 1 as [opt h0 t h Hnew|fuel t h key value ts e t' h' Hreach (d & t0 & IH) Hins
                 |t h s e t' _ (d & t0 & IH) Hsnap|t h s e t' _ (d & t0 & IH) Hsc].
  - exists 0%nat, 0%N.
    unfold NewWith in Hnew. destruct opt as [o|]; [|done]. destruct (_ || _); [done|].
    unfold bind, alloc_node, ret in Hnew. injection Hnew as <- <-. cbn [root].
    exists (length (h_nodes h0)). eexists. exists [].
    split; [done|]. split; [simpl; by apply list_lookup_middle|]. done.
  - destruct e as [e|].
    + apply TBtree_Insert_error in Hins as (-> & -> & _). by exists d, t0.
    + destruct (reachable_holds _ _ Hreach) as [vs Hholds].
      destruct (TBtree_Insert_stamped _ _ _ _ _ _ _ _ _ _ _ Hholds IH Hins) as [d' Hd'].
      by exists d', ts.
  - exists d, t0. unfold TBtree_Snapshot, TBtree_newSnapshot in Hsnap.
    destruct (closed t); [by injection Hsnap as _ _ <-|].
    destruct (_ && _); by injection Hsnap as _ _ <-.
  - exists d, t0. unfold TBtree_snapshotClosed in Hsc.
    destruct (closed t); by injection Hsc as _ <-.
Qed.

Lemma stamped_below h p q :
  node_below h p q -> forall d t, stamped d h p t -> exists d' t', stamped d' h q t'.
Proof.
  induction 1 as [p|n nd cs c q Hnode Hcs Hc Hbelow IH]; intros d t Hst.
  { by exists d, t. }
  destruct d as [|d].
  { destruct Hst as (l & ln & ? & [= <-] & Hl & _). congruence. }
  destruct Hst as [(l & ln & ? & [= <-] & Hl & _)|
                   (n' & nd' & cs' & [= <-] & Hnode' & Hcs' & _ & _ & Hall)];
    [congruence|].
  assert (nd' = nd) as -> by congruence.
  rewrite Hcs in Hcs'. injection Hcs' as ->.
  apply list_elem_of_fmap in Hc as (c' & [= <-] & Hin).
  rewrite Forall_forall in Hall. eapply IH. by apply Hall.
Qed.

(** * The claims *)

(** [tree0] and [heap0] are what [NewWith] builds. *)
Lemma NewWith_opts64 : NewWith opts64 empty_heap = Val ((Some tree0, None), heap0).
Proof. vm_compute; reflexivity. Qed.

Lemma Inserts_abc :
  Inserts 1 tree0 inserts_abc heap0 = Val (([None; None; None], tree_abc), heap_abc).
Proof. vm_compute; reflexivity. Qed.

(** C1 (the code departs from the claim): on the tree [New] returns, the
    first [Snapshot] call creates snapshot 0 and records it in the table;
    the table is then non-empty and the insertion count is under the
    threshold, and the second [Snapshot] call returns nil instead of that
    snapshot: it reads the table at [maxSnapshotId], the id of the next
    snapshot, where nothing is stored. *)
Theorem Snapshot_reuse_returns_nil :
  match New empty_heap with
  | Val ((Some t0, None), _) =>
      match TBtree_Snapshot t0 with
      | (Some s1, None, t1) =>
          closed t1 = false /\
          snap_id s1 = 0%N /\
          snapshots t1 !! snap_id s1 = Some s1 /\
          size (snapshots t1) = 1%nat /\
          (insertionCount t1 <= insertionCountThreshold t1)%N /\
          TBtree_Snapshot t1 = (None, None, t1)
      | _ => False
      end
  | _ => False
  end.
Proof. vm_compute. repeat split; congruence. Qed.

(** C3 (the code departs from the claim): three successful inserts of
    entries of 40, 20 and 60 bytes into a tree of node size 64 leave a root
    whose second child is a leaf with [csize] 80. *)
Theorem csize_exceeds_maxSize_after_Insert :
  match Inserts 1 tree0 inserts_acb heap0 with
  | Val ((es, t), h) =>
      es = [None; None; None] /\
      exists n nd c l ln,
        root t = Some n /\ h_nodes h !! n = Some (InnerNode nd) /\
        store_index (h_childRefs h) (n_nodes nd) 1 = Some (Some c) /\
        cr_node c = Some l /\ h_nodes h !! l = Some (LeafNode ln) /\
        l_csize ln = 80 /\ l_maxSize ln = 64
  | _ => False
  end.
Proof. vm_compute. split; [done|]. do 5 eexists. repeat split. Qed.

(** C5 (as the claim states it, refuted): an empty key that is not nil is
    accepted. *)
Lemma Insert_accepts_empty_key :
  closed tree0 = false /\ len (Some []) = 0 /\
  match TBtree_Insert 1 tree0 (Some []) (key1 "1") 1%N heap0 with
  | Val ((err, _), _) => err = None
  | _ => False
  end.
Proof. vm_compute. done. Qed.

(** C5 (amended): [Insert] returns [ErrAlreadyClosed] on every closed tree;
    on an open tree it returns [ErrIllegalArgument] for a nil key and for
    [ts <= root.ts]; and these are the only errors it returns: on an open
    tree, with a non-nil key (empty or not) and [ts > root.ts], a call that
    returns reports no error. *)
Theorem Insert_guards fuel t key value ts h :
  (closed t = true ->
   TBtree_Insert fuel t key value ts h = Val ((Some ErrAlreadyClosed, t), h)) /\
  (closed t = false -> key = None ->
   TBtree_Insert fuel t key value ts h = Val ((Some ErrIllegalArgument, t), h)) /\
  (closed t = false ->
   forall rts, node_ts (root t) h = Val (rts, h) -> (ts <= rts)%N ->
   TBtree_Insert fuel t key value ts h = Val ((Some ErrIllegalArgument, t), h)) /\
  (forall e t' h',
   TBtree_Insert fuel t key value ts h = Val ((Some e, t'), h') ->
   e = ErrAlreadyClosed /\ closed t = true \/
   e = ErrIllegalArgument /\ closed t = false /\
   (key = None \/ exists rts, node_ts (root t) h = Val (rts, h) /\ (ts <= rts)%N)).
Proof.
  split; [apply TBtree_Insert_closed|].
  split; [intros Hc ->; by apply TBtree_Insert_nil_key|].
  split; [intros Hc rts; by apply TBtree_Insert_stale_ts|].
  intros e t' h' H. by apply TBtree_Insert_error in H as (_ & _ & H).
Qed.

Lemma Insert_guards_witness :
  TBtree_Insert 1 (set_closed true tree0) (key1 "a") (key1 "1") 1%N heap0
    = Val ((Some ErrAlreadyClosed, set_closed true tree0), heap0) /\
  TBtree_Insert 1 tree0 None (key1 "1") 1%N heap0
    = Val ((Some ErrIllegalArgument, tree0), heap0) /\
  TBtree_Insert 1 tree0 (key1 "a") (key1 "1") 0%N heap0
    = Val ((Some ErrIllegalArgument, tree0), heap0).
Proof.
  split; [|split].
  - apply (proj1 (Insert_guards 1 (set_closed true tree0) (key1 "a") (key1 "1") 1%N heap0)).
    reflexivity.
  - apply (proj1 (proj2 (Insert_guards 1 tree0 None (key1 "1") 1%N heap0)));
      reflexivity.
  - apply (proj1 (proj2 (proj2
      (Insert_guards 1 tree0 (key1 "a") (key1 "1") 0%N heap0))) eq_refl 0%N);
      [reflexivity | lia].
Defined.

(** C9: when [Insert] returns an error, the tree it leaves is the tree it
    was called on (root, insertion count and snapshot table included), and
    so is the heap; the error is [ErrAlreadyClosed] or
    [ErrIllegalArgument]. *)
Theorem Insert_error_changes_nothing fuel t key value ts h e t' h' :
  TBtree_Insert fuel t key value ts h = Val ((Some e, t'), h') ->
  (e = ErrAlreadyClosed \/ e = ErrIllegalArgument) /\
  root t' = root t /\ insertionCount t' = insertionCount t /\
  snapshots t' = snapshots t /\ t' = t /\ h' = h.
Proof.
  intros H. apply TBtree_Insert_error in H as (-> & -> & H).
  repeat split. destruct H as [[-> _]|[-> _]]; auto.
Qed.

Lemma Insert_error_changes_nothing_witness :
  TBtree_Insert 1 tree0 (key1 "a") (key1 "1") 0%N heap0
    = Val ((Some ErrIllegalArgument, tree0), heap0) /\
  snapshots tree0 = snapshots tree0 /\ heap0 = heap0.
Proof.
  assert (TBtree_Insert 1 tree0 (key1 "a") (key1 "1") 0%N heap0
          = Val ((Some ErrIllegalArgument, tree0), heap0)) as H by reflexivity.
  split; [exact H|].
  destruct (Insert_error_changes_nothing _ _ _ _ _ _ _ _ _ H) as (_ & _ & _ & Hs & _ & Hh).
  split; [exact Hs | exact Hh].
Defined.

(** C8 (as the claim states it, refuted): after the three inserts the root
    is not an inner node. *)
Lemma root_after_abc_is_not_inner :
  match Inserts 1 tree0 inserts_abc heap0 with
  | Val ((es, t), h) =>
      es = [None; None; None] /\
      ~ exists n nd, root t = Some n /\ h_nodes h !! n = Some (InnerNode nd)
  | _ => False
  end.
Proof.
  vm_compute. split; [done|]. intros (n & nd & [= <-] & [=]).
Qed.

(** C8 (amended): on a fresh tree of node size 64, after the inserts
    ("a","1",1), ("b","2",2), ("c","3",3), all successful, the root is a
    single leaf holding the keys "a", "b", "c" in this order; its [cts] is
    3 and its [csize] is 54 (three entries of 18 bytes), within the node
    size. *)
Theorem root_after_abc_is_leaf :
  match Inserts 1 tree0 inserts_abc heap0 with
  | Val ((es, t), h) =>
      es = [None; None; None] /\
      exists l ln,
        root t = Some l /\ h_nodes h !! l = Some (LeafNode ln) /\
        store_elems (h_leafValues h) (l_values ln)
          = Some [Some (mkLeafValue (key1 "a") 1%N 0%N (key1 "1"));
                  Some (mkLeafValue (key1 "b") 2%N 0%N (key1 "2"));
                  Some (mkLeafValue (key1 "c") 3%N 0%N (key1 "3"))] /\
        l_cts ln = 3%N /\ l_csize ln = 54 /\ l_maxSize ln = 64
  | _ => False
  end.
Proof. vm_compute. split; [done|]. do 2 eexists. repeat split. Qed.

(** C10 (the code departs from the claim): on a fresh tree of node size 64
    the insert of a 49-byte key (an entry of 65 bytes) meets the
    preconditions and panics: the split leaves the left leaf empty and
    [maxKey] indexes it at -1. *)
Theorem Insert_oversized_entry_panics fuel :
  closed tree0 = false /\ node_ts (root tree0) heap0 = Val (0%N, heap0) /\
  TBtree_Insert (S fuel) tree0 (filler 49) None 1%N heap0 = Panic /\
  match node_insertAt (S fuel) (root tree0) (filler 49) None 1%N heap0 with
  | Val ((Some l, Some _, None), h) =>
      (exists ln, h_nodes h !! l = Some (LeafNode ln) /\ s_len (l_values ln) = 0%nat) /\
      node_maxKey (Some l) h = Panic
  | _ => False
  end.
Proof. vm_compute. repeat split. eexists. split; reflexivity. Qed.

(** C6: whatever [Insert] calls follow, every node struct and every backing
    array that was in the heap before them is in the heap after them,
    unchanged, and [get] on any node of the earlier heap (a root captured by
    a snapshot among them) returns after the calls what it returned before
    them, for every key. *)
Theorem published_nodes_are_never_mutated fuel t ops h es t' h' :
  Inserts fuel t ops h = Val ((es, t'), h') ->
  (forall l o, h_nodes h !! l = Some o -> h_nodes h' !! l = Some o) /\
  (forall a vs, h_leafValues h !! a = Some vs -> h_leafValues h' !! a = Some vs) /\
  (forall a cs, h_childRefs h !! a = Some cs -> h_childRefs h' !! a = Some cs) /\
  (forall gfuel p key r h1,
     node_get gfuel p key h = Val (r, h1) -> node_get gfuel p key h' = Val (r, h')).
Proof.
  intros H. apply Inserts_heap_le in H as Hle.
  pose proof Hle as (Hn & Hl & Hc).
  split; [intros l o E; exact (prefix_lookup_Some _ _ _ _ E Hn)|].
  split; [intros a vs E; exact (prefix_lookup_Some _ _ _ _ E Hl)|].
  split; [intros a cs E; exact (prefix_lookup_Some _ _ _ _ E Hc)|].
  intros gfuel p key r h1 Hget.
  destruct (stable_node_get _ _ _ _ _ _ Hget) as [_ Hst]. by apply Hst.
Qed.

Lemma published_nodes_are_never_mutated_witness :
  Inserts 2 tree_abc inserts_da heap_abc = Val (([None; None], tree_abcda), heap_abcda) /\
  node_get 1 (root tree_abc) (key1 "a") heap_abc = Val ((key1 "1", 1%N, None), heap_abc) /\
  node_get 1 (root tree_abc) (key1 "a") heap_abcda
    = Val ((key1 "1", 1%N, None), heap_abcda) /\
  node_get 2 (root tree_abcda) (key1 "a") heap_abcda
    = Val ((key1 "5", 5%N, None), heap_abcda).
Proof.
  assert (Inserts 2 tree_abc inserts_da heap_abc
          = Val (([None; None], tree_abcda), heap_abcda)) as E
    by (vm_compute; reflexivity).
  assert (node_get 1 (root tree_abc) (key1 "a") heap_abc
          = Val ((key1 "1", 1%N, None), heap_abc)) as Hget
    by (vm_compute; reflexivity).
  split; [exact E|]. split; [exact Hget|]. split.
  - exact (proj2 (proj2 (proj2
      (published_nodes_are_never_mutated _ _ _ _ _ _ _ E))) _ _ _ _ _ Hget).
  - vm_compute; reflexivity.
Defined.

(** C4: when [indexOf] does not find the key and returns position [i],
    [insertAt] builds a new leaf, one entry longer than the old one, and
    then applies [split] to it.  In the heap [split] runs on, the old leaf
    and its array are untouched, and the entries of the new leaf are the old
    entries before [i], the new entry (key, ts, prevTs 0, value) at [i], and
    the old entries from [i] on, one place to the right; its [csize] is the
    old [csize] plus the size of the new entry. *)
Theorem leafNode_insertAt_key_absent l key value ts h i h0 :
  leafNode_indexOf l key h = Val ((i, false), h0) ->
  let lv := mkLeafValue key ts 0%N value in
  let newLeaf := length (h_nodes h) in
  exists ln es nl es' h1,
    h_nodes h !! l = Some (LeafNode ln) /\
    store_elems (h_leafValues h) (l_values ln) = Some es /\
    0 <= i <= Z.of_nat (length es) /\
    leafNode_insertAt l key value ts h
      = (do '(n2, err) <- leafNode_split newLeaf; ret (Some newLeaf, n2, err)) h1 /\
    heap_le h h1 /\
    h_nodes h !! newLeaf = None /\
    h_nodes h1 !! newLeaf = Some (LeafNode nl) /\
    l_prevNode nl = Some l /\ l_cts nl = ts /\ l_maxSize nl = l_maxSize ln /\
    l_csize nl = int_add (l_csize ln) (leafValue_size lv) /\
    store_elems (h_leafValues h1) (l_values nl) = Some es' /\
    length es' = S (length es) /\
    es' = take (Z.to_nat i) es ++ Some lv :: drop (Z.to_nat i) es /\
    (forall j, (j < Z.to_nat i)%nat -> es' !! j = es !! j) /\
    es' !! Z.to_nat i = Some (Some lv) /\
    (forall j, (Z.to_nat i <= j)%nat -> es' !! S j = es !! j).
Proof.
  intros Hidx lv newLeaf. subst lv newLeaf.
  set (lv := mkLeafValue key ts 0%N value).
  apply leafNode_indexOf_Val in Hidx as (-> & ln & es & Hl & Hes & Hloop).
  destruct (leafNode_indexOf_loop_range _ _ _ _ _ Hloop) as [Hi _].
  assert (Z.to_nat i <= length es)%nat as Hi' by lia.
  eexists ln, es, _, (take (Z.to_nat i) es ++ Some lv :: drop (Z.to_nat i) es), _.
  split; [done|]. split; [done|]. split; [lia|].
  split; [by apply run_leafNode_insertAt_new|]. fold lv.
  split; [split; [|split]; simpl; [by apply prefix_app_r..|done]|].
  split; [by apply lookup_ge_None|].
  split; [simpl; by apply list_lookup_middle|].
  do 4 (split; [done|]).
  assert (length (take (Z.to_nat i) es ++ Some lv :: drop (Z.to_nat i) es)
          = S (length es)) as Hlen.
  { rewrite length_app, length_take. simpl. rewrite length_drop. lia. }
  split.
  { cbn [h_leafValues l_values].
    rewrite store_elems_last by (cbn [s_arr s_off s_len]; lia).
    cbn [s_off s_len drop]. rewrite <- Hlen at 1. by rewrite take_ge. }
  split; [done|]. split; [done|]. split; [|split].
  - intros j Hj. rewrite lookup_app_l by (rewrite length_take; lia).
    by rewrite lookup_take_lt.
  - rewrite list_lookup_middle; [done|]. rewrite length_take. lia.
  - intros j Hj. rewrite lookup_app_r by (rewrite length_take; lia).
    rewrite length_take. replace (Z.to_nat i `min` length es)%nat with (Z.to_nat i) by lia.
    replace (S j - Z.to_nat i)%nat with (S (j - Z.to_nat i)) by lia. simpl.
    rewrite lookup_drop. f_equal. lia.
Qed.

Lemma leafNode_insertAt_key_absent_witness :
  leafNode_indexOf 3 (Some ["a"; "b"]%byte) heap_abc = Val ((1, false), heap_abc) /\
  exists (es' : list (option leafValue)) h1,
    leafNode_insertAt 3 (Some ["a"; "b"]%byte) None 4%N heap_abc
      = (do '(n2, err) <- leafNode_split 4; ret (Some 4%nat, n2, err)) h1 /\
    es' !! 1%nat = Some (Some (mkLeafValue (Some ["a"; "b"]%byte) 4%N 0%N None)).
Proof.
  assert (leafNode_indexOf 3 (Some ["a"; "b"]%byte) heap_abc
          = Val ((1, false), heap_abc)) as H by (vm_compute; reflexivity).
  split; [exact H|].
  destruct (leafNode_insertAt_key_absent 3 (Some ["a"; "b"]%byte) None 4%N _ _ _ H)
    as (ln & es & nl & es' & h1 & _ & _ & _ & Hrun & _ & _ & _ & _ & _ & _ & _
        & _ & _ & _ & _ & Hat & _).
  exists es', h1. split; [exact Hrun | exact Hat].
Defined.

(** [heap_drifted] is reached through the public calls: after the inserts
    of [inserts_aa], the insert of "b" is [split] run on it. *)
Lemma Inserts_aa :
  Inserts 1 tree0 inserts_aa heap0 = Val (([None; None], tree_aa), heap_aa).
Proof. vm_compute; reflexivity. Qed.

Lemma heap_drifted_reached :
  root tree_aa = Some 2%nat /\
  leafNode_insertAt 2 (key1 "b") None 3%N heap_aa
    = (do '(n2, err) <- leafNode_split 3; ret (Some 3%nat, n2, err)) heap_drifted.
Proof. split; [reflexivity | vm_compute; reflexivity]. Qed.

(** C7 (as the claim states it, refuted): the leaf of [heap_drifted] has
    [csize] 74 over the node size 64, and [split] divides it at index 1,
    giving "b" to the right leaf, though no entry overflows: the running
    size is 17 at index 0 and 34 at index 1. *)
Lemma split_index_without_overflow :
  h_nodes heap_drifted !! 3%nat
    = Some (LeafNode (mkLeafNode (Some 2%nat) (Slice 2 0 2 0) 3%N 74 64 0%N)) /\
  store_elems (h_leafValues heap_drifted) (Slice 2 0 2 0)
    = Some [Some entry_a; Some entry_b] /\
  leafNode_splitInfo 3 heap_drifted = Val ((1, 34), heap_drifted) /\
  ~ overflows [entry_a; entry_b] 64 1 /\
  match leafNode_split 3 heap_drifted with
  | Val ((Some r, None), h') =>
      exists rn, h_nodes h' !! r = Some (LeafNode rn) /\
                 store_elems (h_leafValues h') (l_values rn) = Some [Some entry_b]
  | _ => False
  end.
Proof.
  split; [reflexivity|]. split; [reflexivity|].
  split; [vm_compute; reflexivity|]. split.
  - intros (v & Hv & Hgt). injection Hv as <-. vm_compute in Hgt. discriminate.
  - vm_compute. eexists. split; reflexivity.
Qed.

(** C7 (amended): on a leaf whose [csize] is within [maxSize], [split]
    returns no right node and changes nothing.  On a leaf whose [csize]
    exceeds [maxSize], [split_index] is the smallest index whose entry
    overflows (running size of the entries before it, plus its own size,
    over [maxSize]) when there is one, and the last index when there is
    none; the left leaf keeps the entries before [split_index], the right
    leaf, a new node, gets the entries from [split_index] on, and the [cts]
    of each side is the largest [ts] among its own entries. *)
Theorem leafNode_split_halves l h ln vs :
  h_nodes h !! l = Some (LeafNode ln) ->
  store_elems (h_leafValues h) (l_values ln) = Some (Some <$> vs) ->
  (l_csize ln <= l_maxSize ln -> leafNode_split l h = Val ((None, None), h)) /\
  (l_maxSize ln < l_csize ln ->
   exists (split_index : nat) split_size left right h',
     (forall j, (j < split_index)%nat -> ~ overflows vs (l_maxSize ln) j) /\
     (overflows vs (l_maxSize ln) split_index /\
      split_size = size_upto vs split_index \/
      (forall j, ~ overflows vs (l_maxSize ln) j) /\
      split_index = (length vs - 1)%nat /\
      split_size = size_upto vs (length vs)) /\
     leafNode_split l h = Val ((Some (length (h_nodes h)), None), h') /\
     h_nodes h' !! l
       = Some (LeafNode (mkLeafNode (l_prevNode ln) left (max_ts (take split_index vs))
                                    split_size (l_maxSize ln) (l_offset ln))) /\
     store_elems (h_leafValues h') left = Some (Some <$> take split_index vs) /\
     h_nodes h' !! length (h_nodes h)
       = Some (LeafNode (mkLeafNode None right (max_ts (drop split_index vs))
                                    (int_sub (l_csize ln) split_size)
                                    (l_maxSize ln) 0%N)) /\
     store_elems (h_leafValues h') right = Some (Some <$> drop split_index vs)).
Proof.
  intros Hl Hes. split.
  - intros Hle. unfold leafNode_split.
    rewrite (run_bind _ _ _ _ _ (run_load_leaf _ _ _ Hl)).
    by rewrite (proj2 (Z.leb_le _ _) Hle).
  - intros Hbig.
    destruct (leafNode_splitInfo_loop_all (l_maxSize ln) vs)
      as (si & ss & Hloop & Hsi & Hbefore & Hat).
    assert (l < length (h_nodes h))%nat as Hlt by (by eapply lookup_lt_Some).
    destruct (run_leafNode_split l h ln (Some <$> vs) (Z.of_nat si) ss
                (max_ts (take si vs)) (max_ts (drop si vs)) Hl Hes Hbig Hloop)
      as (left & right & Hleft & Hright & Hrun).
    { rewrite Nat2Z.id, <- fmap_take, leafNode_updateTs_loop_max. f_equal. lia. }
    { rewrite Nat2Z.id, <- fmap_drop, leafNode_updateTs_loop_max. f_equal. lia. }
    exists si, ss, left, right. eexists.
    split; [done|]. split; [done|]. split; [exact Hrun|].
    cbn [h_nodes h_leafValues].
    split; [rewrite lookup_app_l by (by rewrite length_insert);
            by apply list_lookup_insert_eq|].
    split.
    { pose proof (store_elems_length _ _ _ Hes) as Hlen.
      rewrite length_fmap in Hlen.
      pose proof (store_elems_slice_to _ _ _ _ _ Hleft
                    ltac:(unfold slice_len; lia) Hes) as H1.
      by rewrite Nat2Z.id, <- fmap_take in H1. }
    split; [apply list_lookup_middle; by rewrite length_insert|].
    pose proof (store_elems_slice_from _ _ _ _ _ Hright Hes) as H2.
    by rewrite Nat2Z.id, <- fmap_drop in H2.
Qed.

Lemma leafNode_split_halves_witness :
  h_nodes heap_drifted !! 3%nat
    = Some (LeafNode (mkLeafNode (Some 2%nat) (Slice 2 0 2 0) 3%N 74 64 0%N)) /\
  store_elems (h_leafValues heap_drifted) (Slice 2 0 2 0)
    = Some (Some <$> [entry_a; entry_b]) /\
  exists h', leafNode_split 3 heap_drifted = Val ((Some 4%nat, None), h').
Proof.
  assert (h_nodes heap_drifted !! 3%nat
    = Some (LeafNode (mkLeafNode (Some 2%nat) (Slice 2 0 2 0) 3%N 74 64 0%N))) as Hl
    by reflexivity.
  assert (store_elems (h_leafValues heap_drifted) (Slice 2 0 2 0)
    = Some (Some <$> [entry_a; entry_b])) as Hes by reflexivity.
  split; [exact Hl|]. split; [exact Hes|].
  destruct (proj2 (leafNode_split_halves _ _ _ _ Hl Hes) ltac:(simpl; lia))
    as (si & ss & left & right & h' & _ & _ & Hrun & _).
  exists h'. exact Hrun.
Defined.

(** C2: on a tree reached from [NewWith] by calls of [Insert], [Snapshot]
    and [snapshotClosed], after a successful [Insert] of (key, v1, t1), any
    inserts under other keys, and a successful [Insert] of (key, v2, t2),
    [get] of the key on the root returns (v2, t2) and no error, and the
    entry stored under the key has [ts] t2 and [prevTs] t1.  The second
    [Insert] succeeds only for t2 above the [ts] of the root, so t2 > t1
    needs no hypothesis of its own.  [d] is the depth of the tree: any fuel
    above it is enough for [get] to return. *)
Theorem latest_write_wins t h f1 f f2 key v1 t1 v2 t2 ops ta ha es tb hb tc hc :
  reachable t h ->
  TBtree_Insert f1 t key v1 t1 h = Val ((None, ta), ha) ->
  Forall (fun op => data op.1.1 <> data key) ops ->
  Inserts f ta ops ha = Val ((es, tb), hb) ->
  TBtree_Insert f2 tb key v2 t2 hb = Val ((None, tc), hc) ->
  exists d, forall fuel, (d < fuel)%nat ->
    node_get fuel (root tc) key hc = Val ((v2, t2, None), hc) /\
    node_entry fuel (root tc) key hc = Val (Some (mkLeafValue key t2 t1 v2), hc).
Proof.
  intros Hreach Hins1 Hother Hops Hins2.
  destruct (reachable_holds _ _ Hreach) as [vs Hholds].
  pose proof (TBtree_Insert_holds _ _ _ _ _ _ _ _ _ Hholds Hins1) as Hholds1.
  pose proof Hholds as (_ & _ & Hasc & _).
  destruct (Inserts_holds_other key _ _ _ _ _ _ _ _ Hholds1 Hother Hops)
    as (vs' & Hholds' & Hfind).
  rewrite (find_key_put_same _ _ _ _ Hasc) in Hfind.
  pose proof Hholds' as (_ & _ & Hasc' & _).
  pose proof (TBtree_Insert_holds _ _ _ _ _ _ _ _ _ Hholds' Hins2) as Hholds2.
  destruct (tree_holds_get _ _ _ key Hholds2) as [d Hget].
  exists d. intros fuel Hfuel. destruct (Hget fuel Hfuel) as [Hentry Hres].
  rewrite (find_key_put_same _ _ _ _ Hasc'), Hfind in Hentry, Hres.
  by split.
Qed.

Lemma latest_write_wins_witness :
  reachable tree0 heap0 /\
  TBtree_Insert 1 tree0 (key1 "a") (key1 "1") 1%N heap0 = Val ((None, tree_a), heap_a) /\
  Inserts 1 tree_a inserts_bcd heap_a = Val (([None; None; None], tree_abcd), heap_abcd) /\
  TBtree_Insert 2 tree_abcd (key1 "a") (key1 "5") 5%N heap_abcd
    = Val ((None, tree_abcda), heap_abcda) /\
  exists d, forall fuel, (d < fuel)%nat ->
    node_get fuel (root tree_abcda) (key1 "a") heap_abcda
      = Val ((key1 "5", 5%N, None), heap_abcda) /\
    node_entry fuel (root tree_abcda) (key1 "a") heap_abcda
      = Val (Some (mkLeafValue (key1 "a") 5%N 1%N (key1 "5")), heap_abcda).
Proof.
  assert (reachable tree0 heap0) as Hreach
    by (apply (reachable_NewWith opts64 empty_heap); vm_compute; reflexivity).
  assert (TBtree_Insert 1 tree0 (key1 "a") (key1 "1") 1%N heap0
          = Val ((None, tree_a), heap_a)) as H1 by (vm_compute; reflexivity).
  assert (Inserts 1 tree_a inserts_bcd heap_a
          = Val (([None; None; None], tree_abcd), heap_abcd)) as H2
    by (vm_compute; reflexivity).
  assert (TBtree_Insert 2 tree_abcd (key1 "a") (key1 "5") 5%N heap_abcd
          = Val ((None, tree_abcda), heap_abcda)) as H3 by (vm_compute; reflexivity).
  assert (Forall (fun op : bytes * bytes * N => data op.1.1 <> data (key1 "a")) inserts_bcd)
    as Hother by (repeat constructor; simpl; discriminate).
  split; [exact Hreach|]. split; [exact H1|]. split; [exact H2|]. split; [exact H3|].
  exact (latest_write_wins _ _ _ _ _ _ _ _ _ _ _ _ _ _ _ _ _ _ Hreach H1 Hother H2 H3).
Defined.

(** * Further properties of the code *)

(** X1: [NewWith] returns [ErrIllegalArgument], and allocates nothing, for
    nil options, a node size below 64 or a threshold below 1, and for these
    only.  For any other options it returns an open tree with the node size
    and the threshold of the options, no snapshot, a root with [ts] 0, and
    no entry: [get] of every key is [ErrKeyNotFound].  [New] is the second
    case, with node size 4096 and threshold 100000. *)
Theorem NewWith_checks_its_options :
  (forall opt h,
     (exists o t h',
        opt = Some o /\ MinNodeSize <= opt_maxNodeSize o /\
        (1 <= opt_insertionCountThreshold o)%N /\
        NewWith opt h = Val ((Some t, None), h') /\ heap_le h h' /\
        closed t = false /\ maxNodeSize t = opt_maxNodeSize o /\
        insertionCountThreshold t = opt_insertionCountThreshold o /\
        insertionCount t = 0%N /\ snapshots t = ∅ /\ maxSnapshotId t = 0%N /\
        node_ts (root t) h' = Val (0%N, h') /\
        forall fuel key,
          node_get (S fuel) (root t) key h' = Val ((None, 0%N, Some ErrKeyNotFound), h'))
     \/
     ((opt = None \/
       exists o, opt = Some o /\
         (opt_maxNodeSize o < MinNodeSize \/ (opt_insertionCountThreshold o < 1)%N)) /\
      NewWith opt h = Val ((None, Some ErrIllegalArgument), h))) /\
  (forall h, exists t h',
     New h = Val ((Some t, None), h') /\
     maxNodeSize t = 4096 /\ insertionCountThreshold t = 100000%N).
Proof.
  split.
  - intros [o|] h; [|right; split; [by left|done]].
    unfold NewWith.
    destruct (opt_maxNodeSize o <? MinNodeSize) eqn:E1.
    { right. apply Z.ltb_lt in E1. split; [right; eauto|done]. }
    destruct (opt_insertionCountThreshold o <? 1)%N eqn:E2.
    { right. apply N.ltb_lt in E2. split; [right; eauto|done]. }
    apply Z.ltb_ge in E1. apply N.ltb_ge in E2. left. cbn [orb].
    eexists o, _, _. split; [done|]. split; [done|]. split; [done|].
    split; [reflexivity|].
    set (ln := mkLeafNode None nil_slice 0%N 0 (opt_maxNodeSize o) 0%N).
    set (h' := mkHeap (h_nodes h ++ [LeafNode ln]) (h_leafValues h) (h_childRefs h)).
    assert (h_nodes h' !! length (h_nodes h) = Some (LeafNode ln)) as Hnode
      by (by apply list_lookup_middle).
    assert (leaf_at h' (Some (length (h_nodes h))) []) as Hat
      by (eexists _, _; split; [done|]; split; [exact Hnode|done]).
    split.
    { split; [|split]; simpl; [by apply prefix_app_r|done|done]. }
    do 6 (split; [done|]). split.
    + cbn [root]. unfold node_ts. rewrite (run_bind _ _ _ _ _ (run_load_node _ _ _ Hnode)).
      cbn beta iota. unfold leafNode_ts. by rewrite (run_bind _ _ _ _ _ (run_load_leaf _ _ _ Hnode)).
    + intros fuel key. cbn [root]. rewrite run_node_get.
      by rewrite (run_bind _ _ _ _ _
        (node_entry_subtree 0 (S fuel) h' _ [] key Hat I (or_intror Hat) ltac:(lia))).
  - intros h. eexists _, _. split; [reflexivity|]. done.
Qed.

(** X2: right after a successful [Insert] of (key, value, ts), [get] of
    that key on the root returns (value, ts) and no error. *)
Theorem get_after_Insert t h fuel key value ts t' h' :
  reachable t h ->
  TBtree_Insert fuel t key value ts h = Val ((None, t'), h') ->
  exists d, forall gfuel, (d < gfuel)%nat ->
    node_get gfuel (root t') key h' = Val ((value, ts, None), h').
Proof.
  intros Hreach Hins. destruct (reachable_holds _ _ Hreach) as [vs Hholds].
  pose proof Hholds as (_ & _ & Hasc & _).
  pose proof (TBtree_Insert_holds _ _ _ _ _ _ _ _ _ Hholds Hins) as Hholds'.
  destruct (tree_holds_reads _ _ _ Hholds') as [d Hget]. exists d.
  intros gfuel Hfuel. destruct (Hget gfuel key Hfuel) as [_ ->].
  by rewrite (find_key_put_same _ _ _ _ Hasc).
Qed.

Lemma get_after_Insert_witness :
  exists d, forall gfuel, (d < gfuel)%nat ->
    node_get gfuel (root tree_abcda) (key1 "a") heap_abcda
    = Val ((key1 "5", 5%N, None), heap_abcda).
Proof.
  exact (get_after_Insert tree_abcd heap_abcd 2 (key1 "a") (key1 "5") 5%N
           tree_abcda heap_abcda reachable_tree_abcd Insert_a5).
Defined.

(** X3: a successful [Insert] changes what [get] returns for its own key
    only: for any other key, [get] on the new root returns what [get] on
    the old root returned. *)
Theorem get_other_key_after_Insert t h fuel key value ts t' h' :
  reachable t h ->
  TBtree_Insert fuel t key value ts h = Val ((None, t'), h') ->
  exists d, forall gfuel key', (d < gfuel)%nat -> data key' <> data key ->
    exists r,
      node_get gfuel (root t) key' h = Val (r, h) /\
      node_get gfuel (root t') key' h' = Val (r, h').
Proof.
  intros Hreach Hins. destruct (reachable_holds _ _ Hreach) as [vs Hholds].
  pose proof (TBtree_Insert_holds _ _ _ _ _ _ _ _ _ Hholds Hins) as Hholds'.
  destruct (tree_holds_reads _ _ _ Hholds) as [d0 Hget0].
  destruct (tree_holds_reads _ _ _ Hholds') as [d1 Hget1].
  exists (d0 `max` d1)%nat. intros gfuel key' Hfuel Hne.
  destruct (Hget0 gfuel key' ltac:(lia)) as [_ ->].
  destruct (Hget1 gfuel key' ltac:(lia)) as [_ ->].
  rewrite (find_key_put_other _ _ _ _ _ Hne). eauto.
Qed.

Lemma get_other_key_after_Insert_witness :
  exists d, forall gfuel, (d < gfuel)%nat ->
    exists r,
      node_get gfuel (root tree_abcd) (key1 "c") heap_abcd = Val (r, heap_abcd) /\
      node_get gfuel (root tree_abcda) (key1 "c") heap_abcda = Val (r, heap_abcda).
Proof.
  destruct (get_other_key_after_Insert tree_abcd heap_abcd 2 (key1 "a") (key1 "5") 5%N
              tree_abcda heap_abcda reachable_tree_abcd Insert_a5) as [d Hd].
  exists d. intros gfuel Hfuel. apply Hd; [exact Hfuel|]. simpl. discriminate.
Defined.

(** X4: on a tree made by [NewWith] and any sequence of [Insert] calls,
    [get] of a key that no successful call inserted returns
    [ErrKeyNotFound], with a nil value and [ts] 0. *)
Theorem get_key_never_inserted opt h0 t0 h1 fuel ops es t h key :
  NewWith opt h0 = Val ((Some t0, None), h1) ->
  Inserts fuel t0 ops h1 = Val ((es, t), h) ->
  Forall2 (fun op e => e = None -> data op.1.1 <> data key) ops es ->
  exists d, forall gfuel, (d < gfuel)%nat ->
    node_get gfuel (root t) key h = Val ((None, 0%N, Some ErrKeyNotFound), h).
Proof.
  intros Hnew Hrun Hother. apply NewWith_holds in Hnew.
  destruct (Inserts_holds_unless key _ _ _ _ _ _ _ _ Hnew Hrun Hother)
    as (vs' & Hholds & Hfind).
  destruct (tree_holds_reads _ _ _ Hholds) as [d Hget]. exists d.
  intros gfuel Hfuel. destruct (Hget gfuel key Hfuel) as [_ ->]. by rewrite Hfind.
Qed.

Lemma get_key_never_inserted_witness :
  exists d, forall gfuel, (d < gfuel)%nat ->
    node_get gfuel (root tree_abc) (key1 "d") heap_abc
    = Val ((None, 0%N, Some ErrKeyNotFound), heap_abc).
Proof.
  apply (get_key_never_inserted opts64 empty_heap tree0 heap0 1 inserts_abc
           [None; None; None] tree_abc heap_abc (key1 "d")).
  - vm_compute; reflexivity.
  - vm_compute; reflexivity.
  - repeat constructor; simpl; discriminate.
Defined.

(** X5: on every tree a caller can reach, [get] returns for every key, with
    the heap as it was: it does not panic, and the only error it reports is
    [ErrKeyNotFound], together with a nil value and [ts] 0.  [d] is the
    depth of the tree. *)
Theorem get_returns t h :
  reachable t h ->
  exists d, forall fuel key, (d < fuel)%nat ->
    exists value ts err,
      node_get fuel (root t) key h = Val ((value, ts, err), h) /\
      (err = None \/ err = Some ErrKeyNotFound /\ value = None /\ ts = 0%N).
Proof.
  intros Hreach. destruct (reachable_holds _ _ Hreach) as [vs Hholds].
  destruct (tree_holds_reads _ _ _ Hholds) as [d Hget]. exists d.
  intros fuel key Hfuel. destruct (Hget fuel key Hfuel) as [_ ->].
  destruct (find_key key vs) as [w|]; simpl; eauto 10.
Qed.

Lemma get_returns_witness :
  exists d, forall fuel key, (d < fuel)%nat ->
    exists value ts err,
      node_get fuel (root tree_abcd) key heap_abcd = Val ((value, ts, err), heap_abcd) /\
      (err = None \/ err = Some ErrKeyNotFound /\ value = None /\ ts = 0%N).
Proof. exact (get_returns tree_abcd heap_abcd reachable_tree_abcd). Defined.

(** X6: [Close] returns nil exactly on an open tree with an empty snapshot
    table and no insert counted since the last new snapshot, and then it
    changes nothing but the [closed] flag.  With snapshots in the table it
    returns [ErrSnapshotsNotClosed]; with an empty table and inserts counted
    it never returns: it calls [Snapshot], which waits for the mutex that
    [Close] holds. *)
Theorem Close_outcomes t :
  (closed t = true -> TBtree_Close false t = Returns (Some ErrAlreadyClosed, t)) /\
  (closed t = false -> snapshots t <> ∅ ->
   TBtree_Close false t = Returns (Some ErrSnapshotsNotClosed, t)) /\
  (closed t = false -> snapshots t = ∅ -> insertionCount t <> 0%N ->
   TBtree_Close false t = Blocks) /\
  (closed t = false -> snapshots t = ∅ -> insertionCount t = 0%N ->
   TBtree_Close false t = Returns (None, set_closed true t)) /\
  (forall t', TBtree_Close false t = Returns (None, t') ->
   closed t = false /\ snapshots t = ∅ /\ insertionCount t = 0%N /\
   t' = set_closed true t).
Proof. apply TBtree_Close_cases. Qed.

Lemma Close_outcomes_witness : TBtree_Close false tree_abc = Blocks.
Proof.
  apply (proj1 (proj2 (proj2 (Close_outcomes tree_abc)))).
  - reflexivity.
  - reflexivity.
  - vm_compute. discriminate.
Defined.

(** X7: the way to a closed tree.  On an open tree with an empty snapshot
    table, after a successful [Insert]: [Close] never returns; [Snapshot]
    creates a snapshot of the root; with that snapshot in the table [Close]
    returns [ErrSnapshotsNotClosed]; once [snapshotClosed] has removed it,
    [Close] returns nil; and from then on [Insert], [Snapshot],
    [snapshotClosed] and [Close] return [ErrAlreadyClosed] and change
    nothing.  Root and heap are the same throughout. *)
Theorem Close_needs_a_closed_snapshot fuel t key value ts h t' h' :
  snapshots t = ∅ -> (insertionCount t < 2 ^ 64 - 1)%N ->
  TBtree_Insert fuel t key value ts h = Val ((None, t'), h') ->
  exists s t1 t2 t3,
    TBtree_Close false t' = Blocks /\
    TBtree_Snapshot t' = (Some s, None, t1) /\
    snap_id s = maxSnapshotId t' /\ snap_root s = root t' /\
    TBtree_Close false t1 = Returns (Some ErrSnapshotsNotClosed, t1) /\
    TBtree_snapshotClosed t1 s = (None, t2) /\
    TBtree_Close false t2 = Returns (None, t3) /\
    root t3 = root t' /\ closed t3 = true /\
    (forall f k v ts' h1,
       TBtree_Insert f t3 k v ts' h1 = Val ((Some ErrAlreadyClosed, t3), h1)) /\
    TBtree_Snapshot t3 = (None, Some ErrAlreadyClosed, t3) /\
    (forall s', TBtree_snapshotClosed t3 s' = (Some ErrAlreadyClosed, t3)) /\
    TBtree_Close false t3 = Returns (Some ErrAlreadyClosed, t3).
Proof.
  intros Hempty Hcount Hins.
  destruct (TBtree_Insert_fields _ _ _ _ _ _ _ _ _ Hins)
    as (Hsn & Hmax & Hcl & _ & _ & Hic).
  assert (closed t = false) as Hopen.
  { unfold TBtree_Insert in Hins. by destruct (closed t). }
  rewrite Hopen in Hcl. rewrite Hempty in Hsn.
  pose proof (uint64_incr_pos _ Hcount) as Hpos. rewrite <- Hic in Hpos.
  set (s := mkSnapshot (maxSnapshotId t') (root t')).
  set (t1 := set_insertionCount 0%N
               (set_maxSnapshotId (uint64_incr (maxSnapshotId t'))
                  (set_snapshots (<[maxSnapshotId t' := s]> (snapshots t')) t'))).
  set (t2 := set_snapshots (delete (snap_id s) (snapshots t1)) t1).
  exists s, t1, t2, (set_closed true t2).
  assert (TBtree_Snapshot t' = (Some s, None, t1)) as Hsnap.
  { unfold TBtree_Snapshot. rewrite Hcl.
    by rewrite (proj2 (size_snapshots_pos (snapshots t')) Hsn). }
  assert (snapshots t1 = <[maxSnapshotId t' := s]> ∅) as Hsn1
    by (unfold t1; simpl; by rewrite Hsn).
  assert (snapshots t2 = ∅) as Hsn2.
  { unfold t2. cbn [set_snapshots snapshots]. rewrite Hsn1. cbn [snap_id s].
    by rewrite delete_insert_eq, delete_empty. }
  split.
  { apply (TBtree_Close_cases t'); [done|done|lia]. }
  split; [done|]. split; [done|]. split; [done|]. split.
  { apply (TBtree_Close_cases t1); [done|]. rewrite Hsn1. apply insert_non_empty. }
  split.
  { unfold TBtree_snapshotClosed. by rewrite (eq_refl : closed t1 = closed t'), Hcl. }
  split.
  { by apply (TBtree_Close_cases t2). }
  split; [done|]. split; [done|]. split.
  { intros. by apply TBtree_Insert_closed. }
  split; [done|]. split; [done|]. by apply (TBtree_Close_cases (set_closed true t2)).
Qed.

Lemma Close_needs_a_closed_snapshot_witness :
  exists s t1 t2 t3,
    TBtree_Close false tree_a = Blocks /\
    TBtree_Snapshot tree_a = (Some s, None, t1) /\
    TBtree_snapshotClosed t1 s = (None, t2) /\
    TBtree_Close false t2 = Returns (None, t3) /\
    TBtree_Close false t3 = Returns (Some ErrAlreadyClosed, t3).
Proof.
  destruct (Close_needs_a_closed_snapshot 1 tree0 (key1 "a") (key1 "1") 1%N heap0
              tree_a heap_a)
    as (s & t1 & t2 & t3 & H1 & H2 & _ & _ & _ & H3 & H4 & _ & _ & _ & _ & _ & H5).
  - reflexivity.
  - vm_compute. reflexivity.
  - vm_compute; reflexivity.
  - exists s, t1, t2, t3. auto.
Defined.

(** X8: every id in the snapshot table is below [maxSnapshotId].  This
    holds on a new tree and is kept by [Insert], by [snapshotClosed], and by
    [Snapshot] as long as the counter has not reached its last value.  The
    branch of [Snapshot] that reuses a snapshot looks up [maxSnapshotId]:
    it finds nothing, and returns a nil snapshot with a nil error. *)
Theorem snapshot_ids_stay_below :
  (forall opt h0 t h, NewWith opt h0 = Val ((Some t, None), h) -> snapshots_below t) /\
  (forall fuel t key value ts h e t' h',
     snapshots_below t -> TBtree_Insert fuel t key value ts h = Val ((e, t'), h') ->
     snapshots_below t') /\
  (forall t s e t',
     snapshots_below t -> TBtree_snapshotClosed t s = (e, t') -> snapshots_below t') /\
  (forall t s e t',
     snapshots_below t -> (maxSnapshotId t < 2 ^ 64 - 1)%N ->
     TBtree_Snapshot t = (s, e, t') -> snapshots_below t') /\
  (forall t,
     snapshots_below t -> closed t = false -> reuses_snapshot t = true ->
     TBtree_Snapshot t = (None, None, t)).
Proof.
  split; [|split; [|split; [|split]]].
  - intros opt h0 t h Hnew. unfold NewWith in Hnew.
    destruct opt as [o|]; [|done]. destruct (_ || _); [done|].
    unfold bind, alloc_node, ret in Hnew. injection Hnew as <- _.
    intros id s. cbn [snapshots]. by rewrite lookup_empty.
  - intros fuel t key value ts h e t' h' Hbelow Hins.
    destruct (TBtree_Insert_fields _ _ _ _ _ _ _ _ _ Hins) as (Hsn & Hmax & _).
    unfold snapshots_below. by rewrite Hsn, Hmax.
  - intros t s e t' Hbelow Hsc. unfold TBtree_snapshotClosed in Hsc.
    destruct (closed t); injection Hsc as _ <-; [done|].
    intros id s' Hlook. cbn [set_snapshots snapshots maxSnapshotId] in *.
    apply lookup_delete_Some in Hlook as [_ Hlook]. by eapply Hbelow.
  - intros t s e t' Hbelow Hmax Hsnap. unfold TBtree_Snapshot in Hsnap.
    destruct (closed t); [by injection Hsnap as _ _ <-|].
    destruct (_ && _); [by injection Hsnap as _ _ <-|].
    unfold TBtree_newSnapshot in Hsnap. injection Hsnap as _ _ <-.
    intros id s' Hlook.
    cbn [set_snapshots set_maxSnapshotId set_insertionCount snapshots maxSnapshotId
         snap_id] in *.
    unfold uint64_incr. rewrite N.mod_small by lia.
    apply lookup_insert_Some in Hlook as [[<- _]|[_ Hlook]]; [lia|].
    apply Hbelow in Hlook. lia.
  - intros t Hbelow Hopen Hreuse. unfold TBtree_Snapshot.
    rewrite Hopen. unfold reuses_snapshot in Hreuse. rewrite Hreuse.
    destruct (snapshots t !! maxSnapshotId t) as [s|] eqn:Hlook; [|done].
    apply Hbelow in Hlook. lia.
Qed.

(** X9: after a successful [Insert] with timestamp [ts], the [ts] of the
    root is [ts], whether the root is a leaf or an inner node and whether
    or not a node was split, and the [prevNode] of the root is the root
    before the call. *)
Theorem Insert_sets_root_ts_and_prevNode fuel t key value ts h t' h' :
  TBtree_Insert fuel t key value ts h = Val ((None, t'), h') ->
  node_ts (root t') h' = Val (ts, h') /\
  node_prevNode (root t') h' = Val (root t, h').
Proof. apply TBtree_Insert_root. Qed.

Lemma Insert_sets_root_ts_and_prevNode_witness :
  node_ts (root tree_abcda) heap_abcda = Val (5%N, heap_abcda) /\
  node_prevNode (root tree_abcda) heap_abcda = Val (root tree_abcd, heap_abcda).
Proof.
  apply (Insert_sets_root_ts_and_prevNode 2 tree_abcd (key1 "a") (key1 "5") 5%N
           heap_abcd tree_abcda heap_abcda).
  vm_compute; reflexivity.
Defined.

(** X10: in any sequence of [Insert] calls on a tree, the timestamps of the
    calls that succeed are strictly increasing: a call whose timestamp is
    not above that of the last successful call is rejected. *)
Theorem successful_Inserts_have_increasing_ts fuel t ops h es t' h' i j op_i op_j :
  Inserts fuel t ops h = Val ((es, t'), h') ->
  (i < j)%nat -> ops !! i = Some op_i -> ops !! j = Some op_j ->
  es !! i = Some None -> es !! j = Some None ->
  (op_i.2 < op_j.2)%N.
Proof.
  revert t h es i j. induction ops as [|[[k v] ts] ops IH]; intros t h es i j Hrun Hij Hi Hj Hei Hej.
  { by rewrite lookup_nil in Hi. }
  simpl in Hrun.
  apply bind_Val in Hrun as ([e t1] & h1 & Hins & Hrun).
  apply bind_Val in Hrun as ([es' t2] & h2 & Hrest & Hret).
  apply ret_Val in Hret. injection Hret as -> -> ->.
  destruct j as [|j]; [lia|]. destruct i as [|i]; simpl in *.
  - injection Hi as <-. injection Hei as ->.
    apply TBtree_Insert_root in Hins as [Hts1 _].
    destruct (Inserts_ts _ _ _ _ _ _ _ _ Hrest Hts1) as [Hlow _]. by eapply Hlow.
  - eapply (IH _ _ _ i j); eauto. lia.
Qed.

Lemma successful_Inserts_have_increasing_ts_witness :
  Inserts 1 tree_a inserts_bcd heap_a = Val (([None; None; None], tree_abcd), heap_abcd) /\
  ((key1 "b", key1 "2", 2%N).2 < (key1 "d", key1 "4", 4%N).2)%N.
Proof.
  assert (Inserts 1 tree_a inserts_bcd heap_a
          = Val (([None; None; None], tree_abcd), heap_abcd)) as Hrun
    by (vm_compute; reflexivity).
  split; [exact Hrun|].
  apply (successful_Inserts_have_increasing_ts 1 tree_a inserts_bcd heap_a
           [None; None; None] tree_abcd heap_abcd 0 2
           (key1 "b", key1 "2", 2%N) (key1 "d", key1 "4", 4%N) Hrun).
  - lia.
  - reflexivity.
  - reflexivity.
  - reflexivity.
  - reflexivity.
Defined.

(** X11: in ascending order, [findLeafNode] on the root of a tree returns
    the leaf and the index of the entry with the smallest key among the
    stored keys [k] with [keyPrefix <= k] and [k > neqKey], after a path
    that extends the given one; when no stored key passes the test it
    returns [ErrKeyNotFound] with a nil path and a nil leaf.  The stored
    keys are those [get] finds; the heap is not changed. *)
Theorem findLeafNode_ascending t h :
  reachable t h ->
  exists d, forall fuel keyPrefix pa neqKey, (d < fuel)%nat ->
    exists r,
      node_findLeafNode fuel (root t) keyPrefix pa neqKey true h = Val (r, h) /\
      ((exists v,
          found_entry h r pa v /\
          matches_asc keyPrefix neqKey (lv_key v) = true /\
          node_get fuel (root t) (lv_key v) h = Val ((lv_value v, lv_ts v, None), h) /\
          forall k value ts,
            node_get fuel (root t) k h = Val ((value, ts, None), h) ->
            matches_asc keyPrefix neqKey k = true ->
            (bytes_Compare (lv_key v) k <? 1) = true)
       \/
       (r = not_found /\
        forall k value ts,
          node_get fuel (root t) k h = Val ((value, ts, None), h) ->
          matches_asc keyPrefix neqKey k = false)).
Proof.
  intros Hreach. destruct (reachable_holds _ _ Hreach) as (vs & d & Hsub & Hasc & Hne).
  exists d. intros fuel kp pa nk Hfuel.
  destruct (node_findLeafNode_fwd kp nk true d fuel h (root t) vs pa eq_refl
              Hsub Hasc Hne Hfuel) as (r & Hrun & Hr).
  exists r. split; [done|].
  destruct (seek_asc kp nk vs) as [v|] eqn:Hseek.
  - left. exists v. split; [done|].
    apply seek_asc_Some in Hseek as (n & Hn & Hv & Hbefore).
    assert (v ∈ vs) as Hin by (apply list_elem_of_lookup; eauto).
    split; [done|]. split.
    { rewrite (subtree_reads d fuel h (root t) vs _ Hsub Hasc Hne Hfuel).
      by rewrite get_result_elem. }
    intros k value ts Hget Hk.
    rewrite (subtree_reads d fuel h (root t) vs _ Hsub Hasc Hne Hfuel) in Hget.
    injection Hget as Hget. apply get_result_ok in Hget as (w & Hw & Hdata).
    rewrite <- (matches_asc_data kp nk _ _ Hdata) in Hk.
    rewrite <- (bytes_Compare_data _ _ _ _ eq_refl Hdata).
    apply list_elem_of_lookup in Hw as [j Hj].
    destruct (decide (j < n)%nat) as [Hlt|Hge].
    { exfalso. rewrite Forall_forall in Hbefore.
      assert (w ∈ take n vs) as Hwin.
      { apply list_elem_of_lookup. exists j. by rewrite lookup_take_lt. }
      specialize (Hbefore _ Hwin). simpl in Hbefore. congruence. }
    destruct (decide (j = n)) as [->|Hneq].
    { rewrite Hn in Hj. injection Hj as <-. apply key_le_refl. }
    apply key_le_of_lt. eapply (ascending_lookup_lt vs n j); eauto. lia.
  - right. split; [done|]. intros k value ts Hget.
    rewrite (subtree_reads d fuel h (root t) vs _ Hsub Hasc Hne Hfuel) in Hget.
    injection Hget as Hget. apply get_result_ok in Hget as (w & Hw & Hdata).
    rewrite <- (matches_asc_data kp nk _ _ Hdata).
    apply seek_asc_None in Hseek. rewrite Forall_forall in Hseek. by apply Hseek.
Qed.

Lemma findLeafNode_ascending_witness :
  exists d, forall fuel, (d < fuel)%nat ->
    exists r,
      node_findLeafNode fuel (root tree_abcd) (key1 "b") [] None true heap_abcd
      = Val (r, heap_abcd).
Proof.
  destruct (findLeafNode_ascending tree_abcd heap_abcd reachable_tree_abcd) as [d Hd].
  exists d. intros fuel Hfuel.
  destruct (Hd fuel (key1 "b") [] None Hfuel) as (r & Hrun & _). by exists r.
Defined.

(** X12: in descending order with a non-nil [neqKey], [findLeafNode] on the
    root of a tree returns, and what it returns is [ErrKeyNotFound] or the
    leaf and index of a stored entry whose key [k] has [k <= keyPrefix] and
    [k < neqKey].  When the root is a leaf, that entry is the one with the
    largest such key, and [ErrKeyNotFound] means that no stored key passes
    the test.  When the root is an inner node this does not hold: the walk
    tests the largest key of each child, not the keys in it, and there is a
    tree with stored keys passing the test on which it returns
    [ErrKeyNotFound]. *)
Theorem findLeafNode_descending :
  (forall t h, reachable t h ->
     exists d, forall fuel keyPrefix pa neqKey, (d < fuel)%nat -> is_nil neqKey = false ->
       exists r,
         node_findLeafNode fuel (root t) keyPrefix pa neqKey false h = Val (r, h) /\
         (r = not_found \/
          exists v,
            found_entry h r pa v /\
            matches_desc keyPrefix neqKey (lv_key v) = true /\
            node_get fuel (root t) (lv_key v) h
              = Val ((lv_value v, lv_ts v, None), h))) /\
  (forall t h l ln fuel keyPrefix pa neqKey,
     reachable t h -> root t = Some l -> h_nodes h !! l = Some (LeafNode ln) ->
     is_nil neqKey = false ->
     exists r,
       node_findLeafNode (S fuel) (root t) keyPrefix pa neqKey false h = Val (r, h) /\
       ((exists v,
           found_entry h r pa v /\
           matches_desc keyPrefix neqKey (lv_key v) = true /\
           forall k value ts,
             node_get (S fuel) (root t) k h = Val ((value, ts, None), h) ->
             matches_desc keyPrefix neqKey k = true ->
             (bytes_Compare k (lv_key v) <? 1) = true)
        \/
        (r = not_found /\
         forall k value ts,
           node_get (S fuel) (root t) k h = Val ((value, ts, None), h) ->
           matches_desc keyPrefix neqKey k = false))) /\
  (exists t h fuel keyPrefix neqKey k value ts,
     reachable t h /\ is_nil neqKey = false /\
     node_get fuel (root t) k h = Val ((value, ts, None), h) /\
     matches_desc keyPrefix neqKey k = true /\
     node_findLeafNode fuel (root t) keyPrefix [] neqKey false h = Val (not_found, h)).
Proof.
  split; [|split].
  - intros t h Hreach.
    destruct (reachable_holds _ _ Hreach) as (vs & d & Hsub & Hasc & Hne).
    exists d. intros fuel kp pa nk Hfuel Hmode.
    destruct (node_findLeafNode_desc kp nk d fuel h (root t) vs pa Hmode Hsub Hfuel)
      as (r & Hrun & Hr).
    exists r. split; [done|]. destruct Hr as [->|(v & Hfound & Hin & Hv)]; [by left|].
    right. exists v. split; [done|]. split; [done|].
    rewrite (subtree_reads d fuel h (root t) vs _ Hsub Hasc Hne Hfuel).
    by rewrite get_result_elem.
  - intros t h l ln fuel kp pa nk Hreach Hroot Hl Hmode.
    destruct (reachable_holds _ _ Hreach) as (vs & d & Hsub & Hasc & Hne).
    assert (leaf_at h (root t) vs) as Hat.
    { destruct d as [|d]; [exact Hsub|].
      destruct Hsub as [Hat|(n & nd & cs & vss & Hn & Hnode & _)]; [done|].
      rewrite Hroot in Hn. injection Hn as <-. congruence. }
    pose proof Hat as (l' & ln' & Hl' & Hnode & Hes).
    rewrite Hroot in Hl'. injection Hl' as <-.
    rewrite Hl in Hnode. injection Hnode as <-.
    assert (forall k, node_get (S fuel) (root t) k h
                      = Val (get_result (find_key k vs), h)) as Hget.
    { intros k. apply (subtree_reads 0); [exact Hat|done|by right|lia]. }
    rewrite Hroot in *. simpl.
    rewrite (run_bind _ _ _ _ _ (run_load_node _ _ _ Hl)). cbn beta iota.
    destruct (run_leafNode_findLeafNode l kp pa nk false h ln vs Hl Hes)
      as (r & Hrun & Hr).
    rewrite Hmode in Hr. cbn [orb] in Hr. exists r. split; [done|].
    destruct (seek_desc kp nk vs) as [v|] eqn:Hseek.
    + left. exists v. destruct Hr as (i & -> & Hi).
      apply seek_desc_Some in Hseek as (n & Hn & Hv & Hafter).
      split; [exists [], l, ln, i; by rewrite app_nil_r|]. split; [done|].
      intros k value ts Hk Hmatch. simpl in Hget. rewrite Hget in Hk.
      injection Hk as Hk. apply get_result_ok in Hk as (w & Hw & Hdata).
      rewrite <- (matches_desc_data kp nk _ _ Hdata) in Hmatch.
      rewrite <- (bytes_Compare_data _ _ _ _ Hdata eq_refl).
      apply list_elem_of_lookup in Hw as [j Hj].
      destruct (decide (n < j)%nat) as [Hlt|Hge].
      { exfalso. rewrite Forall_forall in Hafter.
        assert (w ∈ drop (S n) vs) as Hwin.
        { apply list_elem_of_lookup. exists (j - S n)%nat. rewrite lookup_drop.
          by replace (S n + (j - S n))%nat with j by lia. }
        specialize (Hafter _ Hwin). simpl in Hafter. congruence. }
      destruct (decide (j = n)) as [->|Hneq].
      { rewrite Hn in Hj. injection Hj as <-. apply key_le_refl. }
      apply key_le_of_lt. eapply (ascending_lookup_lt vs j n); eauto. lia.
    + right. split; [done|]. intros k value ts Hk. simpl in Hget. rewrite Hget in Hk.
      injection Hk as Hk. apply get_result_ok in Hk as (w & Hw & Hdata).
      rewrite <- (matches_desc_data kp nk _ _ Hdata).
      apply seek_desc_None in Hseek. rewrite Forall_forall in Hseek. by apply Hseek.
  - exists tree_abcd, heap_abcd, 2%nat, (key1 "b"), (key1 "z"), (key1 "b"),
      (key1 "2"), 2%N.
    split; [exact reachable_tree_abcd|]. split; [done|].
    split; [vm_compute; reflexivity|]. split; [vm_compute; reflexivity|].
    vm_compute; reflexivity.
Qed.

(** X13: in descending order with a nil [neqKey], [findLeafNode] takes the
    first loop.  On the root of a tree it returns the entry with the
    smallest key among the stored keys [k] with [keyPrefix <= k] and [k]
    not empty; when no stored key passes this test, the entry with the
    largest stored key; and [ErrKeyNotFound] only on a tree that stores
    nothing. *)
Theorem findLeafNode_descending_nil_neqKey t h :
  reachable t h ->
  exists d, forall fuel keyPrefix pa, (d < fuel)%nat ->
    exists r,
      node_findLeafNode fuel (root t) keyPrefix pa None false h = Val (r, h) /\
      ((exists v,
          found_entry h r pa v /\
          node_get fuel (root t) (lv_key v) h = Val ((lv_value v, lv_ts v, None), h) /\
          ((matches_asc keyPrefix None (lv_key v) = true /\
            forall k value ts,
              node_get fuel (root t) k h = Val ((value, ts, None), h) ->
              matches_asc keyPrefix None k = true ->
              (bytes_Compare (lv_key v) k <? 1) = true)
           \/
           (forall k value ts,
              node_get fuel (root t) k h = Val ((value, ts, None), h) ->
              matches_asc keyPrefix None k = false /\
              (bytes_Compare k (lv_key v) <? 1) = true)))
       \/
       (r = not_found /\
        forall k, node_get fuel (root t) k h
                  = Val ((None, 0%N, Some ErrKeyNotFound), h))).
Proof.
  intros Hreach. destruct (reachable_holds _ _ Hreach) as (vs & d & Hsub & Hasc & Hne).
  exists d. intros fuel kp pa Hfuel.
  destruct (node_findLeafNode_fwd kp None false d fuel h (root t) vs pa eq_refl
              Hsub Hasc Hne Hfuel) as (r & Hrun & Hr).
  exists r. split; [done|].
  assert (forall k, node_get fuel (root t) k h = Val (get_result (find_key k vs), h))
    as Hget by (intros k; by eapply subtree_reads).
  destruct (seek_asc kp None vs) as [v|] eqn:Hseek.
  - left. exists v. split; [done|].
    apply seek_asc_Some in Hseek as (n & Hn & Hv & Hbefore).
    assert (v ∈ vs) as Hin by (apply list_elem_of_lookup; eauto).
    split; [by rewrite Hget, get_result_elem|]. left. split; [done|].
    intros k value ts Hk Hmatch. rewrite Hget in Hk.
    injection Hk as Hk. apply get_result_ok in Hk as (w & Hw & Hdata).
    rewrite <- (matches_asc_data kp None _ _ Hdata) in Hmatch.
    rewrite <- (bytes_Compare_data _ _ _ _ eq_refl Hdata).
    apply list_elem_of_lookup in Hw as [j Hj].
    destruct (decide (j < n)%nat) as [Hlt|Hge].
    { exfalso. rewrite Forall_forall in Hbefore.
      assert (w ∈ take n vs) as Hwin.
      { apply list_elem_of_lookup. exists j. by rewrite lookup_take_lt. }
      specialize (Hbefore _ Hwin). simpl in Hbefore. congruence. }
    destruct (decide (j = n)) as [->|Hneq].
    { rewrite Hn in Hj. injection Hj as <-. apply key_le_refl. }
    apply key_le_of_lt. eapply (ascending_lookup_lt vs n j); eauto. lia.
  - destruct (last vs) as [v|] eqn:Hlast.
    + left. exists v. split; [done|].
      assert (v ∈ vs) as Hin.
      { apply last_Some in Hlast as [vs' ->]. apply elem_of_app. right. by left. }
      split; [by rewrite Hget, get_result_elem|]. right.
      intros k value ts Hk. rewrite Hget in Hk.
      injection Hk as Hk. apply get_result_ok in Hk as (w & Hw & Hdata).
      rewrite <- (matches_asc_data kp None _ _ Hdata).
      rewrite <- (bytes_Compare_data _ _ _ _ Hdata eq_refl). split.
      * apply seek_asc_None in Hseek. rewrite Forall_forall in Hseek. by apply Hseek.
      * pose proof (ascending_all_le_last _ _ _ Hasc Hlast eq_refl) as Hle.
        rewrite Forall_forall in Hle. by apply Hle.
    + right. split; [done|]. intros k. rewrite Hget.
      apply last_None in Hlast as ->. done.
Qed.

Lemma findLeafNode_descending_nil_neqKey_witness :
  exists d, forall fuel, (d < fuel)%nat ->
    exists r,
      node_findLeafNode fuel (root tree_abcd) (key1 "z") [] None false heap_abcd
      = Val (r, heap_abcd).
Proof.
  destruct (findLeafNode_descending_nil_neqKey tree_abcd heap_abcd reachable_tree_abcd)
    as [d Hd].
  exists d. intros fuel Hfuel.
  destruct (Hd fuel (key1 "z") [] Hfuel) as (r & Hrun & _). by exists r.
Defined.

(** X14: on every reachable tree, the [ts] that [get] returns for a stored
    key is at least 1 and at most the [ts] of the root, and the entry it
    reads has a [prevTs] below its [ts]. *)
Theorem stored_ts_is_bounded_by_root_ts t h :
  reachable t h ->
  exists rts d,
    node_ts (root t) h = Val (rts, h) /\
    forall fuel key, (d < fuel)%nat ->
      (forall value ts,
         node_get fuel (root t) key h = Val ((value, ts, None), h) ->
         (1 <= ts <= rts)%N) /\
      (forall e,
         node_entry fuel (root t) key h = Val (Some e, h) ->
         (lv_prevTs e < lv_ts e <= rts)%N).
Proof.
  intros Hreach.
  destruct (reachable_holds_ts _ _ Hreach) as (vs & rts & Hholds & Hts & Hall).
  destruct (tree_holds_reads _ _ _ Hholds) as [d Hread].
  exists rts, d. split; [done|]. intros fuel key Hfuel.
  destruct (Hread fuel key Hfuel) as [Hentry Hget].
  rewrite Forall_forall in Hall. split.
  - intros value ts. rewrite Hget. intros [= Hres].
    destruct (find_key key vs) as [w|] eqn:E; [|done].
    injection Hres as _ <-. apply find_key_Some in E as [Hin _].
    specialize (Hall _ Hin). simpl in Hall. lia.
  - intros e. rewrite Hentry. intros [= E].
    apply find_key_Some in E as [Hin _]. by apply Hall.
Qed.

Lemma stored_ts_is_bounded_by_root_ts_witness :
  exists rts, node_ts (root tree_abcd) heap_abcd = Val (rts, heap_abcd).
Proof.
  destruct (stored_ts_is_bounded_by_root_ts tree_abcd heap_abcd reachable_tree_abcd)
    as (rts & d & Hts & _).
  by exists rts.
Defined.

(** X15: the search-tree invariant.  In every inner node of a reachable
    tree (the root or a node below it) the child references are all set and
    there is at least one; the key of each reference is the [maxKey] of the
    child it points to; and the keys of the references are strictly
    ascending.  In every leaf the keys of the entries are strictly
    ascending, and a leaf below the root is not empty. *)
Theorem nodes_keep_the_search_order t h :
  reachable t h ->
  (forall n nd,
     node_below h (root t) (Some n) -> h_nodes h !! n = Some (InnerNode nd) ->
     exists cs,
       store_elems (h_childRefs h) (n_nodes nd) = Some (Some <$> cs) /\
       cs <> [] /\
       (forall c, c ∈ cs -> node_maxKey (cr_node c) h = Val (cr_key c, h)) /\
       (forall i j ci cj,
          (i < j)%nat -> cs !! i = Some ci -> cs !! j = Some cj ->
          key_lt (cr_key ci) (cr_key cj))) /\
  (forall l ln,
     node_below h (root t) (Some l) -> h_nodes h !! l = Some (LeafNode ln) ->
     exists vs,
       store_elems (h_leafValues h) (l_values ln) = Some (Some <$> vs) /\
       (forall i j vi vj,
          (i < j)%nat -> vs !! i = Some vi -> vs !! j = Some vj ->
          key_lt (lv_key vi) (lv_key vj)) /\
       (Some l <> root t -> vs <> [])).
Proof.
  intros Hreach. destruct (reachable_holds _ _ Hreach) as (vs & d & Hsub & Hasc & Hne).
  split.
  - intros n nd Hbelow Hnode.
    destruct (subtree_below _ _ _ Hbelow _ _ Hsub Hasc) as (d' & vs' & Hsub' & Hasc' & Hor).
    assert (~ leaf_at h (Some n) vs') as Hnot.
    { intros (l & ln & [= <-] & Hl & _). congruence. }
    assert (vs' <> []) as Hne'.
    { destruct Hor as [[Hq ->]|?]; [|done]. destruct Hne as [?|Hat]; [done|].
      rewrite <- Hq in Hat. done. }
    destruct d' as [|d']; [done|].
    destruct Hsub' as [Hat|(n' & nd' & cs & vss & [= <-] & Hnode' & Hcs & -> & Hall)];
      [done|].
    rewrite Hnode in Hnode'. injection Hnode' as <-.
    exists cs. split; [done|]. split.
    { intros ->. by apply Forall2_nil_inv_l in Hall as ->. }
    split.
    + intros c Hc. apply list_elem_of_lookup in Hc as [m Hm].
      destruct (Forall2_lookup_l _ _ _ _ _ Hall Hm)
        as (vs_m & Hvs & Hsub_m & v & Hlast & Hkey).
      rewrite (node_maxKey_subtree _ _ _ _ Hsub_m), Hlast. by rewrite Hkey.
    + intros i j ci cj Hij Hi Hj.
      destruct (Forall2_lookup_l _ _ _ _ _ Hall Hi) as (vs_i & Hvi & _ & vi & Hli & <-).
      destruct (Forall2_lookup_l _ _ _ _ _ Hall Hj) as (vs_j & Hvj & _ & vj & Hlj & <-).
      eapply (ascending_concat_lookup_lt vss i j); eauto.
      * apply last_Some in Hli as [? ->]. apply elem_of_app. right. by left.
      * apply last_Some in Hlj as [? ->]. apply elem_of_app. right. by left.
  - intros l ln Hbelow Hnode.
    destruct (subtree_below _ _ _ Hbelow _ _ Hsub Hasc) as (d' & vs' & Hsub' & Hasc' & Hor).
    assert (leaf_at h (Some l) vs') as (l' & ln' & [= <-] & Hnode' & Hes).
    { destruct d' as [|d']; [done|].
      destruct Hsub' as [Hat|(n' & nd' & cs & vss & [= <-] & Hnode' & _)]; [done|].
      congruence. }
    rewrite Hnode in Hnode'. injection Hnode' as <-.
    exists vs'. split; [done|]. split.
    + intros i j vi vj Hij Hi Hj. by eapply (ascending_lookup_lt vs' i j).
    + intros Hneq. destruct Hor as [[Hq _]|?]; done.
Qed.

Lemma nodes_keep_the_search_order_witness :
  exists n nd cs,
    root tree_abcd = Some n /\ h_nodes heap_abcd !! n = Some (InnerNode nd) /\
    store_elems (h_childRefs heap_abcd) (n_nodes nd) = Some (Some <$> cs) /\ cs <> [].
Proof.
  assert (exists n nd,
    root tree_abcd = Some n /\ h_nodes heap_abcd !! n = Some (InnerNode nd))
    as (n & nd & Hroot & Hnode) by (vm_compute; eauto).
  destruct (proj1 (nodes_keep_the_search_order tree_abcd heap_abcd reachable_tree_abcd)
              n nd) as (cs & Hcs & Hne & _).
  - rewrite Hroot. constructor.
  - exact Hnode.
  - exists n, nd, cs. auto.
Defined.

(** X16: on a reachable tree that stores something, [maxKey] of the root
    returns the largest stored key: [get] finds it, and every key [get]
    finds is at most it.  On a tree that stores nothing [maxKey] of the
    root panics: it indexes [l.values[len(l.values)-1]] of an empty leaf. *)
Theorem root_maxKey_is_the_largest_key t h :
  reachable t h ->
  exists d, forall fuel, (d < fuel)%nat ->
    (exists v,
       node_maxKey (root t) h = Val (lv_key v, h) /\
       node_get fuel (root t) (lv_key v) h = Val ((lv_value v, lv_ts v, None), h) /\
       forall k value ts,
         node_get fuel (root t) k h = Val ((value, ts, None), h) ->
         (bytes_Compare k (lv_key v) <? 1) = true)
    \/
    (node_maxKey (root t) h = Panic /\
     forall k, node_get fuel (root t) k h = Val ((None, 0%N, Some ErrKeyNotFound), h)).
Proof.
  intros Hreach. destruct (reachable_holds _ _ Hreach) as (vs & d & Hsub & Hasc & Hne).
  exists d. intros fuel Hfuel.
  assert (forall k, node_get fuel (root t) k h = Val (get_result (find_key k vs), h))
    as Hget by (intros k; by eapply subtree_reads).
  pose proof (node_maxKey_subtree _ _ _ _ Hsub) as Hmax.
  destruct (last vs) as [v|] eqn:Hlast.
  - left. exists v. split; [done|].
    assert (v ∈ vs) as Hin.
    { apply last_Some in Hlast as [vs' ->]. apply elem_of_app. right. by left. }
    split; [by rewrite Hget, get_result_elem|].
    intros k value ts Hk. rewrite Hget in Hk.
    injection Hk as Hk. apply get_result_ok in Hk as (w & Hw & Hdata).
    rewrite <- (bytes_Compare_data _ _ _ _ Hdata eq_refl).
    pose proof (ascending_all_le_last _ _ _ Hasc Hlast eq_refl) as Hle.
    rewrite Forall_forall in Hle. by apply Hle.
  - right. split; [done|]. intros k. rewrite Hget.
    apply last_None in Hlast as ->. done.
Qed.

Lemma root_maxKey_is_the_largest_key_witness :
  exists d, forall fuel, (d < fuel)%nat ->
    forall k value ts,
      node_get fuel (root tree_abcd) k heap_abcd = Val ((value, ts, None), heap_abcd) ->
      (bytes_Compare k (key1 "d") <? 1) = true.
Proof.
  destruct (root_maxKey_is_the_largest_key tree_abcd heap_abcd reachable_tree_abcd)
    as [d Hd].
  exists d. intros fuel Hfuel k value ts Hget.
  assert (node_maxKey (root tree_abcd) heap_abcd = Val (key1 "d", heap_abcd)) as Hmax
    by (vm_compute; reflexivity).
  destruct (Hd fuel Hfuel) as [(v & Hv & _ & Hle)|[Hpanic _]].
  - rewrite Hmax in Hv. injection Hv as Hv. rewrite Hv. by eapply Hle.
  - rewrite Hmax in Hpanic. discriminate.
Defined.

(** X17: on a tree made by [NewWith] with a node size within the range of
    [int], any sequence of [Insert] calls whose entries fit a node (16 +
    len(key) + len(value) at most the node size) runs to the end: no call
    panics, each returns nil or [ErrIllegalArgument], and a fuel above the
    number of calls is enough, the tree growing by one level at most with
    each call. *)
Theorem Inserts_of_fitting_entries_return opt h0 t0 h1 ops fuel :
  NewWith opt h0 = Val ((Some t0, None), h1) ->
  maxNodeSize t0 < 2 ^ 63 ->
  Forall (fun op => 16 + len op.1.1 + len op.1.2 <= maxNodeSize t0) ops ->
  (length ops < fuel)%nat ->
  exists es t h,
    Inserts fuel t0 ops h1 = Val ((es, t), h) /\
    Forall (fun e => e = None \/ e = Some ErrIllegalArgument) es.
Proof.
  intros Hnew Hm Hfit Hfuel.
  assert (tree_sized 0 t0 h1 /\ closed t0 = false) as [Hsized Hopen].
  { unfold NewWith in Hnew. destruct opt as [o|]; [|done]. destruct (_ || _); [done|].
    unfold bind, alloc_node, ret in Hnew. injection Hnew as <- <-.
    split; [|done]. split; [done|]. right.
    eexists (length (h_nodes h0)), _. split; [done|]. simpl.
    split; [by apply list_lookup_middle|]. done. }
  destruct (Inserts_sized fuel ops 0 t0 h1 Hsized Hopen Hfit ltac:(simpl; lia))
    as (es & t & h & Hrun & _ & _ & _ & Hes).
  by exists es, t, h.
Qed.

Lemma Inserts_of_fitting_entries_return_witness :
  exists es t h,
    Inserts 4 tree0 inserts_abc heap0 = Val ((es, t), h) /\
    Forall (fun e => e = None \/ e = Some ErrIllegalArgument) es.
Proof.
  apply (Inserts_of_fitting_entries_return opts64 empty_heap tree0 heap0 inserts_abc 4).
  - vm_compute; reflexivity.
  - reflexivity.
  - repeat constructor; vm_compute; discriminate.
  - simpl. lia.
Defined.

(** X18: whatever the heap and the arguments, a call of [findLeafNode] that
    returns leaves the heap as it was, and returns either [ErrKeyNotFound]
    with a nil path, a nil leaf and index 0, or no error with a leaf, an
    index within the entries of that leaf, and the given path extended by
    the inner nodes walked through from the node of the call down to the
    leaf, each a child of the one before. *)
Theorem findLeafNode_returns_a_walk fuel p keyPrefix pa neqKey ascOrder h r h' :
  node_findLeafNode fuel p keyPrefix pa neqKey ascOrder h = Val (r, h') ->
  h' = h /\
  (r = not_found \/
   exists pa' l ln i,
     r = (pa ++ pa', Some l, i, None) /\ walk h p pa' l /\
     h_nodes h !! l = Some (LeafNode ln) /\ 0 <= i < slice_len (l_values ln)).
Proof. apply node_findLeafNode_shape. Qed.

Lemma findLeafNode_returns_a_walk_witness :
  exists r,
    node_findLeafNode 2 (root tree_abcd) (key1 "b") [] None true heap_abcd
    = Val (r, heap_abcd) /\
    (r = not_found \/
     exists pa' l ln i,
       r = ([] ++ pa', Some l, i, None) /\ walk heap_abcd (root tree_abcd) pa' l /\
       h_nodes heap_abcd !! l = Some (LeafNode ln) /\ 0 <= i < slice_len (l_values ln)).
Proof.
  eexists. split; [vm_compute; reflexivity|].
  apply (findLeafNode_returns_a_walk 2 (root tree_abcd) (key1 "b") [] None true
           heap_abcd _ heap_abcd).
  vm_compute; reflexivity.
Defined.

(** X19: on a leaf whose keys are strictly ascending, [indexOf] returns the
    number [n] of entries with a key below [key], which is the place of
    [key] in the order: every entry before [n] has a smaller key, every
    entry after [n] a larger one, and the entry at [n] has the same key
    when [found] is true and a larger one, or does not exist, when it is
    false. *)
Theorem leafNode_indexOf_finds_the_position l key h ln vs :
  h_nodes h !! l = Some (LeafNode ln) ->
  store_elems (h_leafValues h) (l_values ln) = Some (Some <$> vs) ->
  ascending vs ->
  exists (n : nat) found,
    leafNode_indexOf l key h = Val ((Z.of_nat n, found), h) /\
    (n <= length vs)%nat /\
    (forall j v, (j < n)%nat -> vs !! j = Some v -> key_lt (lv_key v) key) /\
    (forall j v, (n < j)%nat -> vs !! j = Some v -> key_lt key (lv_key v)) /\
    (found = true -> exists v, vs !! n = Some v /\ bytes_Equal (lv_key v) key = true) /\
    (found = false -> forall v, vs !! n = Some v -> key_lt key (lv_key v)).
Proof.
  intros Hl Hes Hasc.
  destruct (leafNode_indexOf_loop_sorted key vs 0 Hasc)
    as (n & found & Hloop & Hn & Hbefore & Hafter & Hfound).
  rewrite Z.add_0_l in Hloop.
  exists n, found. split.
  { rewrite (run_leafNode_indexOf _ _ _ _ _ Hl Hes). by apply run_lift. }
  split; [done|]. rewrite Forall_forall in Hbefore, Hafter. split.
  { intros j v Hj Hv. apply Hbefore. apply list_elem_of_lookup. exists j.
    by rewrite lookup_take_lt. }
  split.
  { intros j v Hj Hv. apply Hafter. apply list_elem_of_lookup.
    destruct found.
    - exists (j - S n)%nat. rewrite lookup_drop.
      by replace (S n + (j - S n))%nat with j by lia.
    - exists (j - n)%nat. rewrite lookup_drop.
      by replace (n + (j - n))%nat with j by lia. }
  split; [done|]. intros -> v Hv. apply Hafter. apply list_elem_of_lookup.
  exists 0%nat. rewrite lookup_drop. by rewrite Nat.add_0_r.
Qed.

Lemma leafNode_indexOf_finds_the_position_witness :
  exists (n : nat) found,
    leafNode_indexOf 4%nat (key1 "b") heap_abcd = Val ((Z.of_nat n, found), heap_abcd) /\
    (found = true ->
     exists v, [mkLeafValue (key1 "a") 1%N 0%N (key1 "1");
                mkLeafValue (key1 "b") 2%N 0%N (key1 "2");
                mkLeafValue (key1 "c") 3%N 0%N (key1 "3")] !! n = Some v /\
               bytes_Equal (lv_key v) (key1 "b") = true).
Proof.
  destruct (leafNode_indexOf_finds_the_position 4%nat (key1 "b") heap_abcd
              (mkLeafNode (Some 3%nat) (Slice 3 0 3 1) 3%N 54 64 0%N)
              [mkLeafValue (key1 "a") 1%N 0%N (key1 "1");
               mkLeafValue (key1 "b") 2%N 0%N (key1 "2");
               mkLeafValue (key1 "c") 3%N 0%N (key1 "3")])
    as (n & found & Hrun & _ & _ & _ & Hfound & _).
  - vm_compute; reflexivity.
  - vm_compute; reflexivity.
  - cbn [ascending]. repeat split; repeat constructor.
  - exists n, found. split; [exact Hrun|exact Hfound].
Defined.

(** X20: [indexOf] of an inner node returns the index of the first child
    reference whose key is at least [key], every reference before it having
    a smaller key; when every key is smaller it returns the last index,
    which is -1 on a node without references. *)
Theorem innerNode_indexOf_finds_the_child n key h nd (cs : list childRef) :
  h_nodes h !! n = Some (InnerNode nd) ->
  store_elems (h_childRefs h) (n_nodes nd) = Some (Some <$> cs) ->
  exists i,
    innerNode_indexOf n key h = Val (i, h) /\
    ((exists (m : nat) c,
        i = Z.of_nat m /\ cs !! m = Some c /\
        (bytes_Compare key (cr_key c) <? 1) = true /\
        forall j c', (j < m)%nat -> cs !! j = Some c' -> key_lt (cr_key c') key)
     \/
     (i = Z.of_nat (length cs) - 1 /\
      forall c', c' ∈ cs -> key_lt (cr_key c') key)).
Proof.
  intros Hn Hcs.
  destruct (innerNode_indexOf_loop_spec key cs (Z.of_nat (length cs)) 0)
    as (i & Hloop & Hspec).
  pose proof (store_elems_length _ _ _ Hcs) as Hlen. rewrite length_fmap in Hlen.
  exists i. split.
  { rewrite (run_innerNode_indexOf _ _ _ _ _ Hn Hcs).
    unfold slice_len. rewrite <- Hlen. by apply run_lift. }
  destruct Hspec as [(m & c & -> & Hc & Hle & Hbefore)|[-> Hall]].
  - left. exists m, c. split; [lia|]. split; [done|]. split; [done|].
    intros j c' Hj Hc'. rewrite Forall_forall in Hbefore. apply Hbefore.
    apply list_elem_of_lookup. exists j. by rewrite lookup_take_lt.
  - right. split; [done|]. by rewrite Forall_forall in Hall.
Qed.

Lemma innerNode_indexOf_finds_the_child_witness :
  exists i, innerNode_indexOf 6%nat (key1 "d") heap_abcd = Val (i, heap_abcd).
Proof.
  destruct (innerNode_indexOf_finds_the_child 6%nat (key1 "d") heap_abcd
              (mkInnerNode (Some 3%nat) (Slice 0 0 2 0) 4%N 2 64 0%N)
              [mkChildRef (key1 "c") 3%N (Some 4%nat);
               mkChildRef (key1 "d") 4%N (Some 5%nat)])
    as (i & Hrun & _).
  - vm_compute; reflexivity.
  - vm_compute; reflexivity.
  - exists i. exact Hrun.
Defined.

(** X21: [split] of an inner node.  When [csize] is within [maxSize] it
    returns no node and changes nothing.  Otherwise the split index is the
    smallest index whose key overflows (running length of the keys before
    it, plus its own length, over [maxSize]) when there is one, and the
    last index when there is none; the node keeps the references before the
    split index, a new node gets the references from it on, the [cts] of
    each side is the largest [cts] among its own references, and the two
    [csize] add up to the old one. *)
Theorem innerNode_split_halves n h nd (cs : list childRef) :
  h_nodes h !! n = Some (InnerNode nd) ->
  store_elems (h_childRefs h) (n_nodes nd) = Some (Some <$> cs) ->
  (n_csize nd <= n_maxSize nd -> innerNode_split n h = Val ((None, None), h)) /\
  (n_maxSize nd < n_csize nd ->
   exists (split_index : nat) split_size left right h',
     (forall j, (j < split_index)%nat -> ~ key_overflows cs (n_maxSize nd) j) /\
     (key_overflows cs (n_maxSize nd) split_index /\
      split_size = keys_upto cs split_index \/
      (forall j, ~ key_overflows cs (n_maxSize nd) j) /\
      split_index = (length cs - 1)%nat /\
      split_size = keys_upto cs (length cs)) /\
     innerNode_split n h = Val ((Some (length (h_nodes h)), None), h') /\
     h_nodes h' !! n
       = Some (InnerNode (mkInnerNode (n_prevNode nd) left (max_cts (take split_index cs))
                                      split_size (n_maxSize nd) (n_offset nd))) /\
     store_elems (h_childRefs h') left = Some (Some <$> take split_index cs) /\
     h_nodes h' !! length (h_nodes h)
       = Some (InnerNode (mkInnerNode None right (max_cts (drop split_index cs))
                                      (int_sub (n_csize nd) split_size)
                                      (n_maxSize nd) 0%N)) /\
     store_elems (h_childRefs h') right = Some (Some <$> drop split_index cs)).
Proof.
  intros Hn Hcs. split.
  - intros Hle. unfold innerNode_split.
    rewrite (run_bind _ _ _ _ _ (run_load_inner _ _ _ Hn)).
    by rewrite (proj2 (Z.leb_le _ _) Hle).
  - intros Hbig.
    destruct (innerNode_splitInfo_loop_all (n_maxSize nd) cs)
      as (si & ss & Hloop & Hsi & Hbefore & Hat).
    assert (n < length (h_nodes h))%nat as Hlt by (by eapply lookup_lt_Some).
    destruct (run_innerNode_split n h nd (Some <$> cs) (Z.of_nat si) ss
                (max_cts (take si cs)) (max_cts (drop si cs)) Hn Hcs Hbig Hloop)
      as (left & right & Hleft & Hright & Hrun).
    { rewrite length_fmap. lia. }
    { rewrite Nat2Z.id, <- fmap_take, innerNode_updateTs_loop_max. f_equal. lia. }
    { rewrite Nat2Z.id, <- fmap_drop, innerNode_updateTs_loop_max. f_equal. lia. }
    exists si, ss, left, right. eexists.
    split; [done|]. split; [done|]. split; [exact Hrun|].
    cbn [h_nodes h_childRefs].
    split; [rewrite lookup_app_l by (by rewrite length_insert);
            by apply list_lookup_insert_eq|].
    split.
    { pose proof (store_elems_length _ _ _ Hcs) as Hlen.
      rewrite length_fmap in Hlen.
      pose proof (store_elems_slice_to _ _ _ _ _ Hleft
                    ltac:(unfold slice_len; lia) Hcs) as H1.
      by rewrite Nat2Z.id, <- fmap_take in H1. }
    split; [apply list_lookup_middle; by rewrite length_insert|].
    pose proof (store_elems_slice_from _ _ _ _ _ Hright Hcs) as H2.
    by rewrite Nat2Z.id, <- fmap_drop in H2.
Qed.

Lemma innerNode_split_halves_witness :
  h_nodes heap_long !! 4%nat
    = Some (InnerNode (mkInnerNode (Some 1%nat) (Slice 0 0 2 0) 2%N 80 64 0%N)) /\
  store_elems (h_childRefs heap_long) (Slice 0 0 2 0)
    = Some (Some <$> [mkChildRef (long_key "a") 1%N (Some 2%nat);
                      mkChildRef (long_key "b") 2%N (Some 3%nat)]) /\
  exists h', innerNode_split 4 heap_long = Val ((Some 5%nat, None), h').
Proof.
  assert (h_nodes heap_long !! 4%nat
    = Some (InnerNode (mkInnerNode (Some 1%nat) (Slice 0 0 2 0) 2%N 80 64 0%N))) as Hn
    by (vm_compute; reflexivity).
  assert (store_elems (h_childRefs heap_long) (Slice 0 0 2 0)
    = Some (Some <$> [mkChildRef (long_key "a") 1%N (Some 2%nat);
                      mkChildRef (long_key "b") 2%N (Some 3%nat)])) as Hcs
    by (vm_compute; reflexivity).
  split; [exact Hn|]. split; [exact Hcs|].
  destruct (proj2 (innerNode_split_halves _ _ _ _ Hn Hcs) ltac:(simpl; lia))
    as (si & ss & left & right & h' & _ & _ & Hrun & _).
  exists h'. exact Hrun.
Defined.

(** X22: a reachable tree is balanced: all ways from the root down to a
    leaf pass the same number of inner nodes, the height of the tree; and a
    successful [Insert] leaves the height as it is or makes it one more. *)
Theorem tree_stays_balanced t h :
  reachable t h ->
  exists m,
    height m h (root t) /\
    (forall pa l, walk h (root t) pa l -> length pa = m) /\
    (forall fuel key value ts t' h',
       TBtree_Insert fuel t key value ts h = Val ((None, t'), h') ->
       height m h' (root t') \/ height (S m) h' (root t')).
Proof.
  intros Hreach. destruct (reachable_height _ _ Hreach) as [m Hm].
  destruct (reachable_holds _ _ Hreach) as [vs Hholds].
  exists m. split; [done|]. split.
  - intros pa l Hwalk. by eapply walk_height.
  - intros fuel key value ts t' h' Hins. by eapply TBtree_Insert_height.
Qed.

Lemma tree_stays_balanced_witness :
  exists m,
    height m heap_abcd (root tree_abcd) /\
    forall pa l, walk heap_abcd (root tree_abcd) pa l -> length pa = m.
Proof.
  destruct (tree_stays_balanced tree_abcd heap_abcd reachable_tree_abcd)
    as (m & Hm & Hwalk & _).
  exists m. by split.
Defined.

(** X23: the tree is a map from keys to the last value written.  After
    [NewWith] and any sequence of [Insert] calls, [get] of any key on the
    root returns the value and the [ts] of the last call that returned nil
    for that key (keys compared as [bytes.Equal] does), and
    [ErrKeyNotFound] with a nil value and [ts] 0 when there was no such
    call; [d] is the depth of the tree. *)
Theorem get_returns_the_last_insert opt h0 t0 h1 fuel ops es t h :
  NewWith opt h0 = Val ((Some t0, None), h1) ->
  Inserts fuel t0 ops h1 = Val ((es, t), h) ->
  exists d, forall gfuel key, (d < gfuel)%nat ->
    node_get gfuel (root t) key h = Val (get_of (last_insert key ops es None), h).
Proof.
  intros Hnew Hrun. apply NewWith_holds in Hnew.
  destruct (Inserts_holds_last _ _ _ _ _ _ _ _ Hnew Hrun) as (vs' & Hholds & Hfind).
  destruct (tree_holds_reads _ _ _ Hholds) as [d Hget]. exists d.
  intros gfuel key Hfuel. destruct (Hget gfuel key Hfuel) as [_ ->].
  rewrite <- Hfind. by destruct (find_key key vs').
Qed.

Lemma get_returns_the_last_insert_witness :
  exists d, forall gfuel, (d < gfuel)%nat ->
    node_get gfuel (root tree_abcda) (key1 "a") heap_abcda
    = Val ((key1 "5", 5%N, None), heap_abcda).
Proof.
  destruct (get_returns_the_last_insert opts64 empty_heap tree0 heap0 2
              (inserts_abc ++ inserts_da) [None; None; None; None; None]
              tree_abcda heap_abcda) as [d Hd].
  - vm_compute; reflexivity.
  - vm_compute; reflexivity.
  - exists d. intros gfuel Hfuel. rewrite (Hd gfuel (key1 "a") Hfuel).
    vm_compute; reflexivity.
Defined.

(** X24: [cts] is the largest timestamp below a node.  In every leaf of a
    reachable tree (the root or a node below it) [cts] is the largest [ts]
    among the entries of the leaf, 0 on an empty leaf; in every inner node
    [cts] is the largest [cts] among its child references, and the [cts]
    of each child reference is what [ts()] of the child returns. *)
Theorem cts_is_the_largest_ts_below t h :
  reachable t h ->
  (forall l ln,
     node_below h (root t) (Some l) -> h_nodes h !! l = Some (LeafNode ln) ->
     exists vs,
       store_elems (h_leafValues h) (l_values ln) = Some (Some <$> vs) /\
       l_cts ln = max_ts vs) /\
  (forall n nd,
     node_below h (root t) (Some n) -> h_nodes h !! n = Some (InnerNode nd) ->
     exists cs,
       store_elems (h_childRefs h) (n_nodes nd) = Some (Some <$> cs) /\
       n_cts nd = max_cts cs /\
       forall c, c ∈ cs -> node_ts (cr_node c) h = Val (cr_cts c, h)).
Proof.
  intros Hreach. destruct (reachable_stamped _ _ Hreach) as (d & t0 & Hst). split.
  - intros l ln Hbelow Hl.
    destruct (stamped_below _ _ _ Hbelow _ _ Hst) as (d' & t' & Hst').
    assert (leaf_stamped h (Some l) t') as (l' & ln' & vs & [= <-] & Hl' & Hes & Hcts & Hmax).
    { destruct d' as [|d']; [done|].
      destruct Hst' as [?|(n & nd & cs & [= <-] & Hnode & _)]; [done|congruence]. }
    assert (ln' = ln) as -> by congruence.
    exists vs. split; [done|]. congruence.
  - intros n nd Hbelow Hn.
    destruct (stamped_below _ _ _ Hbelow _ _ Hst) as (d' & t' & Hst').
    destruct d' as [|d'].
    { destruct Hst' as (l & ln & ? & [= <-] & Hl & _). congruence. }
    destruct Hst' as [(l & ln & ? & [= <-] & Hl & _)|
                      (n' & nd' & cs & [= <-] & Hnode' & Hcs & Hcts & Hmax & Hall)];
      [congruence|].
    assert (nd' = nd) as -> by congruence.
    exists cs. split; [done|]. split; [congruence|].
    intros c Hc. rewrite Forall_forall in Hall. eapply stamped_ts. by apply Hall.
Qed.

Lemma cts_is_the_largest_ts_below_witness :
  exists cs,
    store_elems (h_childRefs heap_abcd) (Slice 0 0 2 0) = Some (Some <$> cs) /\
    4%N = max_cts cs.
Proof.
  destruct (proj2 (cts_is_the_largest_ts_below tree_abcd heap_abcd reachable_tree_abcd)
              6%nat (mkInnerNode (Some 3%nat) (Slice 0 0 2 0) 4%N 2 64 0%N))
    as (cs & Hcs & Hmax & _).
  - apply node_below_refl.
  - vm_compute; reflexivity.
  - exists cs. split; [exact Hcs|exact Hmax].
Defined.
